(** * rdf-mcp / graframe: the query-graph builder, its SPARQL compiler and
      the concept matcher, embedded from [src/graframe/query_graph.py],
      [src/graframe/query.py] and [src/graframe/matcher.py].

    Python values are modelled as follows.
    - [int] is [Z]; [str] is [string], one [ascii] per character;
    - a [dict] is an association list in insertion order ([d[k] = v] on a
      key that is present keeps the key's position, as Python does);
    - [Optional[T]] is [option T]; a raised exception is [Raise e];
    - [float] is the binary64 type [PrimFloat.float]. *)

From Stdlib Require Import ZArith List String Ascii Bool Lia.
From Stdlib Require Import DecimalString Floats Uint63.
Import ListNotations.

Local Open Scope string_scope.
Local Open Scope list_scope.
Local Open Scope Z_scope.

(** ** Exceptions and results *)

Inductive exn : Type :=
| ValueError (msg : string)
| KeyError
| AttributeError (attr : string).

Inductive result (A : Type) : Type :=
| Ok (a : A)
| Raise (e : exn).

Arguments Ok {A} a.
Arguments Raise {A} e.

Definition bind {A B} (m : result A) (f : A -> result B) : result B :=
  match m with
  | Ok a => f a
  | Raise e => Raise e
  end.

Notation "x <- m ;; k" := (bind m (fun x => k))
  (at level 61, m at next level, right associativity).

Definition is_ok {A} (m : result A) : bool :=
  match m with Ok _ => true | Raise _ => false end.

(** ** Strings *)

Infix "+++" := String.append (at level 60, right associativity).

(** [str(n)] for an [int]. *)
Definition str_of_int (n : Z) : string := NilZero.string_of_int (Z.to_int n).

(** [str.isspace] on one character (code points below 256). *)
Definition isspace (c : ascii) : bool :=
  let n := nat_of_ascii c in
  ((9 <=? n) && (n <=? 13) || (28 <=? n) && (n <=? 32)
   || (n =? 133) || (n =? 160))%nat.

Fixpoint lstrip (s : string) : string :=
  match s with
  | String c r => if isspace c then lstrip r else s
  | EmptyString => EmptyString
  end.

Fixpoint rstrip (s : string) : string :=
  match s with
  | EmptyString => EmptyString
  | String c r =>
      match rstrip r with
      | EmptyString => if isspace c then EmptyString else String c EmptyString
      | r' => String c r'
      end
  end.

(** [s.strip()] *)
Definition strip (s : string) : string := rstrip (lstrip s).

(** [str.lower] on one character (code points below 256). *)
Definition lower_char (c : ascii) : ascii :=
  let n := nat_of_ascii c in
  if ((65 <=? n) && (n <=? 90)
      || (192 <=? n) && (n <=? 222) && negb (n =? 215))%nat
  then ascii_of_nat (n + 32) else c.

Fixpoint lower (s : string) : string :=
  match s with
  | EmptyString => EmptyString
  | String c r => String (lower_char c) (lower r)
  end.

(** [needle in s] *)
Fixpoint str_contains (needle s : string) : bool :=
  if String.prefix needle s then true
  else match s with
       | EmptyString => false
       | String _ r => str_contains needle r
       end.

(** [sep.join(l)] *)
Fixpoint join (sep : string) (l : list string) : string :=
  match l with
  | [] => ""
  | [x] => x
  | x :: r => x +++ sep +++ join sep r
  end.

(** Truthiness of a [str]. *)
Definition truthy (s : string) : bool :=
  match s with EmptyString => false | _ => true end.

Definition truthy_opt (s : option string) : bool :=
  match s with Some x => truthy x | None => false end.

(** ** Dictionaries *)

Section Dict.
Context {K V : Type} (eqb : K -> K -> bool).

Definition dict := list (K * V).

Fixpoint dict_get (d : dict) (k : K) : option V :=
  match d with
  | [] => None
  | (k', v) :: r => if eqb k k' then Some v else dict_get r k
  end.

(** [d[k] = v] *)
Fixpoint dict_set (d : dict) (k : K) (v : V) : dict :=
  match d with
  | [] => [(k, v)]
  | (k', v') :: r =>
      if eqb k k' then (k', v) :: r else (k', v') :: dict_set r k v
  end.

Definition dict_mem (d : dict) (k : K) : bool :=
  match dict_get d k with Some _ => true | None => false end.

Definition dict_keys (d : dict) : list K := map fst d.
Definition dict_values (d : dict) : list V := map snd d.

(** [d[k]], raising [KeyError] on a missing key. *)
Definition dict_at (d : dict) (k : K) : result V :=
  match dict_get d k with Some v => Ok v | None => Raise KeyError end.
End Dict.

Arguments dict K V : clear implicits.

(** [sorted(l)] on integers. *)
Fixpoint insert_sorted (x : Z) (l : list Z) : list Z :=
  match l with
  | [] => [x]
  | y :: r => if x <=? y then x :: l else y :: insert_sorted x r
  end.

Definition sorted (l : list Z) : list Z := fold_right insert_sorted [] l.

(** [set(l)] followed by [sorted]: the distinct members in ascending order. *)
Fixpoint dedup_Z (l : list Z) : list Z :=
  match l with
  | [] => []
  | x :: r => if existsb (Z.eqb x) r then dedup_Z r else x :: dedup_Z r
  end.

(** ** The query graph ([query_graph.py]) *)

(** Values of type [Any] that filters and constraints hold. *)
Inductive value : Type :=
| VNone
| VBool (b : bool)
| VInt (n : Z)
| VStr (s : string).

Record DataNodeInfo : Type := mkDataNodeInfo {
  node_id : Z;
  filters : dict string value
}.

Record QueryNode : Type := mkQueryNode {
  id : Z;
  rdf_class : option string;
  alias : option string;
  constraints : dict string value
}.

Record QueryEdge : Type := mkQueryEdge {
  source_id : Z;
  target_id : Z;
  hops : Z;
  predicates : option (list string)
}.

Record QueryGraph : Type := mkQueryGraph {
  nodes : dict Z QueryNode;
  edges : list QueryEdge;
  aliases : dict string Z;
  aliases_reverse : dict Z string;
  current_pointer : option Z;
  data_nodes : dict Z DataNodeInfo
}.

(** [QueryGraph()] *)
Definition empty_graph : QueryGraph := mkQueryGraph [] [] [] [] None [].

Definition with_data_node (self : QueryGraph) (info : DataNodeInfo) : QueryGraph :=
  let dn := dict_set Z.eqb (data_nodes self) (node_id info) info in
  mkQueryGraph (nodes self) (edges self) (aliases self) (aliases_reverse self)
    (current_pointer self) dn.

Definition with_node (self : QueryGraph) (node : QueryNode) : QueryGraph :=
  let nodes' := dict_set Z.eqb (nodes self) (id node) node in
  let name :=
    match alias node with
    | Some a => if truthy a then a else str_of_int (id node)
    | None => str_of_int (id node)
    end in
  mkQueryGraph nodes' (edges self)
    (dict_set String.eqb (aliases self) name (id node))
    (dict_set Z.eqb (aliases_reverse self) (id node) name)
    (Some (id node)) (data_nodes self).

Definition with_edge (self : QueryGraph) (edge : QueryEdge)
    (new_pointer : option Z) : QueryGraph :=
  mkQueryGraph (nodes self) (edges self ++ [edge]) (aliases self)
    (aliases_reverse self)
    (match new_pointer with Some p => Some p | None => current_pointer self end)
    (data_nodes self).

Definition resolve_alias (self : QueryGraph) (alias_or_none : option string)
    : option Z :=
  match alias_or_none with
  | None => current_pointer self
  | Some a => dict_get String.eqb (aliases self) a
  end.

(** ** The query builder ([query.py]) *)

Record Query : Type := mkQuery {
  query_graph : QueryGraph;
  _next_id : Z;
  cache : dict string value
}.

(** [Query(query_graph=g, _next_id=n)]: the cache is a new empty dict. *)
Definition Query_ (g : QueryGraph) (n : Z) : Query := mkQuery g n [].

(** [Query()] *)
Definition empty_query : Query := Query_ empty_graph 0.

(** [self.service]: the dataclass [Query] declares the fields [query_graph],
    [_next_id] and [cache] only, and defines no property, class attribute or
    [__getattr__]; reading any other attribute raises [AttributeError]. *)
Definition Query_service (self : Query) : result value :=
  Raise (AttributeError "service").

(** [_new_id]: the statement [self._next_id + 1] has no effect. *)
Definition _new_id (self : Query) : Z := _next_id self.

Definition _clone_with_graph (self : Query) (new_graph : QueryGraph)
    (bump_id : bool) : Query :=
  Query_ new_graph (_next_id self + (if bump_id then 1 else 0)).

Definition _add_data_node (self : Query) (g : QueryGraph) (src_id : option Z)
    (path : option string) (_class : option string) (alias : option string)
    (hops : Z) (filters_dict : option (dict string value))
    (force_one_hop : bool) : QueryGraph * Z :=
  let new_id := _new_id self in
  let node :=
    mkQueryNode new_id
      (if truthy_opt _class then _class else None)
      alias
      [("is_data_node", VBool true);
       ("path_from", match path with Some p => VStr p | None => VNone end)] in
  let g2 := with_node g node in
  let g2 :=
    match src_id with
    | Some src =>
        match path with
        | Some p =>
            if truthy p then
              with_edge g2 (mkQueryEdge src new_id 1 (Some [p])) (Some new_id)
            else
              let eff_hops := if force_one_hop then 1 else hops in
              with_edge g2 (mkQueryEdge src new_id eff_hops None) (Some new_id)
        | None =>
            let eff_hops := if force_one_hop then 1 else hops in
            with_edge g2 (mkQueryEdge src new_id eff_hops None) (Some new_id)
        end
    | None =>
        mkQueryGraph (nodes g2) (edges g2) (aliases g2) (aliases_reverse g2)
          (Some new_id) (data_nodes g2)
    end in
  let info :=
    mkDataNodeInfo new_id
      (match filters_dict with Some f => f | None => [] end) in
  (with_data_node g2 info, new_id).

(** [isinstance(x, str) and x.strip().lower() in {"*", "all"}] *)
Definition is_all (x : option string) : bool :=
  match x with
  | Some s =>
      let t := lower (strip s) in
      String.eqb t "*" || String.eqb t "all"
  | None => false
  end.

Definition _select_data_node_ids (self : Query) (_from : option string)
    : result (list Z) :=
  let g := query_graph self in
  match data_nodes g with
  | [] => Raise (ValueError "No data nodes exist in the query graph to filter")
  | _ =>
    if is_all _from then Ok (sorted (dict_keys (data_nodes g)))
    else
      match _from with
      | None =>
          match current_pointer g with
          | Some pid =>
              if dict_mem Z.eqb (data_nodes g) pid then Ok [pid]
              else Ok (sorted (dict_keys (data_nodes g)))
          | None => Ok (sorted (dict_keys (data_nodes g)))
          end
      | Some _ =>
          match resolve_alias g _from with
          | None => Raise (ValueError "filter: _from alias not found")
          | Some rid =>
              if dict_mem Z.eqb (data_nodes g) rid then Ok [rid]
              else
                let attached :=
                  map target_id
                    (filter (fun e => (source_id e =? rid)
                                      && dict_mem Z.eqb (data_nodes g) (target_id e))
                            (edges g)) in
                Ok (sorted (dedup_Z attached))
          end
      end
  end.

Definition find_entity (self : Query) (_class : string)
    (alias : option string) : Query :=
  let node_id := _new_id self in
  let node := mkQueryNode node_id (Some _class) alias [] in
  let new_graph := with_node (query_graph self) node in
  _clone_with_graph self new_graph true.

Definition find_related (self : Query) (_class : string)
    (alias : option string) (_from : option string) (hops : Z)
    (predicates : option (list string)) (multi_hop_predicates : bool)
    : result Query :=
  match resolve_alias (query_graph self) _from with
  | None =>
      Raise (ValueError
        "find_related: no source node to relate from (pointer is None and _from not set)")
  | Some src_id =>
      let new_id := _new_id self in
      let new_node := mkQueryNode new_id (Some _class) alias [] in
      let g := with_node (query_graph self) new_node in
      let given := match predicates with Some (_ :: _) => true | _ => false end in
      let edge :=
        if given && multi_hop_predicates then
          mkQueryEdge src_id new_id hops predicates
        else if given && negb multi_hop_predicates then
          mkQueryEdge src_id new_id 1 predicates
        else
          mkQueryEdge src_id new_id hops None in
      let g2 := with_edge g edge (Some new_id) in
      Ok (_clone_with_graph self g2 true)
  end.

(** [max(keys, default=-1)] *)
Definition max_key (keys : list Z) : Z :=
  match keys with
  | [] => -1
  | k :: r => fold_left Z.max r k
  end.

(** The first loop of [relate_to]: every node of [other] is entered in
    [other_mapping] and stored in [merged_nodes] under its new id. *)
Fixpoint merge_nodes (max_id_self : Z) (l : dict Z QueryNode)
    (other_mapping : dict Z Z) (merged_nodes : dict Z QueryNode)
    : dict Z Z * dict Z QueryNode :=
  match l with
  | [] => (other_mapping, merged_nodes)
  | (nid, node) :: r =>
      let other_mapping := dict_set Z.eqb other_mapping nid (max_id_self + 1 + nid) in
      let merged_nodes := dict_set Z.eqb merged_nodes (max_id_self + 1 + nid) node in
      merge_nodes max_id_self r other_mapping merged_nodes
  end.

(** The second loop: the edges of [other], remapped, are appended. *)
Fixpoint merge_edges (other_mapping : dict Z Z) (l : list QueryEdge)
    (merged_edges : list QueryEdge) : result (list QueryEdge) :=
  match l with
  | [] => Ok merged_edges
  | edge :: r =>
      s <- dict_at Z.eqb other_mapping (source_id edge) ;;
      t <- dict_at Z.eqb other_mapping (target_id edge) ;;
      merge_edges other_mapping r
        (merged_edges ++ [mkQueryEdge s t (hops edge) (predicates edge)])
  end.

(** [{v: k for k, v in d.items()}] *)
Definition invert_aliases (d : dict string Z) : dict Z string :=
  fold_left (fun acc kv => dict_set Z.eqb acc (snd kv) (fst kv)) d [].

(** The third loop: the aliases of [other] overwrite those of [self]; the
    reverse table is rebuilt from the merged aliases at every step. *)
Fixpoint merge_aliases (other_mapping : dict Z Z) (l : dict string Z)
    (merged_aliases : dict string Z) (merged_aliases_reverse : dict Z string)
    : result (dict string Z * dict Z string) :=
  match l with
  | [] => Ok (merged_aliases, merged_aliases_reverse)
  | (alias_name, nid) :: r =>
      m <- dict_at Z.eqb other_mapping nid ;;
      let merged_aliases := dict_set String.eqb merged_aliases alias_name m in
      merge_aliases other_mapping r merged_aliases (invert_aliases merged_aliases)
  end.

Definition relate_to (self other : Query) (_from _to : option string)
    (hops : Z) (predicates : option (list string)) : result Query :=
  let src :=
    match _from with
    | None => current_pointer (query_graph self)
    | Some _ => resolve_alias (query_graph self) _from
    end in
  match src with
  | None => Raise (ValueError "relate_to: current query has no pointer")
  | Some src_id =>
    let tgt :=
      match _to with
      | None => current_pointer (query_graph other)
      | Some _ => resolve_alias (query_graph other) _to
      end in
    match tgt with
    | None => Raise (ValueError "relate_to: other query has no pointer")
    | Some tgt_id =>
      let max_id_self := max_key (dict_keys (nodes (query_graph self))) in
      let '(other_mapping, merged_nodes) :=
        merge_nodes max_id_self (nodes (query_graph other)) []
          (nodes (query_graph self)) in
      merged_edges <- merge_edges other_mapping (edges (query_graph other))
                        (edges (query_graph self)) ;;
      al <- merge_aliases other_mapping (aliases (query_graph other))
              (aliases (query_graph self)) (aliases_reverse (query_graph self)) ;;
      let merged_graph :=
        mkQueryGraph merged_nodes merged_edges (fst al) (snd al) (Some src_id) [] in
      new_tgt <- dict_at Z.eqb other_mapping tgt_id ;;
      let edge := mkQueryEdge src_id new_tgt hops predicates in
      let merged_graph := with_edge merged_graph edge (Some new_tgt) in
      Ok (Query_ merged_graph (Z.max (_next_id self) (_next_id other)))
    end
  end.

(** The loop of [find_data] over [enumerate(src_ids)].  [g] is the graph of
    the query the operation was called on; [self] is rebound at the end of
    every iteration. *)
Fixpoint find_data_loop (g : QueryGraph) (n_src : Z) (path _class alias : option string)
    (hops : Z) (filters_dict : option (dict string value))
    (l : list Z) (i : Z) (self : Query) (last_graph : QueryGraph) (created : Z)
    : result (Query * QueryGraph * Z) :=
  match l with
  | [] => Ok (self, last_graph, created)
  | src_id :: r =>
      let src_alias :=
        match dict_get Z.eqb (aliases_reverse g) src_id with
        | Some a => a
        | None => str_of_int src_id
        end in
      let a :=
        match alias with
        | None => src_alias +++ "_data"
        | Some a0 =>
            if 1 <? n_src then (if i =? 0 then a0 else a0 +++ "_" +++ str_of_int i)
            else a0
        end in
      let last_graph :=
        fst (_add_data_node self last_graph (Some src_id) path _class (Some a)
               hops filters_dict true) in
      let created := created + 1 in
      _ <- Query_service self ;;
      let self := Query_ last_graph (_next_id self + created) in
      find_data_loop g n_src path _class alias hops filters_dict r (i + 1)
        self last_graph created
  end.

Definition find_data (self : Query) (_from path _class : option string)
    (hops : Z) (filters_dict : option (dict string value))
    (alias : option string) : result Query :=
  let g := query_graph self in
  src_ids <-
    (if is_all _from then
       match nodes g with
       | [] => Raise (ValueError
                 "find_data(from='*'): query graph has no nodes to expand from")
       | _ => Ok (sorted (dict_keys (nodes g)))
       end
     else
       match resolve_alias g _from with
       | None => Raise (ValueError
                   "find_data: no source node (set _from or ensure pointer is set)")
       | Some src_id => Ok [src_id]
       end) ;;
  st <- find_data_loop g (Z.of_nat (List.length src_ids)) path _class alias hops
          filters_dict src_ids 0 self g 0 ;;
  let '(self, last_graph, created) := st in
  _ <- Query_service self ;;
  Ok (Query_ last_graph (_next_id self + created)).

Definition find_all_data (self : Query) (_class : option string) (hops : Z)
    (filters_dict : option (dict string value)) (alias : option string)
    : result Query :=
  let g := query_graph self in
  match nodes g with
  | [] =>
      let g2 := fst (_add_data_node self g None None _class alias hops
                       filters_dict false) in
      Ok (_clone_with_graph self g2 true)
  | _ => find_data self (Some "*") None _class hops filters_dict alias
  end.

(** The loop of [filter_data_nodes] over the selected targets. *)
Fixpoint set_filters (predicate : string) (v : value) (targets : list Z)
    (dn2 : dict Z DataNodeInfo) : result (dict Z DataNodeInfo) :=
  match targets with
  | [] => Ok dn2
  | nid :: r =>
      info <- dict_at Z.eqb dn2 nid ;;
      let new_filters := dict_set String.eqb (filters info) predicate v in
      set_filters predicate v r
        (dict_set Z.eqb dn2 nid (mkDataNodeInfo (node_id info) new_filters))
  end.

Definition filter_data_nodes (self : Query) (predicate : string) (v : value)
    (_from : option string) : result Query :=
  let g := query_graph self in
  targets <- _select_data_node_ids self _from ;;
  match targets with
  | [] => Raise (ValueError "filter_data_nodes: no target data nodes selected")
  | _ =>
      dn2 <- set_filters predicate v targets (data_nodes g) ;;
      let g2 := mkQueryGraph (nodes g) (edges g) (aliases g) (aliases_reverse g)
                  (current_pointer g) dn2 in
      Ok (_clone_with_graph self g2 false)
  end.

(** *** [to_dict] *)

Record NodeDict : Type := mkNodeDict {
  nd_id : Z;
  nd_rdf_class : option string;
  nd_alias : option string;
  nd_constraints : dict string value
}.

Record EdgeDict : Type := mkEdgeDict {
  ed_source_id : Z;
  ed_target_id : Z;
  ed_hops : Z;
  ed_predicates : option (list string)
}.

Record DataDict : Type := mkDataDict {
  dd_id : Z;
  dd_alias : string;
  dd_filters : dict string value
}.

Record Snapshot : Type := mkSnapshot {
  snap_nodes : list NodeDict;
  snap_edges : list EdgeDict;
  snap_aliases : dict string Z;
  snap_aliases_reverse : dict Z string;
  snap_current_pointer : option Z;
  snap_data_nodes : list DataDict
}.

Definition to_dict (self : Query) : Snapshot :=
  let g := query_graph self in
  mkSnapshot
    (map (fun n => mkNodeDict (id n) (rdf_class n) (alias n) (constraints n))
         (dict_values (nodes g)))
    (map (fun e => mkEdgeDict (source_id e) (target_id e) (hops e)
                     (match predicates e with
                      | Some (p :: r) => Some (p :: r)
                      | _ => None
                      end))
         (edges g))
    (aliases g)
    (aliases_reverse g)
    (current_pointer g)
    (map (fun kv =>
            mkDataDict (fst kv)
              (match dict_get Z.eqb (aliases_reverse g) (fst kv) with
               | Some a => a
               | None => "v" +++ str_of_int (fst kv)
               end)
              (filters (snd kv)))
         (data_nodes g)).

(** *** SPARQL compilation *)

Definition HAS_EXTERNAL_REFERENCE : string :=
  "https://brickschema.org/schema/Brick/ref#hasExternalReference".

(** [range(a, b)] *)
Definition range (a b : Z) : list Z :=
  map (fun i => a + Z.of_nat i) (seq 0 (Z.to_nat (b - a))).

(** The [seen]/[uniq] loop: first occurrences, in order. *)
Fixpoint uniq_loop (seen : list string) (preds : list string) : list string :=
  match preds with
  | [] => []
  | p :: r =>
      if existsb (String.eqb p) seen then uniq_loop seen r
      else p :: uniq_loop (p :: seen) r
  end.

(** The body of [for k in range(1, hops+1)] for one predicate [p]. *)
Definition alt_step (hops : Z) (p : string) (alt : string) (k : Z) : string :=
  let add := repeat ("<" +++ p +++ ">") (Z.to_nat k) in
  let alt := alt +++ join "/" add in
  if k <? hops then alt +++ "|" else alt.

(** The nested loops that build [alt] when [hops <> 1]. *)
Definition alt_loop (hops : Z) (uniq : list string) : string :=
  fold_left (fun alt p => fold_left (alt_step hops p) (range 1 (hops + 1)) alt)
    uniq "".

(** The loop [for step in range(k)] of the unconstrained case. *)
Fixpoint chain_loop (k : Z) (mids ps : list string) (tgt_var : string)
    (steps : list Z) (prev : string) : list string :=
  match steps with
  | [] => []
  | step :: r =>
      let pvar := nth (Z.to_nat step) ps "" in
      let obj := if step =? k - 1 then tgt_var else nth (Z.to_nat step) mids "" in
      (prev +++ " " +++ pvar +++ " " +++ obj +++ " .")
        :: chain_loop k mids ps tgt_var r obj
  end.

Definition union_block (src_var tgt_var : string) (edge_idx k : Z) : string :=
  let mids := map (fun i => "?x_e" +++ str_of_int edge_idx +++ "_" +++ str_of_int i)
                  (range 1 k) in
  let ps := map (fun i => "?p_e" +++ str_of_int edge_idx +++ "_" +++ str_of_int i)
                (range 1 (k + 1)) in
  "{ " +++ join " " (chain_loop k mids ps tgt_var (range 0 k) src_var) +++ " }".

Definition _edge_pattern (src_var tgt_var : string) (edge : QueryEdge)
    (edge_idx : Z) : result string :=
  let hops := hops edge in
  if hops <? 1 then
    Raise (ValueError ("edge.hops must be >= 1, got " +++ str_of_int hops))
  else
    let preds := match predicates edge with Some l => l | None => [] end in
    let preds := filter truthy preds in
    match preds with
    | _ :: _ =>
        let uniq := uniq_loop [] preds in
        let path :=
          if hops =? 1 then
            "(" +++ join "|" (map (fun p => "<" +++ p +++ ">") uniq) +++ ")"
          else
            "(" +++ alt_loop hops uniq +++ ")" in
        Ok (src_var +++ " " +++ path +++ " " +++ tgt_var +++ " .")
    | [] =>
        Ok (join " UNION "
              (map (union_block src_var tgt_var edge_idx) (range 1 (hops + 1))))
    end.

(** [str(val)] inside an f-string. *)
Definition str_of_value (v : value) : string :=
  match v with
  | VNone => "None"
  | VBool true => "True"
  | VBool false => "False"
  | VInt n => str_of_int n
  | VStr s => s
  end.

Definition looks_like_uri (v : value) : bool :=
  match v with
  | VStr s => str_contains "://" s || String.prefix "urn:" s
  | _ => false
  end.

Definition dq : string := String (ascii_of_nat 34) "".

Definition filter_clauses (v : string) (fs : dict string value) : list string :=
  flat_map (fun pv =>
    match snd pv with
    | VNone => []
    | val =>
        if looks_like_uri val then
          [v +++ " <" +++ fst pv +++ "> <" +++ str_of_value val +++ "> ."]
        else
          [v +++ " <" +++ fst pv +++ "> " +++ dq +++ str_of_value val +++ dq +++ " ."]
    end) fs.

Fixpoint edge_clauses (var_map : dict Z string) (l : list QueryEdge)
    (edge_idx : Z) : result (list string) :=
  match l with
  | [] => Ok []
  | edge :: r =>
      src_var <- dict_at Z.eqb var_map (source_id edge) ;;
      tgt_var <- dict_at Z.eqb var_map (target_id edge) ;;
      c <- _edge_pattern src_var tgt_var edge edge_idx ;;
      cs <- edge_clauses var_map r (edge_idx + 1) ;;
      Ok (c :: cs)
  end.

Fixpoint data_clauses (var_map : dict Z string) (l : dict Z DataNodeInfo)
    : result (list string) :=
  match l with
  | [] => Ok []
  | (nid, info) :: r =>
      v <- dict_at Z.eqb var_map nid ;;
      let ext := "?ext" +++ str_of_int nid in
      cs <- data_clauses var_map r ;;
      Ok ((v +++ " <" +++ HAS_EXTERNAL_REFERENCE +++ "> " +++ ext +++ " .")
            :: filter_clauses v (filters info) ++ cs)
  end.

Definition nl : string := String (ascii_of_nat 10) "".

Definition to_sparql (self : Query) : result string :=
  let g := query_graph self in
  let var_map : dict Z string :=
    fold_left (fun m nid => dict_set Z.eqb m nid ("?v" +++ str_of_int nid))
      (dict_keys (nodes g)) [] in
  types <- (fix type_clauses (l : dict Z QueryNode) : result (list string) :=
              match l with
              | [] => Ok []
              | (nid, node) :: r =>
                  v <- dict_at Z.eqb var_map nid ;;
                  cs <- type_clauses r ;;
                  match rdf_class node with
                  | Some c => if truthy c then Ok ((v +++ " a <" +++ c +++ "> .") :: cs)
                              else Ok cs
                  | None => Ok cs
                  end
              end) (nodes g) ;;
  es <- edge_clauses var_map (edges g) 0 ;;
  ds <- data_clauses var_map (data_nodes g) ;;
  let where_clauses := types ++ es ++ ds in
  let select_vars := join " " (dict_values var_map) in
  let where_block := join (nl +++ "  ") where_clauses in
  Ok ("SELECT DISTINCT " +++ select_vars +++ nl +++ "WHERE {" +++ nl +++ "  "
        +++ where_block +++ nl +++ "}").

(** ** Properties of query graphs *)

(** The queries a caller can obtain: [Query()] followed by any sequence of
    successful public builder operations. *)
Inductive reachable : Query -> Prop :=
| reach_new : reachable empty_query
| reach_find_entity q c a :
    reachable q -> reachable (find_entity q c a)
| reach_find_related q c a f h ps m q' :
    reachable q -> find_related q c a f h ps m = Ok q' -> reachable q'
| reach_relate_to q o f t h ps q' :
    reachable q -> reachable o -> relate_to q o f t h ps = Ok q' -> reachable q'
| reach_find_data q f p c h fs a q' :
    reachable q -> find_data q f p c h fs a = Ok q' -> reachable q'
| reach_find_all_data q c h fs a q' :
    reachable q -> find_all_data q c h fs a = Ok q' -> reachable q'
| reach_filter_data_nodes q p v f q' :
    reachable q -> filter_data_nodes q p v f = Ok q' -> reachable q'.

(** [constraints["is_data_node"]] is true. *)
Definition is_data_node (n : QueryNode) : bool :=
  match dict_get String.eqb (constraints n) "is_data_node" with
  | Some (VBool true) => true
  | _ => false
  end.

(** Every edge joins two ids that are keys of [nodes]. *)
Definition edges_closed (g : QueryGraph) : Prop :=
  forall e, In e (edges g) ->
    dict_mem Z.eqb (nodes g) (source_id e) = true /\
    dict_mem Z.eqb (nodes g) (target_id e) = true.

(** Every id of [data_nodes] names a node marked [is_data_node]. *)
Definition data_nodes_marked (g : QueryGraph) : Prop :=
  forall nid, dict_mem Z.eqb (data_nodes g) nid = true ->
    exists n, dict_get Z.eqb (nodes g) nid = Some n /\ is_data_node n = true.

(** Every node marked [is_data_node] is registered in [data_nodes]. *)
Definition marked_nodes_registered (g : QueryGraph) : Prop :=
  forall nid n, dict_get Z.eqb (nodes g) nid = Some n -> is_data_node n = true ->
    dict_mem Z.eqb (data_nodes g) nid = true.

(** The alternation group the specification describes for a constrained
    edge of more than one hop: for every distinct predicate and every length
    [k] from 1 to [hops], the predicate repeated [k] times and chained. *)
Definition alternation_spec (hops : Z) (uniq : list string) : string :=
  join "|"
    (flat_map (fun p =>
       map (fun k => join "/" (repeat ("<" +++ p +++ ">") (Z.to_nat k)))
           (range 1 (hops + 1)))
     uniq).

(** Sample queries used below. *)
Definition valve_query : Query := find_entity empty_query "Valve" (Some "valve").
Definition pump_query : Query := find_entity empty_query "Pump" (Some "pump").

(** [Query().find_all_data(alias="d")]: one standalone data node. *)
Definition data_query : Query :=
  _clone_with_graph empty_query
    (fst (_add_data_node empty_query empty_graph None None None (Some "d") 3 None false))
    true.

(** The filter map registered for data node [nid]. *)
Definition filters_of (g : QueryGraph) (nid : Z) : option (dict string value) :=
  option_map filters (dict_get Z.eqb (data_nodes g) nid).



(** Every alias names a node, and so does the pointer. *)
Definition aliases_closed (g : QueryGraph) : Prop :=
  forall a nid, dict_get String.eqb (aliases g) a = Some nid ->
    dict_mem Z.eqb (nodes g) nid = true.

Definition pointer_closed (g : QueryGraph) : Prop :=
  forall p, current_pointer g = Some p -> dict_mem Z.eqb (nodes g) p = true.

(** While data nodes are registered, ids are allocated in order. *)
Definition ids_below_next (q : Query) : Prop :=
  forall nid, dict_mem Z.eqb (nodes (query_graph q)) nid = true -> nid < _next_id q.

Record well_formed (q : Query) : Prop := mk_well_formed {
  wf_edges : edges_closed (query_graph q);
  wf_aliases : aliases_closed (query_graph q);
  wf_pointer : pointer_closed (query_graph q);
  wf_data : data_nodes (query_graph q) = []
            \/ (ids_below_next q /\ data_nodes_marked (query_graph q))
}.


(** ** The concept matcher ([matcher.py]) *)

(** *** Character classes of the regular expressions *)

Definition in_range (lo hi : nat) (c : ascii) : bool :=
  ((lo <=? nat_of_ascii c) && (nat_of_ascii c <=? hi))%nat.

(** [[A-Z]] *)
Definition is_upper (c : ascii) : bool := in_range 65 90 c.

(** [[a-z0-9]] *)
Definition is_lower_digit (c : ascii) : bool := in_range 97 122 c || in_range 48 57 c.

(** [[A-Za-z0-9]] *)
Definition is_word (c : ascii) : bool := is_upper c || is_lower_digit c.

(** The maximal runs of characters that satisfy [keep]; [cur] is the run
    being read. *)
Fixpoint runs_from (keep : ascii -> bool) (s : string) (cur : string) : list string :=
  match s with
  | EmptyString => if truthy cur then [cur] else []
  | String c r =>
      if keep c then runs_from keep r (cur +++ String c "")
      else (if truthy cur then [cur] else []) ++ runs_from keep r ""
  end.

(** [_WORD_RE.findall(s)] *)
Definition findall_words (s : string) : list string := runs_from is_word s "".

(** [s.split()] *)
Definition split (s : string) : list string :=
  runs_from (fun c => negb (isspace c)) s "".

(** [_CAMEL_SPLIT_RE.sub(" ", s)]: a space is put at every position that
    follows a character of [[a-z0-9]] and precedes one of [[A-Z]]. *)
Fixpoint camel_split (s : string) : string :=
  match s with
  | EmptyString => EmptyString
  | String c r =>
      String c
        (match r with
         | String d _ =>
             if is_lower_digit c && is_upper d then String " " (camel_split r)
             else camel_split r
         | EmptyString => EmptyString
         end)
  end.

(** [s.replace(old, " ")] for a one-character [old]. *)
Fixpoint replace_char (old : ascii) (s : string) : string :=
  match s with
  | EmptyString => EmptyString
  | String c r =>
      String (if Ascii.eqb c old then " "%char else c) (replace_char old r)
  end.

Fixpoint filter_string (keep : ascii -> bool) (s : string) : string :=
  match s with
  | EmptyString => EmptyString
  | String c r =>
      if keep c then String c (filter_string keep r) else filter_string keep r
  end.

(** The functions of the standard module [unicodedata] that the matcher
    calls; they are not part of the repository. *)
Record unicodedata : Type := mk_unicodedata {
  normalize_NFKC : string -> string;
  normalize_NFKD : string -> string;
  (** [unicodedata.combining(c)] is not zero *)
  combining : ascii -> bool
}.

(** [float(n)] for an [int] below [2^63] in absolute value. *)
Definition float_of_int (n : Z) : float :=
  if n <? 0 then PrimFloat.opp (PrimFloat.of_uint63 (Uint63.of_Z (- n)))
  else PrimFloat.of_uint63 (Uint63.of_Z n).

(** [len(l)] *)
Definition len {A} (l : list A) : Z := Z.of_nat (List.length l).

Section Matcher.

Variable ud : unicodedata.

(** [SequenceMatcher(None, a, b).ratio()] of the standard module [difflib]. *)
Variable SequenceMatcher_ratio : string -> string -> float.

Definition _strip_diacritics (s : string) : string :=
  filter_string (fun c => negb (combining ud c)) (normalize_NFKD ud s).

Definition _split_identifier (s : string) : string :=
  let s := camel_split s in
  replace_char "-" (replace_char "_" s).

Definition normalize_text (s : string) : string :=
  let s := strip s in
  let s := normalize_NFKC ud s in
  let s := _strip_diacritics s in
  let s := _split_identifier s in
  let s := lower s in
  let tokens := findall_words s in
  join " " tokens.

(** [t[:-1]] *)
Fixpoint drop_last (t : string) : string :=
  match t with
  | EmptyString => EmptyString
  | String c EmptyString => EmptyString
  | String c r => String c (drop_last r)
  end.

(** [t.endswith("s")] *)
Fixpoint ends_with_s (t : string) : bool :=
  match t with
  | EmptyString => false
  | String c EmptyString => Ascii.eqb c "s"
  | String _ r => ends_with_s r
  end.

Definition tokenize (s : string) : list string :=
  let s2 := normalize_text s in
  if truthy s2 then
    map (fun t => if (3 <? Z.of_nat (String.length t)) && ends_with_s t
                  then drop_last t else t)
        (split s2)
  else [].

(** [set(l)]: the distinct members. *)
Definition distinct (l : list string) : list string := uniq_loop [] l.

Definition jaccard (a b : list string) : float :=
  let sa := distinct a in
  let sb := distinct b in
  match sa, sb with
  | [], [] => 1.0%float
  | [], _ | _, [] => 0.0%float
  | _, _ =>
      let inter := filter (fun x => existsb (String.eqb x) sb) sa in
      let union := distinct (sa ++ sb) in
      (float_of_int (len inter) / float_of_int (len union))%float
  end.

Definition seq_ratio (a b : string) : float :=
  match a, b with
  | EmptyString, EmptyString => 1.0%float
  | EmptyString, _ | _, EmptyString => 0.0%float
  | _, _ => SequenceMatcher_ratio a b
  end.

(** *** Damerau-Levenshtein distance *)

Definition char_at (s : list ascii) (i : nat) : ascii := nth i s Ascii.zero.

(** [d[i][j]] for [j >= 1], from the two rows above ([prev2] is [d[i-2]],
    [prev] is [d[i-1]]) and the part of row [i] already filled in. *)
Definition dl_cell (a b : list ascii) (prev2 prev row : list Z) (i j : nat) : Z :=
  let ai := char_at a (i - 1) in
  let bj := char_at b (j - 1) in
  let cost := if Ascii.eqb ai bj then 0 else 1 in
  let v := Z.min (Z.min (nth j prev 0 + 1) (nth (j - 1) row 0 + 1))
                 (nth (j - 1) prev 0 + cost) in
  if (1 <? i)%nat && (1 <? j)%nat && Ascii.eqb ai (char_at b (j - 2))
     && Ascii.eqb (char_at a (i - 2)) bj
  then Z.min v (nth (j - 2) prev2 0 + 1)
  else v.

(** Row [i] of the table: [d[i][0] = i], then the cells for [j] from 1 to
    [lb]. *)
Definition dl_row (a b : list ascii) (prev2 prev : list Z) (i : nat) : list Z :=
  fold_left (fun row j => row ++ [dl_cell a b prev2 prev row i j])
    (seq 1 (List.length b)) [Z.of_nat i].

(** [min(row)] *)
Definition list_min (row : list Z) : Z :=
  match row with
  | [] => 0
  | x :: r => fold_left Z.min r x
  end.

(** The loop over [i]; [is] holds the values of [i] still to do. *)
Fixpoint dl_rows (a b : list ascii) (max_dist : option Z) (rows : list nat)
    (prev2 prev : list Z) : Z :=
  match rows with
  | [] => nth (List.length b) prev 0
  | i :: r =>
      let row := dl_row a b prev2 prev i in
      match max_dist with
      | Some m =>
          if m <? list_min row then m + 1 else dl_rows a b max_dist r prev row
      | None => dl_rows a b max_dist r prev row
      end
  end.

Definition damerau_levenshtein (a b : string) (max_dist : option Z) : Z :=
  if String.eqb a b then 0
  else
    let la := len (list_ascii_of_string a) in
    let lb := len (list_ascii_of_string b) in
    if la =? 0 then lb
    else if lb =? 0 then la
    else
      let table :=
        dl_rows (list_ascii_of_string a) (list_ascii_of_string b) max_dist
          (seq 1 (Z.to_nat la)) (repeat 0 (S (Z.to_nat lb)))
          (map Z.of_nat (seq 0 (S (Z.to_nat lb)))) in
      match max_dist with
      | Some m => if m <? Z.abs (la - lb) then m + 1 else table
      | None => table
      end.

(** ["".join(t[0] for t in tokens if t)] *)
Definition initialism (tokens : list string) : string :=
  fold_right (fun t acc =>
                match t with
                | String c _ => String c acc
                | EmptyString => acc
                end) "" tokens.

(** *** The matcher *)

Record MatchResult : Type := mkMatchResult {
  uri : string;
  kind : string;
  label : string;
  score : float;
  reason : string;
  matched_surface : string
}.

(** One concept of the lexicon; [meta.get(k)] is [None] for a missing key. *)
Record ConceptMeta : Type := mkConceptMeta {
  meta_kind : option string;
  meta_label : option string;
  meta_surfaces : option (list string)
}.

Record Lexicon : Type := mkLexicon {
  lex_abbrev : dict string (list string);
  lex_concepts : dict string ConceptMeta
}.

(** An entry of [_compiled]: [(uri, kind, label, surf, toks, ns)]. *)
Record Compiled : Type := mkCompiled {
  c_uri : string;
  c_kind : string;
  c_label : string;
  c_surf : string;
  c_toks : list string;
  c_norm : string
}.

Record ConceptMatcher : Type := mkConceptMatcher {
  lexicon : Lexicon;
  _compiled : list Compiled;
  _abbrev : dict string (list string)
}.

(** [x or default] on an optional string. *)
Definition or_default (x : option string) (default : string) : string :=
  match x with
  | Some s => if truthy s then s else default
  | None => default
  end.

(** The entries [__init__] appends for one concept. *)
Definition compile_concept (uri : string) (meta : ConceptMeta) : list Compiled :=
  let kind := or_default (meta_kind meta) "other" in
  let label := or_default (meta_label meta) uri in
  let surfaces := match meta_surfaces meta with Some l => l | None => [] end in
  let surfaces2 := distinct (label :: surfaces) in
  map (fun surf =>
         mkCompiled uri kind label surf (tokenize surf) (normalize_text surf))
      surfaces2.

(** [ConceptMatcher(lexicon)] *)
Definition ConceptMatcher_init (lexicon : Lexicon) : ConceptMatcher :=
  mkConceptMatcher lexicon
    (flat_map (fun um => compile_concept (fst um) (snd um)) (lex_concepts lexicon))
    (fold_left (fun d kv =>
                  dict_set String.eqb d (normalize_text (fst kv))
                    (map normalize_text (snd kv)))
               (lex_abbrev lexicon) []).

Definition expand_abbrev (self : ConceptMatcher) (query : string) : list string :=
  let qn := normalize_text query in
  if truthy qn then
    match dict_get String.eqb (_abbrev self) qn with
    | Some l => l
    | None => []
    end
  else [].

(** Keys [(uri, kind)] of [scored]. *)
Definition key_eqb (a b : string * string) : bool :=
  String.eqb (fst a) (fst b) && String.eqb (snd a) (snd b).

(** [restrict_kinds and kind not in restrict_kinds] *)
Definition kind_excluded (restrict_kinds : option (list string)) (kind : string) : bool :=
  match restrict_kinds with
  | Some (k :: r) => negb (existsb (String.eqb kind) (k :: r))
  | _ => false
  end.

(** The result the exact branch builds. *)
Definition exact_result (c : Compiled) : MatchResult :=
  mkMatchResult (c_uri c) (c_kind c) (c_label c) 1.0%float "exact_normalized" (c_surf c).

(** The body of the inner loop of [match], for the query form
    [(q_raw, q_norm, q_toks)] and one entry of [_compiled]. *)
Definition match_step (query : string) (restrict_kinds : option (list string))
    (min_score : float) (q_raw q_norm : string) (q_toks : list string)
    (scored : dict (string * string) MatchResult) (c : Compiled)
    : dict (string * string) MatchResult :=
  let q_init := initialism q_toks in
  let key := (c_uri c, c_kind c) in
  if kind_excluded restrict_kinds (c_kind c) then scored
  else if String.eqb q_norm (c_norm c) && truthy q_norm then
    let res := exact_result c in
    (* max(scored.get(key, res), res, key=score) *)
    let old := match dict_get key_eqb scored key with Some r => r | None => res end in
    dict_set key_eqb scored key
      (if (score old <? score res)%float then res else old)
  else
    let ab_bonus :=
      if truthy q_init && String.eqb q_init (initialism (c_toks c))
      then 0.12%float else 0.0%float in
    let tok_overlap := jaccard q_toks (c_toks c) in
    let phrase_sim := seq_ratio q_norm (c_norm c) in
    let edit_bonus :=
      if (0.70 <? phrase_sim)%float || (0.50 <? tok_overlap)%float then
        let maxd := if Z.of_nat (String.length q_norm) <=? 10 then 2 else 3 in
        let d := damerau_levenshtein q_norm (c_norm c) (Some maxd) in
        if d <=? maxd then (float_of_int (maxd - d) * 0.03)%float else 0.0%float
      else 0.0%float in
    let len_pen :=
      if (len q_toks + 3 <=? len (c_toks c)) && (tok_overlap <? 0.8)%float
      then 0.08%float else 0.0%float in
    let sc := (0.62 * tok_overlap + 0.32 * phrase_sim + ab_bonus + edit_bonus
               - len_pen)%float in
    if (tok_overlap =? 0.0)%float && (phrase_sim <? 0.85)%float then scored
    else if (sc <? min_score)%float then scored
    else
      let reason := "fuzzy" in
      let reason := if (0 <? ab_bonus)%float then "initialism_match" else reason in
      let reason := if negb (String.eqb q_raw query) then "abbrev_expansion" else reason in
      let res := mkMatchResult (c_uri c) (c_kind c) (c_label c) sc reason (c_surf c) in
      match dict_get key_eqb scored key with
      | None => dict_set key_eqb scored key res
      | Some old =>
          if (score old <? score res)%float then dict_set key_eqb scored key res
          else scored
      end.

(** [sorted(l, key=lambda r: r.score, reverse=True)]: a stable sort by
    descending score (equal scores keep their order). *)
Fixpoint insert_desc (x : MatchResult) (l : list MatchResult) : list MatchResult :=
  match l with
  | [] => [x]
  | y :: r => if (score x <? score y)%float then y :: insert_desc x r else x :: l
  end.

Definition sorted_desc (l : list MatchResult) : list MatchResult :=
  fold_right insert_desc [] l.

(** [l[:k]]: a negative [k] counts from the end. *)
Definition slice_to {A} (l : list A) (k : Z) : list A :=
  if k <? 0 then firstn (Z.to_nat (len l + k)) l else firstn (Z.to_nat k) l.

(** The query forms and the table [scored] that [match] fills. *)
Definition query_forms (self : ConceptMatcher) (query : string)
    : list (string * string * list string) :=
  (query, normalize_text query, tokenize query)
    :: map (fun exp => (exp, normalize_text exp, tokenize exp))
           (expand_abbrev self query).

Definition scored_table (self : ConceptMatcher) (query : string)
    (restrict_kinds : option (list string)) (min_score : float)
    : dict (string * string) MatchResult :=
  fold_left
    (fun scored form =>
       let '(q_raw, q_norm, q_toks) := form in
       fold_left (match_step query restrict_kinds min_score q_raw q_norm q_toks)
         (_compiled self) scored)
    (query_forms self query) [].

Definition match_ (self : ConceptMatcher) (query : string)
    (restrict_kinds : option (list string)) (top_k : Z) (min_score : float)
    : list MatchResult :=
  slice_to (sorted_desc (dict_values (scored_table self query restrict_kinds min_score)))
    top_k.

End Matcher.

(** The module [unicodedata] on strings of ASCII letters, digits and
    punctuation, which normalization leaves as they are and which hold no
    combining character. *)
Definition ascii_unicodedata : unicodedata :=
  mk_unicodedata (fun s => s) (fun s => s) (fun _ => false).

(** A lexicon with two concepts of the same label, up to case. *)
Definition two_pumps : Lexicon :=
  mkLexicon []
    [("urn:a#Pump", mkConceptMeta (Some "class") (Some "Pump") None);
     ("urn:b#pump", mkConceptMeta (Some "class") (Some "pump") None)].

(** ** Properties used for the matcher *)

Fixpoint string_forall (p : ascii -> bool) (s : string) : bool :=
  match s with
  | EmptyString => true
  | String c r => p c && string_forall p r
  end.

(** The characters of a normalized text: [[a-z0-9]] and the space. *)
Definition plain_char (c : ascii) : bool := is_lower_digit c || Ascii.eqb c " ".

Definition plain (s : string) : Prop := string_forall plain_char s = true.

(** What is assumed of [unicodedata]: normalization leaves a string of
    lower-case ASCII letters, digits and spaces as it is, and none of these
    characters is a combining character. *)
Record ascii_stable (ud : unicodedata) : Prop := mk_ascii_stable {
  nfkc_plain : forall s, plain s -> normalize_NFKC ud s = s;
  nfkd_plain : forall s, plain s -> normalize_NFKD ud s = s;
  combining_plain : forall c, plain_char c = true -> combining ud c = false
}.

(** A token of a normalized text: not empty, and made of [[a-z0-9]]. *)
Definition lower_word (t : string) : Prop :=
  truthy t = true /\ string_forall is_lower_digit t = true.


(** The matcher built from the two-pump lexicon. *)
Definition two_pumps_matcher : ConceptMatcher :=
  ConceptMatcher_init ascii_unicodedata two_pumps.


(** What [match] promises of a returned result for the threshold: it comes
    from the exact branch (score 1.0, reason [exact_normalized]) or its
    composite score is not below [min_score]. *)
Definition clears_threshold (min_score : float) (r : MatchResult) : Prop :=
  (reason r = "exact_normalized" /\ score r = 1.0%float)
  \/ (score r <? min_score)%float = false.


(** Every result is stored under its own [(uri, kind)]. *)
Definition well_keyed (scored : dict (string * string) MatchResult) : Prop :=
  forall key r, dict_get key_eqb scored key = Some r -> (uri r, kind r) = key.


(** ** The builder over a store of mutable objects

    The definitions above treat a [dict] or a [list] as a value.  In Python
    they are objects with an identity: two queries may hold the same
    [dict], and [d[k] = v], [l.append(x)] and [d.clear()] change it for
    every holder.  This module embeds the builder once more with that
    sharing made explicit: a frozen dataclass is a record whose container
    fields are locations, [dict(x)] and [list(x)] allocate a copy, and an
    assignment to an item writes the store. *)

Module Store.

Definition loc : Type := nat.

Record DataNodeInfo : Type := mkDataNodeInfo {
  node_id : Z;
  filters : loc
}.

Record QueryNode : Type := mkQueryNode {
  id : Z;
  rdf_class : option string;
  alias : option string;
  constraints : loc
}.

Record QueryEdge : Type := mkQueryEdge {
  source_id : Z;
  target_id : Z;
  hops : Z;
  predicates : option loc
}.

Record QueryGraph : Type := mkQueryGraph {
  nodes : loc;
  edges : loc;
  aliases : loc;
  aliases_reverse : loc;
  current_pointer : option Z;
  data_nodes : loc
}.

Record Query : Type := mkQuery {
  query_graph : QueryGraph;
  _next_id : Z;
  cache : loc
}.

(** The mutable objects: [Dict[str, Any]] (constraints, filters, cache),
    [List[str]] (predicates) and the five containers of a graph. *)
Inductive object : Type :=
| DictStr (d : dict string value)
| ListStr (l : list string)
| Nodes (d : dict Z QueryNode)
| Edges (l : list QueryEdge)
| Aliases (d : dict string Z)
| AliasesReverse (d : dict Z string)
| DataNodes (d : dict Z DataNodeInfo).

(** The store: the object at location [l] is the [l]-th element. *)
Definition store : Type := list object.

Fixpoint update (l : loc) (o : object) (s : store) : store :=
  match s, l with
  | [], _ => []
  | _ :: r, O => o :: r
  | x :: r, S n => x :: update n o r
  end.

Definition as_dict_str (o : object) : dict string value :=
  match o with DictStr d => d | _ => [] end.
Definition as_list_str (o : object) : list string :=
  match o with ListStr l => l | _ => [] end.
Definition as_nodes (o : object) : dict Z QueryNode :=
  match o with Nodes d => d | _ => [] end.
Definition as_edges (o : object) : list QueryEdge :=
  match o with Edges l => l | _ => [] end.
Definition as_aliases (o : object) : dict string Z :=
  match o with Aliases d => d | _ => [] end.
Definition as_aliases_reverse (o : object) : dict Z string :=
  match o with AliasesReverse d => d | _ => [] end.
Definition as_data_nodes (o : object) : dict Z DataNodeInfo :=
  match o with DataNodes d => d | _ => [] end.

(** The object at [l]. *)
Definition at_ (s : store) (l : loc) : object := nth l s (DictStr []).

(** *** The monad: a store transformer that may raise *)

Definition M (A : Type) : Type := store -> store * result A.

Definition ret {A} (a : A) : M A := fun s => (s, Ok a).

Definition raise {A} (e : exn) : M A := fun s => (s, Raise e).

Definition bindM {A B} (m : M A) (f : A -> M B) : M B :=
  fun s =>
    match m s with
    | (s', Ok a) => f a s'
    | (s', Raise e) => (s', Raise e)
    end.

Notation "x <~ m ;; k" := (bindM m (fun x => k))
  (at level 61, m at next level, right associativity).

(** A new object. *)
Definition new (o : object) : M loc := fun s => (s ++ [o], Ok (List.length s)).

Definition get (l : loc) : M object := fun s => (s, Ok (at_ s l)).

Definition put (l : loc) (o : object) : M unit := fun s => (update l o s, Ok tt).

(** [dict(x)], [list(x)]: a new object with the same content. *)
Definition copy (l : loc) : M loc := o <~ get l ;; new o.

(** [d.clear()] *)
Definition clear (l : loc) : M unit := put l (DictStr []).

(** [d[k] = v] and [l.append(x)], by the type of the container. *)
Definition setitem_str (l : loc) (k : string) (v : value) : M unit :=
  o <~ get l ;; put l (DictStr (dict_set String.eqb (as_dict_str o) k v)).
Definition setitem_nodes (l : loc) (k : Z) (v : QueryNode) : M unit :=
  o <~ get l ;; put l (Nodes (dict_set Z.eqb (as_nodes o) k v)).
Definition setitem_aliases (l : loc) (k : string) (v : Z) : M unit :=
  o <~ get l ;; put l (Aliases (dict_set String.eqb (as_aliases o) k v)).
Definition setitem_aliases_reverse (l : loc) (k : Z) (v : string) : M unit :=
  o <~ get l ;; put l (AliasesReverse (dict_set Z.eqb (as_aliases_reverse o) k v)).
Definition setitem_data_nodes (l : loc) (k : Z) (v : DataNodeInfo) : M unit :=
  o <~ get l ;; put l (DataNodes (dict_set Z.eqb (as_data_nodes o) k v)).
Definition append_edge (l : loc) (e : QueryEdge) : M unit :=
  o <~ get l ;; put l (Edges (as_edges o ++ [e])).

(** *** [query_graph.py] *)

(** [QueryGraph()] *)
Definition QueryGraph_ : M QueryGraph :=
  n <~ new (Nodes []) ;;
  e <~ new (Edges []) ;;
  a <~ new (Aliases []) ;;
  ar <~ new (AliasesReverse []) ;;
  dn <~ new (DataNodes []) ;;
  ret (mkQueryGraph n e a ar None dn).

Definition with_data_node (self : QueryGraph) (info : DataNodeInfo) : M QueryGraph :=
  dn <~ copy (data_nodes self) ;;
  _ <~ setitem_data_nodes dn (node_id info) info ;;
  n <~ copy (nodes self) ;;
  e <~ copy (edges self) ;;
  a <~ copy (aliases self) ;;
  ar <~ copy (aliases_reverse self) ;;
  ret (mkQueryGraph n e a ar (current_pointer self) dn).

Definition with_node (self : QueryGraph) (node : QueryNode) : M QueryGraph :=
  n <~ copy (nodes self) ;;
  _ <~ setitem_nodes n (id node) node ;;
  a <~ copy (aliases self) ;;
  ar <~ copy (aliases_reverse self) ;;
  let name :=
    match alias node with
    | Some x => if truthy x then x else str_of_int (id node)
    | None => str_of_int (id node)
    end in
  _ <~ setitem_aliases a name (id node) ;;
  _ <~ setitem_aliases_reverse ar (id node) name ;;
  e <~ copy (edges self) ;;
  dn <~ copy (data_nodes self) ;;
  ret (mkQueryGraph n e a ar (Some (id node)) dn).

Definition with_edge (self : QueryGraph) (edge : QueryEdge)
    (new_pointer : option Z) : M QueryGraph :=
  e <~ copy (edges self) ;;
  _ <~ append_edge e edge ;;
  n <~ copy (nodes self) ;;
  a <~ copy (aliases self) ;;
  ar <~ copy (aliases_reverse self) ;;
  dn <~ copy (data_nodes self) ;;
  ret (mkQueryGraph n e a ar
         (match new_pointer with Some p => Some p | None => current_pointer self end)
         dn).

Definition resolve_alias (self : QueryGraph) (alias_or_none : option string)
    : M (option Z) :=
  match alias_or_none with
  | None => ret (current_pointer self)
  | Some a => o <~ get (aliases self) ;; ret (dict_get String.eqb (as_aliases o) a)
  end.

(** *** [query.py] *)

(** [Query(query_graph=g, _next_id=n)]: the cache is a new empty dict. *)
Definition Query_ (g : QueryGraph) (n : Z) : M Query :=
  c <~ new (DictStr []) ;; ret (mkQuery g n c).

(** [Query()] *)
Definition empty_query : M Query := g <~ QueryGraph_ ;; Query_ g 0.

(** [self.service]: no such attribute. *)
Definition Query_service (self : Query) : M value :=
  raise (AttributeError "service").

Definition _new_id (self : Query) : Z := _next_id self.

Definition _clone_with_graph (self : Query) (new_graph : QueryGraph)
    (bump_id : bool) : M Query :=
  Query_ new_graph (_next_id self + (if bump_id then 1 else 0)).

(** [dict(filters_dict or {})] *)
Definition copy_filters (filters_dict : option loc) : M loc :=
  match filters_dict with
  | Some l =>
      o <~ get l ;;
      match as_dict_str o with
      | [] => new (DictStr [])
      | _ => new o
      end
  | None => new (DictStr [])
  end.

Definition _add_data_node (self : Query) (g : QueryGraph) (src_id : option Z)
    (path : option string) (_class : option string) (alias : option string)
    (hops : Z) (filters_dict : option loc) (force_one_hop : bool)
    : M (QueryGraph * Z) :=
  let new_id := _new_id self in
  cs <~ new (DictStr [("is_data_node", VBool true);
                      ("path_from", match path with Some p => VStr p | None => VNone end)]) ;;
  let node := mkQueryNode new_id (if truthy_opt _class then _class else None) alias cs in
  g2 <~ with_node g node ;;
  g2 <~ (match src_id with
         | Some src =>
             if truthy_opt path then
               ps <~ new (ListStr (match path with Some p => [p] | None => [] end)) ;;
               with_edge g2 (mkQueryEdge src new_id 1 (Some ps)) (Some new_id)
             else
               let eff_hops := if force_one_hop then 1 else hops in
               with_edge g2 (mkQueryEdge src new_id eff_hops None) (Some new_id)
         | None =>
             n <~ copy (nodes g2) ;;
             e <~ copy (edges g2) ;;
             a <~ copy (aliases g2) ;;
             ar <~ copy (aliases_reverse g2) ;;
             dn <~ copy (data_nodes g2) ;;
             ret (mkQueryGraph n e a ar (Some new_id) dn)
         end) ;;
  fs <~ copy_filters filters_dict ;;
  g2 <~ with_data_node g2 (mkDataNodeInfo new_id fs) ;;
  ret (g2, new_id).

Definition _select_data_node_ids (self : Query) (_from : option string)
    : M (list Z) :=
  let g := query_graph self in
  dno <~ get (data_nodes g) ;;
  let dn := as_data_nodes dno in
  match dn with
  | [] => raise (ValueError "No data nodes exist in the query graph to filter")
  | _ =>
    if is_all _from then ret (sorted (dict_keys dn))
    else
      match _from with
      | None =>
          match current_pointer g with
          | Some pid =>
              if dict_mem Z.eqb dn pid then ret [pid]
              else ret (sorted (dict_keys dn))
          | None => ret (sorted (dict_keys dn))
          end
      | Some _ =>
          r <~ resolve_alias g _from ;;
          match r with
          | None => raise (ValueError "filter: _from alias not found")
          | Some rid =>
              if dict_mem Z.eqb dn rid then ret [rid]
              else
                eo <~ get (edges g) ;;
                let attached :=
                  map target_id
                    (filter (fun e => (source_id e =? rid)
                                      && dict_mem Z.eqb dn (target_id e))
                            (as_edges eo)) in
                ret (sorted (dedup_Z attached))
          end
      end
  end.

Definition find_entity (self : Query) (_class : string)
    (alias : option string) : M Query :=
  _ <~ clear (cache self) ;;
  let node_id := _new_id self in
  cs <~ new (DictStr []) ;;
  let node := mkQueryNode node_id (Some _class) alias cs in
  new_graph <~ with_node (query_graph self) node ;;
  _clone_with_graph self new_graph true.

Definition find_related (self : Query) (_class : string)
    (alias : option string) (_from : option string) (hops : Z)
    (predicates : option loc) (multi_hop_predicates : bool) : M Query :=
  _ <~ clear (cache self) ;;
  src <~ resolve_alias (query_graph self) _from ;;
  match src with
  | None =>
      raise (ValueError
        "find_related: no source node to relate from (pointer is None and _from not set)")
  | Some src_id =>
      let new_id := _new_id self in
      cs <~ new (DictStr []) ;;
      let new_node := mkQueryNode new_id (Some _class) alias cs in
      g <~ with_node (query_graph self) new_node ;;
      given <~ (match predicates with
                | Some l => o <~ get l ;;
                            ret (match as_list_str o with [] => false | _ => true end)
                | None => ret false
                end) ;;
      let edge :=
        if given && multi_hop_predicates then
          mkQueryEdge src_id new_id hops predicates
        else if given && negb multi_hop_predicates then
          mkQueryEdge src_id new_id 1 predicates
        else
          mkQueryEdge src_id new_id hops None in
      g2 <~ with_edge g edge (Some new_id) ;;
      _clone_with_graph self g2 true
  end.

(** The loops of [relate_to]; [other_mapping] is a local dict that no other
    object refers to, kept as a value. *)
Fixpoint merge_nodes (max_id_self : Z) (l : dict Z QueryNode)
    (other_mapping : dict Z Z) (merged_nodes : loc) : M (dict Z Z) :=
  match l with
  | [] => ret other_mapping
  | (nid, node) :: r =>
      let other_mapping := dict_set Z.eqb other_mapping nid (max_id_self + 1 + nid) in
      _ <~ setitem_nodes merged_nodes (max_id_self + 1 + nid) node ;;
      merge_nodes max_id_self r other_mapping merged_nodes
  end.

(** [other_mapping[k]] *)
Definition mapping_at (other_mapping : dict Z Z) (k : Z) : M Z :=
  match dict_get Z.eqb other_mapping k with
  | Some v => ret v
  | None => raise KeyError
  end.

Fixpoint merge_edges (other_mapping : dict Z Z) (l : list QueryEdge)
    (merged_edges : loc) : M unit :=
  match l with
  | [] => ret tt
  | edge :: r =>
      s <~ mapping_at other_mapping (source_id edge) ;;
      t <~ mapping_at other_mapping (target_id edge) ;;
      _ <~ append_edge merged_edges
             (mkQueryEdge s t (hops edge) (predicates edge)) ;;
      merge_edges other_mapping r merged_edges
  end.

Fixpoint merge_aliases (other_mapping : dict Z Z) (l : dict string Z)
    (merged_aliases merged_aliases_reverse : loc) : M loc :=
  match l with
  | [] => ret merged_aliases_reverse
  | (alias_name, nid) :: r =>
      m <~ mapping_at other_mapping nid ;;
      _ <~ setitem_aliases merged_aliases alias_name m ;;
      o <~ get merged_aliases ;;
      rev <~ new (AliasesReverse (invert_aliases (as_aliases o))) ;;
      merge_aliases other_mapping r merged_aliases rev
  end.

Definition relate_to (self other : Query) (_from _to : option string)
    (hops : Z) (predicates : option loc) : M Query :=
  _ <~ clear (cache self) ;;
  _ <~ clear (cache other) ;;
  src <~ (match _from with
          | None => ret (current_pointer (query_graph self))
          | Some _ => resolve_alias (query_graph self) _from
          end) ;;
  match src with
  | None => raise (ValueError "relate_to: current query has no pointer")
  | Some src_id =>
    tgt <~ (match _to with
            | None => ret (current_pointer (query_graph other))
            | Some _ => resolve_alias (query_graph other) _to
            end) ;;
    match tgt with
    | None => raise (ValueError "relate_to: other query has no pointer")
    | Some tgt_id =>
      merged_nodes <~ copy (nodes (query_graph self)) ;;
      merged_edges <~ copy (edges (query_graph self)) ;;
      merged_aliases <~ copy (aliases (query_graph self)) ;;
      merged_aliases_reverse <~ copy (aliases_reverse (query_graph self)) ;;
      sn <~ get (nodes (query_graph self)) ;;
      let max_id_self := max_key (dict_keys (as_nodes sn)) in
      on <~ get (nodes (query_graph other)) ;;
      other_mapping <~ merge_nodes max_id_self (as_nodes on) [] merged_nodes ;;
      oe <~ get (edges (query_graph other)) ;;
      _ <~ merge_edges other_mapping (as_edges oe) merged_edges ;;
      oa <~ get (aliases (query_graph other)) ;;
      merged_aliases_reverse <~ merge_aliases other_mapping (as_aliases oa)
                                  merged_aliases merged_aliases_reverse ;;
      dn <~ new (DataNodes []) ;;
      let merged_graph :=
        mkQueryGraph merged_nodes merged_edges merged_aliases
          merged_aliases_reverse (Some src_id) dn in
      new_tgt <~ mapping_at other_mapping tgt_id ;;
      let edge := mkQueryEdge src_id new_tgt hops predicates in
      merged_graph <~ with_edge merged_graph edge (Some new_tgt) ;;
      Query_ merged_graph (Z.max (_next_id self) (_next_id other))
    end
  end.

Fixpoint find_data_loop (g : QueryGraph) (n_src : Z)
    (path _class alias : option string) (hops : Z) (filters_dict : option loc)
    (l : list Z) (i : Z) (self : Query) (last_graph : QueryGraph) (created : Z)
    : M (Query * QueryGraph * Z) :=
  match l with
  | [] => ret (self, last_graph, created)
  | src_id :: r =>
      aro <~ get (aliases_reverse g) ;;
      let src_alias :=
        match dict_get Z.eqb (as_aliases_reverse aro) src_id with
        | Some a => a
        | None => str_of_int src_id
        end in
      let a :=
        match alias with
        | None => src_alias +++ "_data"
        | Some a0 =>
            if 1 <? n_src then (if i =? 0 then a0 else a0 +++ "_" +++ str_of_int i)
            else a0
        end in
      gi <~ _add_data_node self last_graph (Some src_id) path _class (Some a)
              hops filters_dict true ;;
      let last_graph := fst gi in
      let created := created + 1 in
      _ <~ Query_service self ;;
      self <~ Query_ last_graph (_next_id self + created) ;;
      find_data_loop g n_src path _class alias hops filters_dict r (i + 1)
        self last_graph created
  end.

Definition find_data (self : Query) (_from path _class : option string)
    (hops : Z) (filters_dict : option loc) (alias : option string) : M Query :=
  _ <~ clear (cache self) ;;
  let g := query_graph self in
  src_ids <~
    (if is_all _from then
       no <~ get (nodes g) ;;
       match as_nodes no with
       | [] => raise (ValueError
                 "find_data(from='*'): query graph has no nodes to expand from")
       | d => ret (sorted (dict_keys d))
       end
     else
       r <~ resolve_alias g _from ;;
       match r with
       | None => raise (ValueError
                   "find_data: no source node (set _from or ensure pointer is set)")
       | Some src_id => ret [src_id]
       end) ;;
  st <~ find_data_loop g (Z.of_nat (List.length src_ids))
          path _class alias hops filters_dict src_ids 0 self g 0 ;;
  let '(self, last_graph, created) := st in
  _ <~ Query_service self ;;
  Query_ last_graph (_next_id self + created).

Definition find_all_data (self : Query) (_class : option string) (hops : Z)
    (filters_dict : option loc) (alias : option string) : M Query :=
  _ <~ clear (cache self) ;;
  let g := query_graph self in
  no <~ get (nodes g) ;;
  match as_nodes no with
  | [] =>
      gi <~ _add_data_node self g None None _class alias hops filters_dict false ;;
      _clone_with_graph self (fst gi) true
  | _ => find_data self (Some "*") None _class hops filters_dict alias
  end.

Fixpoint set_filters (predicate : string) (v : value) (targets : list Z)
    (dn2 : loc) : M unit :=
  match targets with
  | [] => ret tt
  | nid :: r =>
      o <~ get dn2 ;;
      match dict_get Z.eqb (as_data_nodes o) nid with
      | None => raise KeyError
      | Some info =>
          new_filters <~ copy (filters info) ;;
          _ <~ setitem_str new_filters predicate v ;;
          _ <~ setitem_data_nodes dn2 nid (mkDataNodeInfo (node_id info) new_filters) ;;
          set_filters predicate v r dn2
      end
  end.

Definition filter_data_nodes (self : Query) (predicate : string) (v : value)
    (_from : option string) : M Query :=
  _ <~ clear (cache self) ;;
  let g := query_graph self in
  targets <~ _select_data_node_ids self _from ;;
  match targets with
  | [] => raise (ValueError "filter_data_nodes: no target data nodes selected")
  | _ =>
      dn2 <~ copy (data_nodes g) ;;
      _ <~ set_filters predicate v targets dn2 ;;
      n <~ copy (nodes g) ;;
      e <~ copy (edges g) ;;
      a <~ copy (aliases g) ;;
      ar <~ copy (aliases_reverse g) ;;
      _clone_with_graph self
        (mkQueryGraph n e a ar (current_pointer g) dn2) false
  end.

(** [to_dict]: the snapshot read from the store. *)
Definition to_dict (s : store) (self : Query) : Snapshot :=
  let g := query_graph self in
  let ar := as_aliases_reverse (at_ s (aliases_reverse g)) in
  mkSnapshot
    (map (fun n => mkNodeDict (id n) (rdf_class n) (alias n)
                     (as_dict_str (at_ s (constraints n))))
         (dict_values (as_nodes (at_ s (nodes g)))))
    (map (fun e => mkEdgeDict (source_id e) (target_id e) (hops e)
                     (match predicates e with
                      | Some l => match as_list_str (at_ s l) with
                                  | [] => None
                                  | ps => Some ps
                                  end
                      | None => None
                      end))
         (as_edges (at_ s (edges g))))
    (as_aliases (at_ s (aliases g)))
    ar
    (current_pointer g)
    (map (fun kv =>
            mkDataDict (fst kv)
              (match dict_get Z.eqb ar (fst kv) with
               | Some a => a
               | None => "v" +++ str_of_int (fst kv)
               end)
              (as_dict_str (at_ s (filters (snd kv)))))
         (as_data_nodes (at_ s (data_nodes g)))).

(** The objects [to_dict] reads. *)
Definition footprint (s : store) (self : Query) : list loc :=
  let g := query_graph self in
  [nodes g; edges g; aliases g; aliases_reverse g; data_nodes g]
  ++ map constraints (dict_values (as_nodes (at_ s (nodes g))))
  ++ flat_map (fun e => match predicates e with Some l => [l] | None => [] end)
       (as_edges (at_ s (edges g)))
  ++ map (fun kv => filters (snd kv)) (as_data_nodes (at_ s (data_nodes g))).

(** The builder operations with their arguments. *)
Inductive operation : Type :=
| FindEntity (_class : string) (alias : option string)
| FindRelated (_class : string) (alias _from : option string) (hops : Z)
    (predicates : option loc) (multi_hop_predicates : bool)
| RelateTo (other : Query) (_from _to : option string) (hops : Z)
    (predicates : option loc)
| FindData (_from path _class : option string) (hops : Z)
    (filters_dict : option loc) (alias : option string)
| FindAllData (_class : option string) (hops : Z) (filters_dict : option loc)
    (alias : option string)
| FilterDataNodes (predicate : string) (v : value) (_from : option string).

Definition run (op : operation) (self : Query) : M Query :=
  match op with
  | FindEntity c a => find_entity self c a
  | FindRelated c a f h ps m => find_related self c a f h ps m
  | RelateTo other f t h ps => relate_to self other f t h ps
  | FindData f p c h fs a => find_data self f p c h fs a
  | FindAllData c h fs a => find_all_data self c h fs a
  | FilterDataNodes p v f => filter_data_nodes self p v f
  end.

(** The caches an operation clears: that of the query it is called on and,
    for [relate_to], that of [other]. *)
Definition cleared (op : operation) (self : Query) : list loc :=
  cache self :: match op with
                | RelateTo other _ _ _ _ => [cache other]
                | _ => []
                end.

(** [s'] is [s] with more objects and, possibly, other objects at the
    locations [c]: every object of [s] outside [c] is unchanged. *)
Definition frame (c : list loc) (s s' : store) : Prop :=
  (List.length s <= List.length s')%nat /\
  forall l, (l < List.length s)%nat -> ~ In l c -> nth_error s' l = nth_error s l.

End Store.

(** [Query().find_all_data(alias="d")] run in the empty store: the store it
    leaves and the query it returns. *)
Definition sample_run : Store.store * result Store.Query :=
  Store.bindM Store.empty_query
    (fun q => Store.find_all_data q None 3 None (Some "d")) [].

Definition sample_store : Store.store := fst sample_run.

Definition sample_query : Store.Query :=
  match snd sample_run with
  | Ok q => q
  | Raise _ => Store.mkQuery (Store.mkQueryGraph 0%nat 0%nat 0%nat 0%nat None 0%nat) 0 0%nat
  end.
(** ** Frames: what a computation leaves alone *)

(** A computation keeps the frame of the caches [c] over the store [s0]; a
    computation that returns a location keeps the frame and returns a
    location allocated after [s0]. *)
Definition keeps (c : list Store.loc) (s0 : Store.store) {A} (m : Store.M A)
    : Prop :=
  forall s, Store.frame c s0 s -> Store.frame c s0 (fst (m s)).

Definition keeps_fresh (c : list Store.loc) (s0 : Store.store)
    (m : Store.M Store.loc) : Prop :=
  forall s, Store.frame c s0 s ->
    Store.frame c s0 (fst (m s))
    /\ forall l, snd (m s) = Ok l -> (List.length s0 <= l)%nat.

(** ** Which objects refer to which: the typing of stores *)

(** The locations an object refers to. *)
Definition inside (o : Store.object) : list Store.loc :=
  match o with
  | Store.Nodes d => map Store.constraints (dict_values d)
  | Store.Edges l =>
      flat_map (fun e => match Store.predicates e with Some p => [p] | None => [] end) l
  | Store.DataNodes d => map (fun kv => Store.filters (snd kv)) d
  | _ => []
  end.

(** [l] is allocated in a store of [n] objects and is not one of the caches
    [c]. *)
Definition ok (c : list Store.loc) (n : nat) (l : Store.loc) : Prop :=
  (l < n)%nat /\ ~ In l c.

(** Every cache is allocated, and every location an object refers to is
    allocated and is not a cache. *)
Definition typed (c : list Store.loc) (s : Store.store) : Prop :=
  (forall l, In l c -> (l < List.length s)%nat)
  /\ forall l o l', nth_error s l = Some o -> In l' (inside o) ->
       ok c (List.length s) l'.

Definition ok_graph (c : list Store.loc) (n : nat) (g : Store.QueryGraph) : Prop :=
  ok c n (Store.nodes g) /\ ok c n (Store.edges g) /\ ok c n (Store.aliases g)
  /\ ok c n (Store.aliases_reverse g) /\ ok c n (Store.data_nodes g).

Definition ok_opt (c : list Store.loc) (n : nat) (l : option Store.loc) : Prop :=
  match l with Some x => ok c n x | None => True end.

(** A computation keeps the store typed, only adds objects, and its result
    satisfies [post]. *)
Definition spec {A} (c : list Store.loc) (n0 : nat) (m : Store.M A)
    (post : Store.store -> A -> Prop) : Prop :=
  forall s, typed c s -> (n0 <= List.length s)%nat ->
    typed c (fst (m s))
    /\ (List.length s <= List.length (fst (m s)))%nat
    /\ forall a, snd (m s) = Ok a -> post (fst (m s)) a.

(** The query an operation returns: its cache is a new object, and with it
    counted as a cache the store is typed and the graph is outside the
    caches. *)
Definition returns_query (c : list Store.loc) (n : nat) (s : Store.store)
    (q : Store.Query) : Prop :=
  typed (Store.cache q :: c) s
  /\ ok_graph (Store.cache q :: c) (List.length s) (Store.query_graph q)
  /\ (n <= Store.cache q)%nat.

(** What a caller may pass to an operation: lists of predicates that exist
    and are not the cache of a query, and queries it has obtained. *)
Definition admissible (c : list Store.loc) (n : nat) (qs : list Store.Query)
    (op : Store.operation) : Prop :=
  match op with
  | Store.FindRelated _ _ _ _ ps _ => ok_opt c n ps
  | Store.RelateTo other _ _ _ ps => In other qs /\ ok_opt c n ps
  | _ => True
  end.

(** The invariant of a program that uses the builder: [c] are the caches of
    the queries [qs] it holds. *)
Definition good (c : list Store.loc) (s : Store.store) (qs : list Store.Query)
    : Prop :=
  typed c s
  /\ forall q, In q qs ->
       ok_graph c (List.length s) (Store.query_graph q) /\ In (Store.cache q) c.

(** The configurations a caller reaches from the empty store: it makes
    lists of predicates and dicts of filters, calls [Query()], and runs
    operations on the queries it holds; an operation that raises leaves it
    with the queries it had. *)
Inductive reach : list Store.loc -> Store.store -> list Store.Query -> Prop :=
| reach_start : reach [] [] []
| reach_list c s qs l :
    reach c s qs -> reach c (s ++ [Store.ListStr l]) qs
| reach_dict c s qs d :
    reach c s qs -> reach c (s ++ [Store.DictStr d]) qs
| reach_Query c s qs s' q :
    reach c s qs -> Store.empty_query s = (s', Ok q) ->
    reach (Store.cache q :: c) s' (q :: qs)
| reach_returns c s qs op self s' q :
    reach c s qs -> In self qs -> admissible c (List.length s) qs op ->
    Store.run op self s = (s', Ok q) ->
    reach (Store.cache q :: c) s' (q :: qs)
| reach_raises c s qs op self s' e :
    reach c s qs -> In self qs -> admissible c (List.length s) qs op ->
    Store.run op self s = (s', Raise e) ->
    reach c s' qs.

(** [Query()] in the empty store. *)
Definition start_store : Store.store := fst (Store.empty_query []).

Definition start_query : Store.Query :=
  match snd (Store.empty_query []) with
  | Ok q => q
  | Raise _ => Store.mkQuery (Store.mkQueryGraph 0%nat 0%nat 0%nat 0%nat None 0%nat) 0 0%nat
  end.

(** ** Further properties of the builder *)

(** The name [with_node] files a node under: its alias, or [str(id)] when
    the alias is [None] or empty. *)
Definition node_name (node : QueryNode) : string :=
  match alias node with
  | Some a => if truthy a then a else str_of_int (id node)
  | None => str_of_int (id node)
  end.

(** [find_related] found no source. *)
Definition no_source : exn :=
  ValueError
    "find_related: no source node to relate from (pointer is None and _from not set)".

(** An edge of [other] as [relate_to] copies it: both ends moved by
    [sh]. *)
Definition shift_edge (sh : Z) (e : QueryEdge) : QueryEdge :=
  mkQueryEdge (sh + source_id e) (sh + target_id e) (hops e) (predicates e).

(** What the association lists of a graph need to stand for Python dicts,
    and the sign of the ids. *)
Record tidy_graph (g : QueryGraph) : Prop := mk_tidy_graph {
  tidy_nodes : NoDup (dict_keys (nodes g));
  tidy_aliases : NoDup (dict_keys (aliases g));
  tidy_ids : forall k, dict_mem Z.eqb (nodes g) k = true -> 0 <= k
}.

Definition tidy (q : Query) : Prop := tidy_graph (query_graph q) /\ 0 <= _next_id q.

(** The aliases [relate_to] builds: those of [other], moved by [sh], written
    over those of [self]. *)
Definition merged_aliases (sh : Z) (self other : QueryGraph) : dict string Z :=
  fold_left (fun d kv => dict_set String.eqb d (fst kv) (sh + snd kv))
    (aliases other) (aliases self).

(** The graph [relate_to] builds from a source [src] of [self] and a target
    [tgt] of [other]. *)
Definition merged_graph (self other : QueryGraph) (src tgt h : Z)
    (ps : option (list string)) : QueryGraph :=
  let mx := max_key (dict_keys (nodes self)) in
  let sh := mx + 1 in
  mkQueryGraph
    (snd (merge_nodes mx (nodes other) [] (nodes self)))
    (edges self ++ map (shift_edge sh) (edges other) ++ [mkQueryEdge src (sh + tgt) h ps])
    (merged_aliases sh self other)
    (match aliases other with
     | [] => aliases_reverse self
     | _ => invert_aliases (merged_aliases sh self other)
     end)
    (Some (sh + tgt)) [].

(** The node ids are exactly the numbers below [_next_id]. *)
Definition dense (q : Query) : Prop :=
  forall k, dict_mem Z.eqb (nodes (query_graph q)) k = true <-> 0 <= k < _next_id q.

(** The errors of [relate_to]. *)
Definition no_pointer_self : exn := ValueError "relate_to: current query has no pointer".
Definition no_pointer_other : exn := ValueError "relate_to: other query has no pointer".

(** [var_map] of [to_sparql]: node id to [?v{id}]. *)
Definition sparql_var (nid : Z) : string := "?v" +++ str_of_int nid.

(** The error of [_edge_pattern]. *)
Definition bad_hops (h : Z) : exn :=
  ValueError ("edge.hops must be >= 1, got " +++ str_of_int h).



(** ** Further properties of the matcher *)

(** The words [normalize_text] joins: those of the text after stripping,
    normalization, identifier splitting and lower-casing. *)
Definition normalized_words (ud : unicodedata) (s : string) : list string :=
  findall_words
    (lower (_split_identifier (_strip_diacritics ud (normalize_NFKC ud (strip s))))).

(** The body of the loop of [tokenize]: a final [s] is cut from a token
    of more than three characters. *)
Definition singular (t : string) : string :=
  if (3 <? Z.of_nat (String.length t)) && ends_with_s t then drop_last t else t.

(** No result is followed by one of higher score. *)
Fixpoint descending (l : list MatchResult) : bool :=
  match l with
  | a :: (b :: _) as r => negb (score a <? score b)%float && descending r
  | _ => true
  end.

(** *** The rows of the Damerau-Levenshtein table *)

(** What the loop over [i] of [damerau_levenshtein] knows when it starts
    row [i]: [prev] is row [i - 1] and, from the second row on, [prev2] is
    row [i - 2]; no cell is below the distance of its indices. *)
Record dl_inv (lb i : nat) (prev2 prev : list Z) : Prop := mk_dl_inv {
  dl_len : List.length prev = S lb;
  dl_first : nth 0 prev 0 = Z.of_nat i - 1;
  dl_diag : forall j, (j <= lb)%nat -> Z.abs (Z.of_nat i - 1 - Z.of_nat j) <= nth j prev 0;
  dl_len2 : (1 < i)%nat -> List.length prev2 = S lb;
  dl_min2 : (1 < i)%nat -> list_min prev <= list_min prev2 + 1;
  dl_diag2 : forall j, (1 < i)%nat -> (j <= lb)%nat ->
               Z.abs (Z.of_nat i - 2 - Z.of_nat j) <= nth j prev2 0
}.

(** ** The lexicon builder ([lexicon_builder.py]) *)

(** [[a-z]] *)
Definition is_lower (c : ascii) : bool := in_range 97 122 c.

(** [[_\-]] *)
Definition is_sep (c : ascii) : bool := Ascii.eqb c "_" || Ascii.eqb c "-".

(** The number of leading characters that satisfy [p]. *)
Fixpoint run_length (p : ascii -> bool) (s : string) : nat :=
  match s with
  | String c r => if p c then S (run_length p r) else O
  | EmptyString => O
  end.

Definition upper_at (i : nat) (s : string) : bool :=
  match String.get i s with Some c => is_upper c | None => false end.

Definition lower_at (i : nat) (s : string) : bool :=
  match String.get i s with Some c => is_lower c | None => false end.

Module LexiconBuilder.

(** [re.sub(r"[_\-]+", " ", text)]: the scan goes from left to right; where
    a separator stands, the match is the whole run of separators, which is
    replaced by one space.  [skip] counts the characters of the last match
    still to pass. *)
Fixpoint sub_seps (skip : nat) (s : string) : string :=
  match s with
  | EmptyString => EmptyString
  | String c r =>
      match skip with
      | S n => sub_seps n r
      | O =>
          if is_sep c then String " " (sub_seps (run_length is_sep r) r)
          else String c (sub_seps 0 r)
      end
  end.

(** [re.sub(r"([a-z0-9])([A-Z])", r"\1 \2", text)]: a match is a character of
    [[a-z0-9]] followed by one of [[A-Z]]; both are consumed. *)
Fixpoint sub_camel (skip : nat) (s : string) : string :=
  match s with
  | EmptyString => EmptyString
  | String c r =>
      match skip with
      | S n => sub_camel n r
      | O =>
          match r with
          | String d _ =>
              if is_lower_digit c && is_upper d
              then String c (String " " (String d (sub_camel 1 r)))
              else String c (sub_camel 0 r)
          | EmptyString => String c EmptyString
          end
      end
  end.

(** A match of [([A-Z]+)([A-Z][a-z])] at the start of [s]: the group
    [[A-Z]+] first takes the whole run of capitals and gives characters back
    one by one until a capital and a lower-case letter follow; [Some k] when
    it ends up with [k] characters. *)
Fixpoint acronym_backtrack (k : nat) (s : string) : option nat :=
  match k with
  | O => None
  | S k' =>
      if upper_at k s && lower_at (S k) s then Some k
      else acronym_backtrack k' s
  end.

Definition acronym_match (s : string) : option nat :=
  acronym_backtrack (run_length is_upper s) s.

(** [re.sub(r"([A-Z]+)([A-Z][a-z])", r"\1 \2", text)] *)
Fixpoint sub_acronym (skip : nat) (s : string) : string :=
  match s with
  | EmptyString => EmptyString
  | String c r =>
      match skip with
      | S n => sub_acronym n r
      | O =>
          match acronym_match s with
          | Some k =>
              substring 0 k s +++ " " +++ substring k 2 s +++ sub_acronym (k + 1) r
          | None => String c (sub_acronym 0 r)
          end
      end
  end.

Definition tokenize (text : string) : string :=
  let text := sub_seps 0 text in
  let text := sub_camel 0 text in
  let text := sub_acronym 0 text in
  let tokens := findall_words (lower text) in
  join " " tokens.

(** [token[0]] for the tokens of [str.split], none of which is empty. *)
Definition first_char (token : string) : string :=
  match token with
  | String c _ => String c EmptyString
  | EmptyString => EmptyString
  end.

(** The abbreviation [build_lexicon_from_ontology] derives from the local
    name of a class: the entry it appends to [abbrevs], if any. *)
Definition class_abbrev (without_ns : string) : option (string * string) :=
  let words := tokenize without_ns in
  let ind_tokens := split words in
  if 2 <=? len ind_tokens then Some (join "" (map first_char ind_tokens), words)
  else None.

(** The loop that fills [abbrevs] over the local names of the classes. *)
Definition class_abbrevs (names : list string) : list (string * string) :=
  flat_map (fun n => match class_abbrev n with Some e => [e] | None => [] end) names.

(** The body of the loop that builds [abbrev_dict], for one entry
    [(abbr, full)] of [abbrevs]. *)
Definition add_abbrev (abbrev_dict : dict string (list string))
    (af : string * string) : dict string (list string) :=
  let abbrev_dict :=
    if dict_mem String.eqb abbrev_dict (fst af) then abbrev_dict
    else dict_set String.eqb abbrev_dict (fst af) [] in
  match dict_get String.eqb abbrev_dict (fst af) with
  | Some l => dict_set String.eqb abbrev_dict (fst af) (l ++ [snd af])
  | None => abbrev_dict
  end.

Definition group_abbrevs (abbrevs : list (string * string)) : dict string (list string) :=
  fold_left add_abbrev abbrevs [].

End LexiconBuilder.

(** ** The query server ([graframe_server.py]) *)

(** [s.split(sep)] for a separator of one character. *)
Fixpoint split_char (sep : ascii) (s : string) : list string :=
  match s with
  | EmptyString => [EmptyString]
  | String c r =>
      if Ascii.eqb c sep then EmptyString :: split_char sep r
      else match split_char sep r with
           | x :: rest => String c x :: rest
           | [] => [String c EmptyString]
           end
  end.

(** [s.split(sep, 1)] *)
Fixpoint split_once (sep : ascii) (s : string) : list string :=
  match s with
  | EmptyString => [EmptyString]
  | String c r =>
      if Ascii.eqb c sep then [EmptyString; r]
      else match split_once sep r with
           | x :: rest => String c x :: rest
           | [] => [String c EmptyString]
           end
  end.

(** [str(row[0]).split("#")[-1]] *)
Definition local_name (s : string) : string := last (split_char "#" s) "".

Definition BRICK : string := "https://brickschema.org/schema/Brick#".

(** [term.startswith("http://") or term.startswith("https://")] *)
Definition has_scheme (term : string) : bool :=
  String.prefix "http://" term || String.prefix "https://" term.

(** [as_brick_uri]; [term.split(":", 1)[1]] is evaluated only when [term]
    starts with [brick:], so that the index is in range. *)
Definition as_brick_uri (term : string) : string :=
  if has_scheme term then term
  else
    let term :=
      if String.prefix "brick:" term then nth 1 (split_once ":" term) ""
      else term in
    BRICK +++ term.

Module Server.

(** What a tool returns. *)
Inductive response : Type :=
| Dict (d : Snapshot)
| Text (s : string).

(** The tools that work on the global [query]; each takes its value and
    gives the value it leaves and what the call returns or raises.  The
    global is assigned only when the builder operation has returned. *)
Definition find_entity (query : Query) (class_ : string) (alias : option string)
    : Query * result response :=
  let query := find_entity query (as_brick_uri class_) alias in
  (query, Ok (Dict (to_dict query))).

Definition find_related_entities (query : Query) (_class : string)
    (alias _from : option string) (hops : Z) (predicates : option (list string))
    (multi_hop_predicates : bool) : Query * result response :=
  match find_related query (as_brick_uri _class) alias _from hops predicates
          multi_hop_predicates with
  | Ok q => (q, Ok (Dict (to_dict q)))
  | Raise e => (query, Raise e)
  end.

Definition find_points (query : Query) (_from alias : option string)
    : Query * result response :=
  match find_data query _from None None 3 None alias with
  | Ok q => (q, Ok (Dict (to_dict q)))
  | Raise e => (query, Raise e)
  end.

Definition get_sparql_query (query : Query) : Query * result response :=
  (query, match to_sparql query with Ok s => Ok (Text s) | Raise e => Raise e end).

Definition reset_query (query : Query) : Query * result response :=
  (empty_query, Ok (Text "ok")).

(** A call of one of these tools. *)
Inductive request : Type :=
| FindEntity (class_ : string) (alias : option string)
| FindRelatedEntities (_class : string) (alias _from : option string) (hops : Z)
    (predicates : option (list string)) (multi_hop_predicates : bool)
| FindPoints (_from alias : option string)
| GetSparqlQuery
| ResetQuery.

Definition serve (query : Query) (r : request) : Query * result response :=
  match r with
  | FindEntity c a => find_entity query c a
  | FindRelatedEntities c a f h ps m => find_related_entities query c a f h ps m
  | FindPoints f a => find_points query f a
  | GetSparqlQuery => get_sparql_query query
  | ResetQuery => reset_query query
  end.

(** The global [query] after a sequence of calls; the module starts with
    [query = Query()]. *)
Definition session (requests : list request) : Query :=
  fold_left (fun query r => fst (serve query r)) requests empty_query.

Section Matching.
Variable ud : unicodedata.
Variable SequenceMatcher_ratio : string -> string -> float.

(** [ontology.compute_qname(uri)] of rdflib, which may raise. *)
Variable compute_qname : string -> result (string * string * string).

(** The loop that fills [ret_dict]. *)
Fixpoint qname_loop (matches : list MatchResult) (ret_dict : dict string string)
    : result (dict string string) :=
  match matches with
  | [] => Ok ret_dict
  | m :: r =>
      q <- compute_qname (uri m) ;;
      qname_loop r (dict_set String.eqb ret_dict (label m) (snd q))
  end.

Definition expand_abbreviation (matcher : ConceptMatcher) (abbreviation : string)
    (k : Z) : result (list string) :=
  let closest_matches_matcher :=
    match_ ud SequenceMatcher_ratio matcher abbreviation (Some ["class"]) k 0.25 in
  ret_dict <- qname_loop closest_matches_matcher [] ;;
  Ok (dict_values ret_dict).

Definition find_close_uriref (matcher : ConceptMatcher) (search_string : string)
    (k : Z) : result (list string) :=
  let closest_matches_matcher :=
    match_ ud SequenceMatcher_ratio matcher search_string (Some ["class"]) k 0.25 in
  ret_dict <- qname_loop closest_matches_matcher [] ;;
  Ok (dict_values ret_dict).

End Matching.

End Server.

(** The local names [get_terms], [get_properties], [get_subclasses] and
    [get_brick_tags] return for the rows of a query result. *)
Definition local_names (rows : list string) : list string := map local_name rows.

(** A class of a node is a full URI. *)
Definition full_uri_class (n : QueryNode) : Prop :=
  exists c, rdf_class n = Some c /\ has_scheme c = true.

(** What holds of the global [query] of the server at all times. *)
Record server_invariant (q : Query) : Prop := mk_server_invariant {
  srv_reachable : reachable q;
  srv_no_data : data_nodes (query_graph q) = [];
  srv_dense : dense q;
  srv_classes : forall nid n,
    dict_get Z.eqb (nodes (query_graph q)) nid = Some n -> full_uri_class n
}.

(** No character of [s] is [sep]. *)
Definition free_of (sep : ascii) (s : string) : Prop :=
  string_forall (fun c => negb (Ascii.eqb c sep)) s = true.

(** ** What an operation writes, and what it makes its result of *)

(** [l] was allocated after the first [n0] objects, in a store of [n]. *)
Definition above (n0 n : nat) (l : Store.loc) : Prop := (n0 <= l < n)%nat.

(** The five containers of [g] were allocated after the first [n0]
    objects. *)
Definition fresh_graph (n0 n : nat) (g : Store.QueryGraph) : Prop :=
  above n0 n (Store.nodes g) /\ above n0 n (Store.edges g)
  /\ above n0 n (Store.aliases g) /\ above n0 n (Store.aliases_reverse g)
  /\ above n0 n (Store.data_nodes g).

(** A query made of new containers, with a new and empty cache. *)
Definition fresh_query (n0 : nat) (s : Store.store) (q : Store.Query) : Prop :=
  fresh_graph n0 (List.length s) (Store.query_graph q)
  /\ above n0 (List.length s) (Store.cache q)
  /\ Store.at_ s (Store.cache q) = Store.DictStr [].

(** A computation that is run in a store of at least [n1] objects keeps
    the property [I] of stores, only adds objects, and its result satisfies
    [post]. *)
Definition confined (I : Store.store -> Prop) (n1 : nat) {A} (m : Store.M A)
    (post : Store.store -> A -> Prop) : Prop :=
  forall s, (n1 <= List.length s)%nat -> I s ->
    I (fst (m s))
    /\ (List.length s <= List.length (fst (m s)))%nat
    /\ forall a, snd (m s) = Ok a -> post (fst (m s)) a.

(** The store has the first [n0] objects, and those of them that are in [c]
    are empty dicts. *)
Definition emptied (c : list Store.loc) (n0 : nat) (s : Store.store) : Prop :=
  (n0 <= List.length s)%nat
  /\ forall l, In l c -> (l < n0)%nat -> Store.at_ s l = Store.DictStr [].

(** The store after the [clear()] calls an operation starts with. *)
Definition clear_all (c : list Store.loc) (s : Store.store) : Store.store :=
  fold_left (fun s l => Store.update l (Store.DictStr []) s) c s.

(** The five containers of [g] are among the first [n] objects. *)
Definition graph_below (n : nat) (g : Store.QueryGraph) : Prop :=
  (Store.nodes g < n)%nat /\ (Store.edges g < n)%nat /\ (Store.aliases g < n)%nat
  /\ (Store.aliases_reverse g < n)%nat /\ (Store.data_nodes g < n)%nat.

(** The name [with_node] files a node under. *)
Definition store_node_name (node : Store.QueryNode) : string :=
  match Store.alias node with
  | Some x => if truthy x then x else str_of_int (Store.id node)
  | None => str_of_int (Store.id node)
  end.


(** A caller's store: a list of predicates at location 0 and a dict of
    filters at location 1; then [Query()], and [find_entity] on it. *)
Definition caller_store : Store.store :=
  [Store.ListStr ["urn:feeds"]; Store.DictStr [("unit", VStr "degC")]].

Definition caller_empty : Store.store * result Store.Query :=
  Store.empty_query caller_store.

Definition caller_entity : Store.store * result Store.Query :=
  Store.bindM Store.empty_query
    (fun q => Store.find_entity q "urn:Valve" (Some "valve")) caller_store.

Definition query_of (r : Store.store * result Store.Query) : Store.Query :=
  match snd r with
  | Ok q => q
  | Raise _ => Store.mkQuery (Store.mkQueryGraph 0%nat 0%nat 0%nat 0%nat None 0%nat) 0 0%nat
  end.



(** * Theorems: the query builder *)

Lemma find_data_loop_raises g n path c a h fs l i self lg cr :
  l <> [] ->
  find_data_loop g n path c a h fs l i self lg cr = Raise (AttributeError "service").
Proof.
  destruct l as [|x r]; [congruence|]. intros _. reflexivity.
Qed.

(** [find_data] returns on no input. *)
Lemma find_data_not_ok self _from path _class hops filters_dict alias :
  is_ok (find_data self _from path _class hops filters_dict alias) = false.
Proof.
  unfold find_data.
  destruct (is_all _from).
  - destruct (nodes (query_graph self)) as [|[k n] r] eqn:E; [reflexivity|].
    cbn [bind].
    rewrite find_data_loop_raises; [reflexivity|].
    unfold sorted, dict_keys. cbn [map fold_right].
    destruct (fold_right insert_sorted [] (map fst r)); cbn;
      [congruence | destruct (k <=? z); congruence].
  - destruct (resolve_alias (query_graph self) _from); reflexivity.
Qed.

(** C1. [find_data] is meant to return a new Query with one data node per
    resolved source.  The code never gets there: on every input it raises,
    and once the sources are resolved the exception is the [AttributeError]
    of [self.service]; so it is for the query holding one Valve node. *)
Theorem find_data_never_returns :
  (forall self _from path _class hops filters_dict alias,
      is_ok (find_data self _from path _class hops filters_dict alias) = false)
  /\ (forall self _from path _class hops filters_dict alias src,
      is_all _from = false ->
      resolve_alias (query_graph self) _from = Some src ->
      find_data self _from path _class hops filters_dict alias
        = Raise (AttributeError "service"))
  /\ find_data valve_query None None None 3 None None
       = Raise (AttributeError "service").
Proof.
  split; [|split].
  - intros. apply find_data_not_ok.
  - intros. unfold find_data. rewrite H, H0. reflexivity.
  - reflexivity.
Qed.

(** The merge of the data query with the Pump query: node 0 survives, still
    marked, and unregistered. *)
Lemma merged_data_query :
  exists q n,
    relate_to data_query pump_query None None 3 None = Ok q
    /\ dict_get Z.eqb (nodes (query_graph q)) 0 = Some n
    /\ is_data_node n = true
    /\ dict_mem Z.eqb (data_nodes (query_graph q)) 0 = false.
Proof.
  eexists. eexists. split; [reflexivity|].
  split; [reflexivity|]. split; reflexivity.
Qed.

(** C2. [relate_to] is meant to keep every data-node registration of both
    operands.  The merged graph is built without [data_nodes]: whatever the
    operands hold, the result registers none; so the data node of
    [Query().find_all_data(alias="d")] is still a node of the merged graph,
    still marked, and no longer registered. *)
Theorem relate_to_drops_data_nodes :
  (forall self other _from _to hops predicates,
      match relate_to self other _from _to hops predicates with
      | Ok q => data_nodes (query_graph q) = []
      | Raise _ => True
      end)
  /\ find_all_data empty_query None 3 None (Some "d") = Ok data_query
  /\ dict_mem Z.eqb (data_nodes (query_graph data_query)) 0 = true
  /\ exists q n,
       relate_to data_query pump_query None None 3 None = Ok q
       /\ dict_get Z.eqb (nodes (query_graph q)) 0 = Some n
       /\ is_data_node n = true
       /\ dict_mem Z.eqb (data_nodes (query_graph q)) 0 = false.
Proof.
  split; [|split; [|split]].
  - intros. unfold relate_to.
    destruct (match _from with Some _ => _ | None => _ end); [|exact I].
    destruct (match _to with Some _ => _ | None => _ end); [|exact I].
    destruct (merge_nodes _ _ _ _) as [om mn].
    destruct (merge_edges _ _ _); [|exact I]. cbn [bind].
    destruct (merge_aliases _ _ _ _); [|exact I]. cbn [bind].
    destruct (dict_at _ _ _); [|exact I]. reflexivity.
  - reflexivity.
  - reflexivity.
  - exact merged_data_query.
Qed.

Lemma data_query_reachable : reachable data_query.
Proof.
  eapply reach_find_all_data with (q := empty_query) (a := Some "d");
    [constructor | reflexivity].
Qed.

Lemma pump_query_reachable : reachable pump_query.
Proof. apply reach_find_entity. constructor. Qed.

(** C3. In a reachable Query a node is meant to be in [data_nodes] exactly
    when it is marked [is_data_node].  The query
    [Query().find_all_data(alias="d").relate_to(Query().find_entity("Pump", "pump"))]
    is reachable, its node 0 is marked, and its [data_nodes] is empty. *)
Theorem reachable_marked_node_unregistered :
  exists q, reachable q /\ ~ marked_nodes_registered (query_graph q).
Proof.
  destruct merged_data_query as (q & n & Hq & Hn & Hd & Hm).
  exists q. split.
  - eapply reach_relate_to; [apply data_query_reachable | apply pump_query_reachable | exact Hq].
  - intros H. specialize (H 0 n Hn Hd). congruence.
Qed.

(** *** Constrained multi-hop edges *)

Lemma append_assoc (a b c : string) : (a +++ b) +++ c = a +++ b +++ c.
Proof. induction a as [|x a IH]; cbn; [reflexivity | now rewrite IH]. Qed.

Lemma join_cons sep x l :
  l <> [] -> join sep (x :: l) = x +++ sep +++ join sep l.
Proof. destruct l; [congruence | reflexivity]. Qed.

Lemma alt_loop_run hops p l acc :
  (forall k, In k l -> k < hops) ->
  fold_left (alt_step hops p) (l ++ [hops]) acc
  = acc +++ join "|"
      (map (fun k => join "/" (repeat ("<" +++ p +++ ">") (Z.to_nat k))) (l ++ [hops])).
Proof.
  revert acc. induction l as [|k l IH]; intros acc Hl.
  - cbn. unfold alt_step. rewrite Z.ltb_irrefl. reflexivity.
  - cbn [app fold_left map]. rewrite IH by (intros; apply Hl; now right).
    unfold alt_step at 1.
    assert (Hk : (k <? hops) = true) by (apply Z.ltb_lt, Hl; now left).
    rewrite Hk, join_cons by (destruct l; discriminate).
    rewrite !append_assoc. reflexivity.
Qed.

Lemma range_last hops :
  1 <= hops ->
  exists l, range 1 (hops + 1) = l ++ [hops] /\ forall k, In k l -> k < hops.
Proof.
  intros H. unfold range.
  replace (hops + 1 - 1) with hops by lia.
  destruct (Z.to_nat hops) as [|m] eqn:E; [lia|].
  exists (map (fun i => 1 + Z.of_nat i) (seq 0 m)). split.
  - rewrite seq_S, map_app. cbn [map]. do 2 f_equal. lia.
  - intros k Hk. apply in_map_iff in Hk. destruct Hk as (i & <- & Hi).
    apply in_seq in Hi. lia.
Qed.

(** For one predicate the nested loops produce the alternation the
    specification describes. *)
Lemma alt_loop_single hops p :
  1 <= hops -> alt_loop hops [p] = alternation_spec hops [p].
Proof.
  intros H. destruct (range_last hops H) as (l & E & Hl).
  unfold alt_loop, alternation_spec. cbn [fold_left flat_map].
  rewrite app_nil_r, E, alt_loop_run by exact Hl. reflexivity.
Qed.

(** C4. For a constrained edge of more than one hop the compiler is meant to
    alternate, for every predicate, its chains of length 1 to [hops].  The
    inner loop writes no separator after the longest chain of a predicate,
    so with two predicates the last chain of the first runs into the first
    chain of the second: for [p], [q] and 2 hops the group is
    [(<p>|<p>/<p><q>|<q>/<q>)], not [(<p>|<p>/<p>|<q>|<q>/<q>)].  With a
    single predicate the group is the specified one, for every hop count. *)
Theorem edge_pattern_two_predicates :
  _edge_pattern "?v0" "?v1" (mkQueryEdge 0 1 2 (Some ["p"; "q"])) 0
    = Ok "?v0 (<p>|<p>/<p><q>|<q>/<q>) ?v1 ."
  /\ alternation_spec 2 ["p"; "q"] = "<p>|<p>/<p>|<q>|<q>/<q>"
  /\ alt_loop 2 ["p"; "q"] <> alternation_spec 2 ["p"; "q"]
  /\ (forall src_var tgt_var s t h p edge_idx,
        1 < h -> truthy p = true ->
        _edge_pattern src_var tgt_var (mkQueryEdge s t h (Some [p])) edge_idx
        = Ok (src_var +++ " " +++ ("(" +++ alternation_spec h [p] +++ ")")
                +++ " " +++ tgt_var +++ " ."))
  /\ alternation_spec 2 ["p"] = "<p>|<p>/<p>".
Proof.
  split; [reflexivity|]. split; [reflexivity|]. split; [discriminate|].
  split; [|reflexivity].
  intros src_var tgt_var s t h p edge_idx Hh Hp. unfold _edge_pattern. cbn [hops predicates].
  destruct (h <? 1) eqn:E1; [apply Z.ltb_lt in E1; lia|].
  cbn [filter]. rewrite Hp. cbn [uniq_loop existsb].
  destruct (h =? 1) eqn:E2; [apply Z.eqb_eq in E2; lia|].
  rewrite alt_loop_single by lia. reflexivity.
Qed.

(** *** Hop counts are validated by the compiler *)







(** * Theorems: [filter_data_nodes] *)

Section DictFacts.
Context {K V : Type} (eqb : K -> K -> bool).
Hypothesis eqb_eq : forall a b, eqb a b = true <-> a = b.

Lemma eqb_same a : eqb a a = true.
Proof. now apply eqb_eq. Qed.

Lemma eqb_diff a b : a <> b -> eqb a b = false.
Proof.
  intros H. destruct (eqb a b) eqn:E; [|reflexivity].
  apply eqb_eq in E. contradiction.
Qed.

Lemma dict_get_set_same (d : dict K V) k v :
  dict_get eqb (dict_set eqb d k v) k = Some v.
Proof.
  induction d as [|[k' v'] d IH]; cbn.
  - now rewrite eqb_same.
  - destruct (eqb k k') eqn:E; cbn; rewrite E; [reflexivity | exact IH].
Qed.

Lemma dict_get_set_other (d : dict K V) k k' v :
  k' <> k -> dict_get eqb (dict_set eqb d k v) k' = dict_get eqb d k'.
Proof.
  intros H. induction d as [|[k0 v0] d IH]; cbn.
  - now rewrite (eqb_diff k' k).
  - destruct (eqb k k0) eqn:E; cbn.
    + apply eqb_eq in E. subst k0. now rewrite (eqb_diff k' k).
    + now rewrite IH.
Qed.

Lemma dict_keys_set_present (d : dict K V) k v :
  dict_mem eqb d k = true -> dict_keys (dict_set eqb d k v) = dict_keys d.
Proof.
  unfold dict_mem, dict_keys. induction d as [|[k0 v0] d IH]; cbn; [discriminate|].
  destruct (eqb k k0) eqn:E; cbn; [reflexivity|].
  intros H. now rewrite IH.
Qed.

Lemma dict_mem_keys (d : dict K V) k :
  dict_mem eqb d k = existsb (eqb k) (dict_keys d).
Proof.
  unfold dict_mem, dict_keys. induction d as [|[k0 v0] d IH]; cbn; [reflexivity|].
  destruct (eqb k k0); [reflexivity | exact IH].
Qed.

Lemma dict_mem_in_keys (d : dict K V) k :
  dict_mem eqb d k = true <-> In k (dict_keys d).
Proof.
  rewrite dict_mem_keys, existsb_exists. split.
  - intros (x & Hx & E). apply eqb_eq in E. now subst.
  - intros H. exists k. split; [exact H | apply eqb_same].
Qed.
Lemma dict_mem_set (d : dict K V) k v k' :
  dict_mem eqb (dict_set eqb d k v) k' = eqb k' k || dict_mem eqb d k'.
Proof.
  unfold dict_mem. destruct (eqb k' k) eqn:E.
  - apply eqb_eq in E. subst k'. now rewrite dict_get_set_same.
  - rewrite dict_get_set_other; [reflexivity|].
    intros ->. now rewrite eqb_same in E.
Qed.
End DictFacts.

Lemma in_insert_sorted x y l : In x (insert_sorted y l) <-> x = y \/ In x l.
Proof.
  induction l as [|z l IH]; cbn.
  - intuition.
  - destruct (y <=? z); cbn; [intuition | rewrite IH; intuition].
Qed.

Lemma in_sorted x l : In x (sorted l) <-> In x l.
Proof.
  unfold sorted. induction l as [|y l IH]; cbn; [tauto|].
  rewrite in_insert_sorted, IH. intuition.
Qed.

Lemma in_dedup_Z x l : In x (dedup_Z l) <-> In x l.
Proof.
  induction l as [|y l IH]; cbn; [tauto|].
  destruct (existsb (Z.eqb y) l) eqn:E.
  - rewrite IH. split; [auto|]. intros [->|H]; [|exact H].
    apply existsb_exists in E. destruct E as (z & Hz & E).
    apply Z.eqb_eq in E. now subst.
  - cbn. rewrite IH. tauto.
Qed.

(** Everything [_select_data_node_ids] returns is a registered data node. *)
Lemma select_in_data_nodes self _from ts :
  _select_data_node_ids self _from = Ok ts ->
  forall t, In t ts -> dict_mem Z.eqb (data_nodes (query_graph self)) t = true.
Proof.
  unfold _select_data_node_ids.
  set (g := query_graph self).
  assert (Hall : forall t, In t (sorted (dict_keys (data_nodes g))) ->
                           dict_mem Z.eqb (data_nodes g) t = true).
  { intros t Ht. apply (dict_mem_in_keys Z.eqb Z.eqb_eq). now apply in_sorted. }
  destruct (data_nodes g) as [|kv dn] eqn:Edn; [discriminate|].
  rewrite <- Edn in *. clear Edn.
  destruct (is_all _from).
  - intros [= <-]. exact Hall.
  - destruct _from as [a|].
    + destruct (resolve_alias g (Some a)) as [rid|]; [|discriminate].
      destruct (dict_mem Z.eqb (data_nodes g) rid) eqn:Em.
      * intros [= <-] t [<-|[]]. exact Em.
      * intros [= <-] t Ht. apply in_sorted, in_dedup_Z, in_map_iff in Ht.
        destruct Ht as (e & <- & He). apply filter_In in He.
        destruct He as [_ He]. apply andb_true_iff in He. tauto.
    + destruct (current_pointer g) as [pid|].
      * destruct (dict_mem Z.eqb (data_nodes g) pid) eqn:Em.
        -- intros [= <-] t [<-|[]]. exact Em.
        -- intros [= <-]. exact Hall.
      * intros [= <-]. exact Hall.
Qed.

(** What the loop of [filter_data_nodes] does to the registrations: the keys
    stay, every target gets [predicate -> v] and keeps its other entries,
    every other registration is left as it was. *)
Lemma set_filters_spec predicate v ts : forall dn,
  (forall t, In t ts -> dict_mem Z.eqb dn t = true) ->
  exists dn',
    set_filters predicate v ts dn = Ok dn'
    /\ dict_keys dn' = dict_keys dn
    /\ (forall t, In t ts ->
          exists i i',
            dict_get Z.eqb dn t = Some i /\ dict_get Z.eqb dn' t = Some i'
            /\ node_id i' = node_id i
            /\ dict_get String.eqb (filters i') predicate = Some v
            /\ forall p, p <> predicate ->
                 dict_get String.eqb (filters i') p = dict_get String.eqb (filters i) p)
    /\ (forall t, ~ In t ts -> dict_get Z.eqb dn' t = dict_get Z.eqb dn t).
Proof.
  induction ts as [|nid r IH]; intros dn Hin.
  - exists dn. cbn. repeat split; auto. intros t [].
  - cbn [set_filters]. unfold dict_at.
    assert (Hn : dict_mem Z.eqb dn nid = true) by (apply Hin; now left).
    unfold dict_mem in Hn.
    destruct (dict_get Z.eqb dn nid) as [info|] eqn:Ei; [|discriminate].
    cbn [bind].
    set (info1 := mkDataNodeInfo (node_id info)
                    (dict_set String.eqb (filters info) predicate v)).
    set (dn1 := dict_set Z.eqb dn nid info1).
    assert (Hk1 : dict_keys dn1 = dict_keys dn).
    { apply (dict_keys_set_present Z.eqb). unfold dict_mem. now rewrite Ei. }
    destruct (IH dn1) as (dn' & Hrun & Hk & Hin' & Hout').
    { intros t Ht. rewrite (dict_mem_keys Z.eqb), Hk1, <- (dict_mem_keys Z.eqb).
      apply Hin. now right. }
    exists dn'. split; [exact Hrun|]. split; [congruence|]. split.
    + intros t Ht.
      destruct (in_dec Z.eq_dec t r) as [Hr|Hr].
      * destruct (Hin' t Hr) as (i & i' & G1 & G2 & G3 & G4 & G5).
        destruct (Z.eq_dec t nid) as [->|Hne].
        -- subst dn1. rewrite (dict_get_set_same Z.eqb Z.eqb_eq) in G1.
           injection G1 as <-. exists info, i'. repeat split; auto.
           intros p Hp. rewrite G5 by exact Hp. cbn.
           apply (dict_get_set_other String.eqb String.eqb_eq). exact Hp.
        -- subst dn1. rewrite (dict_get_set_other Z.eqb Z.eqb_eq) in G1 by exact Hne.
           exists i, i'. repeat split; auto.
      * destruct Ht as [<-|Ht]; [|contradiction].
        exists info, info1. split; [exact Ei|]. split.
        { rewrite (Hout' nid Hr). subst dn1.
          apply (dict_get_set_same Z.eqb Z.eqb_eq). }
        split; [reflexivity|]. split.
        { cbn. apply (dict_get_set_same String.eqb String.eqb_eq). }
        intros p Hp. cbn.
        apply (dict_get_set_other String.eqb String.eqb_eq). exact Hp.
    + intros t Ht. rewrite Hout' by (intros H; apply Ht; now right).
      subst dn1. apply (dict_get_set_other Z.eqb Z.eqb_eq).
      intros ->. apply Ht. now left.
Qed.

(** The selection looks at [data_nodes] through its keys only. *)
Lemma select_same_keys q1 q2 _from :
  edges (query_graph q2) = edges (query_graph q1) ->
  aliases (query_graph q2) = aliases (query_graph q1) ->
  current_pointer (query_graph q2) = current_pointer (query_graph q1) ->
  dict_keys (data_nodes (query_graph q2)) = dict_keys (data_nodes (query_graph q1)) ->
  _select_data_node_ids q2 _from = _select_data_node_ids q1 _from.
Proof.
  intros He Ha Hp Hk. unfold _select_data_node_ids, resolve_alias.
  rewrite He, Ha, Hp, Hk.
  assert (Hm : forall t, dict_mem Z.eqb (data_nodes (query_graph q2)) t
                         = dict_mem Z.eqb (data_nodes (query_graph q1)) t).
  { intros t. now rewrite !(dict_mem_keys Z.eqb), Hk. }
  assert (Hf : forall rid,
    filter (fun e => (source_id e =? rid)
                     && dict_mem Z.eqb (data_nodes (query_graph q2)) (target_id e))
           (edges (query_graph q1))
    = filter (fun e => (source_id e =? rid)
                       && dict_mem Z.eqb (data_nodes (query_graph q1)) (target_id e))
             (edges (query_graph q1))).
  { intros rid. apply filter_ext. intros e. now rewrite Hm. }
  destruct (data_nodes (query_graph q2)) as [|a2 d2] eqn:E2;
    destruct (data_nodes (query_graph q1)) as [|a1 d1] eqn:E1;
    try discriminate; [reflexivity|].
  rewrite <- E1, <- E2 in *.
  destruct (is_all _from); [reflexivity|].
  destruct _from as [a|].
  - destruct (dict_get String.eqb (aliases (query_graph q1)) a) as [rid|]; [|reflexivity].
    rewrite Hm, Hf. reflexivity.
  - destruct (current_pointer (query_graph q1)) as [pid|]; [|reflexivity].
    rewrite Hm. reflexivity.
Qed.

(** A non-empty selection makes [filter_data_nodes] succeed; the new graph
    differs from the old one in [data_nodes] only. *)
Lemma filter_data_nodes_run self predicate v _from ts :
  _select_data_node_ids self _from = Ok ts -> ts <> [] ->
  exists dn',
    set_filters predicate v ts (data_nodes (query_graph self)) = Ok dn'
    /\ filter_data_nodes self predicate v _from
       = Ok (_clone_with_graph self
               (mkQueryGraph (nodes (query_graph self)) (edges (query_graph self))
                  (aliases (query_graph self)) (aliases_reverse (query_graph self))
                  (current_pointer (query_graph self)) dn') false).
Proof.
  intros Hs Hne.
  destruct (set_filters_spec predicate v ts (data_nodes (query_graph self))
              (select_in_data_nodes self _from ts Hs)) as (dn' & Hrun & _).
  exists dn'. split; [exact Hrun|].
  unfold filter_data_nodes. rewrite Hs. cbn [bind].
  destruct ts; [congruence|]. rewrite Hrun. reflexivity.
Qed.




(** * Theorems: what holds of every reachable query *)

Lemma mem_set_mono (d : dict Z QueryNode) k v k' :
  dict_mem Z.eqb d k' = true -> dict_mem Z.eqb (dict_set Z.eqb d k v) k' = true.
Proof.
  intros H. rewrite (dict_mem_set Z.eqb Z.eqb_eq), H. apply orb_true_r.
Qed.

Lemma mem_set_same (d : dict Z QueryNode) k v :
  dict_mem Z.eqb (dict_set Z.eqb d k v) k = true.
Proof. now rewrite (dict_mem_set Z.eqb Z.eqb_eq), Z.eqb_refl. Qed.

Lemma resolve_alias_closed g f src :
  aliases_closed g -> pointer_closed g ->
  resolve_alias g f = Some src -> dict_mem Z.eqb (nodes g) src = true.
Proof.
  intros Ha Hp. destruct f as [a|]; cbn; [apply Ha | apply Hp].
Qed.

(** [with_node] keeps the three closure properties. *)
Lemma with_node_closed g node :
  edges_closed g -> aliases_closed g -> pointer_closed g ->
  edges_closed (with_node g node) /\ aliases_closed (with_node g node)
  /\ pointer_closed (with_node g node).
Proof.
  intros He Ha Hp. unfold with_node. split; [|split].
  - intros e Hin. cbn in *. destruct (He e Hin). split; now apply mem_set_mono.
  - intros a nid. cbn [aliases nodes].
    set (name := match alias node with Some _ => _ | None => _ end).
    destruct (String.eqb a name) eqn:E.
    + apply String.eqb_eq in E. subst a.
      rewrite (dict_get_set_same String.eqb String.eqb_eq). intros [= <-].
      apply mem_set_same.
    + rewrite (dict_get_set_other String.eqb String.eqb_eq)
        by (intros ->; now rewrite String.eqb_refl in E).
      intros H. apply mem_set_mono. now apply (Ha a).
  - intros p [= <-]. cbn. apply mem_set_same.
Qed.

Lemma with_edge_closed g edge p :
  edges_closed g -> aliases_closed g -> pointer_closed g ->
  dict_mem Z.eqb (nodes g) (source_id edge) = true ->
  dict_mem Z.eqb (nodes g) (target_id edge) = true ->
  (forall x, p = Some x -> dict_mem Z.eqb (nodes g) x = true) ->
  edges_closed (with_edge g edge p) /\ aliases_closed (with_edge g edge p)
  /\ pointer_closed (with_edge g edge p).
Proof.
  intros He Ha Hp Hs Ht Hx. unfold with_edge. split; [|split].
  - intros e Hin. cbn in *. apply in_app_or in Hin.
    destruct Hin as [Hin|[<-|[]]]; auto.
  - exact Ha.
  - intros x. cbn. destruct p as [y|]; [intros [= <-]; now apply Hx | apply Hp].
Qed.

(** The node loop of [relate_to]: every mapped id is a key of the merged
    nodes, and the keys already there stay. *)
Lemma merge_nodes_closed mx l : forall om mn,
  (forall k v, dict_get Z.eqb om k = Some v -> dict_mem Z.eqb mn v = true) ->
  (forall k v, dict_get Z.eqb (fst (merge_nodes mx l om mn)) k = Some v ->
     dict_mem Z.eqb (snd (merge_nodes mx l om mn)) v = true)
  /\ (forall k, dict_mem Z.eqb mn k = true ->
        dict_mem Z.eqb (snd (merge_nodes mx l om mn)) k = true).
Proof.
  induction l as [|[nid node] l IH]; intros om mn H; cbn [merge_nodes].
  - split; [exact H | auto].
  - destruct (IH (dict_set Z.eqb om nid (mx + 1 + nid))
                 (dict_set Z.eqb mn (mx + 1 + nid) node)) as [H1 H2].
    + intros k v. destruct (Z.eq_dec k nid) as [->|Hne].
      * rewrite (dict_get_set_same Z.eqb Z.eqb_eq). intros [= <-].
        apply mem_set_same.
      * rewrite (dict_get_set_other Z.eqb Z.eqb_eq) by exact Hne.
        intros Hk. apply mem_set_mono. now apply (H k).
    + split; [exact H1|]. intros k Hk. apply H2. now apply mem_set_mono.
Qed.

Lemma merge_edges_closed (mn : dict Z QueryNode) om l : forall acc es,
  (forall k v, dict_get Z.eqb om k = Some v -> dict_mem Z.eqb mn v = true) ->
  (forall e, In e acc -> dict_mem Z.eqb mn (source_id e) = true
                         /\ dict_mem Z.eqb mn (target_id e) = true) ->
  merge_edges om l acc = Ok es ->
  forall e, In e es -> dict_mem Z.eqb mn (source_id e) = true
                       /\ dict_mem Z.eqb mn (target_id e) = true.
Proof.
  induction l as [|x l IH]; intros acc es Hom Hacc; cbn [merge_edges].
  - intros [= <-]. exact Hacc.
  - unfold dict_at.
    destruct (dict_get Z.eqb om (source_id x)) as [s|] eqn:Es; [|discriminate].
    destruct (dict_get Z.eqb om (target_id x)) as [t|] eqn:Et; [|discriminate].
    cbn [bind]. apply IH; [exact Hom|].
    intros e Hin. apply in_app_or in Hin. destruct Hin as [Hin|[<-|[]]]; [auto|].
    cbn. split; [now apply (Hom _ _ Es) | now apply (Hom _ _ Et)].
Qed.

Lemma merge_aliases_closed (mn : dict Z QueryNode) om l : forall ma mr res,
  (forall k v, dict_get Z.eqb om k = Some v -> dict_mem Z.eqb mn v = true) ->
  (forall a nid, dict_get String.eqb ma a = Some nid -> dict_mem Z.eqb mn nid = true) ->
  merge_aliases om l ma mr = Ok res ->
  forall a nid, dict_get String.eqb (fst res) a = Some nid ->
    dict_mem Z.eqb mn nid = true.
Proof.
  induction l as [|[name nid0] l IH]; intros ma mr res Hom Hma; cbn [merge_aliases].
  - intros [= <-]. exact Hma.
  - unfold dict_at.
    destruct (dict_get Z.eqb om nid0) as [m|] eqn:Em; [|discriminate].
    cbn [bind]. apply IH; [exact Hom|].
    intros a nid. destruct (String.eqb a name) eqn:E.
    + apply String.eqb_eq in E. subst a.
      rewrite (dict_get_set_same String.eqb String.eqb_eq). intros [= <-].
      now apply (Hom _ _ Em).
    + rewrite (dict_get_set_other String.eqb String.eqb_eq)
        by (intros ->; now rewrite String.eqb_refl in E).
      apply Hma.
Qed.

Lemma relate_to_closed self other f t h ps q :
  well_formed self ->
  relate_to self other f t h ps = Ok q ->
  edges_closed (query_graph q) /\ aliases_closed (query_graph q)
  /\ pointer_closed (query_graph q) /\ data_nodes (query_graph q) = [].
Proof.
  intros [He Ha Hp _]. unfold relate_to. cbv zeta.
  destruct (match f with Some _ => _ | None => _ end) as [src|] eqn:Esrc; [|discriminate].
  destruct (match t with Some _ => _ | None => _ end) as [tgt|]; [|discriminate].
  assert (Hsrc : dict_mem Z.eqb (nodes (query_graph self)) src = true).
  { destruct f; [now apply (resolve_alias_closed _ _ _ Ha Hp Esrc) | now apply Hp]. }
  destruct (merge_nodes _ _ _ _) as [om mn] eqn:Emn.
  pose proof (merge_nodes_closed
                (max_key (dict_keys (nodes (query_graph self))))
                (nodes (query_graph other)) [] (nodes (query_graph self))) as Hm.
  rewrite Emn in Hm. cbn [fst snd] in Hm.
  destruct Hm as [Hom Hmono]; [intros k v; discriminate|].
  destruct (merge_edges om _ _) as [es|] eqn:Ees; [|discriminate]. cbn [bind].
  destruct (merge_aliases om _ _ _) as [al|] eqn:Eal; [|discriminate]. cbn [bind].
  unfold dict_at. destruct (dict_get Z.eqb om tgt) as [nt|] eqn:Ent; [|discriminate].
  cbn [bind]. intros [= <-]. cbn [query_graph Query_].
  assert (Hes : forall e, In e es -> dict_mem Z.eqb mn (source_id e) = true
                                     /\ dict_mem Z.eqb mn (target_id e) = true).
  { eapply merge_edges_closed; [exact Hom | | exact Ees].
    intros e Hin. destruct (He e Hin). split; now apply Hmono. }
  assert (Hal : forall a nid, dict_get String.eqb (fst al) a = Some nid ->
                              dict_mem Z.eqb mn nid = true).
  { eapply merge_aliases_closed; [exact Hom | | exact Eal].
    intros a nid H. apply Hmono. now apply (Ha a). }
  destruct (with_edge_closed
              (mkQueryGraph mn es (fst al) (snd al) (Some src) [])
              (mkQueryEdge src nt h ps) (Some nt)) as (G1 & G2 & G3).
  - exact Hes.
  - exact Hal.
  - intros p [= <-]. now apply Hmono.
  - now apply Hmono.
  - now apply (Hom _ _ Ent).
  - intros x [= <-]. now apply (Hom _ _ Ent).
  - auto.
Qed.

Lemma marked_after_set g nid node :
  (forall k, dict_mem Z.eqb (nodes g) k = true -> k <> nid) ->
  data_nodes_marked g ->
  forall k, dict_mem Z.eqb (data_nodes g) k = true ->
    exists n, dict_get Z.eqb (dict_set Z.eqb (nodes g) nid node) k = Some n
              /\ is_data_node n = true.
Proof.
  intros Hfresh Hm k Hk. destruct (Hm k Hk) as (n & Hn & Hd).
  exists n. split; [|exact Hd].
  rewrite (dict_get_set_other Z.eqb Z.eqb_eq); [exact Hn|].
  apply Hfresh. unfold dict_mem. now rewrite Hn.
Qed.

Lemma find_entity_well_formed q cl al :
  well_formed q -> well_formed (find_entity q cl al).
Proof.
  intros [He Ha Hp Hd]. unfold find_entity, _clone_with_graph, Query_, _new_id.
  destruct (with_node_closed (query_graph q)
              (mkQueryNode (_next_id q) (Some cl) al []) He Ha Hp) as (G1 & G2 & G3).
  split; cbn [query_graph]; auto.
  destruct Hd as [Hd|[Hi Hm]]; [left; exact Hd | right]. split.
  - intros nid. cbn. rewrite (dict_mem_set Z.eqb Z.eqb_eq).
    intros H. apply orb_true_iff in H. destruct H as [H|H].
    + apply Z.eqb_eq in H. lia.
    + specialize (Hi nid H). lia.
  - intros k Hk. cbn in Hk. cbn [nodes with_node].
    apply marked_after_set; auto.
    intros k' Hk'. specialize (Hi k' Hk'). cbn [id]. lia.
Qed.

Lemma find_related_well_formed q cl al f h ps m q' :
  well_formed q -> find_related q cl al f h ps m = Ok q' -> well_formed q'.
Proof.
  intros [He Ha Hp Hd]. unfold find_related.
  destruct (resolve_alias (query_graph q) f) as [src|] eqn:Es; [|discriminate].
  pose proof (resolve_alias_closed _ _ _ Ha Hp Es) as Hsrc.
  intros [= <-]. unfold _clone_with_graph, Query_, _new_id.
  set (node := mkQueryNode (_next_id q) (Some cl) al []).
  destruct (with_node_closed (query_graph q) node He Ha Hp) as (G1 & G2 & G3).
  match goal with |- context [with_edge _ ?e _] => set (edge := e) end.
  assert (Hedge : source_id edge = src /\ target_id edge = _next_id q).
  { subst edge. destruct (match ps with Some (_ :: _) => true | _ => false end), m;
      cbn; auto. }
  destruct Hedge as [E1 E2].
  destruct (with_edge_closed (with_node (query_graph q) node) edge
              (Some (_next_id q)) G1 G2 G3) as (K1 & K2 & K3).
  - rewrite E1. cbn. now apply mem_set_mono.
  - rewrite E2. cbn. apply mem_set_same.
  - intros x [= <-]. cbn. apply mem_set_same.
  - split; cbn [query_graph]; auto.
    destruct Hd as [Hd|[Hi Hm]]; [left; exact Hd | right]. split.
    + intros nid. cbn. rewrite (dict_mem_set Z.eqb Z.eqb_eq).
      intros H. apply orb_true_iff in H. destruct H as [H|H].
      * apply Z.eqb_eq in H. lia.
      * specialize (Hi nid H). lia.
    + intros k Hk. cbn in Hk. cbn [nodes with_node with_edge].
      apply marked_after_set; auto.
      intros k' Hk'. specialize (Hi k' Hk'). subst node. cbn [id]. lia.
Qed.

Lemma relate_to_well_formed q o f t h ps q' :
  well_formed q -> relate_to q o f t h ps = Ok q' -> well_formed q'.
Proof.
  intros Hq Hr. destruct (relate_to_closed _ _ _ _ _ _ _ Hq Hr) as (G1 & G2 & G3 & G4).
  split; auto.
Qed.

Lemma find_data_well_formed q f p cl h fs al q' :
  find_data q f p cl h fs al = Ok q' -> well_formed q'.
Proof.
  intros H. pose proof (find_data_not_ok q f p cl h fs al) as N.
  rewrite H in N. discriminate.
Qed.

Lemma find_all_data_well_formed q cl h fs al q' :
  well_formed q -> find_all_data q cl h fs al = Ok q' -> well_formed q'.
Proof.
  intros [He Ha Hp Hd]. unfold find_all_data.
  destruct (nodes (query_graph q)) as [|kv r] eqn:En;
    [|apply find_data_well_formed].
  intros [= <-]. unfold _clone_with_graph, Query_, _add_data_node, _new_id.
  cbn [fst query_graph].
  set (node := mkQueryNode (_next_id q) _ al _).
  destruct (with_node_closed (query_graph q) node He Ha Hp) as (G1 & G2 & G3).
  split; cbn [query_graph with_data_node nodes edges aliases current_pointer
              data_nodes node_id].
  - exact G1.
  - exact G2.
  - intros p [= <-]. apply mem_set_same.
  - right. split.
    + intros nid. cbn [nodes with_node with_data_node query_graph _next_id].
      rewrite (dict_mem_set Z.eqb Z.eqb_eq). intros H.
      apply orb_true_iff in H. destruct H as [H|H].
      * apply Z.eqb_eq in H. subst node. cbn [id] in H. lia.
      * rewrite En in H. discriminate.
    + intros nid. cbn [with_node with_data_node nodes data_nodes node_id].
      rewrite (dict_mem_set Z.eqb Z.eqb_eq). intros H.
      apply orb_true_iff in H. destruct H as [H|H].
      * apply Z.eqb_eq in H. subst nid. exists node. split.
        -- apply (dict_get_set_same Z.eqb Z.eqb_eq).
        -- reflexivity.
      * destruct Hd as [Hd|[_ Hm]].
        -- rewrite Hd in H. discriminate.
        -- destruct (Hm nid H) as (n & Hn & _). rewrite En in Hn. discriminate.
Qed.

Lemma filter_data_nodes_well_formed q p v f q' :
  well_formed q -> filter_data_nodes q p v f = Ok q' -> well_formed q'.
Proof.
  intros [He Ha Hp Hd] Hf.
  destruct (_select_data_node_ids q f) as [ts|e] eqn:Es.
  2:{ unfold filter_data_nodes in Hf. rewrite Es in Hf. discriminate. }
  destruct ts as [|t0 ts].
  { unfold filter_data_nodes in Hf. rewrite Es in Hf. discriminate. }
  destruct (filter_data_nodes_run q p v f (t0 :: ts) Es) as (dn' & Hrun & Hq);
    [discriminate|].
  rewrite Hq in Hf. injection Hf as <-.
  destruct (set_filters_spec p v (t0 :: ts) (data_nodes (query_graph q))
              (select_in_data_nodes q f _ Es)) as (dn0 & Hrun0 & Hk & _).
  assert (dn0 = dn') by congruence. subst dn0.
  split; cbn [query_graph _clone_with_graph Query_ nodes edges aliases
              current_pointer data_nodes]; auto.
  destruct Hd as [Hd|[Hi Hm]].
  - unfold _select_data_node_ids in Es. rewrite Hd in Es. discriminate.
  - right. split.
    + intros nid H. specialize (Hi nid H). cbn. lia.
    + intros nid. cbn [data_nodes nodes].
      rewrite (dict_mem_keys Z.eqb), Hk, <- (dict_mem_keys Z.eqb). apply Hm.
Qed.

(** Every reachable query is well formed. *)
Lemma reachable_well_formed q : reachable q -> well_formed q.
Proof.
  induction 1.
  - split.
    + intros e [].
    + intros a nid. discriminate.
    + intros p. discriminate.
    + left. reflexivity.
  - now apply find_entity_well_formed.
  - eapply find_related_well_formed; eauto.
  - eapply relate_to_well_formed; [|eassumption]. assumption.
  - eapply find_data_well_formed; eauto.
  - eapply find_all_data_well_formed; eauto.
  - eapply filter_data_nodes_well_formed; eauto.
Qed.

(** The part of the invariant that holds: in every reachable query the edges
    join existing nodes, and every registered data node is a marked node. *)
Lemma reachable_edges_closed q :
  reachable q ->
  edges_closed (query_graph q) /\ data_nodes_marked (query_graph q).
Proof.
  intros H. destruct (reachable_well_formed q H) as [He _ _ Hd].
  split; [exact He|].
  destruct Hd as [Hd|[_ Hm]]; [|exact Hm].
  intros nid Hn. rewrite Hd in Hn. discriminate.
Qed.

(** * Theorems: text normalization *)

Lemma string_forall_app p a b :
  string_forall p (a +++ b) = string_forall p a && string_forall p b.
Proof.
  induction a as [|c a IH]; cbn; [reflexivity|].
  now rewrite IH, andb_assoc.
Qed.

Lemma string_forall_impl (p q : ascii -> bool) s :
  (forall c, p c = true -> q c = true) ->
  string_forall p s = true -> string_forall q s = true.
Proof.
  intros H. induction s as [|c s IH]; cbn; [reflexivity|].
  intros E. apply andb_true_iff in E. destruct E as [E1 E2].
  now rewrite (H c E1), IH.
Qed.

Lemma append_empty_r s : s +++ "" = s.
Proof. induction s as [|c s IH]; cbn; [reflexivity | now rewrite IH]. Qed.

Lemma truthy_app_r a b : truthy b = true -> truthy (a +++ b) = true.
Proof. destruct a; cbn; auto. Qed.

Lemma truthy_app_l a b : truthy a = true -> truthy (a +++ b) = true.
Proof. destruct a; cbn; [discriminate | auto]. Qed.

(** Character facts, by enumeration of the 256 characters. *)
Lemma lower_char_not_upper c : is_upper (lower_char c) = false.
Proof. destruct c as [[] [] [] [] [] [] [] []]; reflexivity. Qed.

Lemma word_not_upper c : is_word c = true -> is_upper c = false -> is_lower_digit c = true.
Proof. unfold is_word. intros H E. rewrite E in H. exact H. Qed.

Lemma lower_digit_facts c :
  is_lower_digit c = true ->
  isspace c = false /\ is_upper c = false /\ is_word c = true
  /\ lower_char c = c /\ Ascii.eqb c "_" = false /\ Ascii.eqb c "-" = false.
Proof.
  destruct c as [[] [] [] [] [] [] [] []]; cbn; intros H;
    try discriminate H; repeat split.
Qed.

Lemma plain_char_facts c :
  plain_char c = true ->
  is_upper c = false /\ lower_char c = c
  /\ Ascii.eqb c "_" = false /\ Ascii.eqb c "-" = false.
Proof.
  destruct c as [[] [] [] [] [] [] [] []]; cbn; intros H;
    try discriminate H; repeat split.
Qed.

(** Every run is non-empty and satisfies [q], when the kept characters of
    the input and the run being read do. *)
Lemma runs_from_forall (keep q : ascii -> bool) s : forall cur t,
  string_forall (fun c => implb (keep c) (q c)) s = true ->
  string_forall q cur = true ->
  In t (runs_from keep s cur) ->
  truthy t = true /\ string_forall q t = true.
Proof.
  induction s as [|c s IH]; intros cur t Hs Hcur; cbn.
  - destruct (truthy cur) eqn:E; [|intros []].
    intros [<-|[]]. auto.
  - cbn in Hs. apply andb_true_iff in Hs. destruct Hs as [Hc Hs].
    destruct (keep c) eqn:Ek.
    + apply IH; [exact Hs|]. rewrite string_forall_app, Hcur. cbn.
      cbn in Hc. now rewrite Hc.
    + intros Hin. apply in_app_or in Hin. destruct Hin as [Hin|Hin].
      * destruct (truthy cur) eqn:E; [|destruct Hin].
        destruct Hin as [<-|[]]. auto.
      * apply (IH "" t Hs eq_refl Hin).
Qed.

Lemma lower_forall_not_upper s :
  string_forall (fun c => implb (is_word c) (is_lower_digit c)) (lower s) = true.
Proof.
  induction s as [|c s IH]; cbn; [reflexivity|].
  rewrite IH, andb_true_r.
  destruct (is_word (lower_char c)) eqn:E; [|reflexivity]. cbn.
  apply word_not_upper; [exact E | apply lower_char_not_upper].
Qed.

(** The tokens of a normalized text are lower words. *)
Lemma findall_lower_words s t :
  In t (findall_words (lower s)) -> lower_word t.
Proof.
  intros H. unfold lower_word.
  apply (runs_from_forall is_word is_lower_digit (lower s) "" t);
    [apply lower_forall_not_upper | reflexivity | exact H].
Qed.

Lemma runs_from_app_keep keep t : forall s cur,
  string_forall keep t = true ->
  runs_from keep (t +++ s) cur = runs_from keep s (cur +++ t).
Proof.
  induction t as [|c t IH]; intros s cur H; cbn.
  - now rewrite append_empty_r.
  - cbn in H. apply andb_true_iff in H. destruct H as [Hc Ht].
    rewrite Hc, IH by exact Ht. now rewrite append_assoc.
Qed.

(** Reading back the words of a text made of lower words and single spaces. *)
Lemma findall_join toks :
  Forall lower_word toks -> findall_words (join " " toks) = toks.
Proof.
  unfold findall_words. induction 1 as [|t ts [Ht Hw] Hts IH]; [reflexivity|].
  assert (Hk : string_forall is_word t = true).
  { apply (string_forall_impl is_lower_digit); [|exact Hw].
    intros c Hc. apply lower_digit_facts in Hc. tauto. }
  destruct ts as [|u ts].
  - cbn [join]. rewrite <- (append_empty_r t) at 1.
    rewrite runs_from_app_keep by exact Hk. cbn. now rewrite Ht.
  - rewrite join_cons by discriminate.
    rewrite runs_from_app_keep by exact Hk. cbn [append runs_from].
    change (is_word " ") with false. cbv iota. rewrite Ht, IH. reflexivity.
Qed.

Lemma plain_join toks : Forall lower_word toks -> plain (join " " toks).
Proof.
  unfold plain. induction 1 as [|t ts [Ht Hw] Hts IH]; [reflexivity|].
  assert (Hp : string_forall plain_char t = true).
  { apply (string_forall_impl is_lower_digit); [|exact Hw].
    intros c Hc. unfold plain_char. now rewrite Hc. }
  destruct ts as [|u ts]; [exact Hp|].
  rewrite join_cons by discriminate.
  rewrite !string_forall_app, Hp, IH. reflexivity.
Qed.

Lemma rstrip_word t : lower_word t -> rstrip t = t.
Proof.
  intros [Ht Hw]. induction t as [|c t IH]; [reflexivity|].
  cbn in Hw. apply andb_true_iff in Hw. destruct Hw as [Hc Hw].
  apply lower_digit_facts in Hc. destruct Hc as (Hs & _).
  cbn [rstrip]. destruct t as [|d t].
  - cbn. now rewrite Hs.
  - rewrite IH by (auto; reflexivity). reflexivity.
Qed.

Lemma rstrip_app a b :
  rstrip b = b -> truthy b = true -> rstrip (a +++ b) = a +++ b.
Proof.
  intros Hb Ht. induction a as [|c a IH]; cbn; [exact Hb|].
  rewrite IH. destruct (a +++ b) eqn:E; [|reflexivity].
  pose proof (truthy_app_r a b Ht) as T. rewrite E in T. discriminate.
Qed.

Lemma truthy_join t ts : truthy t = true -> truthy (join " " (t :: ts)) = true.
Proof.
  intros H. destruct ts; [exact H|].
  rewrite join_cons by discriminate. now apply truthy_app_l.
Qed.

Lemma rstrip_join toks : Forall lower_word toks -> rstrip (join " " toks) = join " " toks.
Proof.
  induction 1 as [|t ts Ht Hts IH]; [reflexivity|].
  destruct ts as [|u ts]; [now apply rstrip_word|].
  rewrite join_cons by discriminate.
  rewrite <- append_assoc. apply rstrip_app; [exact IH|].
  apply truthy_join. inversion Hts as [|? ? [Hu _] _]. exact Hu.
Qed.

Lemma lstrip_join toks : Forall lower_word toks -> lstrip (join " " toks) = join " " toks.
Proof.
  intros H. destruct H as [|t ts [Ht Hw] Hts]; [reflexivity|].
  destruct t as [|c t]; [discriminate|].
  cbn in Hw. apply andb_true_iff in Hw. destruct Hw as [Hc _].
  apply lower_digit_facts in Hc. destruct Hc as (Hs & _).
  destruct ts; [cbn; now rewrite Hs|].
  rewrite join_cons by discriminate. cbn. now rewrite Hs.
Qed.

Lemma filter_string_plain (keep : ascii -> bool) s :
  (forall c, plain_char c = true -> keep c = true) ->
  plain s -> filter_string keep s = s.
Proof.
  intros Hk. unfold plain. induction s as [|c s IH]; cbn; [reflexivity|].
  intros H. apply andb_true_iff in H. destruct H as [Hc Hs].
  now rewrite (Hk c Hc), IH.
Qed.

Lemma camel_split_plain s : plain s -> camel_split s = s.
Proof.
  unfold plain. induction s as [|c s IH]; [reflexivity|].
  cbn [string_forall]. intros H. apply andb_true_iff in H. destruct H as [Hc Hs].
  cbn [camel_split]. destruct s as [|d s]; [reflexivity|].
  assert (Hd : is_upper d = false).
  { cbn in Hs. apply andb_true_iff in Hs. destruct Hs as [Hd _].
    apply plain_char_facts in Hd. tauto. }
  rewrite Hd, andb_false_r, IH by exact Hs. reflexivity.
Qed.

Lemma replace_char_plain old s :
  (forall c, plain_char c = true -> Ascii.eqb c old = false) ->
  plain s -> replace_char old s = s.
Proof.
  intros Ho. unfold plain. induction s as [|c s IH]; cbn; [reflexivity|].
  intros H. apply andb_true_iff in H. destruct H as [Hc Hs].
  now rewrite (Ho c Hc), IH.
Qed.

Lemma lower_plain s : plain s -> lower s = s.
Proof.
  unfold plain. induction s as [|c s IH]; cbn; [reflexivity|].
  intros H. apply andb_true_iff in H. destruct H as [Hc Hs].
  apply plain_char_facts in Hc. destruct Hc as (_ & Hl & _).
  now rewrite Hl, IH.
Qed.

(** A text made of lower words and single spaces is a fixed point. *)
Lemma normalize_text_join ud toks :
  ascii_stable ud -> Forall lower_word toks ->
  normalize_text ud (join " " toks) = join " " toks.
Proof.
  intros [Hc Hd Hk] Ht. pose proof (plain_join toks Ht) as Hp.
  unfold normalize_text, strip, _strip_diacritics, _split_identifier.
  rewrite lstrip_join, rstrip_join by exact Ht.
  rewrite Hc, Hd by exact Hp.
  rewrite filter_string_plain; [|intros c E; now rewrite (Hk c E)|exact Hp].
  rewrite camel_split_plain by exact Hp.
  rewrite (replace_char_plain "_"); [|intros c E; apply plain_char_facts in E; tauto|exact Hp].
  rewrite (replace_char_plain "-"); [|intros c E; apply plain_char_facts in E; tauto|exact Hp].
  rewrite lower_plain by exact Hp.
  now rewrite findall_join.
Qed.

(** C10. Text normalization is idempotent, for a [unicodedata] that leaves
    lower-case ASCII letters, digits and spaces alone. *)
Theorem normalize_text_idempotent ud s :
  ascii_stable ud ->
  normalize_text ud (normalize_text ud s) = normalize_text ud s.
Proof.
  intros H. unfold normalize_text at 2 3.
  apply normalize_text_join; [exact H|].
  apply Forall_forall. intros t. apply findall_lower_words.
Qed.

Lemma ascii_unicodedata_stable : ascii_stable ascii_unicodedata.
Proof. split; reflexivity. Qed.

(** C10 (witness): [normalize_text("  AirHandling_Unit-2 ")]. *)
Lemma normalize_text_idempotent_witness :
  normalize_text ascii_unicodedata
    (normalize_text ascii_unicodedata "  AirHandling_Unit-2 ")
  = normalize_text ascii_unicodedata "  AirHandling_Unit-2 "
  /\ normalize_text ascii_unicodedata "  AirHandling_Unit-2 " = "air handling unit 2".
Proof.
  split; [|reflexivity].
  apply (normalize_text_idempotent ascii_unicodedata "  AirHandling_Unit-2 ").
  exact ascii_unicodedata_stable.
Defined.

(** * Theorems: [match] *)

(** *** Order of binary64 values *)

Ltac fold_pos_compare :=
  repeat match goal with
  | |- context [Pos.compare_cont Eq ?p ?q] =>
      change (Pos.compare_cont Eq p q) with (Pos.compare p q)
  end.

Lemma SFltb_asym x y : SFltb x y = true -> SFltb y x = false.
Proof.
  unfold SFltb, SFcompare.
  destruct x as [sx|sx| |sx mx ex], y as [sy|sy| |sy my ey];
    try discriminate; try reflexivity;
    try (destruct sx; try discriminate; try reflexivity);
    try (destruct sy; try discriminate; try reflexivity).
  all: fold_pos_compare; rewrite (Z.compare_antisym ex ey);
       destruct (ex ?= ey)%Z; cbn [CompOpp]; try discriminate; try reflexivity;
       rewrite (Pos.compare_antisym mx my);
       destruct (mx ?= my)%positive; cbn [CompOpp]; try discriminate; reflexivity.
Qed.


Lemma float_ltb_asym (x y : float) :
  (x <? y)%float = true -> (y <? x)%float = false.
Proof. rewrite !FloatAxioms.ltb_spec. apply SFltb_asym. Qed.


(** *** Slicing and sorting *)

Lemma slice_to_length {A} (l : list A) k : 0 <= k -> len (slice_to l k) <= k.
Proof.
  intros H. unfold slice_to, len.
  destruct (k <? 0) eqn:E; [apply Z.ltb_lt in E; lia|].
  rewrite length_firstn. lia.
Qed.

Lemma slice_to_zero {A} (l : list A) : slice_to l 0 = [].
Proof. reflexivity. Qed.

Lemma in_firstn {A} n (l : list A) x : In x (firstn n l) -> In x l.
Proof.
  intros H. rewrite <- (firstn_skipn n l). apply in_or_app. now left.
Qed.

Lemma slice_to_in {A} (l : list A) k x : In x (slice_to l k) -> In x l.
Proof.
  unfold slice_to. destruct (k <? 0); apply in_firstn.
Qed.

Lemma in_insert_desc x y l : In x (insert_desc y l) <-> x = y \/ In x l.
Proof.
  induction l as [|z l IH]; cbn.
  - intuition.
  - destruct (score y <? score z)%float; cbn; [rewrite IH|]; intuition.
Qed.

Lemma in_sorted_desc x l : In x (sorted_desc l) <-> In x l.
Proof.
  unfold sorted_desc. induction l as [|y l IH]; cbn; [tauto|].
  rewrite in_insert_desc, IH. intuition.
Qed.

(** *** The threshold *)

Lemma in_values_set {K V} (eqb : K -> K -> bool) (d : dict K V) k v x :
  In x (dict_values (dict_set eqb d k v)) -> x = v \/ In x (dict_values d).
Proof.
  unfold dict_values. induction d as [|[k0 v0] d IH]; cbn.
  - intuition.
  - destruct (eqb k k0); cbn; intuition.
Qed.

Lemma in_values_get {K V} (eqb : K -> K -> bool) (d : dict K V) k v :
  dict_get eqb d k = Some v -> In v (dict_values d).
Proof.
  unfold dict_values. induction d as [|[k0 v0] d IH]; cbn; [discriminate|].
  destruct (eqb k k0); [intros [= ->]; now left | auto].
Qed.

Lemma match_step_threshold ratio query rk min_score q_raw q_norm q_toks scored c :
  Forall (clears_threshold min_score) (dict_values scored) ->
  Forall (clears_threshold min_score)
    (dict_values (match_step ratio query rk min_score q_raw q_norm q_toks scored c)).
Proof.
  intros H. rewrite Forall_forall in *. unfold match_step.
  destruct (kind_excluded rk (c_kind c)); [exact H|].
  destruct (String.eqb q_norm (c_norm c) && truthy q_norm).
  - intros x Hx. apply in_values_set in Hx. destruct Hx as [->|Hx]; [|auto].
    destruct (dict_get key_eqb scored (c_uri c, c_kind c)) as [old|] eqn:E.
    + destruct (score old <? score (exact_result c))%float.
      * left. split; reflexivity.
      * apply H. eapply in_values_get. exact E.
    + left. destruct (_ <? _)%float; split; reflexivity.
  - match goal with |- context [if ?g && ?p then scored else _] =>
      destruct (g && p); [exact H|] end.
    match goal with |- context [if (?s <? min_score)%float then scored else _] =>
      destruct (s <? min_score)%float eqn:Es; [exact H|] end.
    destruct (dict_get key_eqb scored (c_uri c, c_kind c)) as [old|].
    + match goal with |- context [if ?b then dict_set _ _ _ _ else scored] =>
        destruct b; [|exact H] end.
      intros x Hx. apply in_values_set in Hx. destruct Hx as [->|Hx]; [|auto].
      right. exact Es.
    + intros x Hx. apply in_values_set in Hx. destruct Hx as [->|Hx]; [|auto].
      right. exact Es.
Qed.

Lemma fold_left_invariant {A B} (P : A -> Prop) (f : A -> B -> A) l :
  (forall a b, P a -> P (f a b)) -> forall a, P a -> P (fold_left f l a).
Proof.
  intros H. induction l as [|b l IH]; intros a Ha; cbn; auto.
Qed.

Lemma scored_table_threshold ud ratio self query rk min_score :
  Forall (clears_threshold min_score)
    (dict_values (scored_table ud ratio self query rk min_score)).
Proof.
  unfold scored_table.
  apply (fold_left_invariant
           (fun s => Forall (clears_threshold min_score) (dict_values s))).
  - intros s [[q_raw q_norm] q_toks] Hs.
    apply (fold_left_invariant
             (fun s => Forall (clears_threshold min_score) (dict_values s)));
      [|exact Hs].
    intros. now apply match_step_threshold.
  - constructor.
Qed.

(** C8. [match] is meant to return at most [top_k] results, none when
    [top_k <= 0].  The slice [[:top_k]] counts a negative [top_k] from the
    end: with two candidates and [top_k = -1] one result is returned.  For
    [top_k >= 0] the bound holds, [top_k = 0] gives the empty list, and every
    result either comes from the exact branch or has a composite score that
    is not below [min_score]. *)
Theorem match_negative_top_k :
  (forall ratio,
      match_ ascii_unicodedata ratio two_pumps_matcher "pump" None (-1) 0.55
      = [mkMatchResult "urn:a#Pump" "class" "Pump" 1.0 "exact_normalized" "Pump"])
  /\ (forall ud ratio self query rk top_k min_score,
        0 <= top_k -> len (match_ ud ratio self query rk top_k min_score) <= top_k)
  /\ (forall ud ratio self query rk min_score,
        match_ ud ratio self query rk 0 min_score = [])
  /\ (forall ud ratio self query rk top_k min_score r,
        In r (match_ ud ratio self query rk top_k min_score) ->
        clears_threshold min_score r).
Proof.
  split; [|split; [|split]].
  - intros ratio. reflexivity.
  - intros. unfold match_. apply slice_to_length. assumption.
  - intros. apply slice_to_zero.
  - intros ud ratio self query rk top_k min_score r Hr.
    unfold match_ in Hr. apply slice_to_in in Hr.
    apply (proj1 (in_sorted_desc _ _)) in Hr.
    pose proof (scored_table_threshold ud ratio self query rk min_score) as H.
    rewrite Forall_forall in H. now apply H.
Qed.

(** *** Exact matches *)

Lemma key_eqb_eq a b : key_eqb a b = true <-> a = b.
Proof.
  destruct a as [a1 a2], b as [b1 b2]. unfold key_eqb. cbn.
  rewrite andb_true_iff, !String.eqb_eq. split.
  - intros [-> ->]. reflexivity.
  - intros [= -> ->]. auto.
Qed.




Lemma well_keyed_set scored c r :
  well_keyed scored -> uri r = c_uri c -> kind r = c_kind c ->
  well_keyed (dict_set key_eqb scored (c_uri c, c_kind c) r).
Proof.
  intros W Hu Hk key r'. destruct (key_eqb key (c_uri c, c_kind c)) eqn:Ek.
  - apply key_eqb_eq in Ek. subst key.
    rewrite (dict_get_set_same key_eqb key_eqb_eq). intros [= <-]. congruence.
  - rewrite (dict_get_set_other key_eqb key_eqb_eq); [apply W|].
    intros ->. now rewrite (proj2 (key_eqb_eq _ _) eq_refl) in Ek.
Qed.

Lemma match_step_well_keyed ratio query rk min_score q_raw q_norm q_toks scored c :
  well_keyed scored ->
  well_keyed (match_step ratio query rk min_score q_raw q_norm q_toks scored c).
Proof.
  intros W. unfold match_step.
  destruct (kind_excluded rk (c_kind c)); [exact W|].
  destruct (String.eqb q_norm (c_norm c) && truthy q_norm).
  - apply well_keyed_set; [exact W| |].
    + destruct (dict_get key_eqb scored (c_uri c, c_kind c)) as [old|] eqn:E.
      * destruct (_ <? _)%float; [reflexivity|]. now apply W in E as [= -> _].
      * destruct (_ <? _)%float; reflexivity.
    + destruct (dict_get key_eqb scored (c_uri c, c_kind c)) as [old|] eqn:E.
      * destruct (_ <? _)%float; [reflexivity|]. now apply W in E as [= _ ->].
      * destruct (_ <? _)%float; reflexivity.
  - match goal with |- context [if ?g && ?p then scored else _] =>
      destruct (g && p); [exact W|] end.
    match goal with |- context [if (?s <? min_score)%float then scored else _] =>
      destruct (s <? min_score)%float; [exact W|] end.
    destruct (dict_get key_eqb scored (c_uri c, c_kind c)) as [old|].
    + match goal with |- context [if ?b then dict_set _ _ _ _ else scored] =>
        destruct b; [|exact W] end.
      apply well_keyed_set; [exact W | reflexivity | reflexivity].
    + apply well_keyed_set; [exact W | reflexivity | reflexivity].
Qed.





Lemma scored_table_well_keyed ud ratio self query rk min_score :
  well_keyed (scored_table ud ratio self query rk min_score).
Proof.
  unfold scored_table. apply fold_left_invariant.
  - intros s [[q_raw q_norm] q_toks] Hs. apply fold_left_invariant; [|exact Hs].
    intros. now apply match_step_well_keyed.
  - intros key r. discriminate.
Qed.




(** * Theorems: the builder leaves the objects of a query alone *)

Lemma length_update l o s : List.length (Store.update l o s) = List.length s.
Proof.
  revert l. induction s as [|x s IH]; intros [|l]; cbn; auto.
Qed.

Lemma nth_error_update_other l l' o s :
  l' <> l -> nth_error (Store.update l o s) l' = nth_error s l'.
Proof.
  revert l l'. induction s as [|x s IH]; intros [|l] [|l'] H; cbn;
    try reflexivity; try congruence.
  apply IH. congruence.
Qed.

Lemma nth_by_nth_error {A} (s : list A) l d :
  nth l s d = match nth_error s l with Some x => x | None => d end.
Proof.
  revert l. induction s as [|x s IH]; intros [|l]; cbn; auto.
Qed.

Section Frame.

(** [c]: the locations that may be overwritten; [s0]: the store at the
    start of the operation. *)
Variable c : list Store.loc.
Variable s0 : Store.store.

Lemma frame_refl : Store.frame c s0 s0.
Proof. split; auto. Qed.

Lemma frame_new s o : Store.frame c s0 s -> Store.frame c s0 (s ++ [o]).
Proof.
  intros [Hl Hs]. split.
  - rewrite length_app. cbn. lia.
  - intros l Hlt Hc. rewrite nth_error_app1 by lia. now apply Hs.
Qed.

Lemma frame_put_fresh s l o :
  (List.length s0 <= l)%nat -> Store.frame c s0 s -> Store.frame c s0 (Store.update l o s).
Proof.
  intros Hf [Hl Hs]. split.
  - now rewrite length_update.
  - intros l' Hlt Hc. rewrite nth_error_update_other by lia. now apply Hs.
Qed.

Lemma frame_put_cleared s l o :
  In l c -> Store.frame c s0 s -> Store.frame c s0 (Store.update l o s).
Proof.
  intros Hin [Hl Hs]. split.
  - now rewrite length_update.
  - intros l' Hlt Hc. rewrite nth_error_update_other by (intros ->; contradiction).
    now apply Hs.
Qed.

Lemma keeps_ret {A} (a : A) : keeps c s0 (Store.ret a).
Proof. intros s H. exact H. Qed.

Lemma keeps_raise {A} e : keeps c s0 (@Store.raise A e).
Proof. intros s H. exact H. Qed.

Lemma keeps_get l : keeps c s0 (Store.get l).
Proof. intros s H. exact H. Qed.

Lemma keeps_bind {A B} (m : Store.M A) (f : A -> Store.M B) :
  keeps c s0 m -> (forall a, keeps c s0 (f a)) -> keeps c s0 (Store.bindM m f).
Proof.
  intros Hm Hf s H. unfold Store.bindM. specialize (Hm s H).
  destruct (m s) as [s' [a|e]]; cbn in *; [now apply Hf | exact Hm].
Qed.

Lemma keeps_bind_fresh {B} (m : Store.M Store.loc) (f : Store.loc -> Store.M B) :
  keeps_fresh c s0 m ->
  (forall l, (List.length s0 <= l)%nat -> keeps c s0 (f l)) ->
  keeps c s0 (Store.bindM m f).
Proof.
  intros Hm Hf s H. unfold Store.bindM. destruct (Hm s H) as [H1 H2].
  destruct (m s) as [s' [l|e]]; cbn in *; [|exact H1].
  apply Hf; [now apply H2 | exact H1].
Qed.

Lemma keeps_fresh_new o : keeps_fresh c s0 (Store.new o).
Proof.
  intros s H. cbn. split; [now apply frame_new|].
  intros l [= <-]. apply H.
Qed.

Lemma keeps_fresh_copy l : keeps_fresh c s0 (Store.copy l).
Proof.
  intros s H. cbn. split; [now apply frame_new|].
  intros l' [= <-]. apply H.
Qed.

Lemma keeps_fresh_copy_filters fd : keeps_fresh c s0 (Store.copy_filters fd).
Proof.
  intros s H. destruct fd as [l|]; cbn.
  - unfold Store.bindM, Store.get. cbn.
    destruct (Store.as_dict_str (Store.at_ s l)); cbn;
      (split; [now apply frame_new | intros l' [= <-]; apply H]).
  - split; [now apply frame_new | intros l' [= <-]; apply H].
Qed.

Lemma keeps_of_fresh m : keeps_fresh c s0 m -> keeps c s0 m.
Proof. intros H s Hs. now apply H. Qed.

Lemma keeps_put l o : (List.length s0 <= l)%nat -> keeps c s0 (Store.put l o).
Proof. intros Hl s H. cbn. now apply frame_put_fresh. Qed.

Lemma keeps_clear l : In l c -> keeps c s0 (Store.clear l).
Proof. intros Hl s H. cbn. now apply frame_put_cleared. Qed.

Lemma keeps_setitem_str l k v :
  (List.length s0 <= l)%nat -> keeps c s0 (Store.setitem_str l k v).
Proof. intros Hl s H. cbn. now apply frame_put_fresh. Qed.

Lemma keeps_setitem_nodes l k v :
  (List.length s0 <= l)%nat -> keeps c s0 (Store.setitem_nodes l k v).
Proof. intros Hl s H. cbn. now apply frame_put_fresh. Qed.

Lemma keeps_setitem_aliases l k v :
  (List.length s0 <= l)%nat -> keeps c s0 (Store.setitem_aliases l k v).
Proof. intros Hl s H. cbn. now apply frame_put_fresh. Qed.

Lemma keeps_setitem_aliases_reverse l k v :
  (List.length s0 <= l)%nat -> keeps c s0 (Store.setitem_aliases_reverse l k v).
Proof. intros Hl s H. cbn. now apply frame_put_fresh. Qed.

Lemma keeps_setitem_data_nodes l k v :
  (List.length s0 <= l)%nat -> keeps c s0 (Store.setitem_data_nodes l k v).
Proof. intros Hl s H. cbn. now apply frame_put_fresh. Qed.

Lemma keeps_append_edge l e :
  (List.length s0 <= l)%nat -> keeps c s0 (Store.append_edge l e).
Proof. intros Hl s H. cbn. now apply frame_put_fresh. Qed.

Create HintDb keeps.

#[local] Hint Resolve keeps_ret keeps_raise keeps_get keeps_put keeps_clear
  keeps_setitem_str keeps_setitem_nodes keeps_setitem_aliases
  keeps_setitem_aliases_reverse keeps_setitem_data_nodes keeps_append_edge
  keeps_fresh_new keeps_fresh_copy keeps_fresh_copy_filters : keeps.

(** One step of a computation: a bind whose first part allocates, a bind
    whose first part is known to keep the frame, or a leaf. *)
Ltac keeps_step :=
  first
    [ solve [auto with keeps]
    | apply keeps_bind_fresh; [solve [auto with keeps] | intros ? ?]
    | apply keeps_bind; [solve [auto with keeps] | intros ?] ].

Ltac keeps_run := repeat keeps_step.

Lemma keeps_with_data_node g info : keeps c s0 (Store.with_data_node g info).
Proof. unfold Store.with_data_node. keeps_run. Qed.

Lemma keeps_with_node g node : keeps c s0 (Store.with_node g node).
Proof. unfold Store.with_node. keeps_run. Qed.

Lemma keeps_with_edge g edge p : keeps c s0 (Store.with_edge g edge p).
Proof. unfold Store.with_edge. keeps_run. Qed.

Lemma keeps_resolve_alias g a : keeps c s0 (Store.resolve_alias g a).
Proof. unfold Store.resolve_alias. destruct a; keeps_run. Qed.

Lemma keeps_Query_ g n : keeps c s0 (Store.Query_ g n).
Proof. unfold Store.Query_. keeps_run. Qed.

#[local] Hint Resolve keeps_with_data_node keeps_with_node keeps_with_edge
  keeps_resolve_alias keeps_Query_ : keeps.

Lemma keeps_clone self g b : keeps c s0 (Store._clone_with_graph self g b).
Proof. unfold Store._clone_with_graph. keeps_run. Qed.

Lemma keeps_Query_service self : keeps c s0 (Store.Query_service self).
Proof. unfold Store.Query_service. keeps_run. Qed.

#[local] Hint Resolve keeps_clone keeps_Query_service : keeps.

Lemma keeps_add_data_node self g src path cl al h fd force :
  keeps c s0 (Store._add_data_node self g src path cl al h fd force).
Proof.
  unfold Store._add_data_node. keeps_step. keeps_step.
  apply keeps_bind.
  - destruct src; [destruct (truthy_opt path)|]; keeps_run.
  - intros g2. keeps_run.
Qed.

#[local] Hint Resolve keeps_add_data_node : keeps.

Lemma keeps_select self f : keeps c s0 (Store._select_data_node_ids self f).
Proof.
  unfold Store._select_data_node_ids. keeps_step.
  destruct (Store.as_data_nodes a); [keeps_run|].
  destruct (is_all f); [keeps_run|].
  destruct f.
  - keeps_step. destruct a0; [|keeps_run].
    destruct (dict_mem _ _ _); keeps_run.
  - destruct (Store.current_pointer _); [destruct (dict_mem _ _ _)|]; keeps_run.
Qed.

#[local] Hint Resolve keeps_select : keeps.

Lemma keeps_find_entity self cl al :
  In (Store.cache self) c -> keeps c s0 (Store.find_entity self cl al).
Proof. intros Hc. unfold Store.find_entity. keeps_run. Qed.

Lemma keeps_find_related self cl al f h ps m :
  In (Store.cache self) c -> keeps c s0 (Store.find_related self cl al f h ps m).
Proof.
  intros Hc. unfold Store.find_related. keeps_step. keeps_step.
  destruct a0; [|keeps_run].
  keeps_step. keeps_step.
  apply keeps_bind; [destruct ps; keeps_run|].
  intros given. keeps_run.
Qed.

Lemma keeps_merge_nodes mx l : forall om mn,
  (List.length s0 <= mn)%nat -> keeps c s0 (Store.merge_nodes mx l om mn).
Proof.
  induction l as [|[nid node] l IH]; intros om mn H; cbn [Store.merge_nodes].
  - keeps_run.
  - keeps_step. now apply IH.
Qed.

Lemma keeps_mapping_at om k : keeps c s0 (Store.mapping_at om k).
Proof. unfold Store.mapping_at. destruct (dict_get _ _ _); keeps_run. Qed.

#[local] Hint Resolve keeps_mapping_at : keeps.

Lemma keeps_merge_edges om l me :
  (List.length s0 <= me)%nat -> keeps c s0 (Store.merge_edges om l me).
Proof.
  intros H. induction l as [|e l IH]; cbn [Store.merge_edges].
  - keeps_run.
  - keeps_step. keeps_step. keeps_step. exact IH.
Qed.

Lemma keeps_merge_aliases om l ma : forall mr,
  (List.length s0 <= ma)%nat -> keeps c s0 (Store.merge_aliases om l ma mr).
Proof.
  induction l as [|[name nid] l IH]; intros mr H; cbn [Store.merge_aliases].
  - keeps_run.
  - keeps_step. keeps_step. keeps_step. keeps_step. now apply IH.
Qed.

Lemma keeps_relate_to self other f t h ps :
  In (Store.cache self) c -> In (Store.cache other) c ->
  keeps c s0 (Store.relate_to self other f t h ps).
Proof.
  intros Hc Ho. unfold Store.relate_to. keeps_step. keeps_step.
  apply keeps_bind; [destruct f; keeps_run|]. intros [src|]; [|keeps_run].
  apply keeps_bind; [destruct t; keeps_run|]. intros [tgt|]; [|keeps_run].
  keeps_step. keeps_step. keeps_step. keeps_step. keeps_step. keeps_step.
  apply keeps_bind; [now apply keeps_merge_nodes|]. intros om.
  keeps_step.
  apply keeps_bind; [now apply keeps_merge_edges|]. intros _.
  keeps_step.
  apply keeps_bind; [now apply keeps_merge_aliases|]. intros mr.
  keeps_run.
Qed.

Lemma keeps_find_data_loop g n p cl al h fd l : forall i self lg cr,
  keeps c s0 (Store.find_data_loop g n p cl al h fd l i self lg cr).
Proof.
  induction l as [|x l IH]; intros i self lg cr; cbn [Store.find_data_loop].
  - keeps_run.
  - keeps_step. keeps_step. keeps_step. keeps_step. apply IH.
Qed.

#[local] Hint Resolve keeps_find_data_loop : keeps.

Lemma keeps_find_data self f p cl h fd al :
  In (Store.cache self) c -> keeps c s0 (Store.find_data self f p cl h fd al).
Proof.
  intros Hc. unfold Store.find_data. keeps_step.
  apply keeps_bind.
  - destruct (is_all f).
    + keeps_step. destruct (Store.as_nodes a0); keeps_run.
    + keeps_step. destruct a0; keeps_run.
  - intros ids. keeps_step. destruct a0 as [[q lg] cr]. keeps_run.
Qed.

Lemma keeps_find_all_data self cl h fd al :
  In (Store.cache self) c -> keeps c s0 (Store.find_all_data self cl h fd al).
Proof.
  intros Hc. unfold Store.find_all_data. keeps_step. keeps_step.
  destruct (Store.as_nodes a0); [keeps_run|].
  now apply keeps_find_data.
Qed.

Lemma keeps_set_filters p v ts dn2 :
  (List.length s0 <= dn2)%nat -> keeps c s0 (Store.set_filters p v ts dn2).
Proof.
  intros H. induction ts as [|nid ts IH]; cbn [Store.set_filters].
  - keeps_run.
  - keeps_step. destruct (dict_get _ _ _); [|keeps_run].
    keeps_step. keeps_step. keeps_step. exact IH.
Qed.

Lemma keeps_filter_data_nodes self p v f :
  In (Store.cache self) c -> keeps c s0 (Store.filter_data_nodes self p v f).
Proof.
  intros Hc. unfold Store.filter_data_nodes. keeps_step. keeps_step.
  destruct a0; [keeps_run|].
  keeps_step.
  apply keeps_bind; [now apply keeps_set_filters|]. intros _.
  keeps_run.
Qed.

End Frame.

Lemma frame_at c s s' l :
  Store.frame c s s' -> (l < List.length s)%nat -> ~ In l c ->
  Store.at_ s' l = Store.at_ s l.
Proof.
  intros [_ H] Hl Hc. unfold Store.at_.
  now rewrite !nth_by_nth_error, H.
Qed.

(** [to_dict] depends on the store through the footprint only. *)
Lemma to_dict_agree s s' q :
  (forall l, In l (Store.footprint s q) -> Store.at_ s' l = Store.at_ s l) ->
  Store.to_dict s' q = Store.to_dict s q.
Proof.
  intros H. unfold Store.footprint in H. unfold Store.to_dict.
  assert (Hn : Store.at_ s' (Store.nodes (Store.query_graph q))
               = Store.at_ s (Store.nodes (Store.query_graph q)))
    by (apply H; cbn; auto).
  assert (He : Store.at_ s' (Store.edges (Store.query_graph q))
               = Store.at_ s (Store.edges (Store.query_graph q)))
    by (apply H; cbn; auto).
  assert (Ha : Store.at_ s' (Store.aliases (Store.query_graph q))
               = Store.at_ s (Store.aliases (Store.query_graph q)))
    by (apply H; cbn; auto).
  assert (Hr : Store.at_ s' (Store.aliases_reverse (Store.query_graph q))
               = Store.at_ s (Store.aliases_reverse (Store.query_graph q)))
    by (apply H; cbn; auto 6).
  assert (Hd : Store.at_ s' (Store.data_nodes (Store.query_graph q))
               = Store.at_ s (Store.data_nodes (Store.query_graph q)))
    by (apply H; cbn; auto 6).
  rewrite Hn, He, Ha, Hr, Hd. f_equal.
  - apply map_ext_in. intros n Hin. f_equal. f_equal. apply H.
    apply in_or_app. right. apply in_or_app. left. now apply in_map.
  - apply map_ext_in. intros e Hin. f_equal.
    destruct (Store.predicates e) as [l|] eqn:E; [|reflexivity].
    rewrite H; [reflexivity|].
    apply in_or_app. right. apply in_or_app. right. apply in_or_app. left.
    apply in_flat_map. exists e. split; [exact Hin|]. rewrite E. now left.
  - apply map_ext_in. intros kv Hin. f_equal. f_equal. apply H.
    apply in_or_app. right. apply in_or_app. right. apply in_or_app. right.
    apply in_map_iff. exists kv. auto.
Qed.

(** Every operation keeps the frame of the caches it clears. *)
Lemma run_keeps op self s0 :
  keeps (Store.cleared op self) s0 (Store.run op self).
Proof.
  assert (Hc : In (Store.cache self) (Store.cleared op self)) by now left.
  destruct op; cbn [Store.run].
  - now apply keeps_find_entity.
  - now apply keeps_find_related.
  - apply keeps_relate_to; [exact Hc | right; now left].
  - now apply keeps_find_data.
  - now apply keeps_find_all_data.
  - now apply keeps_filter_data_nodes.
Qed.

(** Running an operation on [self] leaves the snapshot of [q1] unchanged,
    whether it returns or raises, in every store where the objects the
    snapshot of [q1] reads exist and are not a cache the operation clears. *)
Lemma run_leaves_snapshot s q1 self op :
  (forall l, In l (Store.footprint s q1) ->
     (l < List.length s)%nat /\ ~ In l (Store.cleared op self)) ->
  Store.to_dict (fst (Store.run op self s)) q1 = Store.to_dict s q1.
Proof.
  intros H. apply to_dict_agree. intros l Hl. destruct (H l Hl) as [H1 H2].
  apply (frame_at (Store.cleared op self)); [|exact H1|exact H2].
  apply run_keeps. apply frame_refl.
Qed.
(** ** Stores stay typed, and the builder's queries stay apart from the caches *)

Lemma ok_mono c n n' l : ok c n l -> (n <= n')%nat -> ok c n' l.
Proof. intros [H1 H2] H. split; [lia | exact H2]. Qed.

Lemma ok_graph_mono c n n' g : ok_graph c n g -> (n <= n')%nat -> ok_graph c n' g.
Proof.
  intros (H1 & H2 & H3 & H4 & H5) H.
  unfold ok_graph. eauto 10 using ok_mono.
Qed.

Lemma ok_opt_mono c n n' l : ok_opt c n l -> (n <= n')%nat -> ok_opt c n' l.
Proof. destruct l; cbn; [apply ok_mono | auto]. Qed.

Section Spec.
Variable c : list Store.loc.

Lemma spec_ret {A} n0 (a : A) (post : Store.store -> A -> Prop) :
  (forall s, (n0 <= List.length s)%nat -> post s a) -> spec c n0 (Store.ret a) post.
Proof.
  intros H s Hs Hn. cbn. split; [exact Hs|]. split; [lia|].
  intros a' [= <-]. now apply H.
Qed.

Lemma spec_raise {A} n0 e (post : Store.store -> A -> Prop) :
  spec c n0 (Store.raise e) post.
Proof.
  intros s Hs Hn. cbn. split; [exact Hs|]. split; [lia|]. discriminate.
Qed.

Lemma spec_bind {A B} n0 (m : Store.M A) (f : A -> Store.M B) post1 post :
  spec c n0 m post1 ->
  (forall a s1, (n0 <= List.length s1)%nat -> post1 s1 a ->
     spec c (List.length s1) (f a) post) ->
  spec c n0 (Store.bindM m f) post.
Proof.
  intros Hm Hf s Hs Hn. unfold Store.bindM.
  destruct (Hm s Hs Hn) as (T1 & L1 & P1).
  destruct (m s) as [s1 [a|e]]; cbn in *.
  - destruct (Hf a s1 ltac:(lia) (P1 a eq_refl) s1 T1 ltac:(lia)) as (T2 & L2 & P2).
    split; [exact T2|]. split; [lia | exact P2].
  - split; [exact T1|]. split; [lia | discriminate].
Qed.

Lemma spec_weaken {A} n0 n1 (m : Store.M A) (post post' : Store.store -> A -> Prop) :
  spec c n0 m post -> (n0 <= n1)%nat ->
  (forall s a, (n1 <= List.length s)%nat -> post s a -> post' s a) ->
  spec c n1 m post'.
Proof.
  intros Hm Hn Hp s Hs Hl. destruct (Hm s Hs ltac:(lia)) as (T & L & P).
  split; [exact T|]. split; [exact L|]. intros a Ha. apply Hp; [lia | now apply P].
Qed.

Lemma typed_new s o :
  typed c s -> (forall l', In l' (inside o) -> ok c (List.length s) l') ->
  typed c (s ++ [o]).
Proof.
  intros [Hc Hi] Ho. split.
  - intros l Hl. rewrite length_app. specialize (Hc l Hl). cbn. lia.
  - intros l o' l' Hn Hin. rewrite length_app. cbn.
    destruct (Nat.lt_ge_cases l (List.length s)) as [Hlt|Hge].
    + rewrite nth_error_app1 in Hn by exact Hlt.
      eapply ok_mono; [eapply Hi; eassumption | lia].
    + rewrite nth_error_app2 in Hn by exact Hge.
      destruct (l - List.length s)%nat as [|k]; cbn in Hn.
      * injection Hn as <-. eapply ok_mono; [now apply Ho | lia].
      * destruct k; discriminate.
Qed.

Lemma nth_error_update_same l o s :
  (l < List.length s)%nat -> nth_error (Store.update l o s) l = Some o.
Proof.
  revert l. induction s as [|x s IH]; intros [|l] H; cbn in *; try lia; auto.
  apply IH. lia.
Qed.

Lemma typed_put s l o :
  typed c s -> (forall l', In l' (inside o) -> ok c (List.length s) l') ->
  typed c (Store.update l o s).
Proof.
  intros [Hc Hi] Ho. split.
  - intros l0 Hl. rewrite length_update. now apply Hc.
  - intros l0 o' l' Hn Hin. rewrite length_update.
    destruct (Nat.eq_dec l0 l) as [->|Hne].
    + destruct (Nat.lt_ge_cases l (List.length s)) as [Hlt|Hge].
      * rewrite nth_error_update_same in Hn by exact Hlt. injection Hn as <-.
        now apply Ho.
      * assert (Hs : nth_error (Store.update l o s) l <> None) by congruence.
        apply nth_error_Some in Hs. rewrite length_update in Hs. lia.
    + rewrite nth_error_update_other in Hn by exact Hne. eapply Hi; eassumption.
Qed.

Lemma spec_new n0 o :
  (forall l', In l' (inside o) -> ok c n0 l') ->
  spec c n0 (Store.new o) (fun s l => ok c (List.length s) l /\ (n0 <= l)%nat).
Proof.
  intros Ho s Hs Hn. cbn. split; [|split].
  - apply typed_new; [exact Hs|]. intros l' Hl. eapply ok_mono; [now apply Ho | exact Hn].
  - rewrite length_app. cbn. lia.
  - intros l [= <-]. rewrite length_app. cbn. split; [|exact Hn].
    split; [lia|]. intros Hin. apply (proj1 Hs) in Hin. lia.
Qed.

Lemma inside_at s l l' :
  typed c s -> In l' (inside (Store.at_ s l)) -> ok c (List.length s) l'.
Proof.
  intros [_ Hi] Hin. unfold Store.at_ in Hin. rewrite nth_by_nth_error in Hin.
  destruct (nth_error s l) as [o|] eqn:E; [|destruct Hin].
  eapply Hi; eassumption.
Qed.

Lemma spec_get n0 l :
  spec c n0 (Store.get l)
    (fun s o => forall l', In l' (inside o) -> ok c (List.length s) l').
Proof.
  intros s Hs Hn. cbn. split; [exact Hs|]. split; [lia|].
  intros o [= <-] l' Hl. now apply (inside_at s l).
Qed.

Lemma spec_put n0 l o :
  (forall l', In l' (inside o) -> ok c n0 l') ->
  spec c n0 (Store.put l o) (fun _ _ => True).
Proof.
  intros Ho s Hs Hn. cbn. split; [|split; [rewrite length_update; lia | auto]].
  apply typed_put; [exact Hs|]. intros l' Hl. eapply ok_mono; [now apply Ho | exact Hn].
Qed.

Lemma spec_copy n0 l :
  spec c n0 (Store.copy l) (fun s l' => ok c (List.length s) l' /\ (n0 <= l')%nat).
Proof.
  intros s Hs Hn. cbn. split; [|split].
  - apply typed_new; [exact Hs|]. intros l' Hl. now apply (inside_at s l).
  - rewrite length_app. cbn. lia.
  - intros l' [= <-]. rewrite length_app. cbn. split; [|exact Hn].
    split; [lia|]. intros Hin. apply (proj1 Hs) in Hin. lia.
Qed.


Lemma in_set_entries {K V} (eqb : K -> K -> bool) (d : dict K V) k v kv :
  In kv (dict_set eqb d k v) -> snd kv = v \/ In kv d.
Proof.
  induction d as [|[k0 v0] d IH]; cbn.
  - intros [<-|[]]. now left.
  - destruct (eqb k k0); cbn; intros [<-|H]; auto.
    destruct (IH H); auto.
Qed.

Lemma inside_as_nodes o l :
  In l (inside (Store.Nodes (Store.as_nodes o))) -> In l (inside o).
Proof. destruct o; cbn; solve [auto | intros []]. Qed.

Lemma inside_as_edges o l :
  In l (inside (Store.Edges (Store.as_edges o))) -> In l (inside o).
Proof. destruct o; cbn; solve [auto | intros []]. Qed.

Lemma inside_as_data_nodes o l :
  In l (inside (Store.DataNodes (Store.as_data_nodes o))) -> In l (inside o).
Proof. destruct o; cbn; solve [auto | intros []]. Qed.

Lemma inside_set_nodes d k v l :
  In l (inside (Store.Nodes (dict_set Z.eqb d k v))) ->
  l = Store.constraints v \/ In l (inside (Store.Nodes d)).
Proof.
  cbn. intros H. apply in_map_iff in H. destruct H as (n & <- & Hn).
  apply in_values_set in Hn. destruct Hn as [->|Hn]; [now left|].
  right. now apply in_map.
Qed.

Lemma inside_set_data_nodes d k v l :
  In l (inside (Store.DataNodes (dict_set Z.eqb d k v))) ->
  l = Store.filters v \/ In l (inside (Store.DataNodes d)).
Proof.
  cbn. intros H. apply in_map_iff in H. destruct H as (kv & <- & Hn).
  apply in_set_entries in Hn. destruct Hn as [->|Hn]; [now left|].
  right. apply in_map_iff. eauto.
Qed.

Lemma inside_append_edge l e x :
  In x (inside (Store.Edges (l ++ [e]))) ->
  Store.predicates e = Some x \/ In x (inside (Store.Edges l)).
Proof.
  cbn. rewrite flat_map_app. intros H. apply in_app_or in H.
  destruct H as [H|H]; [now right|]. cbn in H. rewrite app_nil_r in H.
  destruct (Store.predicates e); [destruct H as [->|[]]; now left | destruct H].
Qed.

Lemma spec_setitem_nodes n0 l k v :
  ok c n0 (Store.constraints v) ->
  spec c n0 (Store.setitem_nodes l k v) (fun _ _ => True).
Proof.
  intros Hv s Hs Hn. cbn. split; [|split; [rewrite length_update; lia | auto]].
  apply typed_put; [exact Hs|]. intros l' Hl.
  apply inside_set_nodes in Hl. destruct Hl as [->|Hl].
  - eapply ok_mono; eassumption.
  - apply inside_as_nodes in Hl. now apply (inside_at s l).
Qed.

Lemma spec_setitem_data_nodes n0 l k v :
  ok c n0 (Store.filters v) ->
  spec c n0 (Store.setitem_data_nodes l k v) (fun _ _ => True).
Proof.
  intros Hv s Hs Hn. cbn. split; [|split; [rewrite length_update; lia | auto]].
  apply typed_put; [exact Hs|]. intros l' Hl.
  apply inside_set_data_nodes in Hl. destruct Hl as [->|Hl].
  - eapply ok_mono; eassumption.
  - apply inside_as_data_nodes in Hl. now apply (inside_at s l).
Qed.

Lemma spec_append_edge n0 l e :
  ok_opt c n0 (Store.predicates e) ->
  spec c n0 (Store.append_edge l e) (fun _ _ => True).
Proof.
  intros Hv s Hs Hn. cbn. split; [|split; [rewrite length_update; lia | auto]].
  apply typed_put; [exact Hs|]. intros l' Hl.
  apply inside_append_edge in Hl. destruct Hl as [E|Hl].
  - rewrite E in Hv. cbn in Hv. eapply ok_mono; eassumption.
  - apply inside_as_edges in Hl. now apply (inside_at s l).
Qed.

Lemma spec_setitem_str n0 l k v :
  spec c n0 (Store.setitem_str l k v) (fun _ _ => True).
Proof. apply (spec_bind _ _ _ _ _ (spec_get n0 l)). intros. apply spec_put. intros ? []. Qed.

Lemma spec_setitem_aliases n0 l k v :
  spec c n0 (Store.setitem_aliases l k v) (fun _ _ => True).
Proof. apply (spec_bind _ _ _ _ _ (spec_get n0 l)). intros. apply spec_put. intros ? []. Qed.

Lemma spec_setitem_aliases_reverse n0 l k v :
  spec c n0 (Store.setitem_aliases_reverse l k v) (fun _ _ => True).
Proof. apply (spec_bind _ _ _ _ _ (spec_get n0 l)). intros. apply spec_put. intros ? []. Qed.

Lemma spec_clear n0 l : spec c n0 (Store.clear l) (fun _ _ => True).
Proof. apply spec_put. intros ? []. Qed.

Lemma ok_graph_intro n nd e a ar p dn :
  ok c n nd -> ok c n e -> ok c n a -> ok c n ar -> ok c n dn ->
  ok_graph c n (Store.mkQueryGraph nd e a ar p dn).
Proof. unfold ok_graph. cbn. auto. Qed.

Ltac spec_intros :=
  intros ? ? ? ?; cbv beta in *;
  repeat match goal with
         | H : ok _ _ _ /\ (_ <= _)%nat |- _ => destruct H
         end.

Ltac okm :=
  cbn [Store.constraints Store.predicates Store.filters ok_opt fst snd];
  first [ exact I
        | eapply ok_mono; [eassumption | lia]
        | eapply ok_graph_mono; [eassumption | lia]
        | eapply ok_opt_mono; [eassumption | lia] ].

Ltac sstep lem := eapply spec_bind; [lem; try okm | spec_intros].

Ltac spec_facts :=
  cbv beta in *;
  repeat match goal with
         | H : ok _ _ _ /\ (_ <= _)%nat |- _ => destruct H
         end.

Tactic Notation "sbind" tactic3(lem) "as" simple_intropattern(a) :=
  eapply spec_bind; [lem; try okm | intros a ? ? ?; spec_facts].

Tactic Notation "sintros" simple_intropattern(a) := intros a ? ? ?; spec_facts.

Ltac sret := apply spec_ret; intros; try apply ok_graph_intro; try okm.

Lemma spec_with_node n0 g node :
  ok c n0 (Store.constraints node) ->
  spec c n0 (Store.with_node g node) (fun s g' => ok_graph c (List.length s) g').
Proof.
  intros Hc. unfold Store.with_node. cbv zeta.
  sstep ltac:(apply spec_copy). sstep ltac:(apply spec_setitem_nodes).
  sstep ltac:(apply spec_copy). sstep ltac:(apply spec_copy).
  sstep ltac:(apply spec_setitem_aliases). sstep ltac:(apply spec_setitem_aliases_reverse).
  sstep ltac:(apply spec_copy). sstep ltac:(apply spec_copy).
  sret.
Qed.

Lemma spec_with_edge n0 g edge p :
  ok_opt c n0 (Store.predicates edge) ->
  spec c n0 (Store.with_edge g edge p) (fun s g' => ok_graph c (List.length s) g').
Proof.
  intros Hc. unfold Store.with_edge.
  sstep ltac:(apply spec_copy). sstep ltac:(apply spec_append_edge).
  sstep ltac:(apply spec_copy). sstep ltac:(apply spec_copy).
  sstep ltac:(apply spec_copy). sstep ltac:(apply spec_copy).
  sret.
Qed.

Lemma spec_with_data_node n0 g info :
  ok c n0 (Store.filters info) ->
  spec c n0 (Store.with_data_node g info) (fun s g' => ok_graph c (List.length s) g').
Proof.
  intros Hc. unfold Store.with_data_node.
  sstep ltac:(apply spec_copy). sstep ltac:(apply spec_setitem_data_nodes).
  sstep ltac:(apply spec_copy). sstep ltac:(apply spec_copy).
  sstep ltac:(apply spec_copy). sstep ltac:(apply spec_copy).
  sret.
Qed.

Lemma spec_resolve_alias n0 g a :
  spec c n0 (Store.resolve_alias g a) (fun _ _ => True).
Proof.
  unfold Store.resolve_alias. destruct a.
  - sstep ltac:(apply spec_get). sret.
  - sret.
Qed.


Lemma spec_QueryGraph_ n0 :
  spec c n0 Store.QueryGraph_ (fun s g => ok_graph c (List.length s) g).
Proof.
  unfold Store.QueryGraph_.
  sstep ltac:(apply spec_new; intros ? []). sstep ltac:(apply spec_new; intros ? []).
  sstep ltac:(apply spec_new; intros ? []). sstep ltac:(apply spec_new; intros ? []).
  sstep ltac:(apply spec_new; intros ? []).
  sret.
Qed.

Lemma ok_fresh n l k : ok c n l -> (n <= k)%nat -> ok (k :: c) (S k) l.
Proof.
  intros [H1 H2] H. split; [lia|]. intros [->|Hin]; [lia | contradiction].
Qed.

Lemma ok_graph_fresh n g k :
  ok_graph c n g -> (n <= k)%nat -> ok_graph (k :: c) (S k) g.
Proof.
  intros (H1 & H2 & H3 & H4 & H5) H. unfold ok_graph. eauto 10 using ok_fresh.
Qed.

Lemma typed_cache s :
  typed c s -> typed (List.length s :: c) (s ++ [Store.DictStr []]).
Proof.
  intros [Hc Hi]. split.
  - intros l [<-|Hl]; rewrite length_app; cbn; [lia|]. specialize (Hc l Hl). lia.
  - intros l o l' Hn Hin. rewrite length_app, Nat.add_1_r.
    destruct (Nat.lt_ge_cases l (List.length s)) as [Hlt|Hge].
    + rewrite nth_error_app1 in Hn by exact Hlt.
      eapply ok_fresh; [eapply Hi; eassumption | lia].
    + rewrite nth_error_app2 in Hn by exact Hge.
      destruct (l - List.length s)%nat as [|k]; cbn in Hn.
      * injection Hn as <-. destruct Hin.
      * destruct k; discriminate.
Qed.

Lemma spec_Query_ n n0 g x :
  (n <= n0)%nat -> ok_graph c n0 g ->
  spec c n0 (Store.Query_ g x) (returns_query c n).
Proof.
  intros Hn Hg s Hs Hl. cbn. split; [|split].
  - apply typed_new; [exact Hs | intros ? []].
  - rewrite length_app. cbn. lia.
  - intros q [= <-]. unfold returns_query. cbn. split; [|split].
    + now apply typed_cache.
    + rewrite length_app, Nat.add_1_r. eapply ok_graph_fresh; [exact Hg | exact Hl].
    + lia.
Qed.

Lemma spec__clone_with_graph n n0 self g b :
  (n <= n0)%nat -> ok_graph c n0 g ->
  spec c n0 (Store._clone_with_graph self g b) (returns_query c n).
Proof. intros. now apply spec_Query_. Qed.

Lemma spec_Query_service {A} n0 self (f : value -> Store.M A) post :
  spec c n0 (Store.bindM (Store.Query_service self) f) post.
Proof.
  eapply spec_bind; [apply (spec_raise _ _ (fun _ _ => False)) | intros ? ? ? []].
Qed.

Lemma spec_copy_filters n0 fd :
  spec c n0 (Store.copy_filters fd)
    (fun s l => ok c (List.length s) l /\ (n0 <= l)%nat).
Proof.
  unfold Store.copy_filters. destruct fd as [l|].
  - eapply spec_bind; [apply spec_get|]. intros o s1 H1 Ho.
    destruct (Store.as_dict_str o) eqn:E.
    + eapply spec_weaken; [apply (spec_new (List.length s1)); intros ? [] | lia |].
      cbn. intros s l' _ [Hk Hl]. split; [exact Hk | lia].
    + eapply spec_weaken; [apply (spec_new (List.length s1)); exact Ho | lia |].
      cbn. intros s l' _ [Hk Hl]. split; [exact Hk | lia].
  - apply spec_new. intros ? [].
Qed.

Lemma spec__add_data_node n0 self g src path cl al h fd force :
  spec c n0 (Store._add_data_node self g src path cl al h fd force)
    (fun s gi => ok_graph c (List.length s) (fst gi)).
Proof.
  unfold Store._add_data_node. cbv zeta.
  sstep ltac:(apply spec_new; intros ? []).
  sstep ltac:(apply spec_with_node).
  eapply spec_bind.
  { instantiate (1 := fun s g' => ok_graph c (List.length s) g').
    destruct src as [src|].
    - destruct (truthy_opt path).
      + sstep ltac:(apply spec_new; intros ? []). apply spec_with_edge. okm.
      + apply spec_with_edge. exact I.
    - sstep ltac:(apply spec_copy). sstep ltac:(apply spec_copy).
      sstep ltac:(apply spec_copy). sstep ltac:(apply spec_copy).
      sstep ltac:(apply spec_copy). sret. }
  spec_intros.
  sstep ltac:(apply spec_copy_filters).
  sstep ltac:(apply spec_with_data_node).
  sret.
Qed.

Lemma spec__select_data_node_ids n0 self f :
  spec c n0 (Store._select_data_node_ids self f) (fun _ _ => True).
Proof.
  unfold Store._select_data_node_ids. cbv zeta.
  sbind (apply spec_get) as dno.
  destruct (Store.as_data_nodes dno); [apply spec_raise|].
  destruct (is_all f); [sret|].
  destruct f.
  - sbind (apply spec_resolve_alias) as [rid|]; [|apply spec_raise].
    destruct (dict_mem _ _ rid); [sret|].
    sstep ltac:(apply spec_get). sret.
  - destruct (Store.current_pointer _); [|sret].
    destruct (dict_mem _ _ _); sret.
Qed.

Lemma spec_find_entity n0 self cl al :
  spec c n0 (Store.find_entity self cl al) (returns_query c n0).
Proof.
  unfold Store.find_entity. cbv zeta.
  sstep ltac:(apply spec_clear).
  sstep ltac:(apply spec_new; intros ? []).
  sstep ltac:(apply spec_with_node).
  apply spec__clone_with_graph; [lia | okm].
Qed.

Lemma spec_find_related n0 self cl al f h ps m :
  ok_opt c n0 ps ->
  spec c n0 (Store.find_related self cl al f h ps m) (returns_query c n0).
Proof.
  intros Hps. unfold Store.find_related.
  sstep ltac:(apply spec_clear).
  sbind (apply spec_resolve_alias) as [src_id|]; [|apply spec_raise]. cbv zeta.
  sstep ltac:(apply spec_new; intros ? []).
  sstep ltac:(apply spec_with_node).
  eapply spec_bind.
  { instantiate (1 := fun _ _ => True). destruct ps as [l|].
    - sstep ltac:(apply spec_get). sret.
    - sret. }
  sintros given.
  eapply spec_bind.
  { apply spec_with_edge.
    destruct (given && m); [okm|]. destruct (given && negb m); okm. }
  spec_intros.
  apply spec__clone_with_graph; [lia | okm].
Qed.

Lemma spec_mapping_at n0 om k : spec c n0 (Store.mapping_at om k) (fun _ _ => True).
Proof. unfold Store.mapping_at. destruct (dict_get _ _ _); [sret | apply spec_raise]. Qed.

Lemma spec_merge_nodes l : forall n0 mx om mn,
  (forall l', In l' (inside (Store.Nodes l)) -> ok c n0 l') ->
  spec c n0 (Store.merge_nodes mx l om mn) (fun _ _ => True).
Proof.
  induction l as [|[nid node] r IH]; intros n0 mx om mn H; cbn [Store.merge_nodes].
  - sret.
  - cbv zeta. eapply spec_bind.
    + apply spec_setitem_nodes. apply H. cbn. now left.
    + spec_intros. apply IH. intros l' Hl.
      eapply ok_mono; [apply H; cbn; right; exact Hl | lia].
Qed.

Lemma spec_merge_edges l : forall n0 om me,
  (forall l', In l' (inside (Store.Edges l)) -> ok c n0 l') ->
  spec c n0 (Store.merge_edges om l me) (fun _ _ => True).
Proof.
  induction l as [|edge r IH]; intros n0 om me H; cbn [Store.merge_edges].
  - sret.
  - sstep ltac:(apply spec_mapping_at). sstep ltac:(apply spec_mapping_at).
    eapply spec_bind.
    + apply spec_append_edge. cbn [Store.predicates].
      destruct (Store.predicates edge) as [p|] eqn:E; cbn; [|exact I].
      eapply ok_mono; [apply H; cbn; rewrite E; cbn; now left | lia].
    + spec_intros. apply IH. intros l' Hl.
      eapply ok_mono; [apply H; cbn; apply in_or_app; right; exact Hl | lia].
Qed.

Lemma spec_merge_aliases l : forall n0 om ma mar,
  ok c n0 mar ->
  spec c n0 (Store.merge_aliases om l ma mar) (fun s r => ok c (List.length s) r).
Proof.
  induction l as [|[name nid] r IH]; intros n0 om ma mar H; cbn [Store.merge_aliases].
  - sret.
  - sstep ltac:(apply spec_mapping_at). sstep ltac:(apply spec_setitem_aliases).
    sstep ltac:(apply spec_get). sstep ltac:(apply spec_new; intros ? []).
    apply IH. okm.
Qed.

Lemma spec_relate_to n0 self other f t h ps :
  ok_opt c n0 ps ->
  spec c n0 (Store.relate_to self other f t h ps) (returns_query c n0).
Proof.
  intros Hps. unfold Store.relate_to.
  sstep ltac:(apply spec_clear). sstep ltac:(apply spec_clear).
  eapply spec_bind.
  { instantiate (1 := fun _ _ => True). destruct f; [apply spec_resolve_alias | sret]. }
  sintros [src_id|]; [|apply spec_raise].
  eapply spec_bind.
  { instantiate (1 := fun _ _ => True). destruct t; [apply spec_resolve_alias | sret]. }
  sintros [tgt_id|]; [|apply spec_raise].
  sstep ltac:(apply spec_copy). sstep ltac:(apply spec_copy).
  sstep ltac:(apply spec_copy). sstep ltac:(apply spec_copy).
  sstep ltac:(apply spec_get). cbv zeta.
  eapply spec_bind; [apply spec_get|]. intros on s_on Hon Pon.
  eapply spec_bind.
  { apply spec_merge_nodes. intros l' Hl. apply Pon. now apply inside_as_nodes. }
  spec_intros.
  eapply spec_bind; [apply spec_get|]. intros oe s_oe Hoe Poe.
  eapply spec_bind.
  { apply spec_merge_edges. intros l' Hl. apply Poe. now apply inside_as_edges. }
  spec_intros.
  sstep ltac:(apply spec_get).
  sstep ltac:(apply spec_merge_aliases).
  sstep ltac:(apply spec_new; intros ? []).
  sstep ltac:(apply spec_mapping_at).
  sstep ltac:(apply spec_with_edge).
  apply spec_Query_; [lia | okm].
Qed.

Lemma spec_find_data_loop l : forall n0 g n_src path cl al h fd i self lg created,
  spec c n0 (Store.find_data_loop g n_src path cl al h fd l i self lg created)
    (fun _ _ => True).
Proof.
  destruct l as [|src_id r]; intros; cbn [Store.find_data_loop].
  - sret.
  - sstep ltac:(apply spec_get). cbv zeta.
    sstep ltac:(apply spec__add_data_node).
    apply spec_Query_service.
Qed.

Lemma spec_find_data n0 self f path cl h fd al :
  spec c n0 (Store.find_data self f path cl h fd al) (returns_query c n0).
Proof.
  unfold Store.find_data. cbv zeta.
  sstep ltac:(apply spec_clear).
  eapply spec_bind.
  { instantiate (1 := fun _ _ => True). destruct (is_all f).
    - sbind (apply spec_get) as no. destruct (Store.as_nodes no); [apply spec_raise | sret].
    - sbind (apply spec_resolve_alias) as [src_id|]; [sret | apply spec_raise]. }
  spec_intros.
  sbind (apply spec_find_data_loop) as [[self' lg] created].
  apply spec_Query_service.
Qed.

Lemma spec_find_all_data n0 self cl h fd al :
  spec c n0 (Store.find_all_data self cl h fd al) (returns_query c n0).
Proof.
  unfold Store.find_all_data. cbv zeta.
  sstep ltac:(apply spec_clear).
  sbind (apply spec_get) as no.
  destruct (Store.as_nodes no).
  - sstep ltac:(apply spec__add_data_node).
    apply spec__clone_with_graph; [lia | okm].
  - eapply spec_weaken; [apply (spec_find_data (List.length s1)) | lia |].
    intros s q _ (T & G & L). split; [exact T|]. split; [exact G | lia].
Qed.

Lemma spec_set_filters p v l : forall n0 dn2,
  spec c n0 (Store.set_filters p v l dn2) (fun _ _ => True).
Proof.
  induction l as [|nid r IH]; intros; cbn [Store.set_filters].
  - sret.
  - sstep ltac:(apply spec_get).
    destruct (dict_get _ _ nid) as [info|]; [|apply spec_raise].
    sstep ltac:(apply spec_copy). sstep ltac:(apply spec_setitem_str).
    sstep ltac:(apply spec_setitem_data_nodes).
    apply IH.
Qed.

Lemma spec_filter_data_nodes n0 self p v f :
  spec c n0 (Store.filter_data_nodes self p v f) (returns_query c n0).
Proof.
  unfold Store.filter_data_nodes. cbv zeta.
  sstep ltac:(apply spec_clear).
  sbind (apply spec__select_data_node_ids) as [|nid targets]; [apply spec_raise|].
  sstep ltac:(apply spec_copy). sstep ltac:(apply spec_set_filters).
  sstep ltac:(apply spec_copy). sstep ltac:(apply spec_copy).
  sstep ltac:(apply spec_copy). sstep ltac:(apply spec_copy).
  apply spec__clone_with_graph; [lia | apply ok_graph_intro; okm].
Qed.

End Spec.

Lemma spec_empty_query c n0 : spec c n0 Store.empty_query (returns_query c n0).
Proof.
  unfold Store.empty_query. eapply spec_bind; [apply spec_QueryGraph_|].
  intros g s1 H1 Hg. apply spec_Query_; [exact H1 | exact Hg].
Qed.

Lemma spec_run c n0 qs op self :
  admissible c n0 qs op -> spec c n0 (Store.run op self) (returns_query c n0).
Proof.
  destruct op; cbn [admissible Store.run]; intros H.
  - apply spec_find_entity.
  - now apply spec_find_related.
  - apply spec_relate_to. exact (proj2 H).
  - apply spec_find_data.
  - apply spec_find_all_data.
  - apply spec_filter_data_nodes.
Qed.

Lemma ok_cons c n l k : ok c n l -> (n <= k)%nat -> ok (k :: c) n l.
Proof.
  intros [H1 H2] H. split; [exact H1|]. intros [->|Hin]; [lia | contradiction].
Qed.

Lemma ok_graph_cons c n g k :
  ok_graph c n g -> (n <= k)%nat -> ok_graph (k :: c) n g.
Proof.
  intros (H1 & H2 & H3 & H4 & H5) H. unfold ok_graph. eauto 10 using ok_cons.
Qed.

Lemma good_new c s qs o :
  good c s qs -> inside o = [] -> good c (s ++ [o]) qs.
Proof.
  intros [T G] Ho. split.
  - apply typed_new; [exact T|]. rewrite Ho. intros ? [].
  - intros q Hq. destruct (G q Hq) as [Hg Hc]. split; [|exact Hc].
    eapply ok_graph_mono; [exact Hg|]. rewrite length_app. lia.
Qed.

(** A computation that returns a query the way the builder does extends
    the invariant with that query, and keeps it when it raises. *)
Lemma good_returns c s qs (m : Store.M Store.Query) :
  good c s qs -> spec c (List.length s) m (returns_query c (List.length s)) ->
  match snd (m s) with
  | Ok q => good (Store.cache q :: c) (fst (m s)) (q :: qs)
  | Raise _ => good c (fst (m s)) qs
  end.
Proof.
  intros [T G] Hm. destruct (Hm s T (le_n _)) as (T' & L & P).
  destruct (snd (m s)) as [q|e].
  - destruct (P q eq_refl) as (Tq & Gq & Lq). split; [exact Tq|].
    intros q' [<-|Hq].
    + split; [exact Gq | now left].
    + destruct (G q' Hq) as [Hg Hc]. split; [|now right].
      eapply ok_graph_mono; [|exact L]. now apply ok_graph_cons.
  - split; [exact T'|]. intros q Hq. destruct (G q Hq) as [Hg Hc].
    split; [|exact Hc]. eapply ok_graph_mono; eassumption.
Qed.

Lemma reach_good c s qs : reach c s qs -> good c s qs.
Proof.
  induction 1 as [ | c s qs l _ IH | c s qs d _ IH | c s qs s' q _ IH E
                 | c s qs op self s' q _ IH Hs Ha E
                 | c s qs op self s' e _ IH Hs Ha E ].
  - split; [split|]; cbn.
    + intros ? [].
    + intros l o l' Hn. destruct l; discriminate.
    + intros ? [].
  - now apply good_new.
  - now apply good_new.
  - generalize (good_returns c s qs _ IH (spec_empty_query c _)).
    now rewrite E.
  - generalize (good_returns c s qs _ IH (spec_run c _ qs op self Ha)).
    now rewrite E.
  - generalize (good_returns c s qs _ IH (spec_run c _ qs op self Ha)).
    now rewrite E.
Qed.

Lemma good_footprint c s qs q l :
  good c s qs -> In q qs -> In l (Store.footprint s q) -> ok c (List.length s) l.
Proof.
  intros [T G] Hq Hl. destruct (G q Hq) as [(H1 & H2 & H3 & H4 & H5) _].
  unfold Store.footprint in Hl. cbv zeta in Hl.
  apply in_app_or in Hl. destruct Hl as [Hl|Hl].
  - cbn in Hl. intuition (subst; assumption).
  - apply in_app_or in Hl. destruct Hl as [Hl|Hl];
      [|apply in_app_or in Hl; destruct Hl as [Hl|Hl]].
    + eapply inside_at; [exact T|]. apply inside_as_nodes. exact Hl.
    + eapply inside_at; [exact T|]. apply inside_as_edges. exact Hl.
    + eapply inside_at; [exact T|]. apply inside_as_data_nodes. exact Hl.
Qed.

Lemma good_cleared c s qs op self l :
  good c s qs -> In self qs -> admissible c (List.length s) qs op ->
  In l (Store.cleared op self) -> In l c.
Proof.
  intros [T G] Hs Ha Hl. unfold Store.cleared in Hl.
  destruct Hl as [<-|Hl]; [apply (G self Hs)|].
  destruct op; try destruct Hl.
  - subst l. apply (G other). exact (proj1 Ha).
  - destruct H.
Qed.

(** C5. A caller that starts from nothing, makes its own lists and dicts,
    calls [Query()] and runs builder operations holds the queries [qs].
    Running one more operation on any of them, [self], leaves the snapshot
    ([to_dict]) of every query [q1] it holds unchanged, [self] included,
    whether the operation returns a new Query or raises. *)
Theorem builder_immutability c s qs q1 self op :
  reach c s qs -> In q1 qs -> In self qs -> admissible c (List.length s) qs op ->
  Store.to_dict (fst (Store.run op self s)) q1 = Store.to_dict s q1.
Proof.
  intros R H1 Hs Ha. apply reach_good in R.
  apply run_leaves_snapshot. intros l Hl.
  destruct (good_footprint c s qs q1 l R H1 Hl) as [Hlt Hc].
  split; [exact Hlt|]. intros Hin. apply Hc.
  eapply good_cleared; eassumption.
Qed.

(** C5 (witness): [filter_data_nodes(predicate="hasUnit", value="DEG_C")]
    on the query [Query().find_all_data(alias="d")]; the operation returns a
    new Query whose data node has the filter, the old one still has none. *)
Lemma builder_immutability_witness :
  Store.to_dict
    (fst (Store.run (Store.FilterDataNodes "hasUnit" (VStr "DEG_C") None)
            sample_query sample_store))
    sample_query
  = Store.to_dict sample_store sample_query
  /\ snap_data_nodes (Store.to_dict sample_store sample_query)
     = [mkDataDict 0 "d" []]
  /\ match snd (Store.run (Store.FilterDataNodes "hasUnit" (VStr "DEG_C") None)
                  sample_query sample_store) with
     | Ok q2 =>
         snap_data_nodes
           (Store.to_dict
              (fst (Store.run (Store.FilterDataNodes "hasUnit" (VStr "DEG_C") None)
                      sample_query sample_store)) q2)
         = [mkDataDict 0 "d" [("hasUnit", VStr "DEG_C")]]
     | Raise _ => False
     end.
Proof.
  split; [|split; vm_compute; reflexivity].
  apply (builder_immutability
           [Store.cache sample_query; Store.cache start_query]
           sample_store [sample_query; start_query]).
  - apply (reach_returns [Store.cache start_query] start_store [start_query]
             (Store.FindAllData None 3 None (Some "d")) start_query).
    + apply (reach_Query [] [] []); [apply reach_start | vm_compute; reflexivity].
    + now left.
    + exact I.
    + vm_compute; reflexivity.
  - now left.
  - now left.
  - exact I.
Defined.

(** * Theorems: the graph operations and the builder, case by case *)

(** X1. [with_node] followed by a lookup: the node is found under its id,
    its name resolves to its id and so does the pointer, the reverse table
    gives the name back, and every other alias and node is as before. *)
Theorem with_node_lookup g node :
  dict_get Z.eqb (nodes (with_node g node)) (id node) = Some node
  /\ resolve_alias (with_node g node) (Some (node_name node)) = Some (id node)
  /\ resolve_alias (with_node g node) None = Some (id node)
  /\ dict_get Z.eqb (aliases_reverse (with_node g node)) (id node)
     = Some (node_name node)
  /\ (forall a, a <> node_name node ->
        resolve_alias (with_node g node) (Some a) = resolve_alias g (Some a))
  /\ (forall k, k <> id node ->
        dict_get Z.eqb (nodes (with_node g node)) k = dict_get Z.eqb (nodes g) k
        /\ dict_get Z.eqb (aliases_reverse (with_node g node)) k
           = dict_get Z.eqb (aliases_reverse g) k)
  /\ edges (with_node g node) = edges g
  /\ data_nodes (with_node g node) = data_nodes g.
Proof.
  unfold with_node, resolve_alias, node_name. cbn.
  repeat split.
  - apply (dict_get_set_same Z.eqb Z.eqb_eq).
  - apply (dict_get_set_same String.eqb String.eqb_eq).
  - apply (dict_get_set_same Z.eqb Z.eqb_eq).
  - intros a Ha. now apply (dict_get_set_other String.eqb String.eqb_eq).
  - now apply (dict_get_set_other Z.eqb Z.eqb_eq).
  - now apply (dict_get_set_other Z.eqb Z.eqb_eq).
Qed.

(** What a successful [filter_data_nodes] has computed. *)
Lemma filter_data_nodes_inv self predicate v _from q :
  filter_data_nodes self predicate v _from = Ok q ->
  exists ts dn',
    _select_data_node_ids self _from = Ok ts /\ ts <> []
    /\ set_filters predicate v ts (data_nodes (query_graph self)) = Ok dn'
    /\ q = _clone_with_graph self
             (mkQueryGraph (nodes (query_graph self)) (edges (query_graph self))
                (aliases (query_graph self)) (aliases_reverse (query_graph self))
                (current_pointer (query_graph self)) dn') false.
Proof.
  unfold filter_data_nodes. cbv zeta.
  destruct (_select_data_node_ids self _from) as [ts|e]; cbn; [|discriminate].
  destruct ts as [|t ts]; [discriminate|].
  destruct (set_filters predicate v (t :: ts) (data_nodes (query_graph self)))
    as [dn'|e] eqn:E; cbn; [|discriminate].
  intros [= <-]. exists (t :: ts), dn'. repeat split; [discriminate | exact E].
Qed.

Lemma relate_to_pointer self other f t h ps q :
  relate_to self other f t h ps = Ok q ->
  exists p, current_pointer (query_graph q) = Some p.
Proof.
  unfold relate_to. cbv zeta.
  destruct (match f with Some _ => _ | None => _ end); [|discriminate].
  destruct (match t with Some _ => _ | None => _ end); [|discriminate].
  destruct (merge_nodes _ _ _ _) as [om mn].
  destruct (merge_edges _ _ _); cbn; [|discriminate].
  destruct (merge_aliases _ _ _ _); cbn; [|discriminate].
  destruct (dict_at _ _ _); cbn; [|discriminate].
  intros [= <-]. cbn. eauto.
Qed.

Lemma find_all_data_empty self cl h fs al :
  nodes (query_graph self) = [] ->
  find_all_data self cl h fs al
  = Ok (_clone_with_graph self
          (fst (_add_data_node self (query_graph self) None None cl al h fs false))
          true).
Proof. unfold find_all_data. cbv zeta. now intros ->. Qed.

Lemma sorted_nonempty l : l <> [] -> sorted l <> [].
Proof.
  destruct l as [|x l]; [congruence|]. intros _ H.
  assert (Hin : In x (sorted (x :: l))) by (apply in_sorted; now left).
  rewrite H in Hin. destruct Hin.
Qed.

Lemma find_all_data_nodes self cl h fs al :
  nodes (query_graph self) <> [] ->
  find_all_data self cl h fs al = Raise (AttributeError "service").
Proof.
  unfold find_all_data, find_data. cbv zeta.
  destruct (nodes (query_graph self)) as [|kn d] eqn:E; [congruence|]. intros _.
  change (is_all (Some "*")) with true. cbn [bind].
  rewrite find_data_loop_raises; [reflexivity|].
  apply sorted_nonempty. discriminate.
Qed.

(** A reachable query without a pointer has no node. *)
Lemma reachable_no_pointer q :
  reachable q -> current_pointer (query_graph q) = None -> nodes (query_graph q) = [].
Proof.
  induction 1 as [ | q c a _ _ | q c a f h ps m q' _ _ E | q o f t h ps q' _ _ _ _ E
                 | q f p c h fs a q' _ _ E | q c h fs a q' _ _ E
                 | q p v f q' _ IH E ].
  - reflexivity.
  - discriminate.
  - unfold find_related in E. destruct (resolve_alias _ _); [|discriminate].
    injection E as <-. discriminate.
  - destruct (relate_to_pointer _ _ _ _ _ _ _ E) as [p ->]. discriminate.
  - pose proof (find_data_not_ok q f p c h fs a) as H. rewrite E in H. discriminate.
  - destruct (nodes (query_graph q)) as [|kn d] eqn:En.
    + rewrite (find_all_data_empty _ _ _ _ _ En) in E. injection E as <-. discriminate.
    + rewrite find_all_data_nodes in E by (rewrite En; discriminate). discriminate.
  - destruct (filter_data_nodes_inv _ _ _ _ _ E) as (ts & dn' & _ & _ & _ & ->).
    exact IH.
Qed.

(** X2. On a query obtained from the builder, [find_related] without
    [_from] returns exactly when the query has a node: the pointer of such a
    query is set if and only if it has one. *)
Theorem find_related_from_pointer q c a h ps m :
  reachable q ->
  (current_pointer (query_graph q) = None <-> nodes (query_graph q) = [])
  /\ (nodes (query_graph q) = [] -> find_related q c a None h ps m = Raise no_source)
  /\ (nodes (query_graph q) <> [] ->
        exists q', find_related q c a None h ps m = Ok q'
                   /\ current_pointer (query_graph q') = Some (_next_id q)).
Proof.
  intros R.
  assert (H1 : current_pointer (query_graph q) = None <-> nodes (query_graph q) = []).
  { split; [now apply reachable_no_pointer|]. intros En.
    destruct (current_pointer (query_graph q)) as [p|] eqn:Ep; [|reflexivity].
    apply (wf_pointer q (reachable_well_formed q R)) in Ep.
    rewrite En in Ep. discriminate. }
  split; [exact H1|]. split.
  - intros En. apply H1 in En. unfold find_related. cbn. now rewrite En.
  - intros En. unfold find_related. cbn.
    destruct (current_pointer (query_graph q)) as [p|] eqn:Ep.
    + eexists. split; [reflexivity|]. reflexivity.
    + exfalso. apply En. now apply reachable_no_pointer.
Qed.

Lemma find_related_from_pointer_witness :
  exists q', find_related valve_query "Pump" (Some "pump") None 3 None false = Ok q'
             /\ current_pointer (query_graph q') = Some (_next_id valve_query).
Proof.
  apply (find_related_from_pointer valve_query "Pump" (Some "pump") 3 None false).
  - apply reach_find_entity, reach_new.
  - discriminate.
Defined.

(** X3. When predicates are given and [multi_hop_predicates] is off,
    [find_related] does not look at [hops]: the edge it adds has one hop, so
    its pattern compiles whatever [hops] was, to the alternation of the
    distinct non-empty predicates (to one unconstrained step when all of
    them are empty).  An empty list of predicates is the same as none. *)
Theorem find_related_predicates_one_hop self c a f h p ps :
  find_related self c a f h (Some (p :: ps)) false
  = find_related self c a f 1 (Some (p :: ps)) false
  /\ (forall m, find_related self c a f h (Some []) m = find_related self c a f h None m)
  /\ (forall q,
        find_related self c a f h (Some (p :: ps)) false = Ok q ->
        exists src,
          resolve_alias (query_graph self) f = Some src
          /\ edges (query_graph q)
             = edges (query_graph self)
               ++ [mkQueryEdge src (_next_id self) 1 (Some (p :: ps))]
          /\ forall src_var tgt_var edge_idx,
               _edge_pattern src_var tgt_var
                 (mkQueryEdge src (_next_id self) 1 (Some (p :: ps))) edge_idx
               = Ok (match filter truthy (p :: ps) with
                     | [] => union_block src_var tgt_var edge_idx 1
                     | l =>
                         src_var +++ " "
                         +++ ("(" +++ join "|"
                                (map (fun x => "<" +++ x +++ ">") (uniq_loop [] l))
                              +++ ")")
                         +++ " " +++ tgt_var +++ " ."
                     end)).
Proof.
  split; [reflexivity|]. split; [intros m; reflexivity|].
  intros q. unfold find_related.
  destruct (resolve_alias (query_graph self) f) as [src|]; [|discriminate].
  cbn [andb negb]. intros [= <-]. exists src. split; [reflexivity|].
  split; [reflexivity|].
  intros sv tv i. unfold _edge_pattern. cbn [hops predicates].
  change (1 <? 1) with false. change (1 =? 1) with true. cbv iota.
  destruct (filter truthy (p :: ps)); reflexivity.
Qed.

(** X4. [find_all_data] returns exactly when the query has no node: it then
    makes one data node, marked and registered with a copy of the filters,
    and points at it; on a query with a node it raises [AttributeError], as
    [find_data] does. *)
Theorem find_all_data_cases self cl h fs al :
  (nodes (query_graph self) = [] ->
     exists q n,
       find_all_data self cl h fs al = Ok q
       /\ _next_id q = _next_id self + 1
       /\ nodes (query_graph q) = [(_next_id self, n)]
       /\ id n = _next_id self /\ alias n = al /\ is_data_node n = true
       /\ current_pointer (query_graph q) = Some (_next_id self)
       /\ edges (query_graph q) = edges (query_graph self)
       /\ filters_of (query_graph q) (_next_id self)
          = Some (match fs with Some d => d | None => [] end))
  /\ (nodes (query_graph self) <> [] ->
        find_all_data self cl h fs al = Raise (AttributeError "service")).
Proof.
  split; [|apply find_all_data_nodes].
  intros En. rewrite (find_all_data_empty _ _ _ _ _ En).
  eexists. eexists. split; [reflexivity|].
  unfold _add_data_node, with_data_node, with_node, _clone_with_graph, Query_, _new_id.
  cbn. rewrite En. cbn.
  repeat split.
  unfold filters_of. cbn.
  now rewrite (dict_get_set_same Z.eqb Z.eqb_eq).
Qed.

Section DictMore.
Context {K V : Type} (eqb : K -> K -> bool).
Hypothesis eqb_eq : forall a b, eqb a b = true <-> a = b.

Lemma dict_set_same_value (d : dict K V) k v :
  dict_get eqb d k = Some v -> dict_set eqb d k v = d.
Proof.
  induction d as [|[k0 v0] d IH]; cbn; [discriminate|].
  destruct (eqb k k0) eqn:E.
  - now intros [= ->].
  - intros H. now rewrite IH.
Qed.
End DictMore.

Lemma set_filters_fixed predicate v ts dn :
  (forall t, In t ts ->
     exists i, dict_get Z.eqb dn t = Some i
               /\ dict_get String.eqb (filters i) predicate = Some v) ->
  set_filters predicate v ts dn = Ok dn.
Proof.
  induction ts as [|t ts IH]; intros H; cbn [set_filters]; [reflexivity|].
  destruct (H t (or_introl eq_refl)) as (i & Hi & Hv).
  unfold dict_at. rewrite Hi. cbn [bind].
  rewrite (dict_set_same_value String.eqb _ _ _ Hv).
  replace (mkDataNodeInfo (node_id i) (filters i)) with i by now destruct i.
  rewrite (dict_set_same_value Z.eqb _ _ _ Hi).
  apply IH. intros t' Ht'. apply H. now right.
Qed.

(** X5. [filter_data_nodes] changes nothing but filters: the nodes, edges,
    aliases, pointer and next id of the query it returns are those of the
    query it was called on, and so are the ids of the data nodes.  Applying
    the same filter again returns the same query. *)
Theorem filter_data_nodes_frame self predicate v _from q :
  filter_data_nodes self predicate v _from = Ok q ->
  nodes (query_graph q) = nodes (query_graph self)
  /\ edges (query_graph q) = edges (query_graph self)
  /\ aliases (query_graph q) = aliases (query_graph self)
  /\ aliases_reverse (query_graph q) = aliases_reverse (query_graph self)
  /\ current_pointer (query_graph q) = current_pointer (query_graph self)
  /\ _next_id q = _next_id self
  /\ dict_keys (data_nodes (query_graph q)) = dict_keys (data_nodes (query_graph self))
  /\ filter_data_nodes q predicate v _from = Ok q.
Proof.
  intros E. destruct (filter_data_nodes_inv _ _ _ _ _ E) as (ts & dn' & Hs & Hne & Hf & ->).
  pose proof (select_in_data_nodes _ _ _ Hs) as Hin.
  destruct (set_filters_spec predicate v ts _ Hin) as (dn2 & Hf2 & Hk & Ht & _).
  rewrite Hf in Hf2. injection Hf2 as <-.
  unfold _clone_with_graph, Query_. cbn.
  repeat split; try exact Hk; try apply Z.add_0_r.
  set (q := mkQuery _ _ _).
  assert (Hs' : _select_data_node_ids q _from = Ok ts).
  { rewrite <- Hs. apply select_same_keys; try reflexivity. exact Hk. }
  destruct (filter_data_nodes_run q predicate v _from ts Hs' Hne) as (dn3 & Hf3 & ->).
  assert (Hfix : set_filters predicate v ts dn' = Ok dn').
  { apply set_filters_fixed. intros t Hti.
    destruct (Ht t Hti) as (i & i' & _ & Hi' & _ & Hv & _). eauto. }
  cbn in Hf3. rewrite Hfix in Hf3. injection Hf3 as <-.
  unfold _clone_with_graph, Query_, q. cbn. now rewrite !Z.add_0_r.
Qed.

Lemma filter_data_nodes_frame_witness :
  exists q,
    filter_data_nodes data_query "hasUnit" (VStr "DEG_C") None = Ok q
    /\ nodes (query_graph q) = nodes (query_graph data_query)
    /\ filter_data_nodes q "hasUnit" (VStr "DEG_C") None = Ok q.
Proof.
  eexists. split; [reflexivity|].
  pose proof (filter_data_nodes_frame data_query "hasUnit" (VStr "DEG_C") None _ eq_refl)
    as (H1 & _ & _ & _ & _ & _ & _ & H8).
  split; [exact H1 | exact H8].
Defined.

Section DictNoDup.
Context {K V : Type} (eqb : K -> K -> bool).
Hypothesis eqb_eq : forall a b, eqb a b = true <-> a = b.

Lemma dict_set_nodup (d : dict K V) k v :
  NoDup (dict_keys d) -> NoDup (dict_keys (dict_set eqb d k v)).
Proof.
  induction d as [|[k0 v0] d IH]; cbn; intros H.
  - constructor; [intros [] | constructor].
  - destruct (eqb k k0) eqn:E; cbn; [exact H|].
    inversion H as [|? ? Hn Hd]; subst. constructor; [|now apply IH].
    intros Hin. apply (dict_mem_in_keys eqb eqb_eq) in Hin.
    rewrite (dict_mem_set eqb eqb_eq) in Hin. apply orb_true_iff in Hin.
    destruct Hin as [Hin|Hin].
    + apply eqb_eq in Hin. subst k0. now rewrite (eqb_same eqb eqb_eq) in E.
    + apply Hn. now apply (dict_mem_in_keys eqb eqb_eq).
Qed.

Lemma dict_get_not_in (d : dict K V) k :
  ~ In k (dict_keys d) -> dict_get eqb d k = None.
Proof.
  intros H. destruct (dict_get eqb d k) eqn:E; [|reflexivity].
  exfalso. apply H. apply (dict_mem_in_keys eqb eqb_eq). unfold dict_mem. now rewrite E.
Qed.

Lemma dict_get_in (d : dict K V) k v :
  NoDup (dict_keys d) -> In (k, v) d -> dict_get eqb d k = Some v.
Proof.
  induction d as [|[k0 v0] d IH]; cbn; [intros _ []|].
  intros Hn [[= -> ->]|Hin].
  - now rewrite (eqb_same eqb eqb_eq).
  - inversion Hn as [|? ? Hk Hd]; subst.
    destruct (eqb k k0) eqn:E; [|now apply IH].
    apply eqb_eq in E. subst k0. exfalso. apply Hk.
    change k with (fst (k, v)). now apply in_map.
Qed.
End DictNoDup.

(** *** [max(keys, default=-1)] *)

Lemma fold_max_ge r : forall k,
  k <= fold_left Z.max r k /\ forall x, In x r -> x <= fold_left Z.max r k.
Proof.
  induction r as [|y r IH]; intros k; cbn.
  - split; [lia | intros ? []].
  - destruct (IH (Z.max k y)) as [H1 H2]. split; [lia|].
    intros x [<-|Hx]; [lia | now apply H2].
Qed.

Lemma max_key_ge keys k : In k keys -> k <= max_key keys.
Proof.
  destruct keys as [|k0 r]; [intros []|]. cbn.
  destruct (fold_max_ge r k0) as [H1 H2]. intros [<-|Hk]; [exact H1 | now apply H2].
Qed.

Lemma fold_max_in r : forall k, fold_left Z.max r k = k \/ In (fold_left Z.max r k) r.
Proof.
  induction r as [|y r IH]; intros k; cbn; [now left|].
  destruct (IH (Z.max k y)) as [H|H]; [|now right; right].
  rewrite H. destruct (Z.max_spec k y) as [[_ ->]|[_ ->]]; [right; now left | now left].
Qed.

Lemma max_key_in keys : keys <> [] -> In (max_key keys) keys.
Proof.
  destruct keys as [|k0 r]; [congruence|]. intros _. cbn.
  destruct (fold_max_in r k0) as [->|H]; [now left | now right].
Qed.

Lemma max_key_lower keys : (forall k, In k keys -> 0 <= k) -> -1 <= max_key keys.
Proof.
  intros H. destruct keys as [|k0 r] eqn:E; [cbn; lia|].
  assert (Hin : In (max_key (k0 :: r)) (k0 :: r)) by (apply max_key_in; discriminate).
  apply H in Hin. lia.
Qed.

(** *** The loops of [relate_to] *)

Lemma merge_nodes_mapping mx l : forall om mn k,
  dict_get Z.eqb (fst (merge_nodes mx l om mn)) k
  = if dict_mem Z.eqb l k then Some (mx + 1 + k) else dict_get Z.eqb om k.
Proof.
  induction l as [|[nid node] r IH]; intros om mn k; cbn [merge_nodes].
  - reflexivity.
  - cbv zeta. rewrite IH. unfold dict_mem at 2. cbn [dict_get].
    destruct (k =? nid) eqn:E.
    + apply Z.eqb_eq in E. subst k.
      rewrite (dict_get_set_same Z.eqb Z.eqb_eq). now destruct (dict_mem Z.eqb r nid).
    + rewrite (dict_get_set_other Z.eqb Z.eqb_eq) by (intros ->; now rewrite Z.eqb_refl in E).
      reflexivity.
Qed.

Lemma merge_nodes_other mx l : forall om mn j,
  (forall k, In k (dict_keys l) -> mx + 1 + k <> j) ->
  dict_get Z.eqb (snd (merge_nodes mx l om mn)) j = dict_get Z.eqb mn j.
Proof.
  induction l as [|[nid node] r IH]; intros om mn j H; cbn [merge_nodes].
  - reflexivity.
  - cbv zeta. rewrite IH by (intros k Hk; apply H; now right).
    apply (dict_get_set_other Z.eqb Z.eqb_eq).
    intros ->. apply (H nid); [now left | reflexivity].
Qed.

Lemma merge_nodes_lookup mx l : forall om mn k n,
  NoDup (dict_keys l) -> dict_get Z.eqb l k = Some n ->
  dict_get Z.eqb (snd (merge_nodes mx l om mn)) (mx + 1 + k) = Some n.
Proof.
  induction l as [|[nid node] r IH]; intros om mn k n Hn; cbn [merge_nodes dict_get].
  - discriminate.
  - cbv zeta. inversion Hn as [|? ? Hk Hd]; subst.
    destruct (k =? nid) eqn:E.
    + apply Z.eqb_eq in E. subst k. intros [= ->].
      rewrite merge_nodes_other.
      * apply (dict_get_set_same Z.eqb Z.eqb_eq).
      * intros k Hin Heq. assert (k = nid) by lia. subst k. contradiction.
    + intros H. now apply IH.
Qed.

Lemma merge_nodes_keys mx l : forall om mn j,
  dict_mem Z.eqb (snd (merge_nodes mx l om mn)) j = true ->
  dict_mem Z.eqb mn j = true \/ exists k, In k (dict_keys l) /\ j = mx + 1 + k.
Proof.
  induction l as [|[nid node] r IH]; intros om mn j; cbn [merge_nodes].
  - now left.
  - cbv zeta. intros H. apply IH in H. destruct H as [H|(k & Hk & ->)].
    + rewrite (dict_mem_set Z.eqb Z.eqb_eq) in H. apply orb_true_iff in H.
      destruct H as [H|H]; [|now left].
      apply Z.eqb_eq in H. right. exists nid. split; [now left | exact H].
    + right. exists k. split; [now right | reflexivity].
Qed.

Lemma merge_nodes_nodup mx l : forall om mn,
  NoDup (dict_keys mn) -> NoDup (dict_keys (snd (merge_nodes mx l om mn))).
Proof.
  induction l as [|[nid node] r IH]; intros om mn H; cbn [merge_nodes]; [exact H|].
  cbv zeta. apply IH. now apply (dict_set_nodup Z.eqb Z.eqb_eq).
Qed.

Lemma merge_edges_run om sh l : forall acc,
  (forall e, In e l ->
     dict_get Z.eqb om (source_id e) = Some (sh + source_id e)
     /\ dict_get Z.eqb om (target_id e) = Some (sh + target_id e)) ->
  merge_edges om l acc = Ok (acc ++ map (shift_edge sh) l).
Proof.
  induction l as [|e r IH]; intros acc H; cbn [merge_edges map].
  - now rewrite app_nil_r.
  - destruct (H e (or_introl eq_refl)) as [Hs Ht].
    unfold dict_at. rewrite Hs, Ht. cbn [bind].
    rewrite IH by (intros e' He'; apply H; now right).
    now rewrite <- app_assoc.
Qed.

(** The alias loop: the aliases of [other], moved, are written over those
    of [self]. *)
Lemma merge_aliases_run om sh l : forall ma mr,
  (forall a nid, In (a, nid) l -> dict_get Z.eqb om nid = Some (sh + nid)) ->
  exists res,
    merge_aliases om l ma mr = Ok res
    /\ fst res = fold_left (fun d kv => dict_set String.eqb d (fst kv) (sh + snd kv)) l ma
    /\ (l <> [] -> snd res = invert_aliases (fst res))
    /\ (l = [] -> snd res = mr).
Proof.
  induction l as [|[a nid] r IH]; intros ma mr H; cbn [merge_aliases fold_left].
  - eexists. split; [reflexivity|]. cbn. repeat split; congruence.
  - unfold dict_at. rewrite (H a nid (or_introl eq_refl)). cbn [bind]. cbv zeta.
    destruct (IH (dict_set String.eqb ma a (sh + nid))
                 (invert_aliases (dict_set String.eqb ma a (sh + nid))))
      as (res & E & Hf & Hne & He).
    { intros a' nid' Hin. apply (H a' nid'). now right. }
    exists res. split; [exact E|]. split; [exact Hf|]. split; [|discriminate].
    intros _. destruct r as [|x r]; [|apply Hne; discriminate].
    rewrite (He eq_refl). cbn in Hf. now rewrite Hf.
Qed.

Lemma fold_set_other sh l : forall (ma : dict string Z) a,
  ~ In a (dict_keys l) ->
  dict_get String.eqb
    (fold_left (fun d kv => dict_set String.eqb d (fst kv) (sh + snd kv)) l ma) a
  = dict_get String.eqb ma a.
Proof.
  induction l as [|[a0 n0] r IH]; intros ma a H; cbn [fold_left]; [reflexivity|].
  rewrite IH by (intros Hin; apply H; now right).
  apply (dict_get_set_other String.eqb String.eqb_eq).
  intros ->. apply H. now left.
Qed.

Lemma fold_set_lookup sh l : forall (ma : dict string Z) a nid,
  NoDup (dict_keys l) -> dict_get String.eqb l a = Some nid ->
  dict_get String.eqb
    (fold_left (fun d kv => dict_set String.eqb d (fst kv) (sh + snd kv)) l ma) a
  = Some (sh + nid).
Proof.
  induction l as [|[a0 n0] r IH]; intros ma a nid Hn; cbn [fold_left dict_get].
  - discriminate.
  - inversion Hn as [|? ? Hk Hd]; subst. cbn [fst snd].
    destruct (String.eqb a a0) eqn:E.
    + apply String.eqb_eq in E. subst a0. intros [= ->].
      rewrite fold_set_other by exact Hk.
      apply (dict_get_set_same String.eqb String.eqb_eq).
    + intros H. now apply IH.
Qed.

Lemma fold_set_nodup sh l : forall (ma : dict string Z),
  NoDup (dict_keys ma) ->
  NoDup (dict_keys
           (fold_left (fun d kv => dict_set String.eqb d (fst kv) (sh + snd kv)) l ma)).
Proof.
  induction l as [|[a0 n0] r IH]; intros ma H; cbn [fold_left]; [exact H|].
  apply IH. now apply (dict_set_nodup String.eqb String.eqb_eq).
Qed.

Lemma resolve_source g f :
  match f with
  | None => current_pointer g
  | Some _ => resolve_alias g f
  end = resolve_alias g f.
Proof. now destruct f. Qed.

(** [relate_to] on a target whose edges and aliases name nodes of its own:
    the result in closed form. *)
Lemma relate_to_run self other f t h ps src tgt :
  resolve_alias (query_graph self) f = Some src ->
  resolve_alias (query_graph other) t = Some tgt ->
  edges_closed (query_graph other) -> aliases_closed (query_graph other) ->
  NoDup (dict_keys (aliases (query_graph other))) ->
  dict_mem Z.eqb (nodes (query_graph other)) tgt = true ->
  relate_to self other f t h ps
  = Ok (Query_ (merged_graph (query_graph self) (query_graph other) src tgt h ps)
          (Z.max (_next_id self) (_next_id other))).
Proof.
  intros Hs Ht He Ha Hn Hm. unfold relate_to. cbv zeta.
  rewrite !resolve_source, Hs, Ht.
  set (mx := max_key (dict_keys (nodes (query_graph self)))).
  pose proof (merge_nodes_mapping mx (nodes (query_graph other)) []
                (nodes (query_graph self))) as Hmap.
  assert (Hget : forall k, dict_mem Z.eqb (nodes (query_graph other)) k = true ->
            dict_get Z.eqb
              (fst (merge_nodes mx (nodes (query_graph other)) [] (nodes (query_graph self))))
              k = Some (mx + 1 + k)).
  { intros k Hk. now rewrite Hmap, Hk. }
  clear Hmap.
  destruct (merge_nodes mx _ _ _) as [om mn] eqn:Emn. cbn [fst snd] in Hget.
  rewrite (merge_edges_run om (mx + 1)).
  2:{ intros e Hin. destruct (He e Hin). split; now apply Hget. }
  cbn [bind].
  destruct (merge_aliases_run om (mx + 1) (aliases (query_graph other))
              (aliases (query_graph self)) (aliases_reverse (query_graph self)))
    as (res & -> & Hf & Hne & Hnil).
  { intros a nid Hin. apply Hget. apply (Ha a).
    now apply (dict_get_in String.eqb String.eqb_eq). }
  cbn [bind]. unfold dict_at. rewrite (Hget tgt Hm). cbn [bind].
  unfold with_edge, merged_graph, merged_aliases. cbv zeta. cbn [nodes edges aliases
    aliases_reverse current_pointer data_nodes].
  fold mx. rewrite Emn. cbn [snd]. rewrite <- Hf, <- app_assoc.
  do 2 f_equal.
  destruct (aliases (query_graph other)) as [|x l] eqn:El.
  - now rewrite Hnil.
  - rewrite Hne by discriminate. reflexivity.
Qed.

(** *** Queries obtained from the builder are tidy *)

Lemma with_node_tidy g node :
  tidy_graph g -> 0 <= id node -> tidy_graph (with_node g node).
Proof.
  intros [Hn Ha Hi] Hid. unfold with_node. split; cbn.
  - now apply (dict_set_nodup Z.eqb Z.eqb_eq).
  - now apply (dict_set_nodup String.eqb String.eqb_eq).
  - intros k. rewrite (dict_mem_set Z.eqb Z.eqb_eq). intros H.
    apply orb_true_iff in H. destruct H as [H|H]; [|now apply Hi].
    apply Z.eqb_eq in H. now subst k.
Qed.

Lemma merged_graph_tidy self other src tgt h ps :
  tidy_graph self -> tidy_graph other ->
  tidy_graph (merged_graph self other src tgt h ps).
Proof.
  intros [Hn Ha Hi] [Hn' Ha' Hi']. unfold merged_graph. cbv zeta. split; cbn.
  - now apply merge_nodes_nodup.
  - unfold merged_aliases. now apply fold_set_nodup.
  - intros k Hk. apply merge_nodes_keys in Hk. destruct Hk as [Hk|(k' & Hk' & ->)].
    + now apply Hi.
    + assert (0 <= k') by (apply Hi'; now apply (dict_mem_in_keys Z.eqb Z.eqb_eq)).
      assert (-1 <= max_key (dict_keys (nodes self))).
      { apply max_key_lower. intros k Hk. apply Hi.
        now apply (dict_mem_in_keys Z.eqb Z.eqb_eq). }
      lia.
Qed.

Lemma find_related_inv q c a f h ps m q' :
  find_related q c a f h ps m = Ok q' ->
  exists src edge,
    resolve_alias (query_graph q) f = Some src
    /\ source_id edge = src /\ target_id edge = _next_id q
    /\ q' = Query_ (with_edge (with_node (query_graph q)
                                 (mkQueryNode (_next_id q) (Some c) a []))
                      edge (Some (_next_id q)))
              (_next_id q + 1).
Proof.
  unfold find_related. destruct (resolve_alias (query_graph q) f) as [src|]; [|discriminate].
  cbv zeta. intros [= <-]. exists src. eexists. split; [reflexivity|].
  split; [|split; [|reflexivity]];
    destruct (_ && m); try reflexivity; destruct (_ && negb m); reflexivity.
Qed.

Lemma reachable_tidy q : reachable q -> tidy q.
Proof.
  induction 1 as [ | q c a _ IH | q c a f h ps m q' _ IH E
                 | q o f t h ps q' R IH Ro IHo E
                 | q f p c h fs a q' _ _ E | q c h fs a q' _ IH E
                 | q p v f q' _ IH E ].
  - split; [split; cbn; [constructor | constructor | discriminate] | cbn; lia].
  - destruct IH as [G N]. split; [|cbn; lia].
    apply with_node_tidy; [exact G | exact N].
  - destruct IH as [G N].
    destruct (find_related_inv _ _ _ _ _ _ _ _ E) as (src & edge & _ & _ & _ & ->).
    split; [|cbn; lia].
    pose proof (with_node_tidy (query_graph q) (mkQueryNode (_next_id q) (Some c) a [])
                  G N) as [T1 T2 T3].
    split; assumption.
  - destruct IH as [G N], IHo as [Go No].
    pose proof (reachable_well_formed o Ro) as [We Wa Wp _].
    unfold relate_to in E. cbv zeta in E. rewrite !resolve_source in E.
    destruct (resolve_alias (query_graph q) f) as [src|] eqn:Es; [|discriminate].
    destruct (resolve_alias (query_graph o) t) as [tgt|] eqn:Et; [|discriminate].
    assert (Hm : dict_mem Z.eqb (nodes (query_graph o)) tgt = true)
      by exact (resolve_alias_closed _ _ _ Wa Wp Et).
    pose proof (relate_to_run q o f t h ps src tgt Es Et We Wa (tidy_aliases _ Go) Hm) as Hr.
    unfold relate_to in Hr. cbv zeta in Hr. rewrite !resolve_source, Es, Et in Hr.
    rewrite Hr in E. injection E as <-.
    split; [now apply merged_graph_tidy | cbn; lia].
  - pose proof (find_data_not_ok q f p c h fs a) as H. rewrite E in H. discriminate.
  - destruct IH as [G N].
    destruct (nodes (query_graph q)) as [|kn d] eqn:En.
    + rewrite (find_all_data_empty _ _ _ _ _ En) in E. injection E as <-.
      split; [|cbn; lia].
      unfold _add_data_node, with_data_node, _clone_with_graph, Query_, _new_id. cbn.
      pose proof (with_node_tidy (query_graph q)
                    (mkQueryNode (_next_id q) (if truthy_opt c then c else None) a
                       [("is_data_node", VBool true); ("path_from", VNone)]) G N)
        as [T1 T2 T3].
      split; assumption.
    + rewrite find_all_data_nodes in E by (rewrite En; discriminate). discriminate.
  - destruct (filter_data_nodes_inv _ _ _ _ _ E) as (ts & dn' & _ & _ & _ & ->).
    destruct IH as [[T1 T2 T3] N]. split; [split; assumption | cbn; lia].
Qed.

(** X6. [relate_to] with a query obtained from the builder raises only for
    a missing source or target: [ValueError] when the source does not
    resolve in [self], [ValueError] when the target does not resolve in
    [other]; otherwise it returns the merged graph, and the lookups of
    [other_mapping] never raise [KeyError]. *)
Theorem relate_to_returns self other f t h ps :
  reachable other ->
  (resolve_alias (query_graph self) f = None ->
     relate_to self other f t h ps = Raise no_pointer_self)
  /\ (forall src,
        resolve_alias (query_graph self) f = Some src ->
        resolve_alias (query_graph other) t = None ->
        relate_to self other f t h ps = Raise no_pointer_other)
  /\ (forall src tgt,
        resolve_alias (query_graph self) f = Some src ->
        resolve_alias (query_graph other) t = Some tgt ->
        relate_to self other f t h ps
        = Ok (Query_ (merged_graph (query_graph self) (query_graph other) src tgt h ps)
                (Z.max (_next_id self) (_next_id other)))).
Proof.
  intros Ro. split; [|split].
  - intros Hs. unfold relate_to. cbv zeta. now rewrite resolve_source, Hs.
  - intros src Hs Ht. unfold relate_to. cbv zeta. now rewrite !resolve_source, Hs, Ht.
  - intros src tgt Hs Ht.
    pose proof (reachable_well_formed other Ro) as [We Wa Wp _].
    destruct (reachable_tidy other Ro) as [Go _].
    apply relate_to_run; try assumption.
    + exact (tidy_aliases _ Go).
    + exact (resolve_alias_closed _ _ _ Wa Wp Ht).
Qed.

Lemma relate_to_returns_witness :
  relate_to valve_query pump_query None None 3 None
  = Ok (Query_ (merged_graph (query_graph valve_query) (query_graph pump_query) 0 0 3 None)
          (Z.max (_next_id valve_query) (_next_id pump_query))).
Proof.
  apply (relate_to_returns valve_query pump_query None None 3 None).
  - apply reach_find_entity, reach_new.
  - reflexivity.
  - reflexivity.
Defined.

(** The merged graph, fact by fact. *)
Lemma relate_to_merged self other f t h ps q :
  reachable self -> reachable other ->
  relate_to self other f t h ps = Ok q ->
  exists src tgt,
    let sh := max_key (dict_keys (nodes (query_graph self))) + 1 in
    resolve_alias (query_graph self) f = Some src
    /\ resolve_alias (query_graph other) t = Some tgt
    /\ (forall k n, dict_get Z.eqb (nodes (query_graph self)) k = Some n ->
          dict_get Z.eqb (nodes (query_graph q)) k = Some n)
    /\ (forall k n, dict_get Z.eqb (nodes (query_graph other)) k = Some n ->
          dict_get Z.eqb (nodes (query_graph q)) (sh + k) = Some n)
    /\ (forall j, dict_mem Z.eqb (nodes (query_graph q)) j = true ->
          dict_mem Z.eqb (nodes (query_graph self)) j = true
          \/ exists k, dict_mem Z.eqb (nodes (query_graph other)) k = true /\ j = sh + k)
    /\ edges (query_graph q)
       = edges (query_graph self) ++ map (shift_edge sh) (edges (query_graph other))
         ++ [mkQueryEdge src (sh + tgt) h ps]
    /\ current_pointer (query_graph q) = Some (sh + tgt)
    /\ (forall a nid, dict_get String.eqb (aliases (query_graph other)) a = Some nid ->
          resolve_alias (query_graph q) (Some a) = Some (sh + nid))
    /\ (forall a, dict_get String.eqb (aliases (query_graph other)) a = None ->
          resolve_alias (query_graph q) (Some a) = resolve_alias (query_graph self) (Some a))
    /\ _next_id q = Z.max (_next_id self) (_next_id other).
Proof.
  intros Rs Ro E.
  destruct (resolve_alias (query_graph self) f) as [src|] eqn:Es.
  2:{ unfold relate_to in E. cbv zeta in E. rewrite resolve_source, Es in E. discriminate. }
  destruct (resolve_alias (query_graph other) t) as [tgt|] eqn:Et.
  2:{ unfold relate_to in E. cbv zeta in E. rewrite !resolve_source, Es, Et in E.
      discriminate. }
  destruct (reachable_tidy self Rs) as [[Sn Sa Si] _].
  destruct (reachable_tidy other Ro) as [[On Oa Oi] _].
  pose proof (reachable_well_formed other Ro) as [We Wa Wp _].
  rewrite (relate_to_run self other f t h ps src tgt Es Et We Wa Oa
             (resolve_alias_closed _ _ _ Wa Wp Et)) in E.
  injection E as <-.
  exists src, tgt. cbv zeta. unfold merged_graph, Query_. cbn.
  set (mx := max_key (dict_keys (nodes (query_graph self)))).
  split; [reflexivity|]. split; [reflexivity|]. split; [|split; [|split]].
  - intros k n Hk. rewrite merge_nodes_other; [exact Hk|].
    intros k' Hk' Heq.
    assert (0 <= k') by (apply Oi; now apply (dict_mem_in_keys Z.eqb Z.eqb_eq)).
    assert (k <= mx).
    { apply max_key_ge. apply (dict_mem_in_keys Z.eqb Z.eqb_eq).
      unfold dict_mem. now rewrite Hk. }
    lia.
  - intros k n Hk. now apply merge_nodes_lookup.
  - intros j Hj. apply merge_nodes_keys in Hj. destruct Hj as [Hj|(k & Hk & ->)].
    + now left.
    + right. exists k. split; [now apply (dict_mem_in_keys Z.eqb Z.eqb_eq) | reflexivity].
  - repeat split.
    + intros a nid Ha. unfold merged_aliases. now apply fold_set_lookup.
    + intros a Ha. unfold merged_aliases. apply fold_set_other.
      intros Hin. apply (dict_mem_in_keys String.eqb String.eqb_eq) in Hin.
      unfold dict_mem in Hin. now rewrite Ha in Hin.
Qed.

(** X7. The graph [relate_to] returns is the union of the two graphs with
    the nodes of [other] renumbered: a node of [self] keeps its id, a node
    [k] of [other] is found at [max_id_self + 1 + k], and there is no other
    node; the edges are those of [self], those of [other] renumbered, and
    the new edge from the source to the renumbered target, which becomes the
    pointer; an alias of [other] resolves to the renumbered node, also when
    [self] had the same alias, and every other alias resolves as in
    [self]. *)
Theorem relate_to_union self other f t h ps q :
  reachable self -> reachable other ->
  relate_to self other f t h ps = Ok q ->
  exists src tgt,
    let sh := max_key (dict_keys (nodes (query_graph self))) + 1 in
    resolve_alias (query_graph self) f = Some src
    /\ resolve_alias (query_graph other) t = Some tgt
    /\ (forall k n, dict_get Z.eqb (nodes (query_graph self)) k = Some n ->
          dict_get Z.eqb (nodes (query_graph q)) k = Some n)
    /\ (forall k n, dict_get Z.eqb (nodes (query_graph other)) k = Some n ->
          dict_get Z.eqb (nodes (query_graph q)) (sh + k) = Some n)
    /\ (forall j, dict_mem Z.eqb (nodes (query_graph q)) j = true ->
          dict_mem Z.eqb (nodes (query_graph self)) j = true
          \/ exists k, dict_mem Z.eqb (nodes (query_graph other)) k = true /\ j = sh + k)
    /\ edges (query_graph q)
       = edges (query_graph self) ++ map (shift_edge sh) (edges (query_graph other))
         ++ [mkQueryEdge src (sh + tgt) h ps]
    /\ current_pointer (query_graph q) = Some (sh + tgt)
    /\ (forall a nid, dict_get String.eqb (aliases (query_graph other)) a = Some nid ->
          resolve_alias (query_graph q) (Some a) = Some (sh + nid))
    /\ (forall a, dict_get String.eqb (aliases (query_graph other)) a = None ->
          resolve_alias (query_graph q) (Some a) = resolve_alias (query_graph self) (Some a))
    /\ _next_id q = Z.max (_next_id self) (_next_id other).
Proof. apply relate_to_merged. Qed.

Lemma relate_to_union_witness :
  exists q,
    relate_to valve_query pump_query None None 3 None = Ok q
    /\ dict_keys (nodes (query_graph q)) = [0; 1]
    /\ edges (query_graph q) = [mkQueryEdge 0 1 3 None]
    /\ resolve_alias (query_graph q) (Some "pump") = Some 1.
Proof.
  eexists. split; [reflexivity|]. split; [reflexivity|].
  destruct (relate_to_union valve_query pump_query None None 3 None _
              (reach_find_entity _ "Valve" (Some "valve") reach_new)
              (reach_find_entity _ "Pump" (Some "pump") reach_new) eq_refl)
    as (src & tgt & Hs & Ht & _ & _ & _ & He & _ & Ha & _).
  injection Hs as <-. injection Ht as <-.
  split; [exact He | exact (Ha "pump" 0 eq_refl)].
Defined.

(** *** Ids after [relate_to] *)

Lemma dense_empty : dense empty_query.
Proof. intros k. cbn. split; [discriminate | lia]. Qed.

Lemma dense_max_key q :
  dense q -> 0 < _next_id q ->
  max_key (dict_keys (nodes (query_graph q))) = _next_id q - 1.
Proof.
  intros D Hn.
  assert (Hin : In (_next_id q - 1) (dict_keys (nodes (query_graph q)))).
  { apply (dict_mem_in_keys Z.eqb Z.eqb_eq). apply D. lia. }
  pose proof (max_key_ge _ _ Hin) as H1.
  assert (Hne : dict_keys (nodes (query_graph q)) <> []).
  { intros E. rewrite E in Hin. destruct Hin. }
  pose proof (max_key_in _ Hne) as H2.
  apply (dict_mem_in_keys Z.eqb Z.eqb_eq), D in H2. lia.
Qed.

Lemma dense_find_entity q c a :
  0 <= _next_id q -> dense q -> dense (find_entity q c a).
Proof.
  intros Hn D k. unfold find_entity, with_node, _clone_with_graph, Query_, _new_id. cbn.
  rewrite (dict_mem_set Z.eqb Z.eqb_eq), orb_true_iff, Z.eqb_eq, (D k). lia.
Qed.

Lemma dense_find_related q c a f h ps m q' :
  0 <= _next_id q -> dense q -> find_related q c a f h ps m = Ok q' -> dense q'.
Proof.
  intros Hn D E k.
  destruct (find_related_inv _ _ _ _ _ _ _ _ E) as (src & edge & _ & _ & _ & ->).
  unfold with_edge, with_node, Query_. cbn.
  rewrite (dict_mem_set Z.eqb Z.eqb_eq), orb_true_iff, Z.eqb_eq, (D k). lia.
Qed.

(** X8. [relate_to] takes the larger of the two [_next_id] for the merged
    query although it has renumbered the nodes of [other] above those of
    [self].  When both queries number their nodes from 0 without gaps, as
    queries made of [find_entity] and [find_related] do, and both have a
    node, the [_next_id] of the result is the id of one of its nodes: the
    next [find_entity] does not add a node, it replaces that one. *)
Theorem relate_to_reuses_id self other f t h ps q :
  reachable self -> reachable other -> dense self -> dense other ->
  0 < _next_id self -> 0 < _next_id other ->
  relate_to self other f t h ps = Ok q ->
  exists old,
    dict_get Z.eqb (nodes (query_graph other))
      (Z.max (_next_id self) (_next_id other) - _next_id self) = Some old
    /\ dict_get Z.eqb (nodes (query_graph q)) (_next_id q) = Some old
    /\ forall c a,
         dict_keys (nodes (query_graph (find_entity q c a)))
         = dict_keys (nodes (query_graph q))
         /\ dict_get Z.eqb (nodes (query_graph (find_entity q c a))) (_next_id q)
            = Some (mkQueryNode (_next_id q) (Some c) a []).
Proof.
  intros Rs Ro Ds Do Hs Ho E.
  destruct (relate_to_merged self other f t h ps q Rs Ro E)
    as (src & tgt & _ & _ & _ & Hsh & _ & _ & _ & _ & _ & Hn).
  cbv zeta in Hsh. rewrite (dense_max_key self Ds Hs) in Hsh.
  set (k := Z.max (_next_id self) (_next_id other) - _next_id self).
  assert (Hk : dict_mem Z.eqb (nodes (query_graph other)) k = true).
  { apply Do. unfold k. lia. }
  unfold dict_mem in Hk.
  destruct (dict_get Z.eqb (nodes (query_graph other)) k) as [old|] eqn:Eo; [|discriminate].
  exists old. split; [reflexivity|].
  assert (Hq : dict_get Z.eqb (nodes (query_graph q)) (_next_id q) = Some old).
  { rewrite Hn. replace (Z.max (_next_id self) (_next_id other))
      with (_next_id self - 1 + 1 + k) by (unfold k; lia).
    now apply Hsh. }
  split; [exact Hq|].
  intros c a. unfold find_entity, with_node, _clone_with_graph, Query_, _new_id. cbn.
  split.
  - apply (dict_keys_set_present Z.eqb). unfold dict_mem. now rewrite Hq.
  - apply (dict_get_set_same Z.eqb Z.eqb_eq).
Qed.

Lemma relate_to_reuses_id_witness :
  exists q old,
    relate_to valve_query pump_query None None 3 None = Ok q
    /\ dict_get Z.eqb (nodes (query_graph q)) (_next_id q) = Some old
    /\ rdf_class old = Some "Pump"
    /\ dict_keys (nodes (query_graph (find_entity q "Fan" (Some "fan")))) = [0; 1]
    /\ dict_get Z.eqb (nodes (query_graph (find_entity q "Fan" (Some "fan")))) (_next_id q)
       = Some (mkQueryNode (_next_id q) (Some "Fan") (Some "fan") []).
Proof.
  eexists.
  destruct (relate_to_reuses_id valve_query pump_query None None 3 None _
              (reach_find_entity _ "Valve" (Some "valve") reach_new)
              (reach_find_entity _ "Pump" (Some "pump") reach_new)
              (dense_find_entity empty_query "Valve" (Some "valve") (Z.le_refl 0) dense_empty)
              (dense_find_entity empty_query "Pump" (Some "pump") (Z.le_refl 0) dense_empty)
              eq_refl eq_refl eq_refl)
    as (old & H1 & H2 & H3).
  exists old. split; [reflexivity|]. split; [exact H2|].
  injection H1 as <-. split; [reflexivity|].
  destruct (H3 "Fan" (Some "fan")) as [H4 H5]. split; [exact H4 | exact H5].
Defined.


(** * Theorems: SPARQL compilation *)

Lemma var_map_get keys : forall (m : dict Z string) k,
  dict_get Z.eqb
    (fold_left (fun m nid => dict_set Z.eqb m nid ("?v" +++ str_of_int nid)) keys m) k
  = if existsb (Z.eqb k) keys then Some (sparql_var k) else dict_get Z.eqb m k.
Proof.
  induction keys as [|k0 keys IH]; intros m k; cbn [fold_left existsb]; [reflexivity|].
  rewrite IH. destruct (existsb (Z.eqb k) keys); [now rewrite orb_true_r|].
  rewrite orb_false_r. destruct (k =? k0) eqn:E.
  - apply Z.eqb_eq in E. subst k0. apply (dict_get_set_same Z.eqb Z.eqb_eq).
  - apply (dict_get_set_other Z.eqb Z.eqb_eq). intros ->. now rewrite Z.eqb_refl in E.
Qed.

Lemma var_map_at (d : dict Z QueryNode) k :
  dict_mem Z.eqb d k = true ->
  dict_at Z.eqb
    (fold_left (fun m nid => dict_set Z.eqb m nid ("?v" +++ str_of_int nid))
       (dict_keys d) []) k
  = Ok (sparql_var k).
Proof.
  intros H. unfold dict_at. rewrite var_map_get.
  now rewrite <- (dict_mem_keys Z.eqb), H.
Qed.

Lemma dict_set_fresh (m : dict Z string) k v :
  ~ In k (dict_keys m) -> dict_set Z.eqb m k v = m ++ [(k, v)].
Proof.
  induction m as [|[k0 v0] m IH]; cbn; intros H; [reflexivity|].
  destruct (k =? k0) eqn:E.
  - apply Z.eqb_eq in E. subst k0. exfalso. apply H. now left.
  - rewrite IH; [reflexivity|]. intros Hin. apply H. now right.
Qed.

Lemma var_map_fold keys : forall (m : dict Z string),
  NoDup keys -> (forall k, In k keys -> ~ In k (dict_keys m)) ->
  fold_left (fun m nid => dict_set Z.eqb m nid ("?v" +++ str_of_int nid)) keys m
  = m ++ map (fun k => (k, sparql_var k)) keys.
Proof.
  induction keys as [|k keys IH]; intros m Hn Hd; cbn [fold_left map].
  - now rewrite app_nil_r.
  - inversion Hn as [|? ? Hk Hn']; subst.
    rewrite dict_set_fresh by (apply Hd; now left).
    rewrite IH; [now rewrite <- app_assoc | exact Hn'|].
    intros k' Hk' Hin. unfold dict_keys in Hin. rewrite map_app in Hin.
    apply in_app_or in Hin. destruct Hin as [Hin|[<-|[]]].
    + apply (Hd k'); [now right | exact Hin].
    + contradiction.
Qed.

Lemma var_map_values keys :
  NoDup keys ->
  dict_values
    (fold_left (fun m nid => dict_set Z.eqb m nid ("?v" +++ str_of_int nid)) keys [])
  = map sparql_var keys.
Proof.
  intros Hn. rewrite var_map_fold; [|exact Hn|intros ? ? []].
  cbn. unfold dict_values. rewrite map_map. reflexivity.
Qed.

Lemma edge_pattern_ok src_var tgt_var edge edge_idx :
  1 <= hops edge -> exists c, _edge_pattern src_var tgt_var edge edge_idx = Ok c.
Proof.
  intros H. unfold _edge_pattern. cbv zeta.
  destruct (hops edge <? 1) eqn:E; [apply Z.ltb_lt in E; lia|].
  destruct (filter truthy _); eauto.
Qed.

Lemma edge_pattern_bad src_var tgt_var edge edge_idx :
  hops edge < 1 ->
  _edge_pattern src_var tgt_var edge edge_idx = Raise (bad_hops (hops edge)).
Proof.
  intros H. unfold _edge_pattern. cbv zeta.
  destruct (hops edge <? 1) eqn:E; [reflexivity | apply Z.ltb_ge in E; lia].
Qed.

Section Clauses.
Variable var_map : dict Z string.
Variable var : Z -> string.
Variable known : Z -> Prop.
Hypothesis var_map_known : forall k, known k -> dict_at Z.eqb var_map k = Ok (var k).

Lemma edge_clauses_ok l : forall edge_idx,
  (forall e, In e l -> known (source_id e) /\ known (target_id e) /\ 1 <= hops e) ->
  exists cs, edge_clauses var_map l edge_idx = Ok cs.
Proof.
  induction l as [|e r IH]; intros i H; cbn [edge_clauses]; [eauto|].
  destruct (H e (or_introl eq_refl)) as (Hs & Ht & Hh).
  rewrite (var_map_known _ Hs), (var_map_known _ Ht). cbn [bind].
  destruct (edge_pattern_ok (var (source_id e)) (var (target_id e)) e i Hh) as [c ->].
  cbn [bind].
  destruct (IH (i + 1)) as [cs ->]; [intros e' He'; apply H; now right|].
  cbn. eauto.
Qed.

Lemma edge_clauses_bad l e r : forall edge_idx,
  (forall e', In e' l -> known (source_id e') /\ known (target_id e') /\ 1 <= hops e') ->
  known (source_id e) -> known (target_id e) -> hops e < 1 ->
  edge_clauses var_map (l ++ e :: r) edge_idx = Raise (bad_hops (hops e)).
Proof.
  induction l as [|e0 l IH]; intros i H Hs Ht Hh; cbn [edge_clauses app].
  - rewrite (var_map_known _ Hs), (var_map_known _ Ht). cbn [bind].
    now rewrite edge_pattern_bad.
  - destruct (H e0 (or_introl eq_refl)) as (Hs0 & Ht0 & Hh0).
    rewrite (var_map_known _ Hs0), (var_map_known _ Ht0). cbn [bind].
    destruct (edge_pattern_ok (var (source_id e0)) (var (target_id e0)) e0 i Hh0) as [c ->].
    cbn [bind]. rewrite IH; auto. intros e' He'. apply H. now right.
Qed.

Lemma data_clauses_ok l :
  (forall nid, In nid (dict_keys l) -> known nid) ->
  exists cs, data_clauses var_map l = Ok cs.
Proof.
  induction l as [|[nid info] r IH]; intros H; cbn [data_clauses]; [eauto|].
  rewrite (var_map_known nid) by (apply H; now left). cbn [bind].
  destruct IH as [cs ->]; [intros k Hk; apply H; now right|].
  cbn. eauto.
Qed.

Lemma type_clauses_ok l :
  (forall nid, In nid (dict_keys l) -> known nid) ->
  exists cs,
    (fix type_clauses (l : dict Z QueryNode) : result (list string) :=
       match l with
       | [] => Ok []
       | (nid, node) :: r =>
           v <- dict_at Z.eqb var_map nid ;;
           cs <- type_clauses r ;;
           match rdf_class node with
           | Some c => if truthy c then Ok ((v +++ " a <" +++ c +++ "> .") :: cs)
                       else Ok cs
           | None => Ok cs
           end
       end) l = Ok cs.
Proof.
  induction l as [|[nid node] r IH]; intros H; [eauto|].
  rewrite (var_map_known nid) by (apply H; now left). cbn [bind].
  destruct IH as [cs ->]; [intros k Hk; apply H; now right|].
  cbn [bind]. destruct (rdf_class node) as [c|]; [destruct (truthy c)|]; eauto.
Qed.
End Clauses.

(** The first edge whose hop bound is below 1, if there is one. *)
Lemma first_bad_edge (l : list QueryEdge) :
  (forall e, In e l -> 1 <= hops e)
  \/ exists l1 e l2, l = l1 ++ e :: l2 /\ (forall e', In e' l1 -> 1 <= hops e')
                     /\ hops e < 1.
Proof.
  induction l as [|e l IH]; [left; intros ? []|].
  destruct (Z.lt_ge_cases (hops e) 1) as [Hb|Hg].
  - right. exists [], e, l. split; [reflexivity|]. split; [intros ? []|exact Hb].
  - destruct IH as [IH|(l1 & e1 & l2 & -> & H1 & H2)].
    + left. intros e' [<-|He']; [lia | now apply IH].
    + right. exists (e :: l1), e1, l2. split; [reflexivity|]. split; [|exact H2].
      intros e' [<-|He']; [lia | now apply H1].
Qed.

(** The outcomes of [to_sparql] on a reachable query. *)
Lemma to_sparql_cases q :
  reachable q ->
  ((forall e, In e (edges (query_graph q)) -> 1 <= hops e) ->
     exists where_block,
       to_sparql q
       = Ok ("SELECT DISTINCT "
             +++ join " " (map sparql_var (dict_keys (nodes (query_graph q))))
             +++ nl +++ "WHERE {" +++ nl +++ "  " +++ where_block +++ nl +++ "}"))
  /\ (forall l1 e l2,
        edges (query_graph q) = l1 ++ e :: l2 ->
        (forall e', In e' l1 -> 1 <= hops e') -> hops e < 1 ->
        to_sparql q = Raise (bad_hops (hops e)))
  /\ (is_ok (to_sparql q) = true <-> forall e, In e (edges (query_graph q)) -> 1 <= hops e).
Proof.
  intros R.
  destruct (reachable_edges_closed q R) as [He Hd].
  set (known := fun k => dict_mem Z.eqb (nodes (query_graph q)) k = true).
  pose proof (fun k (H : known k) => var_map_at (nodes (query_graph q)) k H) as Hv.
  assert (Hdata : forall nid, In nid (dict_keys (data_nodes (query_graph q))) -> known nid).
  { intros nid Hin. apply (dict_mem_in_keys Z.eqb Z.eqb_eq) in Hin.
    destruct (Hd nid Hin) as (n & Hn & _). unfold known, dict_mem. now rewrite Hn. }
  assert (Hnodes : forall nid, In nid (dict_keys (nodes (query_graph q))) -> known nid).
  { intros nid Hin. now apply (dict_mem_in_keys Z.eqb Z.eqb_eq). }
  assert (Hgood : (forall e, In e (edges (query_graph q)) -> 1 <= hops e) ->
                  exists w,
                    to_sparql q
                    = Ok ("SELECT DISTINCT "
                          +++ join " " (map sparql_var (dict_keys (nodes (query_graph q))))
                          +++ nl +++ "WHERE {" +++ nl +++ "  " +++ w +++ nl +++ "}")).
  { intros Hh. unfold to_sparql. cbv zeta.
    rewrite (var_map_values (dict_keys (nodes (query_graph q))))
      by apply (tidy_nodes _ (proj1 (reachable_tidy q R))).
    destruct (type_clauses_ok _ sparql_var known Hv _ Hnodes) as [ts ->]. cbn [bind].
    destruct (edge_clauses_ok _ sparql_var known Hv (edges (query_graph q)) 0) as [es ->].
    { intros e Hin. destruct (He e Hin). repeat split; auto. }
    cbn [bind].
    destruct (data_clauses_ok _ sparql_var known Hv _ Hdata) as [ds ->]. cbn [bind].
    eauto. }
  assert (Hbad : forall l1 e l2,
            edges (query_graph q) = l1 ++ e :: l2 ->
            (forall e', In e' l1 -> 1 <= hops e') -> hops e < 1 ->
            to_sparql q = Raise (bad_hops (hops e))).
  { intros l1 e l2 El H1 Hb. unfold to_sparql. cbv zeta.
    destruct (type_clauses_ok _ sparql_var known Hv _ Hnodes) as [ts ->]. cbn [bind].
    rewrite El.
    rewrite (edge_clauses_bad _ sparql_var known Hv l1 e l2 0); [reflexivity| | | |exact Hb].
    - intros e' Hin. destruct (He e') as [A B]; [rewrite El; apply in_or_app; now left|].
      repeat split; auto.
    - apply (He e). rewrite El. apply in_or_app. right. now left.
    - apply (He e). rewrite El. apply in_or_app. right. now left. }
  split; [exact Hgood|]. split; [exact Hbad|]. split.
  - intros Hok. destruct (first_bad_edge (edges (query_graph q)))
      as [H|(l1 & e & l2 & El & H1 & Hb)]; [exact H|].
    rewrite (Hbad l1 e l2 El H1 Hb) in Hok. discriminate.
  - intros H. destruct (Hgood H) as [s ->]. reflexivity.
Qed.

(** X9. On a query obtained from the builder, [to_sparql] never raises
    [KeyError]: it returns when every edge has a hop bound of at least 1,
    and otherwise raises the [ValueError] of the first edge that has not. *)
Theorem to_sparql_returns q :
  reachable q ->
  ((forall e, In e (edges (query_graph q)) -> 1 <= hops e) ->
     exists where_block,
       to_sparql q
       = Ok ("SELECT DISTINCT "
             +++ join " " (map sparql_var (dict_keys (nodes (query_graph q))))
             +++ nl +++ "WHERE {" +++ nl +++ "  " +++ where_block +++ nl +++ "}"))
  /\ (forall l1 e l2,
        edges (query_graph q) = l1 ++ e :: l2 ->
        (forall e', In e' l1 -> 1 <= hops e') -> hops e < 1 ->
        to_sparql q = Raise (bad_hops (hops e)))
  /\ (is_ok (to_sparql q) = true <-> forall e, In e (edges (query_graph q)) -> 1 <= hops e).
Proof. apply to_sparql_cases. Qed.

Lemma to_sparql_returns_witness :
  exists where_block,
    to_sparql valve_query
    = Ok ("SELECT DISTINCT "
          +++ join " " (map sparql_var (dict_keys (nodes (query_graph valve_query))))
          +++ nl +++ "WHERE {" +++ nl +++ "  " +++ where_block +++ nl +++ "}").
Proof.
  apply (to_sparql_returns valve_query).
  - apply reach_find_entity, reach_new.
  - intros e [].
Defined.

(** *** [range] *)








(** *** Duplicate and empty predicates *)

Lemma uniq_loop_in seen l x :
  In x (uniq_loop seen l) -> In x l /\ existsb (String.eqb x) seen = false.
Proof.
  revert seen. induction l as [|p r IH]; intros seen; cbn [uniq_loop]; [intros []|].
  destruct (existsb (String.eqb p) seen) eqn:E.
  - intros H. destruct (IH _ H). split; [now right | assumption].
  - intros [<-|H]; [split; [now left | exact E]|].
    destruct (IH _ H) as [H1 H2]. split; [now right|].
    cbn in H2. apply orb_false_iff in H2. apply H2.
Qed.

Lemma uniq_loop_complete p l : forall seen,
  In p l -> existsb (String.eqb p) seen = false -> In p (uniq_loop seen l).
Proof.
  induction l as [|y l IH]; intros seen Hin Hs; [destruct Hin|].
  cbn [uniq_loop]. destruct (String.eqb p y) eqn:Ey.
  - apply String.eqb_eq in Ey. subst y. rewrite Hs. now left.
  - destruct Hin as [->|Hin]; [now rewrite String.eqb_refl in Ey|].
    destruct (existsb (String.eqb y) seen); [now apply IH|].
    right. apply IH; [exact Hin|]. cbn. now rewrite Ey, Hs.
Qed.

Lemma uniq_loop_nodup l : forall seen, NoDup (uniq_loop seen l).
Proof.
  induction l as [|p r IH]; intros seen; cbn [uniq_loop]; [constructor|].
  destruct (existsb (String.eqb p) seen); [apply IH|].
  constructor; [|apply IH].
  intros Hin. apply uniq_loop_in in Hin. destruct Hin as [_ H].
  cbn in H. now rewrite String.eqb_refl in H.
Qed.

Lemma uniq_loop_id l : forall seen,
  NoDup l -> (forall x, In x l -> existsb (String.eqb x) seen = false) ->
  uniq_loop seen l = l.
Proof.
  induction l as [|p r IH]; intros seen Hn Hs; cbn [uniq_loop]; [reflexivity|].
  rewrite (Hs p (or_introl eq_refl)). f_equal.
  inversion Hn as [|? ? Hp Hr]; subst. apply IH; [exact Hr|].
  intros x Hx. cbn. rewrite (Hs x (or_intror Hx)), orb_false_r.
  apply String.eqb_neq. intros ->. contradiction.
Qed.

Lemma uniq_loop_fixed seen l :
  uniq_loop seen (uniq_loop seen l) = uniq_loop seen l.
Proof.
  apply uniq_loop_id; [apply uniq_loop_nodup|].
  intros x Hx. now apply uniq_loop_in in Hx.
Qed.

Lemma filter_truthy_uniq seen l :
  filter truthy (uniq_loop seen (filter truthy l)) = uniq_loop seen (filter truthy l).
Proof.
  apply forallb_filter_id. apply forallb_forall. intros x Hx.
  apply uniq_loop_in in Hx. destruct Hx as [Hx _].
  apply filter_In in Hx. apply Hx.
Qed.

(** X11. [_edge_pattern] looks at the predicates of an edge only through
    the distinct non-empty ones, in the order of their first occurrence:
    repeating a predicate or adding empty strings changes nothing, and with
    one hop the pattern is the alternation of these predicates. *)
Theorem edge_pattern_distinct_predicates src_var tgt_var s t h l edge_idx :
  _edge_pattern src_var tgt_var (mkQueryEdge s t h (Some l)) edge_idx
  = _edge_pattern src_var tgt_var
      (mkQueryEdge s t h (Some (uniq_loop [] (filter truthy l)))) edge_idx
  /\ (forall p, In p (uniq_loop [] (filter truthy l)) <-> In p l /\ p <> "")
  /\ NoDup (uniq_loop [] (filter truthy l))
  /\ (filter truthy l <> [] ->
        _edge_pattern src_var tgt_var (mkQueryEdge s t 1 (Some l)) edge_idx
        = Ok (src_var +++ " "
              +++ ("(" +++ join "|"
                     (map (fun p => "<" +++ p +++ ">") (uniq_loop [] (filter truthy l)))
                   +++ ")")
              +++ " " +++ tgt_var +++ " .")).
Proof.
  split; [|split; [|split]].
  - unfold _edge_pattern. cbn [hops predicates]. cbv zeta.
    rewrite filter_truthy_uniq, uniq_loop_fixed.
    destruct (filter truthy l) as [|p r] eqn:E; [reflexivity|].
    cbn [uniq_loop existsb]. reflexivity.
  - intros p. split.
    + intros H. apply uniq_loop_in in H. destruct H as [H _].
      apply filter_In in H. destruct H as [H1 H2]. split; [exact H1|].
      intros ->. discriminate.
    + intros [H1 H2]. apply uniq_loop_complete; [|reflexivity].
      apply filter_In. split; [exact H1|].
      destruct p; [congruence | reflexivity].
  - apply uniq_loop_nodup.
  - intros Hne. unfold _edge_pattern. cbn [hops predicates]. cbv zeta.
    change (1 <? 1) with false. change (1 =? 1) with true. cbv iota.
    destruct (filter truthy l); [congruence | reflexivity].
Qed.


(** * Theorems: the matcher's text functions *)

Lemma normalized_words_lower ud s : Forall lower_word (normalized_words ud s).
Proof.
  apply Forall_forall. intros t Ht. now apply findall_lower_words in Ht.
Qed.

(** X12. Whatever the input and whatever [unicodedata] does, the text
    [normalize_text] returns is made of non-empty words of lower-case ASCII
    letters and digits, separated by single spaces, with no space at either
    end; reading its words back gives the words it was joined from. *)
Theorem normalize_text_words ud s :
  normalize_text ud s = join " " (normalized_words ud s)
  /\ Forall lower_word (normalized_words ud s)
  /\ plain (normalize_text ud s)
  /\ strip (normalize_text ud s) = normalize_text ud s
  /\ findall_words (normalize_text ud s) = normalized_words ud s.
Proof.
  pose proof (normalized_words_lower ud s) as H.
  assert (E : normalize_text ud s = join " " (normalized_words ud s)) by reflexivity.
  rewrite E. split; [reflexivity|]. split; [exact H|]. split; [now apply plain_join|].
  split; [|now apply findall_join].
  unfold strip. rewrite lstrip_join by exact H. now apply rstrip_join.
Qed.

Lemma split_join toks : Forall lower_word toks -> split (join " " toks) = toks.
Proof.
  unfold split. induction 1 as [|t ts [Ht Hw] Hts IH]; [reflexivity|].
  assert (Hk : string_forall (fun c => negb (isspace c)) t = true).
  { apply (string_forall_impl is_lower_digit); [|exact Hw].
    intros c Hc. apply lower_digit_facts in Hc. destruct Hc as [-> _]. reflexivity. }
  destruct ts as [|u ts].
  - cbn [join]. rewrite <- (append_empty_r t) at 1.
    rewrite runs_from_app_keep by exact Hk. cbn. now rewrite Ht.
  - rewrite join_cons by discriminate.
    rewrite runs_from_app_keep by exact Hk. cbn [append runs_from].
    change (negb (isspace " ")) with false. cbv iota. rewrite Ht, IH. reflexivity.
Qed.

Lemma drop_last_forall p t :
  string_forall p t = true -> string_forall p (drop_last t) = true.
Proof.
  induction t as [|c t IH]; [reflexivity|]. cbn [string_forall drop_last].
  intros H. apply andb_true_iff in H. destruct H as [Hc Ht].
  destruct t as [|d t]; [reflexivity|].
  cbn [string_forall]. rewrite Hc. cbn [andb]. now apply IH.
Qed.

Lemma drop_last_truthy t :
  (1 < String.length t)%nat -> truthy (drop_last t) = true.
Proof.
  destruct t as [|c [|d t]]; cbn; intros H; try lia; reflexivity.
Qed.

Lemma singular_lower_word t : lower_word t -> lower_word (singular t).
Proof.
  intros [Ht Hw]. unfold singular.
  destruct ((3 <? Z.of_nat (String.length t)) && ends_with_s t) eqn:E;
    [|split; assumption].
  apply andb_true_iff in E. destruct E as [E _]. apply Z.ltb_lt in E.
  split; [apply drop_last_truthy; lia | now apply drop_last_forall].
Qed.

(** X13. [tokenize] returns one token for every word of [normalize_text],
    in order: the word itself, or the word without its final [s] when it has
    more than three characters and ends in [s].  Every token is a non-empty
    word of lower-case letters and digits, and there is none exactly when
    the normalized text is empty. *)
Theorem tokenize_words ud s :
  tokenize ud s = map singular (normalized_words ud s)
  /\ Forall lower_word (tokenize ud s)
  /\ (tokenize ud s = [] <-> normalize_text ud s = "")
  /\ (forall t, (String.length t <= 3)%nat -> singular t = t)
  /\ (forall t, ends_with_s t = false -> singular t = t).
Proof.
  pose proof (normalized_words_lower ud s) as H.
  assert (E : tokenize ud s = map singular (normalized_words ud s)).
  { unfold tokenize. cbv zeta.
    change (normalize_text ud s) with (join " " (normalized_words ud s)).
    destruct (normalized_words ud s) as [|t ts] eqn:Ew; [reflexivity|].
    inversion H as [|? ? [Ht _] _]; subst.
    rewrite (truthy_join t ts Ht), split_join by exact H. reflexivity. }
  split; [exact E|]. split; [|split; [|split]].
  - rewrite E. apply Forall_forall. intros t Ht. apply in_map_iff in Ht.
    destruct Ht as (w & <- & Hw). apply singular_lower_word.
    now apply (proj1 (Forall_forall _ _) H).
  - rewrite E. change (normalize_text ud s) with (join " " (normalized_words ud s)).
    destruct (normalized_words ud s) as [|t ts] eqn:Ew; [tauto|].
    inversion H as [|? ? [Ht _] _]; subst. split; [discriminate|].
    intros Hj. pose proof (truthy_join t ts Ht) as T. rewrite Hj in T. discriminate.
  - intros t Hl. unfold singular.
    replace (3 <? Z.of_nat (String.length t)) with false; [reflexivity|].
    symmetry. apply Z.ltb_ge. lia.
  - intros t He. unfold singular. now rewrite He, andb_false_r.
Qed.

(** *** [jaccard] *)

Lemma distinct_in l x : In x (distinct l) <-> In x l.
Proof.
  unfold distinct. split.
  - intros H. now apply uniq_loop_in in H.
  - intros H. now apply uniq_loop_complete.
Qed.

Lemma same_members_length {A} (l1 l2 : list A) :
  NoDup l1 -> NoDup l2 -> (forall x, In x l1 <-> In x l2) ->
  List.length l1 = List.length l2.
Proof.
  intros H1 H2 H. apply Nat.le_antisymm; apply NoDup_incl_length; trivial;
    intros x Hx; now apply H.
Qed.

Lemma existsb_eqb_in x l : existsb (String.eqb x) l = true <-> In x l.
Proof.
  rewrite existsb_exists. split.
  - intros (y & Hy & E). apply String.eqb_eq in E. now subst.
  - intros H. exists x. split; [exact H | apply String.eqb_refl].
Qed.

Lemma common_length (sa sb : list string) :
  NoDup sa -> NoDup sb ->
  List.length (filter (fun x => existsb (String.eqb x) sb) sa)
  = List.length (filter (fun x => existsb (String.eqb x) sa) sb).
Proof.
  intros Ha Hb. apply same_members_length; try now apply NoDup_filter.
  intros x. rewrite !filter_In, !existsb_eqb_in. tauto.
Qed.

Lemma union_length (sa sb : list string) :
  List.length (distinct (sa ++ sb)) = List.length (distinct (sb ++ sa)).
Proof.
  apply same_members_length; try apply uniq_loop_nodup.
  intros x. rewrite !distinct_in, !in_app_iff. tauto.
Qed.

Lemma distinct_nil l : distinct l = [] <-> l = [].
Proof.
  split; [|now intros ->]. intros E. destruct l as [|x l]; [reflexivity|].
  assert (Hin : In x (distinct (x :: l))) by (apply distinct_in; now left).
  rewrite E in Hin. destruct Hin.
Qed.

(** X14. [jaccard] is symmetric, and it looks at its arguments as sets:
    lists with the same members, in any order and with any repetitions, give
    the same result.  It is 1.0 for two empty arguments and 0.0 when exactly
    one is empty. *)
Theorem jaccard_symmetric a b :
  jaccard a b = jaccard b a
  /\ (forall a' b',
        (forall x, In x a <-> In x a') -> (forall x, In x b <-> In x b') ->
        jaccard a b = jaccard a' b')
  /\ (a = [] -> b <> [] -> jaccard a b = 0%float /\ jaccard b a = 0%float)
  /\ jaccard [] [] = 1%float.
Proof.
  split; [|split; [|split]].
  - unfold jaccard. cbv zeta.
    pose proof (common_length (distinct a) (distinct b)
                  (uniq_loop_nodup a []) (uniq_loop_nodup b [])) as Hc.
    pose proof (union_length (distinct a) (distinct b)) as Hu.
    destruct (distinct a) as [|x sa], (distinct b) as [|y sb]; try reflexivity.
    unfold len. now rewrite Hc, Hu.
  - intros a' b' Ha Hb. unfold jaccard. cbv zeta.
    assert (Hi : List.length (filter (fun x => existsb (String.eqb x) (distinct b))
                                (distinct a))
                 = List.length (filter (fun x => existsb (String.eqb x) (distinct b'))
                                  (distinct a'))).
    { apply same_members_length; try (apply NoDup_filter; apply uniq_loop_nodup).
      intros x. rewrite !filter_In, !existsb_eqb_in, !distinct_in, Ha, Hb. tauto. }
    assert (Hu : List.length (distinct (distinct a ++ distinct b))
                 = List.length (distinct (distinct a' ++ distinct b'))).
    { apply same_members_length; try apply uniq_loop_nodup.
      intros x. rewrite !distinct_in, !in_app_iff, !distinct_in, Ha, Hb. tauto. }
    assert (Ea : distinct a = [] <-> distinct a' = []).
    { rewrite !distinct_nil. split; intros ->.
      - destruct a' as [|x a']; [reflexivity|]. destruct (proj2 (Ha x) (or_introl eq_refl)).
      - destruct a as [|x a]; [reflexivity|]. destruct (proj1 (Ha x) (or_introl eq_refl)). }
    assert (Eb : distinct b = [] <-> distinct b' = []).
    { rewrite !distinct_nil. split; intros ->.
      - destruct b' as [|x b']; [reflexivity|]. destruct (proj2 (Hb x) (or_introl eq_refl)).
      - destruct b as [|x b]; [reflexivity|]. destruct (proj1 (Hb x) (or_introl eq_refl)). }
    destruct (distinct a) as [|x sa], (distinct b) as [|y sb],
             (distinct a') as [|x' sa'], (distinct b') as [|y' sb'];
      try reflexivity;
      try (exfalso; (discriminate (proj1 Ea eq_refl) || discriminate (proj2 Ea eq_refl)
                     || discriminate (proj1 Eb eq_refl) || discriminate (proj2 Eb eq_refl)));
      unfold len; now rewrite Hi, Hu.
  - intros -> Hb. unfold jaccard. cbv zeta. change (distinct []) with (@nil string).
    destruct (distinct b) as [|y sb] eqn:E; [|split; reflexivity].
    exfalso. apply Hb. now apply distinct_nil.
  - reflexivity.
Qed.

(** *** The abbreviation table *)

Section FoldSet.
Variable f : string -> string.
Variable g : list string -> list string.

Lemma fold_abbrev_keep l : forall (d : dict string (list string)) n w,
  dict_get String.eqb d n = Some w ->
  (forall k v, In (k, v) l -> f k = n -> g v = w) ->
  dict_get String.eqb
    (fold_left (fun d kv => dict_set String.eqb d (f (fst kv)) (g (snd kv))) l d) n
  = Some w.
Proof.
  induction l as [|[k0 v0] l IH]; intros d n w Hd H; cbn [fold_left]; [exact Hd|].
  apply IH; [|intros k v Hin; apply H; now right].
  cbn [fst snd]. destruct (String.eqb n (f k0)) eqn:E.
  - apply String.eqb_eq in E. subst n.
    rewrite (dict_get_set_same String.eqb String.eqb_eq). f_equal.
    apply (H k0 v0); [now left | reflexivity].
  - rewrite (dict_get_set_other String.eqb String.eqb_eq); [exact Hd|].
    intros ->. now rewrite String.eqb_refl in E.
Qed.

Lemma fold_abbrev_get l : forall (d : dict string (list string)) k v,
  In (k, v) l ->
  (forall k' v', In (k', v') l -> f k' = f k -> g v' = g v) ->
  dict_get String.eqb
    (fold_left (fun d kv => dict_set String.eqb d (f (fst kv)) (g (snd kv))) l d) (f k)
  = Some (g v).
Proof.
  induction l as [|[k0 v0] l IH]; intros d k v Hin H; [destruct Hin|].
  cbn [fold_left fst snd]. destruct Hin as [[= -> ->]|Hin].
  - apply fold_abbrev_keep; [apply (dict_get_set_same String.eqb String.eqb_eq)|].
    intros k' v' Hin'. apply H. now right.
  - apply IH; [exact Hin|]. intros k' v' Hin'. apply H. now right.
Qed.

Lemma fold_abbrev_none l : forall (d : dict string (list string)) n,
  (forall k v, In (k, v) l -> f k <> n) ->
  dict_get String.eqb
    (fold_left (fun d kv => dict_set String.eqb d (f (fst kv)) (g (snd kv))) l d) n
  = dict_get String.eqb d n.
Proof.
  induction l as [|[k0 v0] l IH]; intros d n H; cbn [fold_left]; [reflexivity|].
  rewrite IH by (intros k v Hin; apply (H k v); now right).
  apply (dict_get_set_other String.eqb String.eqb_eq).
  intros E. apply (H k0 v0); [now left | now symmetry].
Qed.
End FoldSet.

(** X15. [expand_abbrev] looks the query up by its normalized text in the
    table [__init__] builds from the lexicon: a query whose normalized text
    is that of an abbreviation of the lexicon gets the normalized expansions
    of that abbreviation (when another abbreviation normalizes to the same
    text, the entries must agree); a query that normalizes to the empty text
    or to no abbreviation gets the empty list. *)
Theorem expand_abbrev_lookup ud lexicon query :
  (truthy (normalize_text ud query) = false ->
     expand_abbrev ud (ConceptMatcher_init ud lexicon) query = [])
  /\ (forall k v,
        In (k, v) (lex_abbrev lexicon) ->
        normalize_text ud k = normalize_text ud query ->
        truthy (normalize_text ud query) = true ->
        (forall k' v', In (k', v') (lex_abbrev lexicon) ->
           normalize_text ud k' = normalize_text ud k ->
           map (normalize_text ud) v' = map (normalize_text ud) v) ->
        expand_abbrev ud (ConceptMatcher_init ud lexicon) query
        = map (normalize_text ud) v)
  /\ ((forall k v, In (k, v) (lex_abbrev lexicon) ->
         normalize_text ud k <> normalize_text ud query) ->
      expand_abbrev ud (ConceptMatcher_init ud lexicon) query = []).
Proof.
  split; [|split].
  - intros H. unfold expand_abbrev. cbv zeta. now rewrite H.
  - intros k v Hin Hk Ht Hu. unfold expand_abbrev. cbv zeta. rewrite Ht.
    cbn [_abbrev ConceptMatcher_init]. rewrite <- Hk.
    now rewrite (fold_abbrev_get (normalize_text ud) (map (normalize_text ud))
                   (lex_abbrev lexicon) [] k v Hin Hu).
  - intros H. unfold expand_abbrev. cbv zeta.
    destruct (truthy (normalize_text ud query)); [|reflexivity].
    cbn [_abbrev ConceptMatcher_init].
    now rewrite (fold_abbrev_none (normalize_text ud) (map (normalize_text ud))
                   (lex_abbrev lexicon) [] _ H).
Qed.

(** * Theorems: what [match] returns *)

(** *** Order *)


Lemma descending_cons a l :
  descending (a :: l) = true <->
  (match l with b :: _ => (score a <? score b)%float = false | [] => True end)
  /\ descending l = true.
Proof.
  destruct l as [|b l]; cbn [descending]; [tauto|].
  rewrite andb_true_iff, negb_true_iff. tauto.
Qed.

Lemma insert_desc_head x l :
  exists r, insert_desc x l = match l with
                              | y :: _ => if (score x <? score y)%float then y :: r else x :: l
                              | [] => [x]
                              end.
Proof. destruct l as [|y l]; cbn; [now exists [] | destruct (_ <? _)%float; eauto]. Qed.

Lemma insert_desc_descending x l :
  descending l = true -> descending (insert_desc x l) = true.
Proof.
  induction l as [|y l IH]; intros H; [reflexivity|]. cbn [insert_desc].
  destruct (score x <? score y)%float eqn:E.
  - apply descending_cons in H. destruct H as [Hy Hl].
    apply descending_cons. split; [|now apply IH].
    destruct l as [|z l]; cbn [insert_desc].
    + now apply float_ltb_asym.
    + destruct (score x <? score z)%float; [exact Hy | now apply float_ltb_asym].
  - apply descending_cons. split; [exact E | exact H].
Qed.

Lemma sorted_desc_descending l : descending (sorted_desc l) = true.
Proof.
  induction l as [|x l IH]; [reflexivity|]. cbn. now apply insert_desc_descending.
Qed.

Lemma firstn_descending n : forall l, descending l = true -> descending (firstn n l) = true.
Proof.
  induction n as [|n IH]; intros l H; [reflexivity|].
  destruct l as [|a l]; [reflexivity|]. cbn [firstn].
  apply descending_cons in H. destruct H as [Ha Hl].
  apply descending_cons. split; [|now apply IH].
  destruct l as [|b l]; [now destruct n|]. destruct n; [exact I | exact Ha].
Qed.

Lemma descending_adjacent l : forall l1 r1 r2 l2,
  descending l = true -> l = l1 ++ r1 :: r2 :: l2 ->
  (score r1 <? score r2)%float = false.
Proof.
  induction l as [|a l IH]; intros l1 r1 r2 l2 H E.
  - destruct l1; discriminate.
  - apply descending_cons in H. destruct H as [Ha Hl].
    destruct l1 as [|x l1]; cbn in E; injection E as -> ->.
    + exact Ha.
    + now apply (IH l1 r1 r2 l2).
Qed.

(** X16. The results of [match] are in descending order of score: no
    result is followed by one of higher score. *)
Theorem match_descending ud ratio self query rk top_k min_score :
  descending (match_ ud ratio self query rk top_k min_score) = true
  /\ forall l1 r1 r2 l2,
       match_ ud ratio self query rk top_k min_score = l1 ++ r1 :: r2 :: l2 ->
       (score r1 <? score r2)%float = false.
Proof.
  assert (H : descending (match_ ud ratio self query rk top_k min_score) = true).
  { unfold match_, slice_to. destruct (top_k <? 0);
      apply firstn_descending, sorted_desc_descending. }
  split; [exact H|]. intros l1 r1 r2 l2 E. now apply (descending_adjacent _ l1 r1 r2 l2 H).
Qed.

(** *** Kinds *)

Lemma match_step_kinds ratio query rk min_score q_raw q_norm q_toks scored c :
  Forall (fun r => kind_excluded rk (kind r) = false) (dict_values scored) ->
  Forall (fun r => kind_excluded rk (kind r) = false)
    (dict_values (match_step ratio query rk min_score q_raw q_norm q_toks scored c)).
Proof.
  intros H. unfold match_step. cbv zeta.
  destruct (kind_excluded rk (c_kind c)) eqn:Ek; [exact H|].
  assert (Hset : forall r, kind r = c_kind c \/ In r (dict_values scored) ->
            Forall (fun r => kind_excluded rk (kind r) = false)
              (dict_values (dict_set key_eqb scored (c_uri c, c_kind c) r))).
  { intros r Hr. apply Forall_forall. intros x Hx. apply in_values_set in Hx.
    destruct Hx as [->|Hx]; [|now apply (proj1 (Forall_forall _ _) H)].
    destruct Hr as [->|Hr]; [exact Ek | now apply (proj1 (Forall_forall _ _) H)]. }
  destruct (String.eqb q_norm (c_norm c) && truthy q_norm).
  - apply Hset.
    destruct (dict_get key_eqb scored (c_uri c, c_kind c)) as [old|] eqn:Eo.
    + destruct (score old <? score (exact_result c))%float; [now left|].
      right. now apply (in_values_get key_eqb _ _ _ Eo).
    + left. now destruct (_ <? _)%float.
  - destruct (_ && _); [exact H|]. destruct (_ <? min_score)%float; [exact H|].
    destruct (dict_get key_eqb scored (c_uri c, c_kind c)) as [old|].
    + destruct (score old <? _)%float; [|exact H]. apply Hset. now left.
    + apply Hset. now left.
Qed.

Lemma scored_table_kinds ud ratio self query rk min_score :
  Forall (fun r => kind_excluded rk (kind r) = false)
    (dict_values (scored_table ud ratio self query rk min_score)).
Proof.
  unfold scored_table. apply fold_left_invariant; [|constructor].
  intros scored [[q_raw q_norm] q_toks] H.
  apply fold_left_invariant; [|exact H].
  intros. now apply match_step_kinds.
Qed.

(** X17. With a non-empty [restrict_kinds], every result of [match] is of
    one of these kinds; an empty set restricts nothing, like [None]. *)
Theorem match_restricted ud ratio self query top_k min_score :
  (forall k ks,
      Forall (fun r => In (kind r) (k :: ks))
        (match_ ud ratio self query (Some (k :: ks)) top_k min_score))
  /\ match_ ud ratio self query (Some []) top_k min_score
     = match_ ud ratio self query None top_k min_score.
Proof.
  split; [|reflexivity].
  intros k ks. apply Forall_forall. intros r Hr.
  unfold match_ in Hr. apply slice_to_in in Hr. apply (proj1 (in_sorted_desc _ _)) in Hr.
  pose proof (proj1 (Forall_forall _ _)
                (scored_table_kinds ud ratio self query (Some (k :: ks)) min_score) r Hr) as H.
  cbn [kind_excluded] in H. apply negb_false_iff in H.
  apply existsb_exists in H. destruct H as (x & Hx & E).
  apply String.eqb_eq in E. now subst.
Qed.

(** *** One result for a concept *)

Lemma match_step_nodup ratio query rk min_score q_raw q_norm q_toks scored c :
  NoDup (dict_keys scored) ->
  NoDup (dict_keys (match_step ratio query rk min_score q_raw q_norm q_toks scored c)).
Proof.
  intros H. unfold match_step. cbv zeta.
  destruct (kind_excluded rk (c_kind c)); [exact H|].
  destruct (String.eqb q_norm (c_norm c) && truthy q_norm).
  - now apply (dict_set_nodup key_eqb key_eqb_eq).
  - destruct (_ && _); [exact H|]. destruct (_ <? min_score)%float; [exact H|].
    destruct (dict_get key_eqb scored (c_uri c, c_kind c)) as [old|].
    + destruct (score old <? _)%float; [|exact H].
      now apply (dict_set_nodup key_eqb key_eqb_eq).
    + now apply (dict_set_nodup key_eqb key_eqb_eq).
Qed.

Lemma scored_table_nodup ud ratio self query rk min_score :
  NoDup (dict_keys (scored_table ud ratio self query rk min_score)).
Proof.
  unfold scored_table. apply fold_left_invariant; [|constructor].
  intros scored [[q_raw q_norm] q_toks] H.
  apply fold_left_invariant; [|exact H].
  intros. now apply match_step_nodup.
Qed.

Lemma well_keyed_values (d : dict (string * string) MatchResult) :
  well_keyed d -> NoDup (dict_keys d) ->
  map (fun r => (uri r, kind r)) (dict_values d) = dict_keys d.
Proof.
  induction d as [|[k r] d IH]; intros W N; [reflexivity|].
  inversion N as [|? ? Hk Hd]; subst. cbn. f_equal.
  - apply (W k r). cbn. now rewrite (proj2 (key_eqb_eq k k) eq_refl).
  - apply IH; [|exact Hd]. intros k' r' Hg. apply (W k' r'). cbn.
    destruct (key_eqb k' k) eqn:E; [|exact Hg].
    apply key_eqb_eq in E. subst k'. exfalso. apply Hk.
    apply (dict_mem_in_keys key_eqb key_eqb_eq). unfold dict_mem. now rewrite Hg.
Qed.

Lemma insert_desc_nodup {B} (f : MatchResult -> B) x l :
  NoDup (map f (x :: l)) -> NoDup (map f (insert_desc x l)).
Proof.
  induction l as [|y l IH]; intros H; [exact H|]. cbn [insert_desc].
  destruct (score x <? score y)%float; [|exact H].
  cbn [map] in *. inversion H as [|? ? Hx Hrest]; subst.
  inversion Hrest as [|? ? Hy Hl]; subst.
  constructor.
  - intros Hin. apply in_map_iff in Hin. destruct Hin as (z & Hz & Hin).
    apply (proj1 (in_insert_desc _ _ _)) in Hin. destruct Hin as [->|Hin].
    + apply Hx. left. now symmetry.
    + apply Hy. rewrite <- Hz. now apply in_map.
  - apply IH. constructor; [|exact Hl]. intros Hin. apply Hx. now right.
Qed.

Lemma sorted_desc_nodup {B} (f : MatchResult -> B) l :
  NoDup (map f l) -> NoDup (map f (sorted_desc l)).
Proof.
  induction l as [|x l IH]; intros H; [exact H|]. cbn [sorted_desc fold_right].
  inversion H as [|? ? Hx Hl]; subst.
  apply insert_desc_nodup. cbn [map]. constructor; [|now apply IH].
  intros Hin. apply Hx. apply in_map_iff in Hin. destruct Hin as (z & Hz & Hin).
  apply (proj1 (in_sorted_desc _ _)) in Hin. rewrite <- Hz. now apply in_map.
Qed.

Lemma firstn_nodup {B} n (l : list B) : NoDup l -> NoDup (firstn n l).
Proof.
  intros H. rewrite <- (firstn_skipn n l) in H. now apply NoDup_app_remove_r in H.
Qed.

(** X18. [match] returns at most one result for a concept: no two results
    have the same [uri] and [kind]. *)
Theorem match_one_per_concept ud ratio self query rk top_k min_score :
  NoDup (map (fun r => (uri r, kind r))
           (match_ ud ratio self query rk top_k min_score)).
Proof.
  unfold match_, slice_to.
  assert (H : NoDup (map (fun r => (uri r, kind r))
                       (sorted_desc
                          (dict_values (scored_table ud ratio self query rk min_score))))).
  { apply sorted_desc_nodup. rewrite well_keyed_values.
    - apply scored_table_nodup.
    - apply scored_table_well_keyed.
    - apply scored_table_nodup. }
  destruct (top_k <? 0); rewrite <- firstn_map; now apply firstn_nodup.
Qed.


(** * Theorems: the bound of [damerau_levenshtein] *)

Lemma fold_min_le r : forall x,
  fold_left Z.min r x <= x /\ forall y, In y r -> fold_left Z.min r x <= y.
Proof.
  induction r as [|z r IH]; intros x; cbn; [split; [lia | intros ? []]|].
  destruct (IH (Z.min x z)) as [H1 H2]. split; [lia|].
  intros y [<-|Hy]; [lia | now apply H2].
Qed.

Lemma fold_min_in r : forall x, fold_left Z.min r x = x \/ In (fold_left Z.min r x) r.
Proof.
  induction r as [|z r IH]; intros x; cbn; [now left|].
  destruct (IH (Z.min x z)) as [H|H]; [|now right; right].
  rewrite H. destruct (Z.min_spec x z) as [[_ ->]|[_ ->]]; [now left | right; now left].
Qed.

Lemma list_min_le l j : (j < List.length l)%nat -> list_min l <= nth j l 0.
Proof.
  destruct l as [|x r]; cbn [List.length list_min]; [lia|]. intros H.
  destruct (fold_min_le r x) as [H1 H2]. destruct j as [|j]; [exact H1|].
  cbn [nth]. apply H2. apply nth_In. lia.
Qed.

Lemma list_min_at l : l <> [] -> exists j, (j < List.length l)%nat /\ nth j l 0 = list_min l.
Proof.
  destruct l as [|x r]; [congruence|]. intros _. cbn [list_min].
  destruct (fold_min_in r x) as [H|H].
  - exists 0%nat. split; [cbn; lia | now rewrite H].
  - destruct (In_nth _ _ 0 H) as (j & Hj & E). exists (S j). split; [cbn; lia | exact E].
Qed.

Lemma list_min_ge l c :
  l <> [] -> (forall j, (j < List.length l)%nat -> c <= nth j l 0) -> c <= list_min l.
Proof.
  intros Hl H. destruct (list_min_at l Hl) as (j & Hj & <-). now apply H.
Qed.

(** A row is filled from left to right: what holds of the first cell and is
    kept by every further cell holds of the whole row. *)
Lemma row_fold (P : nat -> Z -> Prop) (f : list Z -> nat -> Z) n : forall s row,
  List.length row = s ->
  (forall j, (j < s)%nat -> P j (nth j row 0)) ->
  (forall row j, List.length row = j -> (s <= j < s + n)%nat ->
     (forall j', (j' < j)%nat -> P j' (nth j' row 0)) -> P j (f row j)) ->
  List.length (fold_left (fun row j => row ++ [f row j]) (seq s n) row) = (s + n)%nat
  /\ forall j, (j < s + n)%nat ->
       P j (nth j (fold_left (fun row j => row ++ [f row j]) (seq s n) row) 0).
Proof.
  induction n as [|n IH]; intros s row Hl Hp Hf; cbn [seq fold_left].
  - rewrite Nat.add_0_r. split; [exact Hl | exact Hp].
  - destruct (IH (S s) (row ++ [f row s])) as [H1 H2].
    + rewrite length_app. cbn. lia.
    + intros j Hj. destruct (Nat.eq_dec j s) as [->|Hne].
      * rewrite app_nth2 by lia. rewrite Hl, Nat.sub_diag. cbn.
        apply Hf; [exact Hl | lia | exact Hp].
      * rewrite app_nth1 by lia. apply Hp. lia.
    + intros row' j Hl' Hj Hp'. apply Hf; [exact Hl' | lia | exact Hp'].
    + split; [rewrite H1; lia|]. intros j Hj. apply H2. lia.
Qed.

Section Rows.
Variables a b : list ascii.
Let lb := List.length b.

Lemma dl_row_spec prev2 prev i :
  (1 <= i)%nat -> dl_inv lb i prev2 prev ->
  List.length (dl_row a b prev2 prev i) = S lb
  /\ nth 0 (dl_row a b prev2 prev i) 0 = Z.of_nat i
  /\ forall j, (j <= lb)%nat ->
       list_min prev <= nth j (dl_row a b prev2 prev i) 0
       /\ Z.abs (Z.of_nat i - Z.of_nat j) <= nth j (dl_row a b prev2 prev i) 0
       /\ nth j (dl_row a b prev2 prev i) 0 <= nth j prev 0 + 1.
Proof.
  intros Hi [Hlen Hfirst Hdiag Hlen2 Hmin2 Hdiag2].
  unfold dl_row. fold lb.
  set (P := fun (j : nat) (v : Z) =>
              (j = 0%nat -> v = Z.of_nat i)
              /\ list_min prev <= v
              /\ Z.abs (Z.of_nat i - Z.of_nat j) <= v
              /\ v <= nth j prev 0 + 1).
  destruct (row_fold P (fun row j => dl_cell a b prev2 prev row i j) lb 1 [Z.of_nat i])
    as [H1 H2].
  - reflexivity.
  - intros j Hj. assert (j = 0%nat) by lia. subst j. cbn [nth]. unfold P.
    pose proof (list_min_le prev 0 ltac:(lia)) as Hm. rewrite Hfirst in *.
    repeat split; lia.
  - intros row j Hl Hj Hp. unfold P.
    destruct (Hp (j - 1)%nat ltac:(lia)) as (_ & R1 & R2 & _).
    pose proof (list_min_le prev j ltac:(lia)) as M1.
    pose proof (list_min_le prev (j - 1) ltac:(lia)) as M2.
    pose proof (Hdiag j ltac:(lia)) as D1.
    pose proof (Hdiag (j - 1)%nat ltac:(lia)) as D2.
    unfold dl_cell. cbv zeta.
    destruct (Ascii.eqb (char_at a (i - 1)) (char_at b (j - 1)));
      (destruct ((1 <? i)%nat && (1 <? j)%nat
                 && Ascii.eqb (char_at a (i - 1)) (char_at b (j - 2))
                 && Ascii.eqb (char_at a (i - 2)) (char_at b (j - 1))) eqn:T;
       [ apply andb_true_iff in T; destruct T as [T _];
         apply andb_true_iff in T; destruct T as [T _];
         apply andb_true_iff in T; destruct T as [Ti Tj];
         apply Nat.ltb_lt in Ti; apply Nat.ltb_lt in Tj;
         pose proof (list_min_le prev2 (j - 2) ltac:(rewrite Hlen2; lia)) as M3;
         pose proof (Hmin2 Ti) as M4;
         pose proof (Hdiag2 (j - 2)%nat Ti ltac:(lia)) as D3
       | ]; repeat split; lia).
  - split; [rewrite H1; lia|].
    split; [apply (H2 0%nat); [lia | reflexivity]|].
    intros j Hj. destruct (H2 j ltac:(lia)) as (_ & A & B & C). auto.
Qed.

Lemma dl_inv_next prev2 prev i :
  (1 <= i)%nat -> dl_inv lb i prev2 prev ->
  dl_inv lb (S i) prev (dl_row a b prev2 prev i)
  /\ list_min prev <= list_min (dl_row a b prev2 prev i).
Proof.
  intros Hi Inv. destruct (dl_row_spec prev2 prev i Hi Inv) as (L & F & C).
  destruct Inv as [Hlen Hfirst Hdiag Hlen2 Hmin2 Hdiag2].
  assert (Hne : dl_row a b prev2 prev i <> []).
  { intros E. rewrite E in L. discriminate. }
  split.
  - split.
    + exact L.
    + rewrite F. lia.
    + intros j Hj. destruct (C j Hj) as (_ & B & _). lia.
    + intros _. exact Hlen.
    + intros _. destruct (list_min_at prev) as (j & Hj & E).
      { intros E. rewrite E in Hlen. discriminate. }
      pose proof (list_min_le (dl_row a b prev2 prev i) j ltac:(rewrite L; lia)) as M.
      destruct (C j ltac:(lia)) as (_ & _ & U). lia.
    + intros j _ Hj. pose proof (Hdiag j Hj). lia.
  - apply list_min_ge; [exact Hne|]. intros j Hj. rewrite L in Hj.
    destruct (C j ltac:(lia)) as (A & _). exact A.
Qed.

(** The value the loop ends with is neither below the least cell of the
    row it starts from nor below the distance of its indices. *)
Lemma dl_rows_lower n : forall i prev2 prev,
  (1 <= i)%nat -> dl_inv lb i prev2 prev ->
  list_min prev <= dl_rows a b None (seq i n) prev2 prev
  /\ Z.abs (Z.of_nat i + Z.of_nat n - 1 - Z.of_nat lb)
     <= dl_rows a b None (seq i n) prev2 prev.
Proof.
  induction n as [|n IH]; intros i prev2 prev Hi Inv; cbn [seq dl_rows].
  - fold lb. split.
    + apply list_min_le. rewrite (dl_len _ _ _ _ Inv). lia.
    + pose proof (dl_diag _ _ _ _ Inv lb (Nat.le_refl lb)). lia.
  - destruct (dl_inv_next prev2 prev i Hi Inv) as [Inv' Hm].
    destruct (IH (S i) prev (dl_row a b prev2 prev i) ltac:(lia) Inv') as [H1 H2].
    split; lia.
Qed.

Lemma dl_rows_sound m rows : forall prev2 prev,
  dl_rows a b (Some m) rows prev2 prev = m + 1
  \/ dl_rows a b (Some m) rows prev2 prev = dl_rows a b None rows prev2 prev.
Proof.
  induction rows as [|i rows IH]; intros prev2 prev; cbn [dl_rows]; [now right|].
  destruct (m <? list_min _); [now left | apply IH].
Qed.

Lemma dl_rows_complete m n : forall i prev2 prev,
  (1 <= i)%nat -> dl_inv lb i prev2 prev ->
  dl_rows a b None (seq i n) prev2 prev <= m ->
  dl_rows a b (Some m) (seq i n) prev2 prev = dl_rows a b None (seq i n) prev2 prev.
Proof.
  induction n as [|n IH]; intros i prev2 prev Hi Inv H; cbn [seq dl_rows] in *; [reflexivity|].
  destruct (dl_inv_next prev2 prev i Hi Inv) as [Inv' _].
  destruct (dl_rows_lower n (S i) prev (dl_row a b prev2 prev i) ltac:(lia) Inv') as [H1 _].
  destruct (m <? list_min (dl_row a b prev2 prev i)) eqn:E.
  - apply Z.ltb_lt in E. lia.
  - apply IH; [lia | exact Inv' | exact H].
Qed.

Lemma dl_inv_start :
  dl_inv lb 1 (repeat 0 (S lb)) (map Z.of_nat (seq 0 (S lb))).
Proof.
  split.
  - now rewrite length_map, length_seq.
  - reflexivity.
  - intros j Hj. rewrite (nth_indep _ 0 (Z.of_nat 0)) by (rewrite length_map, length_seq; lia).
    rewrite map_nth, seq_nth by lia. lia.
  - lia.
  - lia.
  - lia.
Qed.
End Rows.

(** X19. The bound [max_dist] of [damerau_levenshtein] never changes an
    answer within the bound: the bounded call returns at most [max_dist]
    exactly when the unbounded distance is at most [max_dist], and then it
    returns that distance; otherwise it returns something above the bound.
    The unbounded distance is at least the difference of the lengths. *)
Theorem damerau_levenshtein_bound a b m :
  (damerau_levenshtein a b (Some m) <= m <-> damerau_levenshtein a b None <= m)
  /\ (damerau_levenshtein a b None <= m ->
        damerau_levenshtein a b (Some m) = damerau_levenshtein a b None)
  /\ (damerau_levenshtein a b (Some m) = m + 1
      \/ damerau_levenshtein a b (Some m) = damerau_levenshtein a b None)
  /\ Z.abs (Z.of_nat (String.length a) - Z.of_nat (String.length b))
     <= damerau_levenshtein a b None.
Proof.
  assert (Hlen : forall s, List.length (list_ascii_of_string s) = String.length s).
  { induction s as [|c s IH]; cbn; [reflexivity | now rewrite IH]. }
  unfold damerau_levenshtein. cbv zeta.
  destruct (String.eqb a b) eqn:Eab.
  { apply String.eqb_eq in Eab. subst b. repeat split; try tauto; try lia; try (now right). }
  unfold len. rewrite !Hlen, !Nat2Z.id.
  set (la := String.length a). set (lb := String.length b).
  destruct (Z.of_nat la =? 0) eqn:Ea.
  { apply Z.eqb_eq in Ea. repeat split; try tauto; try lia; try (now right). }
  destruct (Z.of_nat lb =? 0) eqn:Eb.
  { apply Z.eqb_eq in Eb. repeat split; try tauto; try lia; try (now right). }
  apply Z.eqb_neq in Ea, Eb.
  set (A := list_ascii_of_string a). set (B := list_ascii_of_string b).
  assert (HlB : List.length B = lb) by apply Hlen.
  destruct (dl_rows_lower A B la 1 _ _ (Nat.le_refl 1) (dl_inv_start B)) as [_ Hdist].
  pose proof (dl_rows_sound A B m (seq 1 la) (repeat 0 (S (List.length B)))
                (map Z.of_nat (seq 0 (S (List.length B))))) as Hs.
  pose proof (dl_rows_complete A B m la 1 _ _ (Nat.le_refl 1) (dl_inv_start B)) as Hc.
  rewrite HlB in Hdist, Hs, Hc.
  set (D := dl_rows A B None (seq 1 la) (repeat 0 (S lb)) (map Z.of_nat (seq 0 (S lb)))) in *.
  set (Dm := dl_rows A B (Some m) (seq 1 la) (repeat 0 (S lb))
               (map Z.of_nat (seq 0 (S lb)))) in *.
  destruct (m <? Z.abs (Z.of_nat la - Z.of_nat lb)) eqn:Em.
  - apply Z.ltb_lt in Em. split; [lia|]. split; [lia|]. split; [now left | lia].
  - apply Z.ltb_ge in Em. split; [|split; [exact Hc|split; [exact Hs | lia]]].
    split; intros H; [destruct Hs as [Hs|Hs]; lia | rewrite Hc; lia].
Qed.


(** * Theorems: the query server *)

Lemma prefix_app p s : String.prefix p (p +++ s) = true.
Proof.
  induction p as [|c p IH]; cbn; [now destruct s|].
  destruct (ascii_dec c c); [exact IH | congruence].
Qed.

Lemma as_brick_uri_brick term : as_brick_uri ("brick:" +++ term) = BRICK +++ term.
Proof.
  unfold as_brick_uri. change (has_scheme ("brick:" +++ term)) with false.
  rewrite prefix_app. reflexivity.
Qed.

Lemma as_brick_uri_plain term :
  has_scheme term = false -> String.prefix "brick:" term = false ->
  as_brick_uri term = BRICK +++ term.
Proof. intros Hs Hb. unfold as_brick_uri. now rewrite Hs, Hb. Qed.

Lemma has_scheme_as_brick_uri term : has_scheme (as_brick_uri term) = true.
Proof.
  unfold as_brick_uri. destruct (has_scheme term) eqn:E; [exact E|].
  cbv zeta. unfold has_scheme, BRICK.
  change ("https://brickschema.org/schema/Brick#" +++ ?x)
    with ("https://" +++ ("brickschema.org/schema/Brick#" +++ x)).
  rewrite prefix_app. apply orb_true_r.
Qed.

(** X20. [as_brick_uri] leaves a term that starts with [http://] or
    [https://] as it is, and puts the Brick namespace before any other term,
    after removing a leading [brick:]; so [brick:Chiller] and [Chiller] give
    the same URI, the result always starts with a scheme, and applying the
    function twice is the same as applying it once. *)
Theorem as_brick_uri_cases term :
  (has_scheme term = true -> as_brick_uri term = term)
  /\ as_brick_uri ("brick:" +++ term) = BRICK +++ term
  /\ (has_scheme term = false -> String.prefix "brick:" term = false ->
        as_brick_uri term = BRICK +++ term)
  /\ has_scheme (as_brick_uri term) = true
  /\ as_brick_uri (as_brick_uri term) = as_brick_uri term.
Proof.
  split; [intros H; unfold as_brick_uri; now rewrite H|].
  split; [apply as_brick_uri_brick|]. split; [apply as_brick_uri_plain|].
  split; [apply has_scheme_as_brick_uri|].
  unfold as_brick_uri at 1. now rewrite has_scheme_as_brick_uri.
Qed.

(** *** Local names *)


Lemma split_char_nonempty sep s : split_char sep s <> [].
Proof.
  destruct s as [|c r]; cbn; [discriminate|].
  destruct (Ascii.eqb c sep); [discriminate|]. destruct (split_char sep r); discriminate.
Qed.

Lemma split_char_free sep s : free_of sep s -> split_char sep s = [s].
Proof.
  unfold free_of. induction s as [|c r IH]; cbn; [reflexivity|].
  intros H. apply andb_true_iff in H. destruct H as [Hc Hr].
  apply negb_true_iff in Hc. rewrite Hc, IH by exact Hr. reflexivity.
Qed.

Lemma last_split_app sep s x :
  last (split_char sep (s +++ String sep x)) "" = last (split_char sep x) "".
Proof.
  induction s as [|c r IH]; cbn [append split_char].
  - rewrite Ascii.eqb_refl. cbn [last].
    destruct (split_char sep x) eqn:E; [now apply split_char_nonempty in E | reflexivity].
  - destruct (Ascii.eqb c sep).
    + cbn [last]. destruct (split_char sep (r +++ String sep x)) eqn:E;
        [now apply split_char_nonempty in E | exact IH].
    + destruct (split_char sep (r +++ String sep x)) as [|y rest] eqn:E;
        [now apply split_char_nonempty in E|].
      destruct rest as [|z rest]; [|exact IH].
      exfalso. clear IH.
      assert (G : forall r0, (2 <= List.length (split_char sep (r0 +++ String sep x)))%nat).
      { induction r0 as [|c0 r0 IH0]; cbn [append split_char].
        - rewrite Ascii.eqb_refl. cbn.
          destruct (split_char sep x) eqn:Ex; [now apply split_char_nonempty in Ex|].
          cbn. lia.
        - destruct (Ascii.eqb c0 sep); [cbn; lia|].
          destruct (split_char sep (r0 +++ String sep x)); cbn in *; lia. }
      specialize (G r). rewrite E in G. cbn in G. lia.
Qed.

Lemma last_split_free sep s : free_of sep (last (split_char sep s) "").
Proof.
  unfold free_of. induction s as [|c r IH]; cbn [split_char]; [reflexivity|].
  destruct (Ascii.eqb c sep) eqn:Ec.
  - cbn [last]. destruct (split_char sep r) eqn:E;
      [now apply split_char_nonempty in E | exact IH].
  - destruct (split_char sep r) as [|y rest] eqn:E; [now apply split_char_nonempty in E|].
    destruct rest as [|z rest]; [|exact IH].
    cbn [last] in *. cbn. now rewrite Ec, IH.
Qed.

(** X21. The local name the tools return for a URI, the part after its last
    [#]: a name without [#] put after a namespace that ends in [#] is read
    back as it was, a string without [#] is its own local name, and a local
    name never holds a [#].  So the local name of [as_brick_uri term] is
    [term] for a term without [#] and without scheme. *)
Theorem local_name_round_trip ns term :
  free_of "#" term ->
  local_name (ns +++ "#" +++ term) = term
  /\ local_name term = term
  /\ (forall s, free_of "#" (local_name s))
  /\ local_name (as_brick_uri ("brick:" +++ term)) = term
  /\ (has_scheme term = false -> String.prefix "brick:" term = false ->
        local_name (as_brick_uri term) = term).
Proof.
  intros H.
  assert (H2 : local_name term = term).
  { unfold local_name. now rewrite split_char_free. }
  assert (H1 : forall n, local_name (n +++ "#" +++ term) = term).
  { intros n. unfold local_name. cbn [append]. now rewrite last_split_app. }
  assert (HB : local_name (BRICK +++ term) = term).
  { apply (H1 "https://brickschema.org/schema/Brick"). }
  split; [apply H1|]. split; [exact H2|]. split; [intros s; apply last_split_free|].
  split; [now rewrite as_brick_uri_brick|].
  intros Hs Hb. now rewrite as_brick_uri_plain.
Qed.

Lemma local_name_round_trip_witness :
  local_name (as_brick_uri "brick:Chiller") = "Chiller"
  /\ local_name (as_brick_uri "Chiller") = "Chiller".
Proof.
  destruct (local_name_round_trip "" "Chiller" eq_refl) as (_ & _ & _ & H4 & H5).
  split; [exact H4 | exact (H5 eq_refl eq_refl)].
Defined.

(** *** The tools on the global query *)


Lemma find_data_raises self f p c h fs a :
  exists e, find_data self f p c h fs a = Raise e.
Proof.
  pose proof (find_data_not_ok self f p c h fs a) as H.
  destruct (find_data self f p c h fs a) as [q|e]; [discriminate | eauto].
Qed.

Lemma find_data_resolved self f p c h fs a src :
  is_all f = false -> resolve_alias (query_graph self) f = Some src ->
  find_data self f p c h fs a = Raise (AttributeError "service").
Proof.
  intros Ha Hs. unfold find_data. cbv zeta. rewrite Ha, Hs. cbn [bind].
  rewrite find_data_loop_raises by discriminate. reflexivity.
Qed.

Lemma find_points_fst query _from alias :
  fst (Server.find_points query _from alias) = query.
Proof.
  unfold Server.find_points.
  destruct (find_data_raises query _from None None 3 None alias) as [e ->]. reflexivity.
Qed.

(** X22. The tool [find_points] never returns: [find_data] raises on every
    query, with [AttributeError] once the source is resolved, so the global
    query is not assigned and stays as it was. *)
Theorem find_points_never_returns query _from alias :
  fst (Server.find_points query _from alias) = query
  /\ is_ok (snd (Server.find_points query _from alias)) = false
  /\ (forall src,
        is_all _from = false -> resolve_alias (query_graph query) _from = Some src ->
        snd (Server.find_points query _from alias) = Raise (AttributeError "service"))
  /\ (nodes (query_graph query) <> [] ->
        snd (Server.find_points query (Some "*") alias) = Raise (AttributeError "service")).
Proof.
  unfold Server.find_points.
  destruct (find_data_raises query _from None None 3 None alias) as [e E]. rewrite E.
  split; [reflexivity|]. split; [reflexivity|]. split.
  - intros src Ha Hs. rewrite (find_data_resolved _ _ _ _ _ _ _ src Ha Hs) in E.
    now injection E as <-.
  - intros Hn. unfold find_data. cbv zeta. change (is_all (Some "*")) with true.
    destruct (nodes (query_graph query)) as [|kn d] eqn:En; [congruence|].
    cbn [bind]. rewrite find_data_loop_raises; [reflexivity|].
    apply sorted_nonempty. discriminate.
Qed.

Lemma server_invariant_empty : server_invariant empty_query.
Proof.
  split; [apply reach_new | reflexivity | apply dense_empty | intros nid n; discriminate].
Qed.

Lemma server_invariant_node q c a edge :
  server_invariant q ->
  reachable (Query_ (with_edge (with_node (query_graph q)
                                  (mkQueryNode (_next_id q) (Some (as_brick_uri c)) a []))
                       edge (Some (_next_id q))) (_next_id q + 1)) ->
  server_invariant
    (Query_ (with_edge (with_node (query_graph q)
                          (mkQueryNode (_next_id q) (Some (as_brick_uri c)) a []))
               edge (Some (_next_id q))) (_next_id q + 1)).
Proof.
  intros [R Hd D Hc] R'. split.
  - exact R'.
  - exact Hd.
  - intros k. unfold with_edge, with_node, Query_. cbn.
    rewrite (dict_mem_set Z.eqb Z.eqb_eq), orb_true_iff, Z.eqb_eq, (D k).
    destruct (reachable_tidy q R) as [_ N]. lia.
  - intros nid n. unfold with_edge, with_node, Query_. cbn.
    destruct (nid =? _next_id q) eqn:E.
    + apply Z.eqb_eq in E. subst nid. rewrite (dict_get_set_same Z.eqb Z.eqb_eq).
      intros [= <-]. eexists. split; [reflexivity | apply has_scheme_as_brick_uri].
    + rewrite (dict_get_set_other Z.eqb Z.eqb_eq)
        by (intros ->; now rewrite Z.eqb_refl in E).
      apply Hc.
Qed.

Lemma find_entity_as_edge q c a :
  find_entity q c a
  = Query_ (with_node (query_graph q) (mkQueryNode (_next_id q) (Some c) a []))
      (_next_id q + 1).
Proof. reflexivity. Qed.

Lemma serve_invariant q r :
  server_invariant q -> server_invariant (fst (Server.serve q r)).
Proof.
  intros Inv. destruct r as [c a|c a f h ps m|f a| |]; cbn [Server.serve].
  - cbn [Server.find_entity fst]. destruct Inv as [R Hd D Hc].
    split.
    + now apply reach_find_entity.
    + exact Hd.
    + apply dense_find_entity; [apply (reachable_tidy q R) | exact D].
    + intros nid n. unfold find_entity, with_node, _clone_with_graph, Query_, _new_id. cbn.
      destruct (nid =? _next_id q) eqn:E.
      * apply Z.eqb_eq in E. subst nid. rewrite (dict_get_set_same Z.eqb Z.eqb_eq).
        intros [= <-]. eexists. split; [reflexivity | apply has_scheme_as_brick_uri].
      * rewrite (dict_get_set_other Z.eqb Z.eqb_eq)
          by (intros ->; now rewrite Z.eqb_refl in E).
        apply Hc.
  - unfold Server.find_related_entities.
    destruct (find_related q (as_brick_uri c) a f h ps m) as [q'|e] eqn:E; [|exact Inv].
    cbn [fst].
    pose proof (reach_find_related q _ _ _ _ _ _ q' (srv_reachable q Inv) E) as R'.
    destruct (find_related_inv _ _ _ _ _ _ _ _ E) as (src & edge & _ & _ & _ & ->).
    now apply server_invariant_node.
  - cbn [Server.find_points]. rewrite find_points_fst. exact Inv.
  - exact Inv.
  - apply server_invariant_empty.
Qed.

Lemma session_invariant requests : server_invariant (Server.session requests).
Proof.
  unfold Server.session. apply fold_left_invariant; [|apply server_invariant_empty].
  intros q r Inv. now apply serve_invariant.
Qed.

(** X23. Whatever calls were made, the global query of the server is one
    the builder can make; it has no data node, since [find_points] is the
    only tool that would add one; its nodes are numbered from 0 without
    gaps; the class of every node is a full URI; and [get_sparql_query]
    returns exactly when every edge has a hop bound of at least 1. *)
Theorem server_session_invariant requests :
  reachable (Server.session requests)
  /\ data_nodes (query_graph (Server.session requests)) = []
  /\ dense (Server.session requests)
  /\ (forall nid n,
        dict_get Z.eqb (nodes (query_graph (Server.session requests))) nid = Some n ->
        exists c, rdf_class n = Some c /\ has_scheme c = true)
  /\ (is_ok (snd (Server.get_sparql_query (Server.session requests))) = true
      <-> forall e, In e (edges (query_graph (Server.session requests))) -> 1 <= hops e)
  /\ fst (Server.reset_query (Server.session requests)) = empty_query.
Proof.
  destruct (session_invariant requests) as [R Hd D Hc].
  split; [exact R|]. split; [exact Hd|]. split; [exact D|]. split; [exact Hc|].
  split; [|reflexivity].
  destruct (to_sparql_cases _ R) as (_ & _ & H). rewrite <- H.
  unfold Server.get_sparql_query. cbn [snd].
  destruct (to_sparql (Server.session requests)); reflexivity.
Qed.

(** *** The tools that match *)

Lemma uniq_loop_seen_ext l : forall s1 s2,
  (forall x, existsb (String.eqb x) s1 = existsb (String.eqb x) s2) ->
  uniq_loop s1 l = uniq_loop s2 l.
Proof.
  induction l as [|p r IH]; intros s1 s2 H; cbn [uniq_loop]; [reflexivity|].
  rewrite (H p). destruct (existsb (String.eqb p) s2); [now apply IH|].
  f_equal. apply IH. intros x. cbn. now rewrite H.
Qed.

Lemma uniq_loop_length l : forall seen,
  (List.length (uniq_loop seen l) <= List.length l)%nat.
Proof.
  induction l as [|p r IH]; intros seen; cbn [uniq_loop]; [lia|].
  destruct (existsb (String.eqb p) seen); cbn; [specialize (IH seen) | specialize (IH (p :: seen))]; lia.
Qed.

Lemma dict_keys_set {V} (d : dict string V) k v :
  dict_keys (dict_set String.eqb d k v)
  = if dict_mem String.eqb d k then dict_keys d else dict_keys d ++ [k].
Proof.
  unfold dict_mem, dict_keys. induction d as [|[k0 v0] d IH]; cbn; [reflexivity|].
  destruct (String.eqb k k0) eqn:E; cbn; [reflexivity|].
  rewrite IH. now destruct (dict_get String.eqb d k).
Qed.

Section Tools.
Variable ud : unicodedata.
Variable ratio : string -> string -> float.
Variable compute_qname : string -> result (string * string * string).

Lemma qname_loop_keys ms : forall d d',
  Server.qname_loop compute_qname ms d = Ok d' ->
  dict_keys d' = dict_keys d ++ uniq_loop (dict_keys d) (map label ms).
Proof.
  induction ms as [|m r IH]; intros d d'; cbn [Server.qname_loop map uniq_loop].
  - intros [= <-]. now rewrite app_nil_r.
  - destruct (compute_qname (uri m)) as [q|e]; cbn [bind]; [|discriminate].
    intros H. apply IH in H. rewrite H, dict_keys_set.
    rewrite <- (dict_mem_keys String.eqb).
    destruct (dict_mem String.eqb d (label m)) eqn:E; [reflexivity|].
    rewrite <- app_assoc. cbn [app]. do 2 f_equal.
    apply uniq_loop_seen_ext. intros x. rewrite existsb_app. cbn.
    now rewrite orb_false_r, orb_comm.
Qed.

Lemma qname_loop_ok ms : forall d,
  (forall m, In m ms -> is_ok (compute_qname (uri m)) = true) ->
  exists d', Server.qname_loop compute_qname ms d = Ok d'.
Proof.
  induction ms as [|m r IH]; intros d H; cbn [Server.qname_loop]; [eauto|].
  pose proof (H m (or_introl eq_refl)) as Hm.
  destruct (compute_qname (uri m)) as [q|e]; [|discriminate]. cbn [bind].
  apply IH. intros m' Hm'. apply H. now right.
Qed.

(** X24. The tools [expand_abbreviation] and [find_close_uriref] do the
    same: they return one name for every distinct label among the matches,
    so at most [k] names for a [k] that is not negative; they return
    whenever [compute_qname] returns on the URI of every match. *)
Theorem expand_abbreviation_names matcher query k :
  Server.find_close_uriref ud ratio compute_qname matcher query k
  = Server.expand_abbreviation ud ratio compute_qname matcher query k
  /\ (forall names,
        Server.expand_abbreviation ud ratio compute_qname matcher query k = Ok names ->
        len names
        = len (distinct (map label (match_ ud ratio matcher query (Some ["class"]) k 0.25)))
        /\ (0 <= k -> len names <= k))
  /\ ((forall m, In m (match_ ud ratio matcher query (Some ["class"]) k 0.25) ->
         is_ok (compute_qname (uri m)) = true) ->
      exists names,
        Server.expand_abbreviation ud ratio compute_qname matcher query k = Ok names).
Proof.
  split; [reflexivity|]. split.
  - intros names. unfold Server.expand_abbreviation. cbv zeta.
    destruct (Server.qname_loop _ _ _) as [d|e] eqn:E; cbn [bind]; [|discriminate].
    intros [= <-]. apply qname_loop_keys in E. cbn [dict_keys map app] in E.
    assert (Hl : len (dict_values d)
                 = len (distinct (map label
                          (match_ ud ratio matcher query (Some ["class"]) k 0.25)))).
    { unfold len, distinct. rewrite <- E. unfold dict_values, dict_keys.
      now rewrite !length_map. }
    split; [exact Hl|]. intros Hk. rewrite Hl.
    pose proof (slice_to_length
                  (sorted_desc (dict_values (scored_table ud ratio matcher query
                                               (Some ["class"]) 0.25))) k Hk) as Hs.
    fold (match_ ud ratio matcher query (Some ["class"]) k 0.25) in Hs.
    pose proof (uniq_loop_length
                  (map label (match_ ud ratio matcher query (Some ["class"]) k 0.25)) [])
      as Hu.
    rewrite length_map in Hu. unfold len, distinct in *. lia.
  - intros H. unfold Server.expand_abbreviation. cbv zeta.
    destruct (qname_loop_ok _ [] H) as [d ->]. cbn. eauto.
Qed.
End Tools.


(** * Theorems: the lexicon builder *)

Lemma plain_not_sep c : plain_char c = true -> is_sep c = false.
Proof.
  intros H. apply plain_char_facts in H. destruct H as (_ & _ & H1 & H2).
  unfold is_sep. now rewrite H1, H2.
Qed.

Lemma sub_seps_plain s : plain s -> LexiconBuilder.sub_seps 0 s = s.
Proof.
  unfold plain. induction s as [|c r IH]; cbn; [reflexivity|].
  intros H. apply andb_true_iff in H. destruct H as [Hc Hr].
  rewrite (plain_not_sep c Hc). now rewrite IH.
Qed.

Lemma sub_camel_plain s : plain s -> LexiconBuilder.sub_camel 0 s = s.
Proof.
  unfold plain. induction s as [|c r IH]; cbn [LexiconBuilder.sub_camel]; [reflexivity|].
  intros H. cbn in H. apply andb_true_iff in H. destruct H as [Hc Hr].
  destruct r as [|d r']; [reflexivity|].
  assert (Hd : is_upper d = false).
  { cbn in Hr. apply andb_true_iff in Hr. destruct Hr as [Hd _].
    now apply plain_char_facts in Hd. }
  rewrite Hd, andb_false_r. now rewrite IH.
Qed.

Lemma sub_acronym_plain s : plain s -> LexiconBuilder.sub_acronym 0 s = s.
Proof.
  unfold plain. induction s as [|c r IH]; cbn [LexiconBuilder.sub_acronym]; [reflexivity|].
  intros H. cbn in H. apply andb_true_iff in H. destruct H as [Hc Hr].
  unfold LexiconBuilder.acronym_match. cbn [run_length].
  replace (is_upper c) with false by (symmetry; now apply plain_char_facts in Hc).
  cbn [LexiconBuilder.acronym_backtrack]. now rewrite IH.
Qed.

Lemma tokenize_join toks :
  Forall lower_word toks -> LexiconBuilder.tokenize (join " " toks) = join " " toks.
Proof.
  intros H. pose proof (plain_join toks H) as Hp.
  unfold LexiconBuilder.tokenize. cbv zeta.
  rewrite (sub_seps_plain _ Hp), (sub_camel_plain _ Hp), (sub_acronym_plain _ Hp).
  rewrite (lower_plain _ Hp). now rewrite findall_join.
Qed.

Lemma tokenize_lower_words text :
  Forall lower_word
    (findall_words
       (lower (LexiconBuilder.sub_acronym 0
                 (LexiconBuilder.sub_camel 0 (LexiconBuilder.sub_seps 0 text))))).
Proof.
  apply Forall_forall. intros t Ht. now apply findall_lower_words in Ht.
Qed.

(** The substitution of [([a-z0-9])([A-Z])] puts the spaces where the
    matcher's split on [(?<=[a-z0-9])(?=[A-Z])] puts them. *)
Lemma sub_camel_split n : forall s,
  (String.length s <= n)%nat -> LexiconBuilder.sub_camel 0 s = camel_split s.
Proof.
  induction n as [|n IH]; intros s Hn.
  - destruct s; [reflexivity | cbn in Hn; lia].
  - destruct s as [|c r]; [reflexivity|].
    cbn [LexiconBuilder.sub_camel camel_split]. destruct r as [|d r']; [reflexivity|].
    destruct (is_lower_digit c && is_upper d) eqn:E.
    + apply andb_true_iff in E. destruct E as [_ Hd].
      cbn [LexiconBuilder.sub_camel]. do 2 f_equal.
      cbn [camel_split].
      assert (Hl : is_lower_digit d = false).
      { destruct (is_lower_digit d) eqn:El; [|reflexivity].
        apply lower_digit_facts in El. destruct El as (_ & Hu & _). congruence. }
      rewrite Hl. cbn [andb]. f_equal.
      rewrite IH by (cbn in Hn; lia).
      destruct r'; reflexivity.
    + f_equal. apply IH. cbn in Hn |- *. lia.
Qed.

(** X25. The builder's [tokenize] returns non-empty words of lower-case
    ASCII letters and digits separated by single spaces; it leaves such a
    text as it is, so that applying it twice is the same as applying it
    once; the matcher's [normalize_text] leaves its result as it is when
    [unicodedata] leaves ASCII alone; and its CamelCase substitution puts
    the spaces where the matcher's split puts them. *)
Theorem builder_tokenize_normal text :
  (exists toks,
      LexiconBuilder.tokenize text = join " " toks /\ Forall lower_word toks)
  /\ LexiconBuilder.tokenize (LexiconBuilder.tokenize text) = LexiconBuilder.tokenize text
  /\ (forall ud, ascii_stable ud ->
        normalize_text ud (LexiconBuilder.tokenize text) = LexiconBuilder.tokenize text)
  /\ LexiconBuilder.sub_camel 0 text = camel_split text.
Proof.
  pose proof (tokenize_lower_words text) as H.
  split; [eexists; split; [reflexivity | exact H]|].
  split; [exact (tokenize_join _ H)|].
  split; [intros ud Hud; exact (normalize_text_join ud _ Hud H)|].
  apply (sub_camel_split (String.length text)). lia.
Qed.

(** *** The abbreviations *)

Lemma add_abbrev_eq d k full :
  LexiconBuilder.add_abbrev d (k, full)
  = dict_set String.eqb
      (match dict_get String.eqb d k with Some _ => d | None => dict_set String.eqb d k [] end)
      k ((match dict_get String.eqb d k with Some x => x | None => [] end) ++ [full]).
Proof.
  unfold LexiconBuilder.add_abbrev, dict_mem. cbn [fst snd]. cbv zeta.
  destruct (dict_get String.eqb d k) as [x|] eqn:Ed.
  - now rewrite Ed.
  - now rewrite (dict_get_set_same String.eqb String.eqb_eq).
Qed.

Lemma add_abbrev_get d k full a :
  dict_get String.eqb (LexiconBuilder.add_abbrev d (k, full)) a
  = if String.eqb k a
    then Some ((match dict_get String.eqb d a with Some x => x | None => [] end) ++ [full])
    else dict_get String.eqb d a.
Proof.
  rewrite add_abbrev_eq. destruct (String.eqb k a) eqn:E.
  - apply String.eqb_eq in E. subst k. apply (dict_get_set_same String.eqb String.eqb_eq).
  - assert (Hne : a <> k) by (intros ->; now rewrite String.eqb_refl in E).
    rewrite (dict_get_set_other String.eqb String.eqb_eq) by exact Hne.
    destruct (dict_get String.eqb d k); [reflexivity|].
    now apply (dict_get_set_other String.eqb String.eqb_eq).
Qed.

Lemma add_abbrev_keys d k full :
  dict_keys (LexiconBuilder.add_abbrev d (k, full))
  = if dict_mem String.eqb d k then dict_keys d else dict_keys d ++ [k].
Proof.
  rewrite add_abbrev_eq. unfold dict_mem.
  destruct (dict_get String.eqb d k) as [x|] eqn:Ed.
  - apply (dict_keys_set_present String.eqb). unfold dict_mem. now rewrite Ed.
  - rewrite (dict_keys_set_present String.eqb)
      by (unfold dict_mem; now rewrite (dict_get_set_same String.eqb String.eqb_eq)).
    rewrite dict_keys_set. unfold dict_mem. now rewrite Ed.
Qed.

Lemma group_fold (l : list (string * string)) : forall d a,
  dict_get String.eqb (fold_left LexiconBuilder.add_abbrev l d) a
  = match dict_get String.eqb d a with
    | Some x => Some (x ++ map snd (filter (fun af => String.eqb (fst af) a) l))
    | None =>
        match map snd (filter (fun af => String.eqb (fst af) a) l) with
        | [] => None
        | adds => Some adds
        end
    end.
Proof.
  induction l as [|[k full] l IH]; intros d a; cbn [fold_left filter map fst snd].
  - destruct (dict_get String.eqb d a); [now rewrite app_nil_r | reflexivity].
  - rewrite IH, add_abbrev_get. destruct (String.eqb k a); [|reflexivity].
    cbn [map snd]. destruct (dict_get String.eqb d a); now rewrite <- app_assoc.
Qed.

Lemma group_keys (l : list (string * string)) : forall d,
  dict_keys (fold_left LexiconBuilder.add_abbrev l d)
  = dict_keys d ++ uniq_loop (dict_keys d) (map fst l).
Proof.
  induction l as [|[k full] l IH]; intros d; cbn [fold_left map fst snd uniq_loop].
  - now rewrite app_nil_r.
  - rewrite IH, add_abbrev_keys, <- (dict_mem_keys String.eqb).
    destruct (dict_mem String.eqb d k); [reflexivity|].
    rewrite <- app_assoc. cbn [app]. do 2 f_equal.
    apply uniq_loop_seen_ext. intros y. rewrite existsb_app. cbn.
    now rewrite orb_false_r, orb_comm.
Qed.

(** X26. The table of abbreviations the builder writes gives, for every
    abbreviation, the full names it was recorded with, in the order they
    were recorded; its keys are the distinct abbreviations in the order of
    their first occurrence; an abbreviation never recorded is not a key. *)
Theorem group_abbrevs_lookup abbrevs a :
  dict_get String.eqb (LexiconBuilder.group_abbrevs abbrevs) a
  = match map snd (filter (fun af => String.eqb (fst af) a) abbrevs) with
    | [] => None
    | fulls => Some fulls
    end
  /\ dict_keys (LexiconBuilder.group_abbrevs abbrevs) = distinct (map fst abbrevs)
  /\ (In a (map fst abbrevs) <->
      dict_mem String.eqb (LexiconBuilder.group_abbrevs abbrevs) a = true).
Proof.
  assert (Hk : dict_keys (LexiconBuilder.group_abbrevs abbrevs) = distinct (map fst abbrevs)).
  { unfold LexiconBuilder.group_abbrevs. now rewrite group_keys. }
  split; [|split; [exact Hk|]].
  - unfold LexiconBuilder.group_abbrevs. now rewrite group_fold.
  - rewrite (dict_mem_in_keys String.eqb String.eqb_eq), Hk. symmetry. apply distinct_in.
Qed.

(** *** From the builder to the matcher *)

Lemma join_empty_forall p l :
  Forall (fun t => string_forall p t = true) l -> string_forall p (join "" l) = true.
Proof.
  induction 1 as [|t ts Ht Hts IH]; [reflexivity|].
  destruct ts as [|u ts]; [exact Ht|].
  rewrite join_cons by discriminate. cbn [append].
  now rewrite string_forall_app, Ht, IH.
Qed.

Lemma first_char_lower_word t : lower_word t -> lower_word (LexiconBuilder.first_char t).
Proof.
  intros [Ht Hw]. destruct t as [|c t]; [discriminate|]. split; [reflexivity|].
  cbn in Hw |- *. apply andb_true_iff in Hw. destruct Hw as [-> _]. reflexivity.
Qed.

Lemma initials_lower_word toks :
  Forall lower_word toks -> toks <> [] ->
  lower_word (join "" (map LexiconBuilder.first_char toks)).
Proof.
  intros H Hne. split.
  - destruct toks as [|t ts]; [congruence|]. inversion H as [|? ? Ht _]; subst.
    apply first_char_lower_word in Ht. destruct Ht as [Ht _].
    cbn [map]. destruct (map LexiconBuilder.first_char ts) eqn:E; [exact Ht|].
    rewrite join_cons by discriminate. now apply truthy_app_l.
  - apply join_empty_forall. apply Forall_forall. intros x Hx.
    apply in_map_iff in Hx. destruct Hx as (t & <- & Ht).
    apply first_char_lower_word. now apply (proj1 (Forall_forall _ _) H).
Qed.

Lemma class_abbrev_inv n abbr words :
  LexiconBuilder.class_abbrev n = Some (abbr, words) ->
  exists toks,
    words = join " " toks /\ Forall lower_word toks /\ (2 <= List.length toks)%nat
    /\ abbr = join "" (map LexiconBuilder.first_char toks).
Proof.
  unfold LexiconBuilder.class_abbrev. cbv zeta.
  pose proof (tokenize_lower_words n) as H.
  change (LexiconBuilder.tokenize n)
    with (join " " (findall_words
                      (lower (LexiconBuilder.sub_acronym 0
                                (LexiconBuilder.sub_camel 0
                                   (LexiconBuilder.sub_seps 0 n)))))).
  set (toks := findall_words _) in *.
  rewrite (split_join toks H).
  destruct (2 <=? len toks) eqn:E; [|discriminate].
  intros [= <- <-]. exists toks. apply Z.leb_le in E. unfold len in E.
  repeat split; [exact H | lia].
Qed.

Lemma class_abbrevs_in names abbr words :
  In (abbr, words) (LexiconBuilder.class_abbrevs names) ->
  exists n, LexiconBuilder.class_abbrev n = Some (abbr, words).
Proof.
  unfold LexiconBuilder.class_abbrevs. intros H. apply in_flat_map in H.
  destruct H as (n & _ & Hn). exists n.
  destruct (LexiconBuilder.class_abbrev n) as [e|]; [|destruct Hn].
  destruct Hn as [->|[]]. reflexivity.
Qed.

Lemma dict_get_entry {V} (d : dict string V) k v :
  dict_get String.eqb d k = Some v -> In (k, v) d.
Proof.
  induction d as [|[k0 v0] d IH]; cbn; [discriminate|].
  destruct (String.eqb k k0) eqn:E.
  - apply String.eqb_eq in E. subst k0. intros [= ->]. now left.
  - intros H. right. now apply IH.
Qed.

Section BuilderToMatcher.
Variable ud : unicodedata.
Hypothesis ud_stable : ascii_stable ud.

Lemma abbreviation_entry_stable names abbr words :
  In (abbr, words) (LexiconBuilder.class_abbrevs names) ->
  normalize_text ud abbr = abbr /\ truthy abbr = true /\ normalize_text ud words = words.
Proof.
  intros H. destruct (class_abbrevs_in _ _ _ H) as [n Hn].
  destruct (class_abbrev_inv _ _ _ Hn) as (toks & -> & Ht & Hl & ->).
  assert (Hw : lower_word (join "" (map LexiconBuilder.first_char toks))).
  { apply initials_lower_word; [exact Ht|]. intros ->. cbn in Hl. lia. }
  split; [|split].
  - apply (normalize_text_join ud [_] ud_stable). constructor; [exact Hw | constructor].
  - apply Hw.
  - now apply normalize_text_join.
Qed.

(** The matcher finds what the builder wrote. *)
Lemma builder_abbreviation_expanded names concepts abbr words :
  In (abbr, words) (LexiconBuilder.class_abbrevs names) ->
  expand_abbrev ud
    (ConceptMatcher_init ud
       (mkLexicon (LexiconBuilder.group_abbrevs (LexiconBuilder.class_abbrevs names))
          concepts))
    abbr
  = map snd (filter (fun af => String.eqb (fst af) abbr)
               (LexiconBuilder.class_abbrevs names)).
Proof.
  intros Hin.
  set (L := LexiconBuilder.class_abbrevs names) in *.
  set (fulls := map snd (filter (fun af => String.eqb (fst af) abbr) L)).
  destruct (abbreviation_entry_stable names abbr words Hin) as (Hn & Ht & _).
  assert (Hfulls : forall w, In w fulls -> normalize_text ud w = w).
  { intros w Hw. unfold fulls in Hw. apply in_map_iff in Hw.
    destruct Hw as ([a w'] & <- & Hf). apply filter_In in Hf. destruct Hf as [Hf _].
    now destruct (abbreviation_entry_stable names a w' Hf) as (_ & _ & H). }
  assert (Hget : dict_get String.eqb (LexiconBuilder.group_abbrevs L) abbr = Some fulls).
  { unfold LexiconBuilder.group_abbrevs. rewrite group_fold. cbn [dict_get]. fold fulls.
    destruct fulls eqn:E; [|reflexivity].
    assert (Hw : In words fulls).
    { unfold fulls. apply in_map_iff. exists (abbr, words). split; [reflexivity|].
      apply filter_In. split; [exact Hin | apply String.eqb_refl]. }
    rewrite E in Hw. destruct Hw. }
  assert (Hnd : NoDup (dict_keys (LexiconBuilder.group_abbrevs L))).
  { unfold LexiconBuilder.group_abbrevs. rewrite group_keys. apply uniq_loop_nodup. }
  unfold expand_abbrev. cbv zeta. rewrite Hn, Ht. cbn [_abbrev ConceptMatcher_init lex_abbrev].
  rewrite <- Hn at 1.
  rewrite (fold_abbrev_get (normalize_text ud) (map (normalize_text ud))
             (LexiconBuilder.group_abbrevs L) [] abbr fulls).
  - rewrite <- (map_id fulls) at 2. apply map_ext_in. exact Hfulls.
  - now apply dict_get_entry.
  - intros k' v' Hk' Hnk.
    assert (Hkin : In k' (map fst L)).
    { apply distinct_in. unfold distinct.
      replace (uniq_loop [] (map fst L)) with (dict_keys (LexiconBuilder.group_abbrevs L))
        by (unfold LexiconBuilder.group_abbrevs; now rewrite group_keys).
      change k' with (fst (k', v')). now apply in_map. }
    apply in_map_iff in Hkin. destruct Hkin as ([a w] & Ha & Haw). cbn in Ha. subst a.
    destruct (abbreviation_entry_stable names k' w Haw) as (Hk & _ & _).
    rewrite Hk, Hn in Hnk. subst k'.
    rewrite (dict_get_in String.eqb String.eqb_eq _ _ _ Hnd Hk') in Hget.
    now injection Hget as ->.
Qed.
End BuilderToMatcher.

(** X27. An abbreviation the builder derives from the names of the classes
    is expanded by the matcher built on the lexicon to the tokenized names
    of all the classes with these initials, in the order the builder met
    them: the keys and entries the builder writes are texts that
    [normalize_text] leaves as they are (for a [unicodedata] that leaves
    ASCII alone). *)
Theorem builder_abbreviations_expand ud names concepts abbr words :
  ascii_stable ud ->
  In (abbr, words) (LexiconBuilder.class_abbrevs names) ->
  expand_abbrev ud
    (ConceptMatcher_init ud
       (mkLexicon (LexiconBuilder.group_abbrevs (LexiconBuilder.class_abbrevs names))
          concepts))
    abbr
  = map snd (filter (fun af => String.eqb (fst af) abbr)
               (LexiconBuilder.class_abbrevs names))
  /\ In words (expand_abbrev ud
                 (ConceptMatcher_init ud
                    (mkLexicon
                       (LexiconBuilder.group_abbrevs (LexiconBuilder.class_abbrevs names))
                       concepts))
                 abbr)
  /\ normalize_text ud abbr = abbr.
Proof.
  intros Hud Hin.
  rewrite (builder_abbreviation_expanded ud Hud names concepts abbr words Hin).
  split; [reflexivity|]. split.
  - apply in_map_iff. exists (abbr, words). split; [reflexivity|].
    apply filter_In. split; [exact Hin | apply String.eqb_refl].
  - now destruct (abbreviation_entry_stable ud Hud names abbr words Hin).
Qed.

Lemma builder_abbreviations_expand_witness :
  expand_abbrev ascii_unicodedata
    (ConceptMatcher_init ascii_unicodedata
       (mkLexicon
          (LexiconBuilder.group_abbrevs
             (LexiconBuilder.class_abbrevs ["AirHandlingUnit"; "Pump"; "AirHandlerUnit"]))
          []))
    "ahu"
  = ["air handling unit"; "air handler unit"].
Proof.
  exact (proj1 (builder_abbreviations_expand ascii_unicodedata
                  ["AirHandlingUnit"; "Pump"; "AirHandlerUnit"] [] "ahu"
                  "air handling unit" ascii_unicodedata_stable
                  ltac:(vm_compute; left; reflexivity))).
Defined.


(** * Theorems: what an operation writes *)

Section Confined.

(** [n0]: the number of objects when the operation starts; [c]: the caches
    it may clear; [I]: a property of stores that allocation, a write to an
    object allocated by the operation and [clear()] on a cache keep. *)
Variable n0 : nat.
Variable c : list Store.loc.
Variable I : Store.store -> Prop.
Hypothesis I_new : forall s o, I s -> I (s ++ [o]).
Hypothesis I_put : forall s l o, (n0 <= l)%nat -> I s -> I (Store.update l o s).
Hypothesis I_clear : forall s l, In l c -> I s -> I (Store.update l (Store.DictStr []) s).

Lemma confined_ret {A} n1 (a : A) (post : Store.store -> A -> Prop) :
  (forall s, (n1 <= List.length s)%nat -> post s a) -> confined I n1 (Store.ret a) post.
Proof.
  intros H s Hn Hs. cbn. split; [exact Hs|]. split; [lia|].
  intros a' [= <-]. now apply H.
Qed.

Lemma confined_raise {A} n1 e (post : Store.store -> A -> Prop) :
  confined I n1 (Store.raise e) post.
Proof.
  intros s Hn Hs. cbn. split; [exact Hs|]. split; [lia | discriminate].
Qed.

Lemma confined_bind {A B} n1 (m : Store.M A) (f : A -> Store.M B) post1 post :
  confined I n1 m post1 ->
  (forall a s1, (n1 <= List.length s1)%nat -> post1 s1 a ->
     confined I (List.length s1) (f a) post) ->
  confined I n1 (Store.bindM m f) post.
Proof.
  intros Hm Hf s Hn Hs. unfold Store.bindM.
  destruct (Hm s Hn Hs) as (T1 & L1 & P1).
  destruct (m s) as [s1 [a|e]]; cbn in *.
  - destruct (Hf a s1 ltac:(lia) (P1 a eq_refl) s1 ltac:(lia) T1) as (T2 & L2 & P2).
    split; [exact T2|]. split; [lia | exact P2].
  - split; [exact T1|]. split; [lia | discriminate].
Qed.

Lemma confined_weaken {A} n1 n2 (m : Store.M A) (post post' : Store.store -> A -> Prop) :
  confined I n1 m post -> (n1 <= n2)%nat ->
  (forall s a, (n2 <= List.length s)%nat -> post s a -> post' s a) ->
  confined I n2 m post'.
Proof.
  intros Hm Hn Hp s Hl Hs. destruct (Hm s ltac:(lia) Hs) as (T & L & P).
  split; [exact T|]. split; [exact L|]. intros a Ha. apply Hp; [lia | now apply P].
Qed.

Lemma confined_new n1 o :
  (n0 <= n1)%nat ->
  confined I n1 (Store.new o) (fun s l => above n0 (List.length s) l).
Proof.
  intros H s Hn Hs. cbn. split; [now apply I_new|]. rewrite length_app. cbn.
  split; [lia|]. intros l [= <-]. unfold above. lia.
Qed.

Lemma confined_get n1 l : confined I n1 (Store.get l) (fun _ _ => True).
Proof. intros s Hn Hs. cbn. auto. Qed.

Lemma confined_put n1 l o :
  (n0 <= l)%nat -> confined I n1 (Store.put l o) (fun _ _ => True).
Proof.
  intros H s Hn Hs. cbn. rewrite length_update. split; [now apply I_put | auto].
Qed.

Lemma confined_clear n1 l :
  In l c -> confined I n1 (Store.clear l) (fun _ _ => True).
Proof.
  intros H s Hn Hs. cbn. rewrite length_update. split; [now apply I_clear | auto].
Qed.

Lemma confined_copy n1 l :
  (n0 <= n1)%nat ->
  confined I n1 (Store.copy l) (fun s l' => above n0 (List.length s) l').
Proof.
  intros H s Hn Hs. cbn. split; [now apply I_new|]. rewrite length_app. cbn.
  split; [lia|]. intros l' [= <-]. unfold above. lia.
Qed.

Ltac above_facts :=
  cbv beta in *; unfold fresh_graph, above in *;
  cbn [Store.nodes Store.edges Store.aliases Store.aliases_reverse
       Store.data_nodes Store.query_graph Store.cache fst snd] in *.

Ltac abv := above_facts; first [exact Logic.I | lia].

Ltac cstep lem := eapply confined_bind; [lem; try abv | intros ? ? ? ?; above_facts].

Tactic Notation "cbind" tactic3(lem) "as" simple_intropattern(a) :=
  eapply confined_bind; [lem; try abv | intros a ? ? ?; above_facts].

Ltac cret := apply confined_ret; intros; try abv.

Lemma confined_setitem_str n1 l k v :
  (n0 <= l)%nat -> confined I n1 (Store.setitem_str l k v) (fun _ _ => True).
Proof. intros H. unfold Store.setitem_str. cstep ltac:(apply confined_get). now apply confined_put. Qed.

Lemma confined_setitem_nodes n1 l k v :
  (n0 <= l)%nat -> confined I n1 (Store.setitem_nodes l k v) (fun _ _ => True).
Proof. intros H. unfold Store.setitem_nodes. cstep ltac:(apply confined_get). now apply confined_put. Qed.

Lemma confined_setitem_aliases n1 l k v :
  (n0 <= l)%nat -> confined I n1 (Store.setitem_aliases l k v) (fun _ _ => True).
Proof. intros H. unfold Store.setitem_aliases. cstep ltac:(apply confined_get). now apply confined_put. Qed.

Lemma confined_setitem_aliases_reverse n1 l k v :
  (n0 <= l)%nat -> confined I n1 (Store.setitem_aliases_reverse l k v) (fun _ _ => True).
Proof.
  intros H. unfold Store.setitem_aliases_reverse.
  cstep ltac:(apply confined_get). now apply confined_put.
Qed.

Lemma confined_setitem_data_nodes n1 l k v :
  (n0 <= l)%nat -> confined I n1 (Store.setitem_data_nodes l k v) (fun _ _ => True).
Proof.
  intros H. unfold Store.setitem_data_nodes.
  cstep ltac:(apply confined_get). now apply confined_put.
Qed.

Lemma confined_append_edge n1 l e :
  (n0 <= l)%nat -> confined I n1 (Store.append_edge l e) (fun _ _ => True).
Proof. intros H. unfold Store.append_edge. cstep ltac:(apply confined_get). now apply confined_put. Qed.

Lemma confined_with_node n1 g node :
  (n0 <= n1)%nat ->
  confined I n1 (Store.with_node g node) (fun s g' => fresh_graph n0 (List.length s) g').
Proof.
  intros H. unfold Store.with_node. cbv zeta.
  cstep ltac:(apply confined_copy). cstep ltac:(apply confined_setitem_nodes).
  cstep ltac:(apply confined_copy). cstep ltac:(apply confined_copy).
  cstep ltac:(apply confined_setitem_aliases).
  cstep ltac:(apply confined_setitem_aliases_reverse).
  cstep ltac:(apply confined_copy). cstep ltac:(apply confined_copy).
  cret.
Qed.

Lemma confined_with_edge n1 g edge p :
  (n0 <= n1)%nat ->
  confined I n1 (Store.with_edge g edge p) (fun s g' => fresh_graph n0 (List.length s) g').
Proof.
  intros H. unfold Store.with_edge.
  cstep ltac:(apply confined_copy). cstep ltac:(apply confined_append_edge).
  cstep ltac:(apply confined_copy). cstep ltac:(apply confined_copy).
  cstep ltac:(apply confined_copy). cstep ltac:(apply confined_copy).
  cret.
Qed.

Lemma confined_with_data_node n1 g info :
  (n0 <= n1)%nat ->
  confined I n1 (Store.with_data_node g info)
    (fun s g' => fresh_graph n0 (List.length s) g').
Proof.
  intros H. unfold Store.with_data_node.
  cstep ltac:(apply confined_copy). cstep ltac:(apply confined_setitem_data_nodes).
  cstep ltac:(apply confined_copy). cstep ltac:(apply confined_copy).
  cstep ltac:(apply confined_copy). cstep ltac:(apply confined_copy).
  cret.
Qed.

Lemma confined_resolve_alias n1 g a :
  confined I n1 (Store.resolve_alias g a) (fun _ _ => True).
Proof.
  unfold Store.resolve_alias. destruct a.
  - cstep ltac:(apply confined_get). cret.
  - cret.
Qed.

Lemma confined_Query_ n1 g x :
  (n0 <= n1)%nat -> fresh_graph n0 n1 g ->
  confined I n1 (Store.Query_ g x) (fresh_query n0).
Proof.
  intros H Hg s Hn Hs. cbn. split; [now apply I_new|]. rewrite length_app. cbn.
  split; [lia|]. intros q [= <-]. unfold fresh_query. cbn.
  rewrite length_app. cbn. split; [|split].
  - above_facts. lia.
  - unfold above. lia.
  - unfold Store.at_. rewrite app_nth2 by lia. now rewrite Nat.sub_diag.
Qed.

Lemma confined__clone_with_graph n1 self g b :
  (n0 <= n1)%nat -> fresh_graph n0 n1 g ->
  confined I n1 (Store._clone_with_graph self g b) (fresh_query n0).
Proof. intros. now apply confined_Query_. Qed.

Lemma confined_Query_service {A} n1 self (f : value -> Store.M A) post :
  confined I n1 (Store.bindM (Store.Query_service self) f) post.
Proof.
  eapply confined_bind; [apply (confined_raise _ _ (fun _ _ => False)) | intros ? ? ? []].
Qed.

Lemma confined_copy_filters n1 fd :
  (n0 <= n1)%nat ->
  confined I n1 (Store.copy_filters fd) (fun s l => above n0 (List.length s) l).
Proof.
  intros H. unfold Store.copy_filters. destruct fd as [l|].
  - cbind (apply confined_get) as o.
    destruct (Store.as_dict_str o); apply confined_new; lia.
  - now apply confined_new.
Qed.

Lemma confined__add_data_node n1 self g src path cl al h fd force :
  (n0 <= n1)%nat ->
  confined I n1 (Store._add_data_node self g src path cl al h fd force)
    (fun s gi => fresh_graph n0 (List.length s) (fst gi)).
Proof.
  intros H. unfold Store._add_data_node. cbv zeta.
  cstep ltac:(apply confined_new).
  cstep ltac:(apply confined_with_node).
  eapply confined_bind.
  { instantiate (1 := fun s g' => fresh_graph n0 (List.length s) g').
    destruct src as [src|].
    - destruct (truthy_opt path).
      + cstep ltac:(apply confined_new). apply confined_with_edge. lia.
      + apply confined_with_edge. lia.
    - cstep ltac:(apply confined_copy). cstep ltac:(apply confined_copy).
      cstep ltac:(apply confined_copy). cstep ltac:(apply confined_copy).
      cstep ltac:(apply confined_copy). cret. }
  intros ? ? ? ?; above_facts.
  cstep ltac:(apply confined_copy_filters).
  cstep ltac:(apply confined_with_data_node).
  cret.
Qed.

Lemma confined__select_data_node_ids n1 self f :
  confined I n1 (Store._select_data_node_ids self f) (fun _ _ => True).
Proof.
  unfold Store._select_data_node_ids. cbv zeta.
  cbind (apply confined_get) as dno.
  destruct (Store.as_data_nodes dno); [apply confined_raise|].
  destruct (is_all f); [cret|].
  destruct f.
  - cbind (apply confined_resolve_alias) as [rid|]; [|apply confined_raise].
    destruct (dict_mem _ _ rid); [cret|].
    cstep ltac:(apply confined_get). cret.
  - destruct (Store.current_pointer _); [|cret].
    destruct (dict_mem _ _ _); cret.
Qed.

Lemma confined_find_entity n1 self cl al :
  (n0 <= n1)%nat -> In (Store.cache self) c ->
  confined I n1 (Store.find_entity self cl al) (fresh_query n0).
Proof.
  intros H Hc. unfold Store.find_entity. cbv zeta.
  cstep ltac:(apply confined_clear; exact Hc).
  cstep ltac:(apply confined_new).
  cstep ltac:(apply confined_with_node).
  apply confined__clone_with_graph; abv.
Qed.

Lemma confined_find_related n1 self cl al f h ps m :
  (n0 <= n1)%nat -> In (Store.cache self) c ->
  confined I n1 (Store.find_related self cl al f h ps m) (fresh_query n0).
Proof.
  intros H Hc. unfold Store.find_related.
  cstep ltac:(apply confined_clear; exact Hc).
  cbind (apply confined_resolve_alias) as [src_id|]; [|apply confined_raise]. cbv zeta.
  cstep ltac:(apply confined_new).
  cstep ltac:(apply confined_with_node).
  eapply confined_bind.
  { instantiate (1 := fun _ _ => True). destruct ps as [l|].
    - cstep ltac:(apply confined_get). cret.
    - cret. }
  intros given ? ? ?; above_facts.
  cstep ltac:(apply confined_with_edge).
  apply confined__clone_with_graph; abv.
Qed.

Lemma confined_mapping_at n1 om k :
  confined I n1 (Store.mapping_at om k) (fun _ _ => True).
Proof.
  unfold Store.mapping_at. destruct (dict_get _ _ _); [cret | apply confined_raise].
Qed.

Lemma confined_merge_nodes l : forall n1 mx om mn,
  (n0 <= mn)%nat ->
  confined I n1 (Store.merge_nodes mx l om mn) (fun _ _ => True).
Proof.
  induction l as [|[nid node] r IH]; intros n1 mx om mn H; cbn [Store.merge_nodes].
  - cret.
  - cbv zeta. cstep ltac:(apply confined_setitem_nodes). now apply IH.
Qed.

Lemma confined_merge_edges l : forall n1 om me,
  (n0 <= me)%nat ->
  confined I n1 (Store.merge_edges om l me) (fun _ _ => True).
Proof.
  induction l as [|edge r IH]; intros n1 om me H; cbn [Store.merge_edges].
  - cret.
  - cstep ltac:(apply confined_mapping_at). cstep ltac:(apply confined_mapping_at).
    cstep ltac:(apply confined_append_edge). now apply IH.
Qed.

Lemma confined_merge_aliases l : forall n1 om ma mar,
  (n0 <= n1)%nat -> (n0 <= ma)%nat -> above n0 n1 mar ->
  confined I n1 (Store.merge_aliases om l ma mar)
    (fun s r => above n0 (List.length s) r).
Proof.
  induction l as [|[name nid] r IH]; intros n1 om ma mar H Ha Hr;
    cbn [Store.merge_aliases].
  - cret.
  - cstep ltac:(apply confined_mapping_at). cstep ltac:(apply confined_setitem_aliases).
    cstep ltac:(apply confined_get). cstep ltac:(apply confined_new).
    apply IH; abv.
Qed.

Lemma confined_relate_to n1 self other f t h ps :
  (n0 <= n1)%nat -> In (Store.cache self) c -> In (Store.cache other) c ->
  confined I n1 (Store.relate_to self other f t h ps) (fresh_query n0).
Proof.
  intros H Hc Ho. unfold Store.relate_to.
  cstep ltac:(apply confined_clear; exact Hc).
  cstep ltac:(apply confined_clear; exact Ho).
  eapply confined_bind.
  { instantiate (1 := fun _ _ => True).
    destruct f; [apply confined_resolve_alias | cret]. }
  intros [src_id|] ? ? ?; [|apply confined_raise].
  eapply confined_bind.
  { instantiate (1 := fun _ _ => True).
    destruct t; [apply confined_resolve_alias | cret]. }
  intros [tgt_id|] ? ? ?; [|apply confined_raise].
  cstep ltac:(apply confined_copy). cstep ltac:(apply confined_copy).
  cstep ltac:(apply confined_copy). cstep ltac:(apply confined_copy).
  cstep ltac:(apply confined_get). cbv zeta.
  cstep ltac:(apply confined_get).
  cstep ltac:(apply confined_merge_nodes).
  cstep ltac:(apply confined_get).
  cstep ltac:(apply confined_merge_edges).
  cstep ltac:(apply confined_get).
  cstep ltac:(apply confined_merge_aliases).
  cstep ltac:(apply confined_new).
  cstep ltac:(apply confined_mapping_at).
  cstep ltac:(apply confined_with_edge).
  apply confined_Query_; abv.
Qed.

Lemma confined_find_data_loop l : forall n1 g n_src path cl al h fd i self lg created,
  (n0 <= n1)%nat ->
  confined I n1 (Store.find_data_loop g n_src path cl al h fd l i self lg created)
    (fun _ _ => True).
Proof.
  destruct l as [|src_id r]; intros; cbn [Store.find_data_loop].
  - cret.
  - cstep ltac:(apply confined_get). cbv zeta.
    cstep ltac:(apply confined__add_data_node).
    apply confined_Query_service.
Qed.

Lemma confined_find_data n1 self f path cl h fd al :
  (n0 <= n1)%nat -> In (Store.cache self) c ->
  confined I n1 (Store.find_data self f path cl h fd al) (fresh_query n0).
Proof.
  intros H Hc. unfold Store.find_data. cbv zeta.
  cstep ltac:(apply confined_clear; exact Hc).
  eapply confined_bind.
  { instantiate (1 := fun _ _ => True). destruct (is_all f).
    - cbind (apply confined_get) as no.
      destruct (Store.as_nodes no); [apply confined_raise | cret].
    - cbind (apply confined_resolve_alias) as [src_id|]; [cret | apply confined_raise]. }
  intros ? ? ? ?.
  cbind (apply confined_find_data_loop) as [[self' lg] created].
  apply confined_Query_service.
Qed.

Lemma confined_find_all_data n1 self cl h fd al :
  (n0 <= n1)%nat -> In (Store.cache self) c ->
  confined I n1 (Store.find_all_data self cl h fd al) (fresh_query n0).
Proof.
  intros H Hc. unfold Store.find_all_data. cbv zeta.
  cstep ltac:(apply confined_clear; exact Hc).
  cbind (apply confined_get) as no.
  destruct (Store.as_nodes no).
  - cstep ltac:(apply confined__add_data_node).
    apply confined__clone_with_graph; abv.
  - apply confined_find_data; [lia | exact Hc].
Qed.

Lemma confined_set_filters p v l : forall n1 dn2,
  (n0 <= n1)%nat -> (n0 <= dn2)%nat ->
  confined I n1 (Store.set_filters p v l dn2) (fun _ _ => True).
Proof.
  induction l as [|nid r IH]; intros; cbn [Store.set_filters].
  - cret.
  - cstep ltac:(apply confined_get).
    destruct (dict_get _ _ nid) as [info|]; [|apply confined_raise].
    cstep ltac:(apply confined_copy). cstep ltac:(apply confined_setitem_str).
    cstep ltac:(apply confined_setitem_data_nodes).
    apply IH; lia.
Qed.

Lemma confined_filter_data_nodes n1 self p v f :
  (n0 <= n1)%nat -> In (Store.cache self) c ->
  confined I n1 (Store.filter_data_nodes self p v f) (fresh_query n0).
Proof.
  intros H Hc. unfold Store.filter_data_nodes. cbv zeta.
  cstep ltac:(apply confined_clear; exact Hc).
  cbind (apply confined__select_data_node_ids) as [|nid targets];
    [apply confined_raise|].
  cstep ltac:(apply confined_copy). cstep ltac:(apply confined_set_filters).
  cstep ltac:(apply confined_copy). cstep ltac:(apply confined_copy).
  cstep ltac:(apply confined_copy). cstep ltac:(apply confined_copy).
  apply confined__clone_with_graph; abv.
Qed.

Lemma confined_run n1 op self :
  (n0 <= n1)%nat -> incl (Store.cleared op self) c ->
  confined I n1 (Store.run op self) (fresh_query n0).
Proof.
  intros H Hc.
  assert (Hs : In (Store.cache self) c) by (apply Hc; now left).
  destruct op; cbn [Store.run].
  - now apply confined_find_entity.
  - now apply confined_find_related.
  - apply confined_relate_to; [exact H | exact Hs | apply Hc; right; now left].
  - now apply confined_find_data.
  - now apply confined_find_all_data.
  - now apply confined_filter_data_nodes.
Qed.

End Confined.

Lemma at_update_other l l' o s :
  l' <> l -> Store.at_ (Store.update l o s) l' = Store.at_ s l'.
Proof.
  intros H. unfold Store.at_. now rewrite !nth_by_nth_error, nth_error_update_other.
Qed.

Lemma at_update_same l o s :
  (l < List.length s)%nat -> Store.at_ (Store.update l o s) l = o.
Proof.
  intros H. unfold Store.at_. now rewrite nth_by_nth_error, nth_error_update_same.
Qed.

Lemma at_app_old s t l :
  (l < List.length s)%nat -> Store.at_ (s ++ t) l = Store.at_ s l.
Proof. intros H. unfold Store.at_. now apply app_nth1. Qed.

Lemma emptied_new c n0 s o : emptied c n0 s -> emptied c n0 (s ++ [o]).
Proof.
  intros [Hn H]. split; [rewrite length_app; lia|].
  intros l Hl Hlt. rewrite at_app_old by lia. now apply H.
Qed.

Lemma emptied_put c n0 s l o :
  (n0 <= l)%nat -> emptied c n0 s -> emptied c n0 (Store.update l o s).
Proof.
  intros Hl [Hn H]. split; [now rewrite length_update|].
  intros l' Hin Hlt. rewrite at_update_other by lia. now apply H.
Qed.

Lemma emptied_clear c n0 s l :
  emptied c n0 s -> emptied c n0 (Store.update l (Store.DictStr []) s).
Proof.
  intros [Hn H]. split; [now rewrite length_update|].
  intros l' Hin Hlt. destruct (Nat.eq_dec l' l) as [->|Hne].
  - apply at_update_same. lia.
  - rewrite at_update_other by exact Hne. now apply H.
Qed.

Lemma update_absorb l l' o o' : forall s,
  Store.update l o (Store.update l' o' (Store.update l o s))
  = Store.update l o (Store.update l' o' s).
Proof.
  revert l'. induction l as [|l IH]; intros [|l'] [|x s]; cbn; try reflexivity.
  - f_equal. clear. revert l. induction s as [|y s IHs]; intros [|l]; cbn; congruence.
  - f_equal. apply IH.
Qed.

Lemma update_twice l o s :
  Store.update l o (Store.update l o s) = Store.update l o s.
Proof. revert l. induction s as [|x s IH]; intros [|l]; cbn; congruence. Qed.

(** An operation starts with its [clear()] calls: it runs the same in the
    store where they have been made already. *)
Lemma run_clear_all op self s :
  Store.run op self (clear_all (Store.cleared op self) s) = Store.run op self s.
Proof.
  destruct op; cbn [Store.run Store.cleared clear_all fold_left].
  - unfold Store.find_entity, Store.bindM at 1, Store.clear, Store.put.
    unfold Store.bindM at 2. now rewrite update_twice.
  - unfold Store.find_related, Store.bindM at 1, Store.clear, Store.put.
    unfold Store.bindM at 2. now rewrite update_twice.
  - unfold Store.relate_to, Store.clear, Store.put.
    unfold Store.bindM at 1. unfold Store.bindM at 1.
    symmetry. unfold Store.bindM at 1. unfold Store.bindM at 1. symmetry.
    rewrite update_absorb. now rewrite update_twice.
  - unfold Store.find_data, Store.bindM at 1, Store.clear, Store.put.
    unfold Store.bindM at 2. now rewrite update_twice.
  - unfold Store.find_all_data, Store.bindM at 1, Store.clear, Store.put.
    unfold Store.bindM at 2. now rewrite update_twice.
  - unfold Store.filter_data_nodes, Store.bindM at 1, Store.clear, Store.put.
    unfold Store.bindM at 2. now rewrite update_twice.
Qed.

Lemma length_clear_all c : forall s, List.length (clear_all c s) = List.length s.
Proof.
  induction c as [|l c IH]; intros s; cbn; [reflexivity|].
  unfold clear_all in IH. now rewrite IH, length_update.
Qed.

Lemma clear_all_keeps_empty c : forall s l,
  Store.at_ s l = Store.DictStr [] -> Store.at_ (clear_all c s) l = Store.DictStr [].
Proof.
  induction c as [|l0 c IH]; intros s l H; cbn; [exact H|].
  apply IH. destruct (Nat.eq_dec l l0) as [->|Hne].
  - destruct (Nat.lt_ge_cases l0 (List.length s)).
    + now apply at_update_same.
    + unfold Store.at_. apply nth_overflow. now rewrite length_update.
  - now rewrite at_update_other.
Qed.

Lemma clear_all_emptied c : forall s, emptied c (List.length s) (clear_all c s).
Proof.
  intros s. split; [now rewrite length_clear_all|]. revert s.
  induction c as [|l0 c IH]; intros s l Hin Hlt; [destruct Hin|].
  cbn. destruct Hin as [->|Hin].
  - apply clear_all_keeps_empty. now apply at_update_same.
  - apply IH; [exact Hin | now rewrite length_update].
Qed.

(** X28. What an operation does to the store.  Every object that existed
    before the call is unchanged, except the cache of the query the
    operation is called on and, for [relate_to], the cache of [other]:
    these are empty afterwards, whether the operation returns or raises.
    The query it returns is made of new objects only: its five containers
    and its cache were allocated by the call, and its cache is empty. *)
Theorem run_effect op self s :
  (forall l, (l < List.length s)%nat -> ~ In l (Store.cleared op self) ->
     Store.at_ (fst (Store.run op self s)) l = Store.at_ s l)
  /\ (forall l, (l < List.length s)%nat -> In l (Store.cleared op self) ->
        Store.at_ (fst (Store.run op self s)) l = Store.DictStr [])
  /\ (List.length s <= List.length (fst (Store.run op self s)))%nat
  /\ (forall q, snd (Store.run op self s) = Ok q ->
        fresh_query (List.length s) (fst (Store.run op self s)) q).
Proof.
  split.
  { intros l Hl Hc. apply (frame_at (Store.cleared op self)); [|exact Hl | exact Hc].
    apply run_keeps. apply frame_refl. }
  pose proof (confined_run (List.length s) (Store.cleared op self)
                (emptied (Store.cleared op self) (List.length s))
                (emptied_new _ _)
                (emptied_put _ _)
                (fun s l _ => emptied_clear _ _ s l)
                (List.length s) op self (Nat.le_refl _) (incl_refl _)
                (clear_all (Store.cleared op self) s)) as H.
  rewrite run_clear_all, length_clear_all in H.
  destruct (H (Nat.le_refl _) (clear_all_emptied _ _)) as ([_ He] & Hlen & Hq).
  split; [|split].
  - intros l Hl Hin. now apply He.
  - exact Hlen.
  - exact Hq.
Qed.


(** * Theorems: what a query shares with its caller *)

Lemma at_ext B t i :
  Store.at_ (B ++ t) (List.length B + i)%nat = nth i t (Store.DictStr []).
Proof. unfold Store.at_. rewrite app_nth2 by lia. f_equal. lia. Qed.

Lemma at_ext0 B t : Store.at_ (B ++ t) (List.length B) = nth 0%nat t (Store.DictStr []).
Proof. rewrite <- (at_ext B t 0%nat). f_equal. lia. Qed.

Lemma update_ext B : forall t i o,
  Store.update (List.length B + i)%nat o (B ++ t) = B ++ Store.update i o t.
Proof.
  induction B as [|x B IH]; intros; cbn; [reflexivity|]. now rewrite IH.
Qed.

Lemma update_ext0 B t o :
  Store.update (List.length B) o (B ++ t) = B ++ Store.update 0%nat o t.
Proof. rewrite <- (update_ext B t 0%nat). f_equal. lia. Qed.

Lemma update_base B : forall t l o,
  (l < List.length B)%nat -> Store.update l o (B ++ t) = Store.update l o B ++ t.
Proof.
  induction B as [|x B IH]; intros t [|l] o H; cbn in *; try lia; [reflexivity|].
  rewrite IH by lia. reflexivity.
Qed.

Lemma bind_ret {A B} (a : A) (f : A -> Store.M B) s :
  Store.bindM (Store.ret a) f s = f a s.
Proof. reflexivity. Qed.

Lemma bind_raise {A B} e (f : A -> Store.M B) s :
  Store.bindM (Store.raise e) f s = (s, Raise e).
Proof. reflexivity. Qed.

Lemma bind_bind {A B C} (m : Store.M A) (g : A -> Store.M B) (f : B -> Store.M C) s :
  Store.bindM (Store.bindM m g) f s = Store.bindM m (fun x => Store.bindM (g x) f) s.
Proof. unfold Store.bindM. destruct (m s) as [s1 [a|e]]; reflexivity. Qed.

Lemma bind_run {A B} (m : Store.M A) (f : A -> Store.M B) s s1 a :
  m s = (s1, Ok a) -> Store.bindM m f s = f a s1.
Proof. intros H. unfold Store.bindM. now rewrite H. Qed.

Lemma bind_new {B} o (f : Store.loc -> Store.M B) s :
  Store.bindM (Store.new o) f s = f (List.length s) (s ++ [o]).
Proof. reflexivity. Qed.

Lemma bind_copy {B} l (f : Store.loc -> Store.M B) s :
  Store.bindM (Store.copy l) f s = f (List.length s) (s ++ [Store.at_ s l]).
Proof. reflexivity. Qed.

Lemma bind_get {B} l (f : Store.object -> Store.M B) s :
  Store.bindM (Store.get l) f s = f (Store.at_ s l) s.
Proof. reflexivity. Qed.

Lemma bind_clear {B} l (f : unit -> Store.M B) s :
  Store.bindM (Store.clear l) f s = f tt (Store.update l (Store.DictStr []) s).
Proof. reflexivity. Qed.

Lemma bind_append_edge {B} l e (f : unit -> Store.M B) s :
  Store.bindM (Store.append_edge l e) f s
  = f tt (Store.update l (Store.Edges (Store.as_edges (Store.at_ s l) ++ [e])) s).
Proof. reflexivity. Qed.

Lemma bind_setitem_nodes {B} l k v (f : unit -> Store.M B) s :
  Store.bindM (Store.setitem_nodes l k v) f s
  = f tt (Store.update l
            (Store.Nodes (dict_set Z.eqb (Store.as_nodes (Store.at_ s l)) k v)) s).
Proof. reflexivity. Qed.

Lemma bind_setitem_aliases {B} l k v (f : unit -> Store.M B) s :
  Store.bindM (Store.setitem_aliases l k v) f s
  = f tt (Store.update l
            (Store.Aliases (dict_set String.eqb (Store.as_aliases (Store.at_ s l)) k v)) s).
Proof. reflexivity. Qed.

Lemma bind_setitem_aliases_reverse {B} l k v (f : unit -> Store.M B) s :
  Store.bindM (Store.setitem_aliases_reverse l k v) f s
  = f tt (Store.update l
            (Store.AliasesReverse
               (dict_set Z.eqb (Store.as_aliases_reverse (Store.at_ s l)) k v)) s).
Proof. reflexivity. Qed.

Lemma bind_setitem_data_nodes {B} l k v (f : unit -> Store.M B) s :
  Store.bindM (Store.setitem_data_nodes l k v) f s
  = f tt (Store.update l
            (Store.DataNodes (dict_set Z.eqb (Store.as_data_nodes (Store.at_ s l)) k v)) s).
Proof. reflexivity. Qed.

Ltac norm :=
  repeat rewrite <- app_assoc; cbn [app];
  rewrite ?length_app; cbn [List.length];
  rewrite <- ?Nat.add_assoc; cbn [Nat.add];
  rewrite ?update_ext0, ?update_ext; cbn [Store.update];
  rewrite ?at_ext0, ?at_ext; cbn [nth];
  rewrite ?at_app_old by lia.

Ltac norm_in E :=
  repeat rewrite <- app_assoc in E; cbn [app] in E;
  rewrite ?length_app in E; cbn [List.length] in E;
  rewrite <- ?Nat.add_assoc in E; cbn [Nat.add] in E;
  rewrite ?update_ext0, ?update_ext in E; cbn [Store.update] in E;
  rewrite ?at_ext0, ?at_ext in E; cbn [nth] in E;
  rewrite ?at_app_old in E by lia.

(** The three graph operations in closed form: each adds five objects,
    copies of the containers of [g], one of them with the new entry. *)
Lemma with_edge_run s g edge p :
  graph_below (List.length s) g ->
  Store.with_edge g edge p s
  = (s ++ [Store.Edges (Store.as_edges (Store.at_ s (Store.edges g)) ++ [edge]);
           Store.at_ s (Store.nodes g); Store.at_ s (Store.aliases g);
           Store.at_ s (Store.aliases_reverse g); Store.at_ s (Store.data_nodes g)],
     Ok (Store.mkQueryGraph (List.length s + 1)%nat (List.length s)
           (List.length s + 2)%nat (List.length s + 3)%nat
           (match p with Some x => Some x | None => Store.current_pointer g end)
           (List.length s + 4)%nat)).
Proof.
  intros (H1 & H2 & H3 & H4 & H5).
  unfold Store.with_edge.
  rewrite bind_copy. norm. rewrite bind_append_edge. norm.
  rewrite bind_copy. norm. rewrite bind_copy. norm.
  rewrite bind_copy. norm. rewrite bind_copy. norm.
  reflexivity.
Qed.

Lemma with_node_run s g node :
  graph_below (List.length s) g ->
  Store.with_node g node s
  = (s ++ [Store.Nodes
             (dict_set Z.eqb (Store.as_nodes (Store.at_ s (Store.nodes g)))
                (Store.id node) node);
           Store.Aliases
             (dict_set String.eqb (Store.as_aliases (Store.at_ s (Store.aliases g)))
                (store_node_name node) (Store.id node));
           Store.AliasesReverse
             (dict_set Z.eqb
                (Store.as_aliases_reverse (Store.at_ s (Store.aliases_reverse g)))
                (Store.id node) (store_node_name node));
           Store.at_ s (Store.edges g); Store.at_ s (Store.data_nodes g)],
     Ok (Store.mkQueryGraph (List.length s) (List.length s + 3)%nat
           (List.length s + 1)%nat (List.length s + 2)%nat
           (Some (Store.id node)) (List.length s + 4)%nat)).
Proof.
  intros (H1 & H2 & H3 & H4 & H5).
  unfold Store.with_node. cbv zeta. fold (store_node_name node).
  rewrite bind_copy. norm. rewrite bind_setitem_nodes. norm.
  rewrite bind_copy. norm. rewrite bind_copy. norm.
  rewrite bind_setitem_aliases. norm. rewrite bind_setitem_aliases_reverse. norm.
  rewrite bind_copy. norm. rewrite bind_copy. norm.
  reflexivity.
Qed.

Lemma with_data_node_run s g info :
  graph_below (List.length s) g ->
  Store.with_data_node g info s
  = (s ++ [Store.DataNodes
             (dict_set Z.eqb (Store.as_data_nodes (Store.at_ s (Store.data_nodes g)))
                (Store.node_id info) info);
           Store.at_ s (Store.nodes g); Store.at_ s (Store.edges g);
           Store.at_ s (Store.aliases g); Store.at_ s (Store.aliases_reverse g)],
     Ok (Store.mkQueryGraph (List.length s + 1)%nat (List.length s + 2)%nat
           (List.length s + 3)%nat (List.length s + 4)%nat
           (Store.current_pointer g) (List.length s))).
Proof.
  intros (H1 & H2 & H3 & H4 & H5).
  unfold Store.with_data_node.
  rewrite bind_copy. norm. rewrite bind_setitem_data_nodes. norm.
  rewrite bind_copy. norm. rewrite bind_copy. norm.
  rewrite bind_copy. norm. rewrite bind_copy. norm.
  reflexivity.
Qed.

Lemma good_graph_below c s qs q :
  good c s qs -> In q qs ->
  graph_below (List.length s) (Store.query_graph q)
  /\ ~ In (Store.cache q)
         [Store.nodes (Store.query_graph q); Store.edges (Store.query_graph q);
          Store.aliases (Store.query_graph q);
          Store.aliases_reverse (Store.query_graph q);
          Store.data_nodes (Store.query_graph q)]
  /\ In (Store.cache q) c.
Proof.
  intros [T G] Hq. destruct (G q Hq) as [(H1 & H2 & H3 & H4 & H5) Hc].
  unfold graph_below, ok in *. split; [tauto|]. split; [|exact Hc].
  cbn. intros [E|[E|[E|[E|[E|[]]]]]]; rewrite <- E in Hc; tauto.
Qed.

Lemma resolve_alias_store g f s :
  fst (Store.resolve_alias g f s) = s.
Proof. unfold Store.resolve_alias. destruct f; reflexivity. Qed.

Lemma resolve_alias_agree g f s s1 :
  Store.at_ s1 (Store.aliases g) = Store.at_ s (Store.aliases g) ->
  snd (Store.resolve_alias g f s1) = snd (Store.resolve_alias g f s).
Proof. intros H. unfold Store.resolve_alias. destruct f; cbn; [now rewrite H | reflexivity]. Qed.

(** [find_related] with a non-empty list of predicates, in a store where
    the containers of [self] and the list exist and are not the cache of
    [self]: the edge it appends to the new list of edges refers to the
    list it was given. *)
Lemma find_related_shared s self cl al f h l m s' q :
  graph_below (List.length s) (Store.query_graph self) ->
  ~ In (Store.cache self)
      [Store.nodes (Store.query_graph self); Store.edges (Store.query_graph self);
       Store.aliases (Store.query_graph self);
       Store.aliases_reverse (Store.query_graph self);
       Store.data_nodes (Store.query_graph self)] ->
  (l < List.length s)%nat -> l <> Store.cache self ->
  Store.as_list_str (Store.at_ s l) <> [] ->
  Store.find_related self cl al f h (Some l) m s = (s', Ok q) ->
  exists src,
    snd (Store.resolve_alias (Store.query_graph self) f s) = Ok (Some src)
    /\ Store.as_edges (Store.at_ s' (Store.edges (Store.query_graph q)))
       = Store.as_edges (Store.at_ s (Store.edges (Store.query_graph self)))
         ++ [Store.mkQueryEdge src (Store._next_id self) (if m then h else 1) (Some l)]
    /\ (List.length s <= Store.edges (Store.query_graph q) < List.length s')%nat.
Proof.
  intros Hg Hc Hl Hlc Hne E.
  destruct Hg as (H1 & H2 & H3 & H4 & H5).
  unfold Store.find_related in E. rewrite bind_clear in E.
  set (B := Store.update (Store.cache self) (Store.DictStr []) s) in *.
  assert (HB : List.length B = List.length s) by apply length_update.
  assert (Ha : Store.at_ B (Store.aliases (Store.query_graph self))
               = Store.at_ s (Store.aliases (Store.query_graph self))).
  { apply at_update_other. intros E1. apply Hc. rewrite <- E1. cbn. auto. }
  assert (He : Store.at_ B (Store.edges (Store.query_graph self))
               = Store.at_ s (Store.edges (Store.query_graph self))).
  { apply at_update_other. intros E1. apply Hc. rewrite <- E1. cbn. auto. }
  unfold Store.bindM at 1 in E.
  pose proof (resolve_alias_store (Store.query_graph self) f B) as Hs1.
  pose proof (resolve_alias_agree (Store.query_graph self) f s B Ha) as Hr.
  destruct (Store.resolve_alias (Store.query_graph self) f B) as [s1 r].
  cbn [fst snd] in Hs1, Hr. subst s1.
  destruct r as [[src|]|e]; [|discriminate E|discriminate E].
  exists src. split; [now symmetry|]. cbv zeta in E.
  rewrite bind_new in E.
  erewrite bind_run in E
    by (apply with_node_run; unfold graph_below; rewrite length_app;
        cbn [List.length]; lia).
  norm_in E.
  rewrite bind_bind, bind_get, bind_ret in E. norm_in E.
  assert (HlB : Store.at_ B l = Store.at_ s l) by (apply at_update_other; exact Hlc).
  rewrite HlB in E.
  destruct (Store.as_list_str (Store.at_ s l)) as [|p0 ps0] eqn:El; [now elim Hne|].
  cbn [andb] in E.
  erewrite bind_run in E
    by (apply with_edge_run; unfold graph_below;
        cbn [Store.nodes Store.edges Store.aliases Store.aliases_reverse
             Store.data_nodes];
        rewrite length_app; cbn [List.length]; lia).
  norm_in E.
  unfold Store._clone_with_graph, Store.Query_ in E. rewrite bind_new in E.
  norm_in E. unfold Store.ret in E. injection E as <- <-.
  cbn [Store.query_graph Store.edges]. norm. rewrite He.
  split; [|lia].
  cbn [Store.as_edges]. unfold Store._new_id. now destruct m.
Qed.

(** X29. [find_related] does not copy the list of predicates it is given:
    the new edge refers to the caller's list.  So, unlike everything else
    in a query, the predicates of that edge follow what the caller does to
    its list after the call: whatever it then holds is what [to_dict]
    shows for the edge. *)
Theorem find_related_shares_predicates c s qs self cl al f h l m s' q :
  reach c s qs -> In self qs -> ok c (List.length s) l ->
  Store.as_list_str (Store.at_ s l) <> [] ->
  Store.find_related self cl al f h (Some l) m s = (s', Ok q) ->
  exists src,
    snd (Store.resolve_alias (Store.query_graph self) f s) = Ok (Some src)
    /\ Store.as_edges (Store.at_ s' (Store.edges (Store.query_graph q)))
       = Store.as_edges (Store.at_ s (Store.edges (Store.query_graph self)))
         ++ [Store.mkQueryEdge src (Store._next_id self) (if m then h else 1) (Some l)]
    /\ (l < List.length s <= Store.edges (Store.query_graph q))%nat
    /\ forall ps d,
         last (snap_edges (Store.to_dict (Store.update l (Store.ListStr ps) s') q)) d
         = mkEdgeDict src (Store._next_id self) (if m then h else 1)
             (match ps with [] => None | _ :: _ => Some ps end).
Proof.
  intros R Hs [Hl Hc] Hne E. apply reach_good in R.
  destruct (good_graph_below c s qs self R Hs) as (Hg & Hn & Hin).
  assert (Hlc : l <> Store.cache self) by (intros ->; contradiction).
  destruct (find_related_shared s self cl al f h l m s' q Hg Hn Hl Hlc Hne E)
    as (src & Hr & He & Hb).
  exists src. split; [exact Hr|]. split; [exact He|]. split; [lia|].
  intros ps d. unfold Store.to_dict. cbn [snap_edges].
  rewrite at_update_other by lia. rewrite He, map_app. cbn [map].
  rewrite last_last. cbn [Store.source_id Store.target_id Store.hops Store.predicates].
  rewrite at_update_same by lia. cbn [Store.as_list_str].
  now destruct ps.
Qed.

(** X29 (witness): [Query().find_entity("urn:Valve", "valve")] and then
    [find_related("urn:Pump", "pump", predicates=l)] with the caller's list
    [l = ["urn:feeds"]]; after [l.append("urn:isFedBy")] the snapshot of
    the query shows both predicates. *)
Lemma find_related_shares_predicates_witness :
  let r := Store.find_related (query_of caller_entity) "urn:Pump" (Some "pump") None 3
             (Some 0%nat) false (fst caller_entity) in
  (exists src,
      snd (Store.resolve_alias (Store.query_graph (query_of caller_entity)) None
             (fst caller_entity)) = Ok (Some src)
      /\ Store.as_edges (Store.at_ (fst r) (Store.edges (Store.query_graph (query_of r))))
         = Store.as_edges
             (Store.at_ (fst caller_entity)
                (Store.edges (Store.query_graph (query_of caller_entity))))
           ++ [Store.mkQueryEdge src (Store._next_id (query_of caller_entity)) 1
                 (Some 0%nat)]
      /\ (0 < List.length (fst caller_entity)
          <= Store.edges (Store.query_graph (query_of r)))%nat
      /\ forall ps d,
           last (snap_edges
                   (Store.to_dict (Store.update 0%nat (Store.ListStr ps) (fst r))
                      (query_of r))) d
           = mkEdgeDict src (Store._next_id (query_of caller_entity)) 1
               (match ps with [] => None | _ :: _ => Some ps end))
  /\ snap_edges (Store.to_dict (fst r) (query_of r))
     = [mkEdgeDict 0 1 1 (Some ["urn:feeds"])]
  /\ snap_edges
       (Store.to_dict
          (Store.update 0%nat (Store.ListStr ["urn:feeds"; "urn:isFedBy"]) (fst r))
          (query_of r))
     = [mkEdgeDict 0 1 1 (Some ["urn:feeds"; "urn:isFedBy"])].
Proof.
  cbv zeta. split; [|split; vm_compute; reflexivity].
  apply (find_related_shares_predicates
           [Store.cache (query_of caller_entity); Store.cache (query_of caller_empty)]
           (fst caller_entity)
           [query_of caller_entity; query_of caller_empty]
           (query_of caller_entity) "urn:Pump" (Some "pump") None 3 0%nat false).
  - apply (reach_returns [Store.cache (query_of caller_empty)] (fst caller_empty)
             [query_of caller_empty]
             (Store.FindEntity "urn:Valve" (Some "valve")) (query_of caller_empty)).
    + apply (reach_Query [] caller_store []); [|vm_compute; reflexivity].
      apply (reach_dict [] [Store.ListStr ["urn:feeds"]] []).
      apply (reach_list [] [] []). apply reach_start.
    + now left.
    + exact I.
    + vm_compute; reflexivity.
  - now left.
  - vm_compute. split; [lia|]. intros [H|[H|[]]]; discriminate H.
  - vm_compute. discriminate.
  - vm_compute; reflexivity.
Defined.

Lemma copy_filters_run fd s :
  Store.copy_filters (Some fd) s
  = (s ++ [Store.DictStr (Store.as_dict_str (Store.at_ s fd))], Ok (List.length s)).
Proof.
  unfold Store.copy_filters. rewrite bind_get.
  destruct (Store.at_ s fd) as [[|x d]| | | | | |]; reflexivity.
Qed.

Lemma store_find_data_loop_raises g n p cl al h fd x l i self lg cr s :
  exists e, snd (Store.find_data_loop g n p cl al h fd (x :: l) i self lg cr s) = Raise e.
Proof.
  cbn [Store.find_data_loop]. rewrite bind_get. cbv zeta.
  unfold Store.bindM at 1.
  destruct (Store._add_data_node _ _ _ _ _ _ _ _ _ _) as [s1 [gi|e]]; cbn; eauto.
Qed.

Lemma store_find_data_raises self f p cl h fd al s :
  exists e, snd (Store.find_data self f p cl h fd al s) = Raise e.
Proof.
  unfold Store.find_data. rewrite bind_clear. cbv zeta.
  unfold Store.bindM at 1.
  match goal with |- context [match ?m ?s0 with _ => _ end] =>
    destruct (m s0) as [s1 [ids|e]] end; [|cbn; eauto].
  destruct ids as [|x ids].
  - cbn. eauto.
  - unfold Store.bindM at 1.
    destruct (store_find_data_loop_raises (Store.query_graph self)
                (Z.of_nat (List.length (x :: ids))) p cl al h fd x ids 0 self
                (Store.query_graph self) 0 s1) as [e He].
    destruct (Store.find_data_loop _ _ _ _ _ _ _ _ _ _ _ _ _) as [s2 [r|e2]];
      cbn in He; [discriminate|]. cbn. eauto.
Qed.

(** [find_all_data] that returns, with a dict of filters that exists and is
    not the cache of [self]: the new data node, filed under the name of the
    new node, refers to a new dict with the content of the dict given. *)
Lemma find_all_data_copied s self cl h fd al s' q :
  graph_below (List.length s) (Store.query_graph self) ->
  ~ In (Store.cache self)
      [Store.nodes (Store.query_graph self); Store.edges (Store.query_graph self);
       Store.aliases (Store.query_graph self);
       Store.aliases_reverse (Store.query_graph self);
       Store.data_nodes (Store.query_graph self)] ->
  (fd < List.length s)%nat -> fd <> Store.cache self ->
  Store.find_all_data self cl h (Some fd) al s = (s', Ok q) ->
  exists fs,
    dict_get Z.eqb
      (Store.as_data_nodes (Store.at_ s' (Store.data_nodes (Store.query_graph q))))
      (Store._next_id self)
    = Some (Store.mkDataNodeInfo (Store._next_id self) fs)
    /\ dict_get Z.eqb
         (Store.as_aliases_reverse
            (Store.at_ s' (Store.aliases_reverse (Store.query_graph q))))
         (Store._next_id self)
       = Some (match al with
               | Some x => if truthy x then x else str_of_int (Store._next_id self)
               | None => str_of_int (Store._next_id self)
               end)
    /\ Store.at_ s' fs = Store.DictStr (Store.as_dict_str (Store.at_ s fd))
    /\ (List.length s <= fs < List.length s')%nat
    /\ (List.length s <= Store.data_nodes (Store.query_graph q) < List.length s')%nat
    /\ (List.length s <= Store.aliases_reverse (Store.query_graph q) < List.length s')%nat.
Proof.
  intros Hg Hc Hl Hlc E.
  destruct Hg as (H1 & H2 & H3 & H4 & H5).
  unfold Store.find_all_data in E. rewrite bind_clear in E. cbv zeta in E.
  set (B := Store.update (Store.cache self) (Store.DictStr []) s) in *.
  assert (HB : List.length B = List.length s) by apply length_update.
  rewrite bind_get in E.
  destruct (Store.as_nodes (Store.at_ B (Store.nodes (Store.query_graph self))))
    as [|kv r] eqn:En.
  2:{ destruct (store_find_data_raises self (Some "*") None cl h (Some fd) al B) as [e He].
      rewrite E in He. discriminate He. }
  unfold Store._add_data_node in E. cbv zeta in E.
  rewrite ?bind_bind in E. rewrite bind_new in E.
  rewrite bind_bind in E.
  erewrite bind_run in E
    by (apply with_node_run; unfold graph_below; rewrite length_app;
        cbn [List.length]; lia).
  norm_in E.
  cbn [Store.nodes Store.edges Store.aliases Store.aliases_reverse Store.data_nodes
       Store.id] in E.
  rewrite ?bind_bind in E.
  rewrite bind_copy in E. norm_in E. rewrite ?bind_bind in E.
  rewrite bind_copy in E. norm_in E. rewrite ?bind_bind in E.
  rewrite bind_copy in E. norm_in E. rewrite ?bind_bind in E.
  rewrite bind_copy in E. norm_in E. rewrite ?bind_bind in E.
  rewrite bind_copy in E. norm_in E. rewrite ?bind_bind in E.
  rewrite bind_ret in E. rewrite ?bind_bind in E.
  erewrite bind_run in E by apply copy_filters_run.
  norm_in E. rewrite ?bind_bind in E.
  erewrite bind_run in E
    by (apply with_data_node_run; unfold graph_below;
        cbn [Store.nodes Store.edges Store.aliases Store.aliases_reverse
             Store.data_nodes];
        rewrite length_app; cbn [List.length]; lia).
  norm_in E. rewrite bind_ret in E. cbn [fst] in E.
  unfold Store._clone_with_graph, Store.Query_ in E. rewrite bind_new in E.
  norm_in E. unfold Store.ret in E. injection E as <- <-.
  cbn [Store.query_graph Store.data_nodes Store.aliases_reverse].
  exists (List.length B + 11)%nat. norm.
  assert (Hfd : Store.at_ B fd = Store.at_ s fd) by (apply at_update_other; exact Hlc).
  rewrite Hfd. unfold Store._new_id, store_node_name.
  cbn [Store.as_data_nodes Store.as_aliases_reverse Store.alias Store.id].
  repeat split; try lia.
  - apply (dict_get_set_same Z.eqb Z.eqb_eq).
  - apply (dict_get_set_same Z.eqb Z.eqb_eq).
Qed.

Lemma dict_get_entry_Z {V} (d : dict Z V) k v :
  dict_get Z.eqb d k = Some v -> In (k, v) d.
Proof.
  induction d as [|[k0 v0] d IH]; cbn; [discriminate|].
  destruct (Z.eqb k k0) eqn:E.
  - apply Z.eqb_eq in E. subst k0. intros [= ->]. now left.
  - intros H. right. now apply IH.
Qed.

(** X30. [find_all_data] copies the dict of filters it is given: when it
    returns, the data node it has made refers to a new dict with the
    content [filters_dict] had at the call.  So, unlike a list of
    predicates, the filters of the data node do not follow what the caller
    does to its dict after the call: whatever it writes there, [to_dict]
    shows the data node with the filters of the call. *)
Theorem find_all_data_copies_filters c s qs self cl h fd al s' q :
  reach c s qs -> In self qs -> ok c (List.length s) fd ->
  Store.find_all_data self cl h (Some fd) al s = (s', Ok q) ->
  exists fs,
    dict_get Z.eqb
      (Store.as_data_nodes (Store.at_ s' (Store.data_nodes (Store.query_graph q))))
      (Store._next_id self)
    = Some (Store.mkDataNodeInfo (Store._next_id self) fs)
    /\ (fd < List.length s <= fs)%nat
    /\ Store.at_ s' fs = Store.DictStr (Store.as_dict_str (Store.at_ s fd))
    /\ forall o,
         In (mkDataDict (Store._next_id self)
               (match al with
                | Some x => if truthy x then x else str_of_int (Store._next_id self)
                | None => str_of_int (Store._next_id self)
                end)
               (Store.as_dict_str (Store.at_ s fd)))
            (snap_data_nodes (Store.to_dict (Store.update fd o s') q)).
Proof.
  intros R Hs [Hl Hc] E. apply reach_good in R.
  destruct (good_graph_below c s qs self R Hs) as (Hg & Hn & Hin).
  assert (Hlc : fd <> Store.cache self) by (intros ->; contradiction).
  destruct (find_all_data_copied s self cl h fd al s' q Hg Hn Hl Hlc E)
    as (fs & Hd & Ha & Hf & Hb1 & Hb2 & Hb3).
  exists fs. split; [exact Hd|]. split; [lia|]. split; [exact Hf|].
  intros o. unfold Store.to_dict. cbn [snap_data_nodes].
  rewrite !at_update_other by lia.
  apply in_map_iff. exists (Store._next_id self, Store.mkDataNodeInfo (Store._next_id self) fs).
  split; [|now apply dict_get_entry_Z].
  cbn [fst snd Store.filters]. rewrite at_update_other by lia.
  rewrite Ha, Hf. reflexivity.
Qed.

(** X30 (witness): [Query().find_all_data("urn:Sensor", filters_dict=d,
    alias="d")] with the caller's dict [d = {"unit": "degC"}]; after
    [d.clear()] the snapshot of the query still shows the filter. *)
Lemma find_all_data_copies_filters_witness :
  let r := Store.find_all_data (query_of caller_empty) (Some "urn:Sensor") 3
             (Some 1%nat) (Some "d") (fst caller_empty) in
  (exists fs,
      dict_get Z.eqb
        (Store.as_data_nodes
           (Store.at_ (fst r) (Store.data_nodes (Store.query_graph (query_of r)))))
        (Store._next_id (query_of caller_empty))
      = Some (Store.mkDataNodeInfo (Store._next_id (query_of caller_empty)) fs)
      /\ (1 < List.length (fst caller_empty) <= fs)%nat
      /\ Store.at_ (fst r) fs
         = Store.DictStr (Store.as_dict_str (Store.at_ (fst caller_empty) 1%nat))
      /\ forall o,
           In (mkDataDict (Store._next_id (query_of caller_empty))
                 (if truthy "d" then "d"
                  else str_of_int (Store._next_id (query_of caller_empty)))
                 (Store.as_dict_str (Store.at_ (fst caller_empty) 1%nat)))
              (snap_data_nodes
                 (Store.to_dict (Store.update 1%nat o (fst r)) (query_of r))))
  /\ snap_data_nodes
       (Store.to_dict (Store.update 1%nat (Store.DictStr []) (fst r)) (query_of r))
     = [mkDataDict 0 "d" [("unit", VStr "degC")]].
Proof.
  cbv zeta. split; [|vm_compute; reflexivity].
  apply (find_all_data_copies_filters
           [Store.cache (query_of caller_empty)] (fst caller_empty)
           [query_of caller_empty] (query_of caller_empty)
           (Some "urn:Sensor") 3 1%nat (Some "d")).
  - apply (reach_Query [] caller_store []); [|vm_compute; reflexivity].
    apply (reach_dict [] [Store.ListStr ["urn:feeds"]] []).
    apply (reach_list [] [] []). apply reach_start.
  - now left.
  - vm_compute. split; [lia|]. intros [H|[]]; discriminate H.
  - vm_compute; reflexivity.
Defined.

